(** * Web Recall: ingestion, versioning, retrieval scoring and RAG orchestration

    A shallow embedding of the core of the Web Recall extension
    (text.js, vectors.js, offscreen.js, background.js, manager.js) and the
    properties its specification states about it.

    Conventions of the embedding:
    - a JavaScript string whose characters matter (page text, titles, queries)
      is the list of its UTF-16 code units ([jsstring]); a string that is only
      compared for identity (URLs, model names) is a [string];
    - a JavaScript number that the code only uses as an integer (timestamps,
      indices, delays, hashes, counters) is a [Z]; a number that is a
      coordinate of an embedding or a score is an IEEE-754 binary64 [float];
    - a value that may be [undefined]/[null] is an [option];
    - calls that leave the process (embedding and chat provider, IndexedDB
      transactions) are answered by an explicit oracle record, and every such
      call is logged in a trace of events. *)

From Stdlib Require Import ZArith Lia Bool List String Ascii Floats Reals Lra DecimalString.
From stdpp Require Import base list gmap strings.

Set Warnings "-inexact-float".

Open Scope Z_scope.

(** ** UTF-16 strings *)

Definition jsstring := list N.

(** The code units of an ASCII literal (used for readable examples). *)
Definition js (s : string) : jsstring :=
  map (fun a => N_of_ascii a) (list_ascii_of_string s).

(** Truthiness of a string, and [arr.length] read as a condition. *)
Definition nonempty {A : Type} (l : list A) : bool :=
  match l with [] => false | _ => true end.

(** ** text.js *)

Module Text.

(** JavaScript's [\s] class and the characters [String.prototype.trim]
    removes: WhiteSpace and LineTerminator code points. *)
Definition is_space (c : N) : bool :=
  ((9 <=? c) && (c <=? 13))%N            (* \t \n \v \f \r *)
  || (c =? 32)%N                          (* space *)
  || (c =? 160)%N                         (* U+00A0 *)
  || (c =? 5760)%N                        (* U+1680 *)
  || ((8192 <=? c) && (c <=? 8202))%N     (* U+2000 .. U+200A *)
  || (c =? 8232)%N || (c =? 8233)%N       (* U+2028, U+2029 *)
  || (c =? 8239)%N                        (* U+202F *)
  || (c =? 8287)%N                        (* U+205F *)
  || (c =? 12288)%N                       (* U+3000 *)
  || (c =? 65279)%N.                      (* U+FEFF *)

(** [s.replace(/\s+/g, ' ')]: every maximal run of white space becomes one
    space. [in_run] tells that the previous character was white space, whose
    run has already been replaced. *)
Fixpoint collapse_from (in_run : bool) (s : jsstring) : jsstring :=
  match s with
  | [] => []
  | c :: r =>
      if is_space c
      then (if in_run then collapse_from true r else 32%N :: collapse_from true r)
      else c :: collapse_from false r
  end.

Definition collapse (s : jsstring) : jsstring := collapse_from false s.

(** [s.trimStart()] and [s.trimEnd()]. *)
Fixpoint trimStart (s : jsstring) : jsstring :=
  match s with
  | [] => []
  | c :: r => if is_space c then trimStart r else s
  end.

Fixpoint trimEnd (s : jsstring) : jsstring :=
  match s with
  | [] => []
  | c :: r =>
      match trimEnd r with
      | [] => if is_space c then [] else [c]
      | r' => c :: r'
      end
  end.

Definition trim (s : jsstring) : jsstring := trimEnd (trimStart s).

(** [normalizeText(s)]: [if (!s) return ''; return String(s).replace(/\s+/g, ' ').trim()]. *)
Definition normalizeText (s : jsstring) : jsstring :=
  match s with
  | [] => []
  | _ => trim (collapse s)
  end.

(** [ToInt32]: the signed 32-bit reading that [<<] and [|] apply to their
    operands and result. *)
Definition to_int32 (z : Z) : Z := (z + 2 ^ 31) mod 2 ^ 32 - 2 ^ 31.

(** [x >>> 0]: the unsigned 32-bit reading. *)
Definition to_uint32 (z : Z) : Z := z mod 2 ^ 32.

(** One round of the loop body:
    [hash = ((hash << 5) - hash) + chr; hash |= 0]. *)
Definition hash_step (hash : Z) (chr : N) : Z :=
  to_int32 ((to_int32 (Z.shiftl (to_int32 hash) 5) - hash) + Z.of_N chr).

(** The [for] loop over the code units of the normalised string. *)
Definition hash_loop (s : jsstring) : Z := fold_left hash_step s 0.

(** [stringHash(str)]. *)
Definition stringHash (str : jsstring) : Z :=
  let s := normalizeText str in
  to_uint32 (hash_loop s).

(** The hash [processAndStore] compares with the latest version's:
    [stringHash(normalizeText(text || ''))]. *)
Definition contentHash (text : jsstring) : Z := stringHash (normalizeText text).

(** *** Shape of normalised text *)

(** [spaced prev s]: every white-space character of [s] is a single U+0020
    that does not follow another white-space character ([prev] tells whether
    the character before [s] was one). *)
Fixpoint spaced (prev : bool) (s : jsstring) : bool :=
  match s with
  | [] => true
  | c :: r =>
      if is_space c then (c =? 32)%N && negb prev && spaced true r
      else spaced false r
  end.

Lemma spaced_weaken prev s : spaced prev s = true -> spaced false s = true.
Proof.
  destruct s as [|c r]; simpl; [easy|].
  destruct (is_space c); [|easy].
  destruct prev; simpl; [rewrite andb_false_r; discriminate|easy].
Qed.

Lemma collapse_from_spaced b s : spaced b (collapse_from b s) = true.
Proof.
  revert b; induction s as [|c r IH]; intros b; simpl; [reflexivity|].
  destruct (is_space c) eqn:Hc.
  - destruct b; [apply IH|]. simpl. apply IH.
  - simpl. rewrite Hc. apply IH.
Qed.

Lemma spaced_collapse_from b s : spaced b s = true -> collapse_from b s = s.
Proof.
  revert b; induction s as [|c r IH]; intros b H; simpl in *; [reflexivity|].
  destruct (is_space c).
  - apply andb_prop in H as [H Hr]. apply andb_prop in H as [Hc Hb].
    apply N.eqb_eq in Hc. subst c.
    destruct b; [discriminate|]. f_equal. now apply IH.
  - f_equal. now apply IH.
Qed.

Lemma trimStart_spaced s : spaced false s = true -> spaced false (trimStart s) = true.
Proof.
  induction s as [|c r IH]; simpl; [easy|].
  destruct (is_space c) eqn:Hc; simpl; rewrite ?Hc; [|easy].
  intros H. apply andb_prop in H as [_ Hr]. apply IH. eapply spaced_weaken, Hr.
Qed.

Lemma trimEnd_spaced b s : spaced b s = true -> spaced b (trimEnd s) = true.
Proof.
  revert b; induction s as [|c r IH]; intros b; simpl; [easy|].
  destruct (is_space c) eqn:Hc.
  - intros H. apply andb_prop in H as [H Hr].
    specialize (IH true Hr).
    destruct (trimEnd r) as [|d r'] eqn:Hr'; simpl; [reflexivity|].
    rewrite Hc, H. exact IH.
  - intros Hr. specialize (IH false Hr).
    destruct (trimEnd r) as [|d r'] eqn:Hr'; simpl; rewrite Hc; [reflexivity|exact IH].
Qed.

Lemma trimStart_involutive s : trimStart (trimStart s) = trimStart s.
Proof.
  induction s as [|c r IH]; simpl; [reflexivity|].
  destruct (is_space c) eqn:Hc; [exact IH|]. simpl. now rewrite Hc.
Qed.

Lemma trimEnd_involutive s : trimEnd (trimEnd s) = trimEnd s.
Proof.
  induction s as [|c r IH]; simpl; [reflexivity|].
  destruct (trimEnd r) as [|d r'] eqn:Hr.
  - destruct (is_space c) eqn:Hc; simpl; [reflexivity|]. now rewrite Hc.
  - simpl in *. rewrite IH. reflexivity.
Qed.

(** Trimming the end of a string that does not start with white space leaves
    a string that does not start with white space. *)
Lemma trimStart_trimEnd s : trimStart s = s -> trimStart (trimEnd s) = trimEnd s.
Proof.
  destruct s as [|c r]; simpl; [reflexivity|].
  destruct (is_space c) eqn:Hc.
  - intros H. exfalso.
    assert (Hlen : (length (trimStart r) <= length r)%nat).
    { clear. induction r as [|d r IH]; simpl; [lia|]. destruct (is_space d); simpl; lia. }
    rewrite H in Hlen. simpl in Hlen. lia.
  - intros _. destruct (trimEnd r); simpl; now rewrite Hc.
Qed.

Lemma trim_involutive s : trim (trim s) = trim s.
Proof.
  unfold trim.
  rewrite (trimStart_trimEnd (trimStart s)) by apply trimStart_involutive.
  apply trimEnd_involutive.
Qed.

Lemma normalizeText_spaced s : spaced false (normalizeText s) = true.
Proof.
  destruct s as [|c r]; [reflexivity|].
  unfold normalizeText, trim, collapse.
  apply trimEnd_spaced, trimStart_spaced, collapse_from_spaced.
Qed.

(** Normalising is idempotent. *)
Lemma normalizeText_involutive s : normalizeText (normalizeText s) = normalizeText s.
Proof.
  pose proof (normalizeText_spaced s) as Hsp.
  destruct s as [|c r]; [reflexivity|].
  remember (normalizeText (c :: r)) as t eqn:Ht.
  destruct t as [|d t']; [reflexivity|].
  unfold normalizeText at 1. unfold collapse.
  rewrite (spaced_collapse_from _ _ Hsp).
  rewrite Ht. unfold normalizeText. apply trim_involutive.
Qed.

Lemma to_uint32_range z : 0 <= to_uint32 z < 2 ^ 32.
Proof. unfold to_uint32. apply Z.mod_pos_bound. lia. Qed.

Example normalizeText_example :
  normalizeText (js "  Hello   wide
 world ") = js "Hello wide world".
Proof. reflexivity. Qed.

Example stringHash_example : stringHash (js "abc") = 96354.
Proof. reflexivity. Qed.

(** C10. The content hash does not see white-space differences:
    [stringHash(s) = stringHash(normalizeText(s))] for every string [s], so
    the hash [processAndStore] computes from the normalised text is the hash
    of the raw text, and two texts with the same normal form have the same
    hash; and [stringHash] is an unsigned 32-bit integer. *)
Theorem stringHash_normalizeText_invariant :
  (forall s : jsstring,
      stringHash s = stringHash (normalizeText s)
      /\ contentHash s = stringHash s
      /\ 0 <= stringHash s < 2 ^ 32)
  /\ (forall s t : jsstring,
         normalizeText s = normalizeText t ->
         stringHash s = stringHash t /\ contentHash s = contentHash t).
Proof.
  assert (Hinv : forall s, stringHash (normalizeText s) = stringHash s).
  { intros s. unfold stringHash. now rewrite normalizeText_involutive. }
  split.
  - intros s. unfold contentHash. rewrite Hinv. repeat split; try apply to_uint32_range.
  - intros s t Heq. unfold contentHash. rewrite !Hinv.
    unfold stringHash. rewrite Heq. split; reflexivity.
Qed.

Example stringHash_whitespace_example :
  contentHash (js "  rust   raft diagram ") = contentHash (js "rust raft diagram").
Proof. reflexivity. Qed.

(** *** More on normalised text and the hash *)

Lemma collapse_from_length b s : (length (collapse_from b s) <= length s)%nat.
Proof.
  revert b. induction s as [|c r IH]; intros b; simpl; [lia|].
  destruct (is_space c); [destruct b|]; simpl;
    [pose proof (IH true)|pose proof (IH true)|pose proof (IH false)]; lia.
Qed.

Lemma trimStart_length s : (length (trimStart s) <= length s)%nat.
Proof.
  induction s as [|c r IH]; simpl; [lia|]. destruct (is_space c); simpl; lia.
Qed.

Lemma trimEnd_length s : (length (trimEnd s) <= length s)%nat.
Proof.
  induction s as [|c r IH]; simpl; [lia|].
  destruct (trimEnd r) as [|d r']; [destruct (is_space c)|]; simpl in *; lia.
Qed.

(** X1. What [normalizeText] returns is in normal form: trimming it,
    replacing its white-space runs or normalising it again changes nothing,
    so it has no white space at either end and no white space other than
    single U+0020 characters; and it is never longer than the input. *)
Theorem normalizeText_normal_form (s : jsstring) :
  trim (normalizeText s) = normalizeText s
  /\ collapse (normalizeText s) = normalizeText s
  /\ normalizeText (normalizeText s) = normalizeText s
  /\ (length (normalizeText s) <= length s)%nat.
Proof.
  split; [|split; [|split]].
  - destruct s as [|c r]; [reflexivity|]. unfold normalizeText. apply trim_involutive.
  - unfold collapse. apply spaced_collapse_from, normalizeText_spaced.
  - apply normalizeText_involutive.
  - destruct s as [|c r]; [simpl; lia|]. unfold normalizeText, trim, collapse.
    pose proof (trimEnd_length (trimStart (collapse_from false (c :: r)))).
    pose proof (trimStart_length (collapse_from false (c :: r))).
    pose proof (collapse_from_length false (c :: r)). lia.
Qed.

(** The polynomial the loop of [stringHash] evaluates, without the 32-bit
    wrap-around: [31 * hash + chr] at every code unit. *)
Definition polynomial (s : jsstring) : Z := fold_left (fun h c => 31 * h + Z.of_N c) s 0.

Lemma to_int32_mod z : to_int32 z mod 2 ^ 32 = z mod 2 ^ 32.
Proof.
  unfold to_int32. rewrite Zminus_mod_idemp_l. f_equal. lia.
Qed.

Lemma hash_step_mod h h' c :
  h mod 2 ^ 32 = h' mod 2 ^ 32 ->
  hash_step h c mod 2 ^ 32 = (31 * h' + Z.of_N c) mod 2 ^ 32.
Proof.
  intros Hh. unfold hash_step. rewrite to_int32_mod.
  rewrite Z.shiftl_mul_pow2 by lia.
  rewrite Zplus_mod, Zminus_mod, to_int32_mod.
  rewrite Zmult_mod, to_int32_mod, <- Zmult_mod.
  rewrite <- Zminus_mod, <- Zplus_mod.
  replace (h * 2 ^ 5 - h + Z.of_N c) with (31 * h + Z.of_N c) by lia.
  rewrite Zplus_mod, Zmult_mod, Hh, <- Zmult_mod, <- Zplus_mod. reflexivity.
Qed.

Lemma hash_loop_mod s : forall h h',
  h mod 2 ^ 32 = h' mod 2 ^ 32 ->
  fold_left hash_step s h mod 2 ^ 32
  = fold_left (fun h c => 31 * h + Z.of_N c) s h' mod 2 ^ 32.
Proof.
  induction s as [|c r IH]; intros h h' Hh; simpl; [exact Hh|].
  apply IH. now apply hash_step_mod.
Qed.

(** X2. [stringHash] is the polynomial hash of base 31 over the code units
    of the normalised string, reduced modulo 2^32: the shifts and the
    signed wrap-around of the loop amount to nothing else. *)
Theorem stringHash_polynomial (s : jsstring) :
  stringHash s = polynomial (normalizeText s) mod 2 ^ 32.
Proof.
  unfold stringHash, to_uint32, hash_loop, polynomial.
  cbv zeta. apply hash_loop_mod. reflexivity.
Qed.

(** Two strings of equal polynomial value collide. *)
Example stringHash_collision : stringHash (js "Aa") = stringHash (js "BB").
Proof. reflexivity. Qed.

End Text.

(** ** content.js: chunking *)

Module Content.

Definition CHUNK_MAX_WORDS : Z := 512.

(** [text.split(/\s+/)]: the pieces between maximal runs of white space,
    empty pieces at the ends included. [cur] is the piece being read,
    reversed; [in_sep] tells that a separator run is being skipped. *)
Fixpoint split_from (cur : jsstring) (in_sep : bool) (s : jsstring) : list jsstring :=
  match s with
  | [] => [rev cur]
  | c :: r =>
      if Text.is_space c then
        if in_sep then split_from cur true r else rev cur :: split_from [] true r
      else split_from (c :: cur) false r
  end.

Definition split_space (s : jsstring) : list jsstring := split_from [] false s.

(** [words.join(' ')] *)
Fixpoint join_space (l : list jsstring) : jsstring :=
  match l with
  | [] => []
  | [w] => w
  | w :: r => w ++ 32%N :: join_space r
  end.

(** The loop of [chunkText]: [current] holds the words of the chunk being
    filled, [chunks] the chunks pushed so far. *)
Fixpoint chunk_loop (maxWords : Z) (words current : list jsstring) (chunks : list jsstring)
    : list jsstring :=
  match words with
  | [] => if nonempty current then chunks ++ [join_space current] else chunks
  | word :: r =>
      let current := current ++ [word] in
      if maxWords <=? Z.of_nat (length current)
      then chunk_loop maxWords r [] (chunks ++ [join_space current])
      else chunk_loop maxWords r current chunks
  end.

(** [chunkText(text, maxWords)] *)
Definition chunkText (text : jsstring) (maxWords : Z) : list jsstring :=
  chunk_loop maxWords (split_space text) [] [].

(** The words of each chunk: groups of [size] words, the last one with what
    is left. [room] is what the group being filled can still take. *)
Fixpoint groups_from (size room : nat) (words current : list jsstring)
    : list (list jsstring) :=
  match words with
  | [] => match current with [] => [] | _ => [current] end
  | word :: r =>
      match room with
      | O | S O => (current ++ [word]) :: groups_from size size r []
      | S room' => groups_from size room' r (current ++ [word])
      end
  end.

(** The number of words a full chunk holds: [maxWords], and one when
    [maxWords] is below one. *)
Definition chunk_size (maxWords : Z) : nat := Z.to_nat (Z.max 1 maxWords).

Definition word_groups (text : jsstring) (maxWords : Z) : list (list jsstring) :=
  groups_from (chunk_size maxWords) (chunk_size maxWords) (split_space text) [].

(** *** Splitting and joining *)

Lemma join_space_cons w r :
  r <> [] -> join_space (w :: r) = w ++ 32%N :: join_space r.
Proof. destruct r; [congruence|reflexivity]. Qed.

Lemma join_space_snoc l w :
  l <> [] -> join_space (l ++ [w]) = join_space l ++ 32%N :: w.
Proof.
  induction l as [|a l IH]; [congruence|]. intros _.
  destruct l as [|b l]; [reflexivity|].
  change ((a :: b :: l) ++ [w]) with (a :: ((b :: l) ++ [w])).
  rewrite join_space_cons by (destruct l; discriminate).
  rewrite IH by discriminate.
  rewrite (join_space_cons a (b :: l)) by discriminate.
  now rewrite <- app_assoc.
Qed.

Lemma split_from_nonempty cur b s : split_from cur b s <> [].
Proof.
  revert cur b. induction s as [|c r IH]; intros cur b; simpl; [discriminate|].
  destruct (Text.is_space c); [destruct b|]; try discriminate; apply IH.
Qed.

(** Joining the pieces gives the text with its runs replaced. *)
Lemma join_split_from s :
  (forall cur, join_space (split_from cur false s) = rev cur ++ Text.collapse_from false s)
  /\ join_space (split_from [] true s) = Text.collapse_from true s.
Proof.
  induction s as [|c r [IHf IHt]]; simpl.
  - split; [intros cur; now rewrite app_nil_r|reflexivity].
  - destruct (Text.is_space c) eqn:Hc.
    + split; [|exact IHt]. intros cur.
      rewrite join_space_cons by apply split_from_nonempty.
      rewrite IHt. reflexivity.
    + split.
      * intros cur. rewrite IHf. simpl. now rewrite <- app_assoc.
      * rewrite IHf. reflexivity.
Qed.

Lemma join_split_space s : join_space (split_space s) = Text.collapse s.
Proof. unfold split_space, Text.collapse. now rewrite (proj1 (join_split_from s)). Qed.

Lemma join_space_app l1 l2 :
  l1 <> [] -> l2 <> [] ->
  join_space (l1 ++ l2) = join_space l1 ++ 32%N :: join_space l2.
Proof.
  induction l1 as [|a l1 IH]; [congruence|]. intros _ H2.
  destruct l1 as [|b l1].
  - simpl. destruct l2; [congruence|reflexivity].
  - change ((a :: b :: l1) ++ l2) with (a :: ((b :: l1) ++ l2)).
    rewrite join_space_cons by discriminate.
    rewrite IH by (discriminate || exact H2).
    rewrite (join_space_cons a (b :: l1)) by discriminate.
    now rewrite <- app_assoc.
Qed.

Lemma join_space_concat groups :
  Forall (fun g : list jsstring => g <> []) groups ->
  join_space (map join_space groups) = join_space (concat groups).
Proof.
  induction 1 as [|g rest Hg Hrest IH]; [reflexivity|].
  destruct rest as [|g' rest].
  - simpl. now rewrite app_nil_r.
  - change (map join_space (g :: g' :: rest))
      with (join_space g :: map join_space (g' :: rest)).
    rewrite join_space_cons by discriminate. rewrite IH.
    change (concat (g :: g' :: rest)) with (g ++ concat (g' :: rest)).
    rewrite join_space_app; [reflexivity|exact Hg|].
    inversion Hrest as [|? ? Hg' _]; subst. simpl. destruct g'; [congruence|discriminate].
Qed.

(** *** The loop and the groups *)

Lemma chunk_size_pos maxWords : (1 <= chunk_size maxWords)%nat.
Proof. unfold chunk_size. lia. Qed.

Lemma chunk_loop_groups maxWords words : forall current chunks room,
  (room + length current = chunk_size maxWords)%nat -> (1 <= room)%nat ->
  chunk_loop maxWords words current chunks
  = chunks ++ map join_space (groups_from (chunk_size maxWords) room words current).
Proof.
  induction words as [|word r IH]; intros current chunks room Hroom Hpos; simpl.
  - destruct current; simpl; [now rewrite app_nil_r|reflexivity].
  - rewrite length_app. simpl length.
    destruct room as [|[|room']]; [lia| |].
    + (* the chunk is full *)
      destruct (Z.leb_spec maxWords (Z.of_nat (length current + 1))) as [_|Hlt].
      * rewrite (IH [] (chunks ++ [join_space (current ++ [word])]) (chunk_size maxWords));
          [|simpl; lia|apply chunk_size_pos].
        now rewrite <- app_assoc.
      * unfold chunk_size in Hroom. lia.
    + destruct (Z.leb_spec maxWords (Z.of_nat (length current + 1))) as [Hle|_].
      * unfold chunk_size in Hroom. lia.
      * apply IH; [rewrite length_app; simpl; lia|lia].
Qed.

Lemma groups_from_spec size words : forall room current,
  (room + length current = size)%nat -> (1 <= room)%nat ->
  let groups := groups_from size room words current in
  concat groups = current ++ words
  /\ Forall (fun g => (1 <= length g <= size)%nat) groups
  /\ Forall (fun g => length g = size) (removelast groups).
Proof.
  induction words as [|word r IH]; intros room current Hroom Hpos; simpl.
  - destruct current as [|a current]; simpl.
    + repeat split; constructor.
    + rewrite !app_nil_r. split; [reflexivity|]. split; [|constructor].
      constructor; [simpl in *; lia|constructor].
  - destruct room as [|[|room']]; [lia| |].
    + destruct (IH size [] ltac:(simpl; lia) ltac:(lia)) as (Hc & Hall & Hfull).
      simpl. rewrite Hc, <- app_assoc. split; [reflexivity|]. split.
      * constructor; [rewrite length_app; simpl; lia|exact Hall].
      * destruct (groups_from size size r []) eqn:Hg; [constructor|].
        constructor; [rewrite length_app; simpl; lia|exact Hfull].
    + destruct (IH (S room') (current ++ [word])) as (Hc & Hall & Hfull);
        [rewrite length_app; simpl; lia|lia|].
      rewrite Hc, <- app_assoc. auto.
Qed.

Lemma chunkText_groups_aux text maxWords :
  chunkText text maxWords = map join_space (word_groups text maxWords)
  /\ concat (word_groups text maxWords) = split_space text
  /\ Forall (fun g => (1 <= length g <= chunk_size maxWords)%nat) (word_groups text maxWords).
Proof.
  pose proof (chunk_size_pos maxWords) as Hpos.
  destruct (groups_from_spec (chunk_size maxWords) (split_space text)
              (chunk_size maxWords) []) as (Hc & Hall & _); [simpl; lia|exact Hpos|].
  split; [|split; assumption].
  unfold chunkText, word_groups.
  now rewrite (chunk_loop_groups maxWords _ [] [] (chunk_size maxWords))
    by (simpl; lia || exact Hpos).
Qed.

(** X3. [chunkText] cuts the words of the text, in order and without
    losing any, into chunks of [maxWords] words (of one word when
    [maxWords] is below one): every chunk but the last is full, the last
    holds between one word and a full chunk, and there is always at least
    one chunk, the empty text giving the single chunk ['']. *)
Theorem chunkText_groups (text : jsstring) (maxWords : Z) :
  chunkText text maxWords = map join_space (word_groups text maxWords)
  /\ concat (word_groups text maxWords) = split_space text
  /\ word_groups text maxWords <> []
  /\ Forall (fun g => (1 <= length g <= chunk_size maxWords)%nat) (word_groups text maxWords)
  /\ Forall (fun g => length g = chunk_size maxWords) (removelast (word_groups text maxWords)).
Proof.
  pose proof (chunk_size_pos maxWords) as Hpos.
  destruct (groups_from_spec (chunk_size maxWords) (split_space text)
              (chunk_size maxWords) []) as (Hc & Hall & Hfull); [simpl; lia|exact Hpos|].
  fold (word_groups text maxWords) in Hc, Hall, Hfull.
  split; [|split; [exact Hc|split; [|split; assumption]]].
  - unfold chunkText, word_groups.
    now rewrite (chunk_loop_groups maxWords _ [] [] (chunk_size maxWords))
      by (simpl; lia || exact Hpos).
  - intros Hnil. rewrite Hnil in Hc. simpl in Hc.
    symmetry in Hc. now apply split_from_nonempty in Hc.
Qed.

Lemma collapse_nonempty c r : Text.collapse (c :: r) <> [].
Proof. unfold Text.collapse. simpl. destruct (Text.is_space c); discriminate. Qed.

Lemma normalizeText_collapse s : Text.normalizeText (Text.collapse s) = Text.normalizeText s.
Proof.
  destruct s as [|c r]; [reflexivity|].
  pose proof (collapse_nonempty c r) as Hne.
  unfold Text.normalizeText at 1.
  destruct (Text.collapse (c :: r)) as [|d t] eqn:Hcol; [congruence|].
  rewrite <- Hcol. unfold Text.normalizeText. f_equal.
  unfold Text.collapse. apply Text.spaced_collapse_from, Text.collapse_from_spaced.
Qed.

(** X4. Joining the chunks with single spaces gives back the text with each
    white-space run replaced by one space, so the chunks have the content
    hash of the text they were cut from, whatever the chunk size. *)
Theorem chunkText_keeps_hash (text : jsstring) (maxWords : Z) :
  join_space (chunkText text maxWords) = Text.collapse text
  /\ Text.stringHash (join_space (chunkText text maxWords)) = Text.stringHash text.
Proof.
  destruct (chunkText_groups_aux text maxWords) as (Hchunks & Hc & Hall).
  assert (Hjoin : join_space (chunkText text maxWords) = Text.collapse text).
  { rewrite Hchunks, join_space_concat, Hc; [apply join_split_space|].
    eapply Forall_impl; [exact Hall|]. intros g Hg Hnil. subst g. simpl in Hg. lia. }
  split; [exact Hjoin|].
  rewrite Hjoin. unfold Text.stringHash. now rewrite normalizeText_collapse.
Qed.

Example chunkText_example :
  chunkText (js "one two  three four five") 2
  = [js "one two"; js "three four"; js "five"]
  /\ chunkText [] CHUNK_MAX_WORDS = [[]].
Proof. split; reflexivity. Qed.

End Content.

(** ** vectors.js *)

Module Vectors.

(** An embedding as JavaScript sees it: [None] is anything that is not an
    Array; the elements are the numbers [+v[i]] reads. *)
Definition vec (F : Type) := option (list F).

Section Numeric.

(** The arithmetic the helpers are written over. The code runs them on
    binary64 numbers ([cosineSimilarity] below); the same text read over the
    real numbers is [Exact.cosine]. *)
Variable F : Type.
Variable zero : F.
Variables add mul div : F -> F -> F.
Variable sqrt : F -> F.
(** [x === 0] *)
Variable is_zero : F -> bool.
(** [+x || 0] *)
Variable coerce : F -> F.

(** The [for] loop of [cosineSimilarity], over the indices below
    [Math.min(va.length, vb.length)]; the accumulator is [(dot, na, nb)]. *)
Fixpoint accumulate (va vb : list F) (acc : F * F * F) : F * F * F :=
  match va, vb with
  | a :: va', b :: vb' =>
      let '(dot, na, nb) := acc in
      let ai := coerce a in
      let bi := coerce b in
      accumulate va' vb' (add dot (mul ai bi), add na (mul ai ai), add nb (mul bi bi))
  | _, _ => acc
  end.

Definition cosine (a b : vec F) : F :=
  match a, b with
  | Some va, Some vb =>
      match va, vb with
      | [], _ | _, [] => zero
      | _, _ =>
          let '(dot, na, nb) := accumulate va vb (zero, zero, zero) in
          if is_zero na || is_zero nb then zero
          else div dot (mul (sqrt na) (sqrt nb))
      end
  | _, _ => zero
  end.

(** The loop only reads the common prefix of the two arrays. *)
Lemma accumulate_take va vb acc :
  accumulate va vb acc
  = accumulate (take (min (length va) (length vb)) va)
               (take (min (length va) (length vb)) vb) acc.
Proof.
  revert vb acc; induction va as [|a va IH]; intros [|b vb] acc; simpl; try reflexivity.
  destruct acc as [[dot na] nb]. apply IH.
Qed.

Lemma cosine_take va vb :
  cosine (Some va) (Some vb)
  = cosine (Some (take (min (length va) (length vb)) va))
           (Some (take (min (length va) (length vb)) vb)).
Proof.
  destruct va as [|a va], vb as [|b vb]; try reflexivity.
  unfold cosine. rewrite accumulate_take. reflexivity.
Qed.

(** Swapping the arguments swaps the two norms, provided the product
    commutes. *)
Hypothesis mul_comm : forall x y, mul x y = mul y x.

Lemma accumulate_swap va vb dot na nb :
  accumulate vb va (dot, nb, na)
  = let '(d, x, y) := accumulate va vb (dot, na, nb) in (d, y, x).
Proof.
  revert vb dot na nb; induction va as [|a va IH]; intros [|b vb] dot na nb;
    simpl; try reflexivity.
  rewrite (mul_comm (coerce b) (coerce a)). apply IH.
Qed.

Lemma cosine_comm a b : cosine a b = cosine b a.
Proof.
  destruct a as [va|], b as [vb|]; try reflexivity.
  destruct va as [|a va], vb as [|b vb]; try reflexivity.
  unfold cosine. rewrite (accumulate_swap (a :: va) (b :: vb)).
  destruct (accumulate (a :: va) (b :: vb) (zero, zero, zero)) as [[d x] y].
  rewrite (orb_comm (is_zero y)), (mul_comm (sqrt y)). reflexivity.
Qed.

(** On equal arguments the three accumulators stay equal. *)
Lemma accumulate_diag v x :
  exists n, accumulate v v (x, x, x) = (n, n, n).
Proof.
  revert x; induction v as [|a v IH]; intros x; simpl; [now exists x|]. apply IH.
Qed.

End Numeric.

Arguments accumulate {F} add mul coerce va vb acc.
Arguments cosine {F} zero add mul div sqrt is_zero coerce a b.

Open Scope float_scope.

(** [+x || 0] on a number: [NaN], [0] and [-0] are falsy. *)
Definition to_number_or_zero (x : float) : float :=
  if is_nan x || (x =? 0) then 0 else x.

(** [cosineSimilarity(a, b)] of vectors.js. *)
Definition cosineSimilarity (a b : vec float) : float :=
  cosine 0 PrimFloat.add PrimFloat.mul PrimFloat.div PrimFloat.sqrt
         (fun x => x =? 0) to_number_or_zero a b.

(** The squared norm the loop accumulates for one vector. *)
Definition squared_norm (v : list float) : float :=
  fold_left (fun na x => na + to_number_or_zero x * to_number_or_zero x) v 0.

(** [acc[i] += (+e[i] || 0)] for [i < dim]. *)
Fixpoint add_into (acc e : list float) : list float :=
  match acc, e with
  | x :: acc', y :: e' => (x + to_number_or_zero y) :: add_into acc' e'
  | _, _ => acc
  end.

(** The number a JavaScript integer counter denotes. *)
Definition float_of_nat (n : nat) : float := PrimFloat.of_uint63 (Uint63.of_Z (Z.of_nat n)).

(** [computeCentroid(items)], on the embeddings of the items ([None] for an
    item whose [embedding] is not an Array). The result [None] is [null]. *)
Definition computeCentroid (embeddings : list (vec float)) : vec float :=
  match embeddings with
  | [] => None
  | first :: _ =>
      let dim := match first with Some e => length e | None => O end in
      if Nat.eqb dim 0 then None
      else
        let '(acc, count) :=
          fold_left
            (fun '(acc, count) e =>
               match e with
               | Some e' => if Nat.eqb (length e') dim then (add_into acc e', S count) else (acc, count)
               | None => (acc, count)
               end)
            embeddings (repeat 0 dim, O) in
        if Nat.eqb count 0 then None
        else Some (map (fun x => x / float_of_nat count) acc)
  end.

(** [recencyWeight(ts)]: [Math.exp(-age / WINDOW)] for the age of a finite
    timestamp, given [Math.exp] and the clock reading [Date.now()]. *)
Definition WINDOW : float := 2592000000.

Definition recencyWeight (exp : float -> float) (now : Z) (ts : Z) : float :=
  let age := Z.max 0 (now - ts) in
  exp (- PrimFloat.of_uint63 (Uint63.of_Z age) / WINDOW).

Close Scope float_scope.

(** *** Binary64 facts used below *)

Lemma SFmul_comm prec emax x y : SFmul prec emax x y = SFmul prec emax y x.
Proof.
  destruct x as [sx|sx| |sx mx ex], y as [sy|sy| |sy my ey]; cbn [SFmul]; try reflexivity;
    rewrite ?(xorb_comm sx sy); try reflexivity.
  rewrite (Pos.mul_comm mx my), (Z.add_comm ex ey). reflexivity.
Qed.

Lemma float_mul_comm (x y : float) : PrimFloat.mul x y = PrimFloat.mul y x.
Proof.
  rewrite <- (SF2Prim_Prim2SF (PrimFloat.mul x y)), <- (SF2Prim_Prim2SF (PrimFloat.mul y x)).
  rewrite !mul_spec. f_equal. apply SFmul_comm.
Qed.

Lemma cosineSimilarity_comm a b : cosineSimilarity a b = cosineSimilarity b a.
Proof. apply cosine_comm, float_mul_comm. Qed.

(** The accumulated norms are the squared norms of the prefixes read. *)
Lemma accumulate_norms va vb dot na nb :
  length va = length vb ->
  let '(_, na', nb') :=
    accumulate PrimFloat.add PrimFloat.mul to_number_or_zero va vb (dot, na, nb) in
  na' = fold_left (fun n x => PrimFloat.add n (PrimFloat.mul (to_number_or_zero x) (to_number_or_zero x))) va na
  /\ nb' = fold_left (fun n x => PrimFloat.add n (PrimFloat.mul (to_number_or_zero x) (to_number_or_zero x))) vb nb.
Proof.
  revert vb dot na nb; induction va as [|a va IH]; intros [|b vb] dot na nb Hlen;
    simpl in *; try discriminate; [split; reflexivity|].
  apply IH. congruence.
Qed.

(** A vector all of whose components read as zero has squared norm zero. *)
Lemma squared_norm_zero v :
  Forall (fun x => to_number_or_zero x = 0%float) v -> squared_norm v = 0%float.
Proof.
  unfold squared_norm. induction 1 as [|x v Hx _ IH]; simpl; [reflexivity|].
  rewrite Hx. exact IH.
Qed.

(** **** The same text over the real numbers *)

Module Exact.

Definition is_zero (x : R) : bool := if Req_EM_T x 0%R then true else false.

Definition cosine (a b : vec R) : R :=
  Vectors.cosine 0%R Rplus Rmult Rdiv sqrt is_zero (fun x => x) a b.

Definition squared_norm (v : list R) (n : R) : R :=
  fold_left (fun n x => (n + x * x)%R) v n.

End Exact.

Lemma exact_accumulate_diag v n :
  accumulate Rplus Rmult (fun x => x) v v (n, n, n)
  = (Exact.squared_norm v n, Exact.squared_norm v n, Exact.squared_norm v n).
Proof.
  revert n; induction v as [|x v IH]; intros n; simpl; [reflexivity|]. apply IH.
Qed.

Lemma exact_squared_norm_ge v n : (0 <= n)%R -> (n <= Exact.squared_norm v n)%R.
Proof.
  revert n; induction v as [|x v IH]; intros n Hn; simpl; [lra|].
  pose proof (Rle_0_sqr x) as Hx. unfold Rsqr in Hx.
  etransitivity; [|apply IH]; lra.
Qed.

Lemma exact_squared_norm_pos v n :
  (0 <= n)%R -> Exists (fun x => x <> 0%R) v -> (0 < Exact.squared_norm v n)%R.
Proof.
  intros Hn Hex. revert n Hn.
  induction Hex as [x v Hx|x v _ IH]; intros n Hn; simpl.
  - pose proof (Rsqr_pos_lt x Hx) as Hpos. unfold Rsqr in Hpos.
    eapply Rlt_le_trans; [|apply exact_squared_norm_ge]; lra.
  - apply IH. pose proof (Rle_0_sqr x) as Hsq. unfold Rsqr in Hsq. lra.
Qed.

Lemma exact_cosine_self v :
  Exists (fun x => x <> 0%R) v -> Exact.cosine (Some v) (Some v) = 1%R.
Proof.
  intros Hex. pose proof (exact_squared_norm_pos v 0%R (Rle_refl _) Hex) as Hpos.
  destruct v as [|x v]; [inversion Hex|].
  unfold Exact.cosine, cosine. rewrite exact_accumulate_diag.
  unfold Exact.is_zero.
  destruct (Req_EM_T (Exact.squared_norm (x :: v) 0) 0) as [Hz|Hnz]; [lra|].
  simpl orb. cbv iota. rewrite sqrt_sqrt by lra. now apply Rdiv_diag.
Qed.

Definition reads_zero (x : float) : Prop := to_number_or_zero x = 0%float.

(** Within [1e-9] of one. *)
Definition near_one (x : float) : bool :=
  PrimFloat.leb (PrimFloat.abs (PrimFloat.sub x 1%float)) 1e-9%float.

Lemma cosineSimilarity_take va vb :
  cosineSimilarity (Some va) (Some vb)
  = cosineSimilarity (Some (take (min (length va) (length vb)) va))
                     (Some (take (min (length va) (length vb)) vb)).
Proof. apply cosine_take. Qed.

Lemma cosineSimilarity_same_length va vb :
  length va = length vb ->
  cosineSimilarity (Some va) (Some vb)
  = match va with
    | [] => 0%float
    | _ =>
        let '(dot, _, _) :=
          accumulate PrimFloat.add PrimFloat.mul to_number_or_zero va vb (0, 0, 0)%float in
        if PrimFloat.eqb (squared_norm va) 0 || PrimFloat.eqb (squared_norm vb) 0
        then 0%float
        else PrimFloat.div dot (PrimFloat.mul (PrimFloat.sqrt (squared_norm va))
                                             (PrimFloat.sqrt (squared_norm vb)))
    end.
Proof.
  intros Hlen. pose proof (accumulate_norms va vb 0%float 0%float 0%float Hlen) as Hn.
  destruct va as [|a va], vb as [|b vb]; try discriminate; [reflexivity|].
  unfold cosineSimilarity, cosine.
  destruct (accumulate _ _ _ (a :: va) (b :: vb) _) as [[dot na] nb].
  destruct Hn as [-> ->]. reflexivity.
Qed.

Lemma cosineSimilarity_zero_norm va vb :
  Forall reads_zero va \/ Forall reads_zero vb ->
  cosineSimilarity (Some va) (Some vb) = 0%float.
Proof.
  intros Hz. rewrite cosineSimilarity_take.
  set (n := min (length va) (length vb)).
  assert (Hlen : length (take n va) = length (take n vb)).
  { rewrite !length_take. unfold n. lia. }
  rewrite (cosineSimilarity_same_length _ _ Hlen).
  destruct (take n va) as [|a l] eqn:Hva; [reflexivity|]. rewrite <- Hva.
  destruct (accumulate _ _ _ _ _ _) as [[dot ?] ?].
  assert (Hsq : squared_norm (take n va) = 0%float \/ squared_norm (take n vb) = 0%float).
  { destruct Hz as [Hz|Hz]; [left|right];
      apply squared_norm_zero, Forall_take, Hz. }
  destruct Hsq as [-> | ->]; [reflexivity|]. now rewrite orb_true_r.
Qed.

Lemma cosineSimilarity_self v :
  cosineSimilarity (Some v) (Some v)
  = match v with
    | [] => 0%float
    | _ =>
        if PrimFloat.eqb (squared_norm v) 0 then 0%float
        else PrimFloat.div (squared_norm v)
               (PrimFloat.mul (PrimFloat.sqrt (squared_norm v)) (PrimFloat.sqrt (squared_norm v)))
    end.
Proof.
  rewrite (cosineSimilarity_same_length v v eq_refl).
  destruct v as [|x v]; [reflexivity|].
  pose proof (accumulate_norms (x :: v) (x :: v) 0%float 0%float 0%float eq_refl) as Hn.
  destruct (accumulate_diag float PrimFloat.add PrimFloat.mul to_number_or_zero (x :: v) 0%float)
    as [n Hacc].
  rewrite Hacc in *. destruct Hn as [Hn _]. fold (squared_norm (x :: v)) in Hn. subst n.
  now rewrite orb_diag.
Qed.


(** *** Binary64 rounding, from its definition *)

Lemma digits2_pos_bounds p :
  2 ^ (Z.pos (digits2_pos p) - 1) <= Z.pos p < 2 ^ Z.pos (digits2_pos p).
Proof.
  induction p as [p IH|p IH|]; cbn [digits2_pos].
  - rewrite Pos2Z.inj_succ, (Pos2Z.inj_xI p).
    replace (Z.succ (Z.pos (digits2_pos p)) - 1) with (Z.succ (Z.pos (digits2_pos p) - 1)) by lia.
    rewrite !Z.pow_succ_r by lia. lia.
  - rewrite Pos2Z.inj_succ, (Pos2Z.inj_xO p).
    replace (Z.succ (Z.pos (digits2_pos p)) - 1) with (Z.succ (Z.pos (digits2_pos p) - 1)) by lia.
    rewrite !Z.pow_succ_r by lia. lia.
  - simpl. lia.
Qed.

Lemma Zdigits2_unique x d :
  2 ^ (d - 1) <= x < 2 ^ d -> 0 < d -> Zdigits2 x = d.
Proof.
  intros [Hlo Hhi] Hd.
  assert (Hx : 0 < x) by (pose proof (Z.pow_pos_nonneg 2 (d - 1)); lia).
  destruct x as [|p|p]; try lia. cbn [Zdigits2].
  pose proof (digits2_pos_bounds p) as [Hlo' Hhi'].
  set (d' := Z.pos (digits2_pos p)) in *.
  assert (H1 : d - 1 < d').
  { apply (Z.pow_lt_mono_r_iff 2); lia. }
  assert (H2 : d' - 1 < d).
  { apply (Z.pow_lt_mono_r_iff 2); lia. }
  lia.
Qed.

Lemma Zdigits2_bounds x : 0 < x -> 2 ^ (Zdigits2 x - 1) <= x < 2 ^ Zdigits2 x.
Proof. destruct x as [|p|p]; try lia. intros _. apply digits2_pos_bounds. Qed.

Lemma Zdigits2_pos x : 0 < x -> 0 < Zdigits2 x.
Proof. destruct x; simpl; lia. Qed.

(** [iter_pos f p] applies [f] as many times as [p] says. *)
Lemma iter_pos_invariant {A : Type} (f : A -> A) (P : Z -> A -> Prop) :
  (forall j x, 0 <= j -> P j x -> P (j + 1) (f x)) ->
  forall p j x, 0 <= j -> P j x -> P (j + Z.pos p) (SpecFloat.iter_pos f p x).
Proof.
  intros Hstep. induction p as [p IH|p IH|]; intros j x Hj Hx; cbn [SpecFloat.iter_pos].
  - replace (j + Z.pos p~1) with (((j + 1) + Z.pos p) + Z.pos p) by lia.
    apply IH; [lia|]. apply IH; [lia|]. now apply Hstep.
  - replace (j + Z.pos p~0) with ((j + Z.pos p) + Z.pos p) by lia.
    apply IH; [lia|]. now apply IH.
  - now apply Hstep.
Qed.

(** The state of the shifter after [j] steps from the integer [M], when it
    started without a remainder: the mantissa is the quotient by [2^j], and
    the two bits place the remainder about the half of [2^j]. *)
Definition shifted (M j : Z) (st : shr_record) : Prop :=
  0 <= shr_m st
  /\ exists t, 0 <= t < 2 ^ j
       /\ 2 * (M - shr_m st * 2 ^ j) = (if shr_r st then 2 ^ j else 0) + t
       /\ (shr_s st = false -> t = 0).

Lemma shifted_start M : 0 <= M -> shifted M 0 (Build_shr_record M false false).
Proof. intros HM. split; [exact HM|]. exists 0. simpl. lia. Qed.

Lemma shifted_step M j st : 0 <= j -> shifted M j st -> shifted M (j + 1) (shr_1 st).
Proof.
  intros Hj (Hm & t & Ht & Hrem & Hs). unfold shifted.
  destruct st as [m r s]. cbn [shr_m shr_r shr_s] in *.
  rewrite Z.pow_add_r, Z.pow_1_r by lia.
  pose proof (Z.pow_pos_nonneg 2 j ltac:(lia) Hj) as HX.
  set (X := 2 ^ j) in *.
  assert (Hs' : orb r s = false -> t = 0).
  { intros H. apply orb_false_iff in H as [_ H]. auto. }
  assert (Ht' : (if r then X else 0) + t < X * 2) by (destruct r; lia).
  destruct m as [|[p|p|]|p]; try lia; cbn [shr_1 shr_m shr_r shr_s];
    try rewrite (Pos2Z.inj_xI p) in Hrem; try rewrite (Pos2Z.inj_xO p) in Hrem;
    (split; [lia|]); exists ((if r then X else 0) + t);
    (split; [destruct r; lia|]);
    (split; [lia|intros H; apply orb_false_iff in H as [-> H]; rewrite (Hs H); lia]).
Qed.

Lemma shifted_iter M p :
  0 <= M -> shifted M (Z.pos p) (SpecFloat.iter_pos shr_1 p (Build_shr_record M false false)).
Proof.
  intros HM.
  apply (iter_pos_invariant shr_1 (shifted M) (shifted_step M) p 0); [lia|].
  now apply shifted_start.
Qed.

(** Rounding to nearest after the shift is within half of [2^j]. *)
Lemma shifted_round M j st :
  0 < j -> shifted M j st ->
  let m2 := round_nearest_even (shr_m st) (loc_of_shr_record st) in
  shr_m st <= m2 <= shr_m st + 1
  /\ 2 * Z.abs (m2 * 2 ^ j - M) <= 2 ^ j
  /\ shr_m st * 2 ^ j <= M < (shr_m st + 1) * 2 ^ j.
Proof.
  intros Hj (Hm & t & Ht & Hrem & Hs).
  destruct st as [m r s]. cbn [shr_m shr_r shr_s] in *.
  pose proof (Z.pow_pos_nonneg 2 j ltac:(lia) ltac:(lia)) as HX.
  set (X := 2 ^ j) in *.
  destruct r, s; cbn [loc_of_shr_record round_nearest_even].
  - split; [lia|]. split; lia.
  - specialize (Hs eq_refl). destruct (Z.even m); (split; [lia|]); split; lia.
  - split; [lia|]. split; lia.
  - specialize (Hs eq_refl). split; [lia|]. split; lia.
Qed.

(** Whatever the shifter starts from, its mantissa is halved at each step. *)
Definition halved (M j : Z) (st : shr_record) : Prop :=
  0 <= shr_m st /\ shr_m st * 2 ^ j <= M < (shr_m st + 1) * 2 ^ j.

Lemma halved_step M j st : 0 <= j -> halved M j st -> halved M (j + 1) (shr_1 st).
Proof.
  intros Hj (Hm & Hlo & Hhi). unfold halved. destruct st as [m r s]. cbn [shr_m] in *.
  rewrite Z.pow_add_r, Z.pow_1_r by lia.
  pose proof (Z.pow_pos_nonneg 2 j ltac:(lia) Hj) as HX.
  set (X := 2 ^ j) in *.
  destruct m as [|[p|p|]|p]; try lia; cbn [shr_1 shr_m];
    try rewrite (Pos2Z.inj_xI p) in *; try rewrite (Pos2Z.inj_xO p) in *;
    (split; lia).
Qed.

Lemma halved_iter M p st :
  0 <= shr_m st -> shr_m st = M -> halved M (Z.pos p) (SpecFloat.iter_pos shr_1 p st).
Proof.
  intros HM Heq.
  apply (iter_pos_invariant shr_1 (halved M) (halved_step M) p 0); [lia|].
  split; [exact HM|]. rewrite Heq. simpl. lia.
Qed.

(** The second half of [binary_round_aux]: the rounded mantissa [m2] at
    the exponent [f] is shifted once more when it has one digit too many. *)
Definition round_finish (sx : bool) (m2 f : Z) : spec_float :=
  let '(mrs, e) := shr_fexp prec emax m2 f loc_Exact in
  match shr_m mrs with
  | Z0 => S754_zero sx
  | Zpos m => if e <=? emax - prec then S754_finite sx m e else S754_infinity sx
  | _ => S754_nan
  end.

Lemma binary_round_aux_split sx mx ex lx :
  binary_round_aux prec emax sx mx ex lx
  = round_finish sx (round_nearest_even (shr_m (fst (shr_fexp prec emax mx ex lx)))
                 (loc_of_shr_record (fst (shr_fexp prec emax mx ex lx))))
      (snd (shr_fexp prec emax mx ex lx)).
Proof.
  unfold binary_round_aux, round_finish. destruct (shr_fexp prec emax mx ex lx) as [mrs e].
  reflexivity.
Qed.

Lemma fexp_eq x : fexp prec emax x = Z.max (x - 53) (-1074).
Proof. reflexivity. Qed.

Lemma round_finish_spec sx m2 f :
  0 < m2 <= 2 ^ 53 -> -1074 <= f ->
  round_finish sx m2 f
  = if m2 <? 2 ^ 53
    then (if f <=? 971 then S754_finite sx (Z.to_pos m2) f else S754_infinity sx)
    else (if f + 1 <=? 971 then S754_finite sx (Z.to_pos (2 ^ 52)) (f + 1)
          else S754_infinity sx).
Proof.
  intros [Hpos Hle] Hf. unfold round_finish, shr_fexp. rewrite fexp_eq.
  destruct (Z.ltb_spec m2 (2 ^ 53)) as [Hlt|Hge].
  - pose proof (Zdigits2_bounds m2 Hpos) as [Hlo _].
    assert (Hd : Zdigits2 m2 <= 53).
    { destruct (Z_le_gt_dec (Zdigits2 m2) 53) as [H|H]; [exact H|].
      assert (2 ^ 53 <= 2 ^ (Zdigits2 m2 - 1)) by (apply Z.pow_le_mono_r; lia). lia. }
    assert (Hn : Z.max (Zdigits2 m2 + f - 53) (-1074) - f <= 0) by lia.
    unfold shr. destruct (Z.max (Zdigits2 m2 + f - 53) (-1074) - f) as [|p|p] eqn:Hk; try lia;
      cbn [shr_record_of_loc shr_m]; destruct m2; try lia; reflexivity.
  - assert (Hm : m2 = 2 ^ 53) by lia. subst m2.
    replace (Z.max (Zdigits2 (2 ^ 53) + f - 53) (-1074) - f) with 1
      by (change (Zdigits2 (2 ^ 53)) with 54; lia).
    reflexivity.
Qed.

Lemma round_nearest_even_bounds m l : m <= round_nearest_even m l <= m + 1.
Proof. destruct l as [|[| |]]; cbn [round_nearest_even]; try destruct (Z.even m); lia. Qed.

Lemma loc_of_shr_record_of_loc m l : loc_of_shr_record (shr_record_of_loc m l) = l.
Proof. now destruct l as [|[| |]]. Qed.

Lemma shr_m_of_loc m l : shr_m (shr_record_of_loc m l) = m.
Proof. now destruct l as [|[| |]]. Qed.

(** No shift: the mantissa is rounded as its location says. *)
Lemma binary_round_aux_noshift sx q E l :
  fexp prec emax (Zdigits2 q + E) <= E ->
  binary_round_aux prec emax sx q E l = round_finish sx (round_nearest_even q l) E.
Proof.
  intros Hk. rewrite binary_round_aux_split. unfold shr_fexp, shr.
  destruct (fexp prec emax (Zdigits2 q + E) - E) as [|p|p] eqn:Hp; try lia;
    cbn [fst snd]; now rewrite loc_of_shr_record_of_loc, shr_m_of_loc.
Qed.

(** A shift, whatever the location: the mantissa is cut and perhaps
    bumped. *)
Lemma binary_round_aux_shift sx q E l :
  0 <= q -> E < fexp prec emax (Zdigits2 q + E) ->
  exists m1 m2,
    0 <= m1
    /\ m1 * 2 ^ (fexp prec emax (Zdigits2 q + E) - E) <= q
       < (m1 + 1) * 2 ^ (fexp prec emax (Zdigits2 q + E) - E)
    /\ m1 <= m2 <= m1 + 1
    /\ binary_round_aux prec emax sx q E l
       = round_finish sx m2 (fexp prec emax (Zdigits2 q + E)).
Proof.
  intros Hq Hk. rewrite binary_round_aux_split. unfold shr_fexp, shr.
  set (f := fexp prec emax (Zdigits2 q + E)) in *.
  destruct (f - E) as [|p|p] eqn:Hp; try lia. cbn [fst snd].
  destruct (halved_iter q p (shr_record_of_loc q l)) as (Hm & Hlo & Hhi);
    [rewrite shr_m_of_loc; lia|apply shr_m_of_loc|].
  set (st := SpecFloat.iter_pos shr_1 p (shr_record_of_loc q l)) in *.
  exists (shr_m st), (round_nearest_even (shr_m st) (loc_of_shr_record st)).
  split; [exact Hm|]. split; [split; assumption|].
  split; [apply round_nearest_even_bounds|]. f_equal. lia.
Qed.

(** A shift of an exact mantissa: the result is within half a unit. *)
Lemma binary_round_aux_exact sx M E :
  0 <= M -> E < fexp prec emax (Zdigits2 M + E) ->
  exists m1 m2,
    0 <= m1
    /\ m1 * 2 ^ (fexp prec emax (Zdigits2 M + E) - E) <= M
       < (m1 + 1) * 2 ^ (fexp prec emax (Zdigits2 M + E) - E)
    /\ m1 <= m2 <= m1 + 1
    /\ 2 * Z.abs (m2 * 2 ^ (fexp prec emax (Zdigits2 M + E) - E) - M)
       <= 2 ^ (fexp prec emax (Zdigits2 M + E) - E)
    /\ binary_round_aux prec emax sx M E loc_Exact
       = round_finish sx m2 (fexp prec emax (Zdigits2 M + E)).
Proof.
  intros HM Hk. rewrite binary_round_aux_split. unfold shr_fexp, shr.
  set (f := fexp prec emax (Zdigits2 M + E)) in *.
  destruct (f - E) as [|p|p] eqn:Hp; try lia. cbn [fst snd shr_record_of_loc].
  pose proof (shifted_iter M p HM) as Hsh.
  set (st := SpecFloat.iter_pos shr_1 p {| shr_m := M; shr_r := false; shr_s := false |}) in *.
  destruct (shifted_round M (Z.pos p) st ltac:(lia) Hsh) as (Hb & Hhalf & Hcut).
  exists (shr_m st), (round_nearest_even (shr_m st) (loc_of_shr_record st)).
  split; [apply Hsh|]. split; [exact Hcut|]. split; [exact Hb|]. split; [exact Hhalf|].
  f_equal. lia.
Qed.

(** What validity says of a finite binary64 number. *)
Lemma valid_finite sx m e :
  valid_binary (S754_finite sx m e) = true ->
  1 <= Zdigits2 (Z.pos m) <= 53
  /\ e = Z.max (Zdigits2 (Z.pos m) + e - 53) (-1074)
  /\ -1074 <= e <= 971.
Proof.
  cbn [SpecFloat.valid_binary]. unfold SpecFloat.bounded, SpecFloat.canonical_mantissa. rewrite fexp_eq.
  intros H. apply andb_true_iff in H as [Hc Hb].
  apply Z.eqb_eq in Hc. apply Z.leb_le in Hb. cbn [Zdigits2].
  change (emax - prec) with 971 in Hb. lia.
Qed.

Lemma pow2_pos x : 0 <= x -> 0 < 2 ^ x.
Proof. intros. now apply Z.pow_pos_nonneg. Qed.

Lemma pow2_le x y : x <= y -> 0 <= x -> 2 ^ x <= 2 ^ y.
Proof. intros. apply Z.pow_le_mono_r; lia. Qed.

Lemma pow2_lt x y : x < y -> 0 <= x -> 2 ^ x < 2 ^ y.
Proof. intros. apply Z.pow_lt_mono_r; lia. Qed.

(** The square root of a positive binary64 number: a mantissa of 53 bits,
    [ms], at the exponent [es]; in the unit [2^(2 es)] the number is the
    integer [m * 2^s], and [ms * ms] is within [2 * ms] of it. *)
Lemma SFsqrt_finite m e :
  valid_binary (S754_finite false m e) = true ->
  exists ms es,
    SFsqrt prec emax (S754_finite false m e) = S754_finite false ms es
    /\ 2 ^ 52 <= Z.pos ms < 2 ^ 53
    /\ -589 <= es <= 459
    /\ 52 <= e - 2 * es
    /\ 2 ^ 104 <= Z.pos m * 2 ^ (e - 2 * es) < 2 ^ 106
    /\ Z.abs (Z.pos m * 2 ^ (e - 2 * es) - Z.pos ms * Z.pos ms) <= 2 * Z.pos ms.
Proof.
  intros Hvalid. destruct (valid_finite _ _ _ Hvalid) as (Hd & Hcan & He).
  pose proof (Zdigits2_bounds (Z.pos m) ltac:(lia)) as Hm.
  set (d := Zdigits2 (Z.pos m)) in *.
  cbn [SFsqrt]. unfold SFsqrt_core_binary. fold d.
  rewrite fexp_eq, !Z.div2_div.
  set (a := (d + e + 1) / 2).
  assert (Ha : 2 * a <= d + e + 1 < 2 * a + 2).
  { unfold a. pose proof (Z.div_mod (d + e + 1) 2 ltac:(lia)).
    pose proof (Z.mod_pos_bound (d + e + 1) 2 ltac:(lia)). lia. }
  assert (He2 : 2 * (e / 2) <= e < 2 * (e / 2) + 2).
  { pose proof (Z.div_mod e 2 ltac:(lia)).
    pose proof (Z.mod_pos_bound e 2 ltac:(lia)). lia. }
  replace (Z.min (Z.max (a - 53) (-1074)) (e / 2)) with (a - 53) by lia.
  set (es := a - 53).
  set (s := e - 2 * es).
  assert (Hs : 105 - d <= s <= 106 - d) by (unfold s, es; lia).
  destruct s as [|ps|ps] eqn:Hsv; try lia. rewrite <- Hsv in *.
  rewrite Z.shiftl_mul_pow2 by lia.
  set (m' := Z.pos m * 2 ^ s).
  assert (Hm' : 2 ^ 104 <= m' < 2 ^ 106 /\ (2 ^ 105 <= m' -> m' <= 2 ^ 106 - 2 ^ 53)).
  { unfold m'. pose proof (pow2_pos s ltac:(lia)) as Hps.
    assert (H1 : 2 ^ (d - 1) * 2 ^ s = 2 ^ (d - 1 + s)) by (rewrite Z.pow_add_r; lia).
    assert (H2 : 2 ^ d * 2 ^ s = 2 ^ (d + s)) by (rewrite Z.pow_add_r; lia).
    pose proof (pow2_le 104 (d - 1 + s) ltac:(lia) ltac:(lia)).
    pose proof (pow2_le (d + s) 106 ltac:(lia) ltac:(lia)).
    split; [split; nia|]. intros Hbig.
    assert (Hds : d + s = 106).
    { destruct (Z.eq_dec (d + s) 106) as [Hyes|Hno]; [exact Hyes|].
      assert (Hds : d + s = 105) by lia.
      assert (Z.pos m * 2 ^ s < 2 ^ 105) by (rewrite <- Hds; nia). lia. }
    pose proof (pow2_le 53 s ltac:(lia) ltac:(lia)).
    rewrite Hds in H2. nia. }
  destruct Hm' as [Hm' Htop].
  pose proof (Z.sqrtrem_spec m' ltac:(lia)) as Hsqrt.
  destruct (Z.sqrtrem m') as [q r]. destruct Hsqrt as [Hqr Hr].
  assert (Hq : 2 ^ 52 <= q < 2 ^ 53).
  { change (2 ^ 104) with (2 ^ 52 * 2 ^ 52) in Hm'.
    change (2 ^ 106) with (2 ^ 53 * 2 ^ 53) in Hm'. split; nia. }
  set (l := if r =? 0 then loc_Exact else loc_Inexact (if r <=? q then Lt else Gt)).
  assert (Hdq : Zdigits2 q = 53).
  { apply Zdigits2_unique; [|lia]. exact Hq. }
  rewrite binary_round_aux_noshift by (rewrite fexp_eq, Hdq; unfold es; lia).
  pose proof (round_nearest_even_bounds q l) as Hrne.
  assert (Hcarry : round_nearest_even q l < 2 ^ 53).
  { destruct (Z.eq_dec q (2 ^ 53 - 1)) as [Htopq|Hlow]; [|lia].
    assert (Hrq : r <= q).
    { assert (2 ^ 105 <= m') by (subst q; nia). specialize (Htop H). subst q. nia. }
    unfold l. destruct (Z.eqb_spec r 0); cbn [round_nearest_even]; [lia|].
    rewrite (proj2 (Z.leb_le r q) Hrq). cbn [round_nearest_even]. lia. }
  assert (Herr : Z.abs (m' - round_nearest_even q l * round_nearest_even q l)
                 <= 2 * round_nearest_even q l).
  { unfold l. destruct (Z.eqb_spec r 0) as [Hr0|Hr0]; cbn [round_nearest_even]; [nia|].
    destruct (Z.leb_spec r q); cbn [round_nearest_even]; nia. }
  set (ms := round_nearest_even q l) in *.
  rewrite round_finish_spec by (unfold es; lia).
  rewrite (proj2 (Z.ltb_lt ms (2 ^ 53)) Hcarry).
  rewrite (proj2 (Z.leb_le es 971)) by (unfold es; lia).
  exists (Z.to_pos ms), es. rewrite Z2Pos.id by lia.
  split; [reflexivity|]. split; [lia|]. split; [unfold es; lia|].
  fold s. split; [lia|]. split; [exact Hm'|exact Herr].
Qed.

Lemma mul_lt_cancel a b X : 0 < X -> a * X < b * X -> a < b.
Proof. intros HX H. now apply (Z.mul_lt_mono_pos_r X). Qed.

Lemma mul_le_cancel a b X : 0 < X -> a * X <= b * X -> a <= b.
Proof. intros HX H. now apply (Z.mul_le_mono_pos_r _ _ X). Qed.

Lemma abs_mul_small a X : 0 < X -> Z.abs (a * X) < X -> a = 0.
Proof. intros HX H. nia. Qed.

Lemma square_le a b : 0 <= a <= b -> a * a <= b * b.
Proof. intros H. apply Z.mul_le_mono_nonneg; lia. Qed.

(** The square of the root: in the unit [2^(2 es)], where the number is the
    integer [m * 2^(e - 2 es)], the product is an integer within [2^55] of
    it. When the product is subnormal and the unit of its last place is
    [2^56] times that unit or more, rounding to nearest gives the number
    back. *)
Lemma SFmul_sqrt m e ms es :
  -1074 <= e -> 2 ^ 52 <= Z.pos ms < 2 ^ 53 -> -589 <= es <= 459 ->
  52 <= e - 2 * es ->
  2 ^ 104 <= Z.pos m * 2 ^ (e - 2 * es) < 2 ^ 106 ->
  Z.abs (Z.pos m * 2 ^ (e - 2 * es) - Z.pos ms * Z.pos ms) <= 2 * Z.pos ms ->
  exists mp ep,
    SFmul prec emax (S754_finite false ms es) (S754_finite false ms es)
    = S754_finite false mp ep
    /\ Z.pos mp < 2 ^ 53
    /\ 0 <= ep - 2 * es
    /\ Z.abs (Z.pos mp * 2 ^ (ep - 2 * es) - Z.pos m * 2 ^ (e - 2 * es)) < 2 ^ 55.
Proof.
  intros He Hms Hes Hs Hm' Herr.
  set (m' := Z.pos m * 2 ^ (e - 2 * es)) in *.
  cbn [SFmul xorb]. rewrite Pos2Z.inj_mul.
  set (M := Z.pos ms * Z.pos ms) in *.
  assert (HM : 2 ^ 104 <= M < 2 ^ 106).
  { change (2 ^ 104) with (2 ^ 52 * 2 ^ 52). change (2 ^ 106) with (2 ^ 53 * 2 ^ 53).
    unfold M. split; [apply square_le; lia|].
    apply Z.mul_lt_mono_nonneg; lia. }
  pose proof (Zdigits2_bounds M ltac:(lia)) as HdM.
  pose proof (Zdigits2_pos M ltac:(lia)) as HdMpos.
  set (dM := Zdigits2 M) in *.
  assert (HdM' : 105 <= dM <= 106).
  { assert (dM - 1 < 106) by (apply (Z.pow_lt_mono_r_iff 2); lia).
    assert (104 < dM) by (apply (Z.pow_lt_mono_r_iff 2); lia). lia. }
  set (E := es + es).
  destruct (binary_round_aux_exact false M E ltac:(lia)) as (m1 & m2 & Hm1 & Hcut & Hm2 & Hhalf & ->).
  { rewrite fexp_eq. fold dM. unfold E. lia. }
  rewrite fexp_eq in *. fold dM in Hcut, Hhalf |- *.
  set (f := Z.max (dM + E - 53) (-1074)) in *.
  set (k := f - E) in *.
  assert (Hk : dM - 53 <= k <= 104) by (unfold k, f, E; lia).
  pose proof (pow2_pos k ltac:(lia)) as HX.
  assert (Hm2pos : 0 < m2).
  { destruct (Z.eq_dec m2 0) as [->|]; [|lia].
    pose proof (pow2_le k 104 ltac:(lia) ltac:(lia)). lia. }
  assert (Hpow : 2 ^ dM <= 2 ^ 53 * 2 ^ k).
  { rewrite <- Z.pow_add_r by lia. apply pow2_le; lia. }
  assert (Hm1lt : m1 < 2 ^ 53) by (apply (mul_lt_cancel _ _ (2 ^ k)); lia).
  destruct (Z_lt_le_dec (dM + E - 53) (-1074)) as [Hsub|Hnorm].
  - (* the product is subnormal *)
    assert (Hf : f = -1074) by (unfold f; lia).
    assert (Hpow' : 2 ^ dM <= 2 ^ 52 * 2 ^ k).
    { rewrite <- Z.pow_add_r by lia. apply pow2_le; unfold k; lia. }
    assert (Hm1lt' : m1 < 2 ^ 52) by (apply (mul_lt_cancel _ _ (2 ^ k)); lia).
    rewrite round_finish_spec by lia.
    rewrite (proj2 (Z.ltb_lt m2 (2 ^ 53))) by lia.
    rewrite (proj2 (Z.leb_le f 971)) by lia.
    exists (Z.to_pos m2), f. rewrite Z2Pos.id by lia.
    split; [reflexivity|]. split; [lia|].
    replace (f - 2 * es) with k by (unfold k, E; lia). split; [lia|].
    destruct (Z_le_gt_dec k 55) as [Hsmall|Hbig].
    + pose proof (pow2_le k 55 ltac:(lia) ltac:(lia)). lia.
    + assert (Hunit : m' = (Z.pos m * 2 ^ (e + 1074)) * 2 ^ k).
      { unfold m'. rewrite <- Z.mul_assoc, <- Z.pow_add_r by lia. do 2 f_equal.
        unfold k, E. lia. }
      set (N' := Z.pos m * 2 ^ (e + 1074)) in *.
      pose proof (pow2_le 56 k ltac:(lia) ltac:(lia)) as H56.
      assert (Hclose : Z.abs ((m2 - N') * 2 ^ k) < 2 ^ k)
        by (rewrite Z.mul_sub_distr_r; lia).
      apply abs_mul_small in Hclose; [|exact HX].
      assert (m2 = N') by lia. subst m2. rewrite <- Hunit. lia.
  - (* the product is normal *)
    assert (Hf : f = dM + E - 53) by (unfold f; lia).
    assert (Hk' : k = dM - 53) by (unfold k; lia).
    assert (Hpow2 : 2 ^ 52 * 2 ^ k <= 2 ^ (dM - 1)).
    { rewrite <- Z.pow_add_r by lia. apply pow2_le; lia. }
    pose proof (pow2_le k 53 ltac:(lia) ltac:(lia)) as H53.
    assert (Hclose : Z.abs (m2 * 2 ^ k - m') < 2 ^ 55) by lia.
    rewrite round_finish_spec by lia.
    destruct (Z.ltb_spec m2 (2 ^ 53)) as [Hlt|Hge].
    + rewrite (proj2 (Z.leb_le f 971)) by (unfold E in *; lia).
      exists (Z.to_pos m2), f. rewrite Z2Pos.id by lia.
      split; [reflexivity|]. split; [lia|].
      replace (f - 2 * es) with k by (unfold k, E; lia). split; [lia|exact Hclose].
    + assert (Hm2top : m2 = 2 ^ 53) by lia.
      assert (Hf970 : f + 1 <= 971).
      { destruct (Z_le_gt_dec (f + 1) 971) as [H|H]; [exact H|].
        assert (HdM106 : dM = 106) by (unfold E in *; lia).
        assert (Hk53 : k = 53) by lia.
        assert (HMtop : M <= 2 ^ 106 - 2 ^ 54 + 1).
        { change (2 ^ 106 - 2 ^ 54 + 1) with ((2 ^ 53 - 1) * (2 ^ 53 - 1)).
          apply square_le. lia. }
        rewrite Hm2top, Hk53 in Hhalf. lia. }
      rewrite (proj2 (Z.leb_le (f + 1) 971) Hf970).
      exists (Z.to_pos (2 ^ 52)), (f + 1). rewrite Z2Pos.id by lia.
      split; [reflexivity|]. split; [lia|].
      replace (f + 1 - 2 * es) with (k + 1) by (unfold k, E; lia). split; [lia|].
      rewrite Z.pow_add_r, Z.pow_1_r by lia.
      replace (2 ^ 52 * (2 ^ k * 2)) with (m2 * 2 ^ k) by (rewrite Hm2top; lia).
      exact Hclose.
Qed.

Lemma quotient_near T m' B q :
  2 ^ 52 <= T <= 2 ^ 54 -> 2 ^ 104 <= m' -> Z.abs (B - m') < 2 ^ 55 ->
  q * B <= m' * T < (q + 1) * B ->
  T - 66 <= q <= T + 66.
Proof.
  intros HT Hm' HB [Hlo Hhi].
  assert (HBpos : 0 < B) by lia.
  assert (H1 : T * (B - m') <= T * 2 ^ 55) by (apply Z.mul_le_mono_nonneg_l; lia).
  assert (H2 : - (T * 2 ^ 55) <= T * (B - m')).
  { replace (- (T * 2 ^ 55)) with (T * - 2 ^ 55) by ring.
    apply Z.mul_le_mono_nonneg_l; lia. }
  assert (H3 : T * 2 ^ 55 <= 2 ^ 109).
  { change (2 ^ 109) with (2 ^ 54 * 2 ^ 55). apply Z.mul_le_mono_nonneg_r; lia. }
  split.
  - destruct (Z_le_gt_dec (T - 66) q) as [H|H]; [exact H|]. exfalso.
    assert (H4 : (q + 1) * B <= (T - 66) * B) by (apply Z.mul_le_mono_nonneg_r; lia).
    lia.
  - destruct (Z_le_gt_dec q (T + 66)) as [H|H]; [exact H|]. exfalso.
    assert (H4 : (T + 67) * B <= q * B) by (apply Z.mul_le_mono_nonneg_r; lia).
    lia.
Qed.

(** The quotient of a positive binary64 number by one that is, in some
    unit, within [2^55] of it while it is [2^104] or more: a number within
    [67] units of its last place of one. *)
Lemma SFdiv_near m e mp ep c :
  1 <= Zdigits2 (Z.pos m) <= 53 -> Z.pos mp < 2 ^ 53 ->
  0 <= e + c -> 0 <= ep + c ->
  2 ^ 104 <= Z.pos m * 2 ^ (e + c) < 2 ^ 106 ->
  Z.abs (Z.pos mp * 2 ^ (ep + c) - Z.pos m * 2 ^ (e + c)) < 2 ^ 55 ->
  exists mr er,
    SFdiv prec emax (S754_finite false m e) (S754_finite false mp ep)
    = S754_finite false mr er
    /\ ((er = -52 /\ 2 ^ 52 <= Z.pos mr <= 2 ^ 52 + 67)
        \/ (er = -53 /\ 2 ^ 53 - 67 <= Z.pos mr < 2 ^ 53)).
Proof.
  intros Hd1 Hmp Ha Hb Hm' Hclose.
  pose proof (Zdigits2_bounds (Z.pos m) ltac:(lia)) as Hm.
  pose proof (Zdigits2_bounds (Z.pos mp) ltac:(lia)) as Hp.
  pose proof (Zdigits2_pos (Z.pos mp) ltac:(lia)) as Hd2pos.
  set (d1 := Zdigits2 (Z.pos m)) in *. set (d2 := Zdigits2 (Z.pos mp)) in *.
  set (a := e + c) in *. set (b := ep + c) in *.
  set (m' := Z.pos m * 2 ^ a) in *. set (B := Z.pos mp * 2 ^ b) in *.
  pose proof (pow2_pos a Ha) as Hpa. pose proof (pow2_pos b Hb) as Hpb.
  assert (Hm'd : 2 ^ (d1 - 1 + a) <= m' < 2 ^ (d1 + a)).
  { rewrite !Z.pow_add_r by lia. unfold m'. split.
    - apply Z.mul_le_mono_nonneg_r; lia.
    - apply Z.mul_lt_mono_pos_r; lia. }
  assert (HBd : 2 ^ (d2 - 1 + b) <= B < 2 ^ (d2 + b)).
  { rewrite !Z.pow_add_r by lia. unfold B. split.
    - apply Z.mul_le_mono_nonneg_r; lia.
    - apply Z.mul_lt_mono_pos_r; lia. }
  assert (Hx : d1 + a = 105 \/ d1 + a = 106).
  { assert (d1 - 1 + a < 106) by (apply (Z.pow_lt_mono_r_iff 2); lia).
    assert (104 < d1 + a) by (apply (Z.pow_lt_mono_r_iff 2); lia). lia. }
  assert (HB : 2 ^ 103 < B < 2 ^ 107) by lia.
  assert (Hy : 104 <= d2 + b <= 107).
  { assert (d2 - 1 + b < 107) by (apply (Z.pow_lt_mono_r_iff 2); lia).
    assert (103 < d2 + b) by (apply (Z.pow_lt_mono_r_iff 2); lia). lia. }
  set (D := d1 + e - (d2 + ep)).
  assert (HDab : D = (d1 + a) - (d2 + b)) by (unfold D, a, b; lia).
  assert (HD : -1 <= D <= 1).
  { assert (Hcases : d2 + b = 104 \/ d2 + b = 105 \/ d2 + b = 106 \/ d2 + b = 107) by lia.
    destruct Hx as [Hx|Hx], Hcases as [Hy'|[Hy'|[Hy'|Hy']]];
      rewrite Hx in Hm'd; rewrite Hy' in HBd;
      replace (d1 - 1 + a) with (d1 + a - 1) in Hm'd by lia;
      replace (d2 - 1 + b) with (d2 + b - 1) in HBd by lia;
      rewrite Hx in Hm'd; rewrite Hy' in HBd; cbn in Hm'd, HBd; lia. }
  cbn [SFdiv xorb]. unfold SFdiv_core_binary. fold d1 d2. rewrite fexp_eq. fold D.
  replace (Z.min (Z.max (D - 53) (-1074)) (e - ep)) with (D - 53) by (unfold D in *; lia).
  set (s := e - ep - (D - 53)).
  assert (Hs : s = d2 - d1 + 53) by (unfold s, D; lia).
  destruct s as [|ps|ps] eqn:Hsv; try lia. rewrite <- Hsv in *.
  rewrite Z.shiftl_mul_pow2 by lia.
  pose proof (Z_div_mod (Z.pos m * 2 ^ s) (Z.pos mp) ltac:(lia)) as Hdiv.
  destruct (Z.div_eucl (Z.pos m * 2 ^ s) (Z.pos mp)) as [q r].
  destruct Hdiv as [Hqr Hr].
  set (l := new_location (Z.pos mp) r). clearbody l.
  (* the quotient in the unit of the two numbers *)
  assert (Hscale : Z.pos m * 2 ^ s * 2 ^ b = m' * 2 ^ (53 - D)).
  { unfold m'. rewrite <- !Z.mul_assoc, <- !Z.pow_add_r by lia. do 2 f_equal. lia. }
  assert (HqB : q * B <= m' * 2 ^ (53 - D) < (q + 1) * B).
  { rewrite <- Hscale. unfold B. rewrite !Z.mul_assoc. split.
    - apply Z.mul_le_mono_nonneg_r; [lia|]. lia.
    - apply Z.mul_lt_mono_pos_r; [lia|]. lia. }
  (* the quotient has 53 or 54 bits *)
  pose proof (pow2_pos s ltac:(lia)) as Hps.
  assert (Hq : 2 ^ 52 <= q < 2 ^ 54).
  { assert (Hms : 2 ^ (d2 + 52) <= Z.pos m * 2 ^ s < 2 ^ (d2 + 53)).
    { replace (d2 + 52) with (d1 - 1 + s) by lia. replace (d2 + 53) with (d1 + s) by lia.
      rewrite !Z.pow_add_r by lia. split.
      - apply Z.mul_le_mono_nonneg_r; lia.
      - apply Z.mul_lt_mono_pos_r; lia. }
    rewrite !Z.pow_add_r in Hms by lia.
    assert (Hd2 : 2 ^ d2 = 2 ^ (d2 - 1) * 2).
    { rewrite Z.mul_comm, <- (Z.pow_succ_r 2 (d2 - 1)) by lia. f_equal. lia. }
    rewrite Hd2 in Hms.
    pose proof (pow2_pos (d2 - 1) ltac:(lia)) as Hpd.
    split.
    - destruct (Z_le_gt_dec (2 ^ 52) q) as [H|H]; [exact H|]. exfalso.
      assert (Z.pos mp * (q + 1) <= Z.pos mp * 2 ^ 52) by (apply Z.mul_le_mono_nonneg_l; lia).
      assert (Z.pos mp * 2 ^ 52 < 2 ^ (d2 - 1) * 2 * 2 ^ 52) by lia.
      lia.
    - destruct (Z_lt_le_dec q (2 ^ 54)) as [H|H]; [exact H|]. exfalso.
      assert (Z.pos mp * 2 ^ 54 <= Z.pos mp * q) by (apply Z.mul_le_mono_nonneg_l; lia).
      assert (2 ^ (d2 - 1) * 2 ^ 54 <= Z.pos mp * 2 ^ 54)
        by (apply Z.mul_le_mono_nonneg_r; lia).
      change (2 ^ 54) with (2 * 2 ^ 53) in *. lia. }
  assert (Hnear : 2 ^ (53 - D) - 66 <= q <= 2 ^ (53 - D) + 66).
  { apply (quotient_near (2 ^ (53 - D)) m' B q); [|lia|exact Hclose|exact HqB].
    split; apply pow2_le; lia. }
  assert (HDcases : D = 1 \/ D = 0 \/ D = -1) by lia.
  clear Hqr Hr HqB Hscale Hm'd HBd Hclose Hm Hp HDab Hs Hsv.
  clearbody D.
  assert (HT : 2 ^ (53 - D) = if D =? 1 then 2 ^ 52 else if D =? 0 then 2 ^ 53 else 2 ^ 54)
    by (destruct HDcases as [->|[->| ->]]; reflexivity).
  rewrite HT in Hnear. clear HT.
  destruct (Z_lt_le_dec q (2 ^ 53)) as [Hq53|Hq54].
  - (* 53 bits: no shift *)
    assert (Hdq : Zdigits2 q = 53) by (apply Zdigits2_unique; lia).
    rewrite binary_round_aux_noshift by (rewrite fexp_eq, Hdq; lia).
    pose proof (round_nearest_even_bounds q l) as Hrne.
    set (m2 := round_nearest_even q l) in *.
    rewrite round_finish_spec by lia.
    destruct (Z.ltb_spec m2 (2 ^ 53)) as [Hlt|Hge].
    + rewrite (proj2 (Z.leb_le (D - 53) 971)) by lia.
      exists (Z.to_pos m2), (D - 53). rewrite Z2Pos.id by lia.
      split; [reflexivity|].
      destruct HDcases as [->|[->| ->]]; cbn in Hnear; [left|right|]; lia.
    + rewrite (proj2 (Z.leb_le (D - 53 + 1) 971)) by lia.
      exists (Z.to_pos (2 ^ 52)), (D - 53 + 1). rewrite Z2Pos.id by lia.
      split; [reflexivity|].
      destruct HDcases as [->|[->| ->]]; cbn in Hnear; [|left|]; lia.
  - (* 54 bits: a shift by one *)
    assert (Hdq : Zdigits2 q = 54) by (apply Zdigits2_unique; lia).
    destruct (binary_round_aux_shift false q (D - 53) l ltac:(lia))
      as (m1 & m2 & Hm1 & Hcut & Hm2 & ->).
    { rewrite fexp_eq, Hdq. lia. }
    rewrite fexp_eq, Hdq in *.
    replace (Z.max (54 + (D - 53) - 53) (-1074)) with (D - 52) in * by lia.
    replace (D - 52 - (D - 53)) with 1 in Hcut by lia. rewrite Z.pow_1_r in Hcut.
    rewrite round_finish_spec by lia.
    destruct (Z.ltb_spec m2 (2 ^ 53)) as [Hlt|Hge].
    + rewrite (proj2 (Z.leb_le (D - 52) 971)) by lia.
      exists (Z.to_pos m2), (D - 52). rewrite Z2Pos.id by lia.
      split; [reflexivity|].
      destruct HDcases as [->|[->| ->]]; cbn in Hnear; [|left|right]; lia.
    + rewrite (proj2 (Z.leb_le (D - 52 + 1) 971)) by lia.
      exists (Z.to_pos (2 ^ 52)), (D - 52 + 1). rewrite Z2Pos.id by lia.
      split; [reflexivity|].
      destruct HDcases as [->|[->| ->]]; cbn in Hnear; [| |left]; lia.
Qed.

(** **** The sign of a squared norm *)

(** Not a number, or a number whose sign bit is clear. *)
Definition nonneg (x : spec_float) : Prop :=
  match x with
  | S754_zero s | S754_infinity s | S754_finite s _ _ => s = false
  | S754_nan => True
  end.

Lemma binary_round_aux_nonneg mx ex lx : nonneg (binary_round_aux prec emax false mx ex lx).
Proof.
  unfold binary_round_aux. destruct (shr_fexp prec emax mx ex lx) as [mrs e].
  destruct (shr_fexp prec emax _ e loc_Exact) as [mrs' e'].
  destruct (shr_m mrs'); cbn [nonneg]; auto. now destruct (e' <=? emax - prec).
Qed.

Lemma SFmul_self_nonneg x : nonneg (SFmul prec emax x x).
Proof.
  destruct x as [s|s| |s m e]; cbn [SFmul nonneg]; auto using xorb_nilpotent.
  rewrite xorb_nilpotent. apply binary_round_aux_nonneg.
Qed.

Lemma SFadd_nonneg x y : nonneg x -> nonneg y -> nonneg (SFadd prec emax x y).
Proof.
  destruct x as [sx|sx| |sx mx ex], y as [sy|sy| |sy my ey]; cbn [nonneg SFadd];
    intros Hx Hy; subst; cbn [nonneg]; auto.
  destruct (shl_align mx ex (Z.min ex ey)) as [mx' ex'].
  destruct (shl_align my ey (Z.min ex ey)) as [my' ey'].
  cbn [fst cond_Zopp]. change (Z.pos mx' + Z.pos my') with (Z.pos (mx' + my')).
  cbn [binary_normalize]. unfold binary_round.
  match goal with
  | |- context [shl_align ?a ?b ?c] => destruct (shl_align a b c) as [mz ez]
  end.
  apply binary_round_aux_nonneg.
Qed.

Lemma squared_norm_nonneg v : nonneg (Prim2SF (squared_norm v)).
Proof.
  unfold squared_norm.
  assert (H : forall na, nonneg (Prim2SF na) ->
            nonneg (Prim2SF (fold_left
                               (fun na x => (na + to_number_or_zero x * to_number_or_zero x)%float)
                               v na))).
  { induction v as [|x v IH]; intros na Hna; cbn [fold_left]; [exact Hna|].
    apply IH. rewrite add_spec, mul_spec. apply SFadd_nonneg; [exact Hna|].
    apply SFmul_self_nonneg. }
  apply H. reflexivity.
Qed.

(** **** The quotient that [cosineSimilarity] computes on equal arguments *)

(** The binary64 numbers within 67 units of their last place of one. *)
Definition above_one (j : nat) : float :=
  SF2Prim (S754_finite false (Z.to_pos (2 ^ 52 + Z.of_nat j)) (-52)).
Definition below_one (j : nat) : float :=
  SF2Prim (S754_finite false (Z.to_pos (2 ^ 53 - 67 + Z.of_nat j)) (-53)).

Lemma near_one_candidates :
  forallb (fun j => near_one (above_one j) && near_one (below_one j)) (seq 0 68) = true.
Proof. vm_compute. reflexivity. Qed.

Lemma near_one_finite mr er :
  (er = -52 /\ 2 ^ 52 <= Z.pos mr <= 2 ^ 52 + 67)
  \/ (er = -53 /\ 2 ^ 53 - 67 <= Z.pos mr < 2 ^ 53) ->
  near_one (SF2Prim (S754_finite false mr er)) = true.
Proof.
  intros Hr. pose proof near_one_candidates as Hall.
  rewrite forallb_forall in Hall.
  destruct Hr as [[-> Hm]|[-> Hm]].
  - specialize (Hall (Z.to_nat (Z.pos mr - 2 ^ 52))).
    destruct (andb_prop _ _ (Hall ltac:(apply in_seq; lia))) as [Ha _].
    unfold above_one in Ha. rewrite Z2Nat.id in Ha by lia.
    replace (2 ^ 52 + (Z.pos mr - 2 ^ 52)) with (Z.pos mr) in Ha by lia.
    now rewrite Pos2Z.id in Ha.
  - specialize (Hall (Z.to_nat (Z.pos mr - (2 ^ 53 - 67)))).
    destruct (andb_prop _ _ (Hall ltac:(apply in_seq; lia))) as [_ Hb].
    unfold below_one in Hb. rewrite Z2Nat.id in Hb by lia.
    replace (2 ^ 53 - 67 + (Z.pos mr - (2 ^ 53 - 67))) with (Z.pos mr) in Hb by lia.
    now rewrite Pos2Z.id in Hb.
Qed.

(** A positive binary64 number divided by the square of its square root is
    within [1e-9] of one. *)
Lemma self_quotient_near_one (n : float) m e :
  Prim2SF n = S754_finite false m e ->
  near_one (PrimFloat.div n (PrimFloat.mul (PrimFloat.sqrt n) (PrimFloat.sqrt n))) = true.
Proof.
  intros Hn. pose proof (Prim2SF_valid n) as Hvalid. rewrite Hn in Hvalid.
  destruct (valid_finite _ _ _ Hvalid) as (Hd & _ & He).
  destruct (SFsqrt_finite m e Hvalid) as (ms & es & Hsqrt & Hms & Hes & Hs & Hm' & Herr).
  destruct (SFmul_sqrt m e ms es ltac:(lia) Hms Hes Hs Hm' Herr)
    as (mp & ep & Hmul & Hmp & Hep & Hclose).
  destruct (SFdiv_near m e mp ep (- (2 * es)) Hd Hmp) as (mr & er & Hdiv & Hr).
  - lia.
  - lia.
  - now replace (e + - (2 * es)) with (e - 2 * es) by lia.
  - replace (e + - (2 * es)) with (e - 2 * es) by lia.
    now replace (ep + - (2 * es)) with (ep - 2 * es) by lia.
  - rewrite <- (SF2Prim_Prim2SF (PrimFloat.div _ _)).
    rewrite div_spec, mul_spec, sqrt_spec, Hn.
    unfold SF64div, SF64mul, SF64sqrt. rewrite Hsqrt, Hmul, Hdiv.
    now apply near_one_finite.
Qed.

(** A binary64 number that is finite, not zero, and not negative. *)
Lemma finite_nonzero (n : float) :
  PrimFloat.is_finite n = true -> PrimFloat.eqb n 0 = false -> nonneg (Prim2SF n) ->
  exists m e, Prim2SF n = S754_finite false m e.
Proof.
  unfold PrimFloat.is_finite, PrimFloat.is_nan, PrimFloat.is_infinity.
  rewrite !FloatAxioms.eqb_spec, abs_spec.
  change (Prim2SF infinity) with (S754_infinity false).
  change (Prim2SF 0%float) with (S754_zero false).
  destruct (Prim2SF n) as [[|]|[|]| |[|] m e]; cbn; try discriminate.
  intros _ _ _. eauto.
Qed.

(** On equal arguments, when the squared norm computed is finite and not
    zero, the similarity is within [1e-9] of one. *)
Lemma cosineSimilarity_self_near_one (v : list float) :
  PrimFloat.is_finite (squared_norm v) = true ->
  PrimFloat.eqb (squared_norm v) 0 = false ->
  near_one (cosineSimilarity (Some v) (Some v)) = true.
Proof.
  intros Hfin Hnz.
  destruct (finite_nonzero (squared_norm v) Hfin Hnz (squared_norm_nonneg v)) as (m & e & Hn).
  rewrite cosineSimilarity_self. destruct v as [|x v]; [discriminate Hnz|].
  rewrite Hnz. now apply (self_quotient_near_one _ m e).
Qed.

(** C6, as the code has it. [cosineSimilarity] is a total function of any
    two values; it returns 0 when an argument is not an array or is empty,
    and when all components of an argument read as zero; it only reads the
    first [min(len a, len b)] components; it is symmetric; on [(v, v)] it is
    0 when the squared norm [n] computed in binary64 is 0 and
    [n / (sqrt n * sqrt n)] otherwise, a quotient that is exactly 1 for
    every non-zero [v] when the arithmetic is exact, and that is within
    [1e-9] of 1 in binary64 whenever [n] is finite and not zero. *)
Theorem cosineSimilarity_properties :
  (forall a b : vec float,
      a = None \/ b = None \/ a = Some [] \/ b = Some [] -> cosineSimilarity a b = 0%float)
  /\ (forall va vb : list float,
         Forall reads_zero va \/ Forall reads_zero vb ->
         cosineSimilarity (Some va) (Some vb) = 0%float)
  /\ (forall va vb : list float,
         cosineSimilarity (Some va) (Some vb)
         = cosineSimilarity (Some (take (min (length va) (length vb)) va))
                            (Some (take (min (length va) (length vb)) vb)))
  /\ (forall a b : vec float, cosineSimilarity a b = cosineSimilarity b a)
  /\ (forall v : list float,
         v <> [] ->
         cosineSimilarity (Some v) (Some v)
         = if PrimFloat.eqb (squared_norm v) 0 then 0%float
           else PrimFloat.div (squared_norm v)
                  (PrimFloat.mul (PrimFloat.sqrt (squared_norm v))
                                 (PrimFloat.sqrt (squared_norm v))))
  /\ (forall v : list R,
         Exists (fun x => x <> 0%R) v -> Exact.cosine (Some v) (Some v) = 1%R)
  /\ (forall v : list float,
         PrimFloat.is_finite (squared_norm v) = true ->
         PrimFloat.eqb (squared_norm v) 0 = false ->
         PrimFloat.leb
           (PrimFloat.abs (PrimFloat.sub (cosineSimilarity (Some v) (Some v)) 1%float))
           1e-9%float = true).
Proof.
  split; [|split; [|split; [|split; [|split; [|split]]]]].
  - intros a b [-> | [-> | [-> | ->]]]; try reflexivity.
    + now destruct a.
    + now destruct b as [[|]|].
    + now destruct a as [[|]|].
  - apply cosineSimilarity_zero_norm.
  - apply cosineSimilarity_take.
  - apply cosineSimilarity_comm.
  - intros v Hv. rewrite cosineSimilarity_self. now destruct v.
  - apply exact_cosine_self.
  - apply cosineSimilarity_self_near_one.
Qed.

(** C6, as stated, fails in binary64: the one-component vector [[1e-200]] is
    not zero, its square underflows to 0, the zero-norm guard fires and the
    similarity with itself is 0, not within [1e-9] of 1. *)
Lemma cosineSimilarity_self_underflow :
  PrimFloat.eqb 1e-200%float 0%float = false
  /\ cosineSimilarity (Some [1e-200%float]) (Some [1e-200%float]) = 0%float
  /\ near_one (cosineSimilarity (Some [1e-200%float]) (Some [1e-200%float])) = false.
Proof. repeat split; vm_compute; reflexivity. Qed.

(** Squares that overflow give [NaN] instead. *)
Example cosineSimilarity_self_overflow :
  cosineSimilarity (Some [1e200%float]) (Some [1e200%float]) = nan.
Proof. vm_compute. reflexivity. Qed.

Example cosineSimilarity_self_example :
  near_one (cosineSimilarity (Some [3; 4; 0.5]%float) (Some [3; 4; 0.5]%float)) = true.
Proof. vm_compute. reflexivity. Qed.

Example cosineSimilarity_mismatch_example :
  cosineSimilarity (Some [1; 0]%float) (Some [2; 0; 7]%float) = 1%float.
Proof. vm_compute. reflexivity. Qed.

(** *** The centroid *)

(** One round of the loop of [computeCentroid] for the dimension [dim]. *)
Definition centroid_step (dim : nat) : list float * nat -> vec float -> list float * nat :=
  fun '(acc, count) e =>
    match e with
    | Some e' => if Nat.eqb (length e') dim then (add_into acc e', S count) else (acc, count)
    | None => (acc, count)
    end.

Lemma add_into_length acc e : length (add_into acc e) = length acc.
Proof.
  revert e. induction acc as [|x acc IH]; intros [|y e]; simpl; auto.
Qed.

Lemma centroid_step_keeps dim st e :
  length (fst (centroid_step dim st e)) = length (fst st)
  /\ (snd st <= snd (centroid_step dim st e))%nat.
Proof.
  destruct st as [acc count]. destruct e as [e'|]; simpl; [|auto].
  destruct (Nat.eqb (length e') dim); simpl; [|auto].
  rewrite add_into_length. auto.
Qed.

Lemma centroid_fold_keeps dim l : forall st,
  length (fst (fold_left (centroid_step dim) l st)) = length (fst st)
  /\ (snd st <= snd (fold_left (centroid_step dim) l st))%nat.
Proof.
  induction l as [|e l IH]; intros st; simpl; [auto|].
  destruct (IH (centroid_step dim st e)) as [Hl Hc].
  destruct (centroid_step_keeps dim st e) as [Hl' Hc'].
  split; [congruence|lia].
Qed.

(** X5. [computeCentroid] answers [null] exactly when there is no item or
    the first item has no embedding of positive length; otherwise it
    answers a vector of the dimension of the first item's embedding,
    whatever the other items hold. *)
Theorem computeCentroid_dimension (embeddings : list (vec float)) :
  match embeddings with
  | Some (x :: e) :: _ =>
      exists c, computeCentroid embeddings = Some c /\ length c = length (x :: e)
  | _ => computeCentroid embeddings = None
  end.
Proof.
  destruct embeddings as [|[[|x e]|] rest]; try reflexivity.
  unfold computeCentroid.
  set (dim := length (x :: e)).
  replace (Nat.eqb dim 0) with false by reflexivity.
  cbn [fold_left]. fold dim. rewrite Nat.eqb_refl.
  match goal with
  | |- context [fold_left ?f rest ?st] =>
      change (fold_left f rest st) with (fold_left (centroid_step dim) rest st)
  end.
  destruct (centroid_fold_keeps dim rest (add_into (repeat 0%float dim) (x :: e), 1%nat))
    as [Hlen Hcount].
  destruct (fold_left (centroid_step dim) rest
              (add_into (repeat 0%float dim) (x :: e), 1%nat)) as [acc count].
  simpl in Hlen, Hcount.
  destruct count as [|count]; [lia|]. simpl Nat.eqb. cbv iota.
  eexists. split; [reflexivity|].
  rewrite length_map, Hlen, add_into_length, repeat_length. reflexivity.
Qed.

End Vectors.

(** ** The document store's records *)

(** [{ text, embedding }]: one chunk of a page. *)
Record item := Item {
  text : jsstring;
  embedding : Vectors.vec float;
}.

(** One snapshot of a page's content. A falsy [summary] is the empty string,
    as every reader of the field takes it ([v.summary || '']); an absent
    [centroid] is [None]. *)
Record version := Version {
  v_timestamp : Z;
  v_hash : Z;
  v_items : list item;
  v_centroid : Vectors.vec float;
  v_summary : string;
}.

(** A page record. [versions] and [latestVersionIndex] are [None] on a record
    written before versioning existed (not an Array, not a number); [items]
    is [None] when the field is not an Array; [canonicalUrl] may be absent. *)
Record doc := Doc {
  canonicalUrl : option string;
  url : string;
  title : jsstring;
  timestamp : Z;
  latestVersionIndex : option Z;
  versions : option (list version);
  items : option (list item);
  centroid : Vectors.vec float;
  summary : string;
}.

(** [arr[i]] for a number [i] that is an integer: [undefined] out of range. *)
Definition js_index {A : Type} (arr : list A) (i : Z) : option A :=
  if i <? 0 then None else arr !! Z.to_nat i.

(** ** offscreen.js: stage-2 chunk scoring *)

Module Scoring.

Open Scope float_scope.

(** Weights for ranking components. *)
Definition W_SIM : float := 0.75.
Definition W_EXACT : float := 0.12.
Definition W_TITLE_EXACT : float := 0.03.
Definition W_TOKEN : float := 0.05.
Definition W_RECENCY : float := 0.05.

Close Scope float_scope.

(** [\w]: ASCII letters, digits and the underscore. *)
Definition is_word (c : N) : bool :=
  (((48 <=? c) && (c <=? 57)) || ((65 <=? c) && (c <=? 90))
   || (c =? 95) || ((97 <=? c) && (c <=? 122)))%N.

(** [s.split(/\W+/)]: the pieces between maximal runs of non-word
    characters, empty pieces at the ends included. [cur] is the piece being
    read, reversed; [in_sep] tells that a separator run is being skipped. *)
Fixpoint split_from (cur : jsstring) (in_sep : bool) (s : jsstring) : list jsstring :=
  match s with
  | [] => [rev cur]
  | c :: r =>
      if is_word c then split_from (c :: cur) false r
      else if in_sep then split_from cur true r
      else rev cur :: split_from [] true r
  end.

Definition split_nonword (s : jsstring) : list jsstring := split_from [] false s.

(** [s.startsWith(p)] and [s.includes(sub)] on code units. *)
Fixpoint starts_with (p s : jsstring) : bool :=
  match p, s with
  | [], _ => true
  | _ :: _, [] => false
  | a :: p', b :: s' => (a =? b)%N && starts_with p' s'
  end.

Fixpoint includes (s sub : jsstring) : bool :=
  starts_with sub s ||
  match s with
  | [] => false
  | _ :: r => includes r sub
  end.

(** [s.lastIndexOf(' ')], [-1] when there is none. *)
Definition lastIndexOf_space (s : jsstring) : Z :=
  snd (fold_left (fun '(i, found) c => (i + 1, if (c =? 32)%N then i else found)) s (0, -1)).

(** [/[\s\.,;:!\-]+$/]: the characters stripped from the end of a cut. *)
Definition is_trailing_punct (c : N) : bool :=
  Text.is_space c || (c =? 46)%N || (c =? 44)%N || (c =? 59)%N || (c =? 58)%N
  || (c =? 33)%N || (c =? 45)%N.

Fixpoint strip_trailing (s : jsstring) : jsstring :=
  match s with
  | [] => []
  | c :: r =>
      match strip_trailing r with
      | [] => if is_trailing_punct c then [] else [c]
      | r' => c :: r'
      end
  end.

(** The snippet shown for a chunk. *)
Definition displaySnippet (rawSnippet : jsstring) : jsstring :=
  let max := 200%nat in
  let text := Text.trim rawSnippet in
  if (length text <=? max)%nat then text
  else
    let cut := take max text in
    let i := lastIndexOf_space cut in
    let end_ := if 150 <? i then take (Z.to_nat i) cut else cut in
    strip_trailing end_ ++ [8230%N].

(** One scored chunk. *)
Record candidate := Candidate {
  c_url : string;
  c_title : jsstring;
  c_snippet : jsstring;
  c_chunkIndex : nat;
  c_score : float;
  c_weightedScore : float;
  c_recencyWeight : float;
  c_containsExact : bool;
  c_timestamp : Z;
}.

(** The two flags [processItem] sets while looking for the query in the
    chunk and in the title. *)
Record flags := Flags { hasExact : bool; hasToken : bool }.

Definition match_flags (q : jsstring) (qTokens : list jsstring)
    (snippetLower titleLower : jsstring) : flags :=
  let hasExact := false in
  let hasToken := false in
  let '(hasExact, hasToken) :=
    if nonempty q && (3 <=? length q)%nat then
      if includes snippetLower q then (true, hasToken)
      else if nonempty qTokens then
        if existsb (fun tok => includes snippetLower tok) qTokens then (hasExact, true)
        else (hasExact, hasToken)
      else (hasExact, hasToken)
    else (hasExact, hasToken) in
  let hasToken :=
    if nonempty q && includes titleLower q then hasToken
    else if nonempty qTokens && existsb (fun tok => includes titleLower tok) qTokens
         then true else hasToken in
  Flags hasExact hasToken.

(** [maxSim]: the running maximum over the query variations, from
    [-Infinity]. *)
Definition max_step (emb : Vectors.vec float) (maxSim : float) (ve : Vectors.vec float) : float :=
  let sim := Vectors.cosineSimilarity ve emb in
  if PrimFloat.ltb maxSim sim then sim else maxSim.

Definition maxSimilarity (variationEmbeddings : list (Vectors.vec float))
    (emb : Vectors.vec float) : float :=
  fold_left (max_step emb) variationEmbeddings neg_infinity.

Section Engine.

(** [String.prototype.toLowerCase]. *)
Variable toLowerCase : jsstring -> jsstring.
(** [Math.exp] and the reading of [Date.now()] during the query. *)
Variable exp : float -> float.
Variable now : Z.

(** [(originalQuery || '').toLowerCase().trim()] and its tokens of three
    characters or more. *)
Definition query_of (originalQuery : jsstring) : jsstring :=
  Text.trim (toLowerCase originalQuery).

Definition tokens_of (q : jsstring) : list jsstring :=
  List.filter (fun t => (3 <=? length t)%nat) (split_nonword q).

Definition simComponent (maxSim : float) : float := PrimFloat.mul W_SIM maxSim.
Definition exactComponent (f : flags) : float := if hasExact f then W_EXACT else 0%float.
Definition titleExactComponent (q titleLower : jsstring) : float :=
  if nonempty q && includes titleLower q then W_TITLE_EXACT else 0%float.
Definition tokenComponent (f : flags) : float := if hasToken f then W_TOKEN else 0%float.
Definition recencyComponent (rw : float) : float := PrimFloat.mul W_RECENCY rw.

(** [processItem(item, ts, chunkIndex)] inside [scoreChunksInPages], for a
    page with the given [url] and [title]. *)
Definition processItem (variationEmbeddings : list (Vectors.vec float))
    (q : jsstring) (qTokens : list jsstring) (page_url : string) (page_title : jsstring)
    (it : item) (ts : Z) (chunkIndex : nat) : candidate :=
  let titleLower := toLowerCase page_title in
  let maxSim := maxSimilarity variationEmbeddings (embedding it) in
  let rw := Vectors.recencyWeight exp now ts in
  let rawSnippet := text it in
  let snippetLower := toLowerCase rawSnippet in
  let f := match_flags q qTokens snippetLower titleLower in
  let weighted :=
    PrimFloat.add (PrimFloat.add (PrimFloat.add (PrimFloat.add
      (simComponent maxSim) (exactComponent f)) (titleExactComponent q titleLower))
      (tokenComponent f)) (recencyComponent rw) in
  {| c_url := page_url;
     c_title := page_title;
     c_snippet := displaySnippet rawSnippet;
     c_chunkIndex := chunkIndex;
     c_score := maxSim;
     c_weightedScore := weighted;
     c_recencyWeight := rw;
     c_containsExact := hasExact f;
     c_timestamp := ts |}.

(** [for (let i = 0; i < arr.length; i++) processItem(arr[i], ts, i)],
    from index [i] on. *)
Fixpoint score_items (variationEmbeddings : list (Vectors.vec float))
    (q : jsstring) (qTokens : list jsstring) (page : doc) (ts : Z)
    (i : nat) (arr : list item) : list candidate :=
  match arr with
  | [] => []
  | it :: r =>
      processItem variationEmbeddings q qTokens (url page) (title page) it ts i
      :: score_items variationEmbeddings q qTokens page ts (S i) r
  end.

(** [scoreChunksInPages], on the pages [getPagesByIds] returned. *)
Definition scoreChunksInPages (pages : list doc)
    (variationEmbeddings : list (Vectors.vec float)) (originalQuery : jsstring)
    : list candidate :=
  match variationEmbeddings with
  | [] => []
  | _ =>
      let q := query_of originalQuery in
      let qTokens := tokens_of q in
      flat_map
        (fun page =>
           match versions page with
           | Some (v :: vs) =>
               flat_map
                 (fun v => score_items variationEmbeddings q qTokens page
                             (v_timestamp v) 0 (v_items v))
                 (v :: vs)
           | _ =>
               score_items variationEmbeddings q qTokens page
                 (timestamp page) 0 (default [] (items page))
           end)
        pages
  end.

End Engine.

(** ASCII lower-casing: what [toLowerCase] does on ASCII text. *)
Definition ascii_lower (s : jsstring) : jsstring :=
  map (fun c => if ((65 <=? c) && (c <=? 90))%N then (c + 32)%N else c) s.

(** *** Order facts on binary64 numbers *)

Lemma SFltb_irrefl x : SFltb x x = false.
Proof.
  unfold SFltb. destruct x as [s|s| |s m e]; cbn [SFcompare];
    try (destruct s; reflexivity); try reflexivity.
  destruct s; rewrite Z.compare_refl, ?Pos.compare_cont_refl; reflexivity.
Qed.

Lemma SFltb_trans x y z : SFltb x y = true -> SFltb y z = true -> SFltb x z = true.
Proof.
  unfold SFltb.
  destruct x as [sx|sx| |sx mx ex], y as [sy|sy| |sy my ey], z as [sz|sz| |sz mz ez];
    cbn [SFcompare]; try discriminate;
    try (destruct sx, sy, sz; simpl; congruence);
    try (destruct sx, sy; simpl; congruence);
    try (destruct sx, sz; simpl; congruence);
    try (destruct sy, sz; simpl; congruence).
  destruct sx, sy, sz; try discriminate; try reflexivity;
    destruct (Z.compare_spec ex ey), (Z.compare_spec ey ez), (Z.compare_spec ex ez);
    try discriminate; try reflexivity; try lia; subst;
    change (Pos.compare_cont Eq) with Pos.compare;
    try (destruct (Pos.compare_spec mx my), (Pos.compare_spec my mz), (Pos.compare_spec mx mz);
         simpl; try discriminate; try reflexivity; try lia).
Qed.

Lemma ltb_irrefl x : PrimFloat.ltb x x = false.
Proof. rewrite ltb_spec. apply SFltb_irrefl. Qed.

Lemma ltb_trans x y z :
  PrimFloat.ltb x y = true -> PrimFloat.ltb y z = true -> PrimFloat.ltb x z = true.
Proof. rewrite !ltb_spec. apply SFltb_trans. Qed.

(** *** The running maximum *)

Lemma max_step_fold_upper emb vars m x :
  PrimFloat.ltb m x = false ->
  PrimFloat.ltb (fold_left (max_step emb) vars m) x = false.
Proof.
  revert m; induction vars as [|ve vars IH]; intros m Hm; simpl; [exact Hm|].
  apply IH. unfold max_step.
  destruct (PrimFloat.ltb m (Vectors.cosineSimilarity ve emb)) eqn:Hlt; [|exact Hm].
  destruct (PrimFloat.ltb (Vectors.cosineSimilarity ve emb) x) eqn:Hx; [|reflexivity].
  now rewrite (ltb_trans _ _ _ Hlt Hx) in Hm.
Qed.

(** No variation is more similar to the chunk than [maxSimilarity]. *)
Lemma maxSimilarity_upper vars emb ve :
  In ve vars ->
  PrimFloat.ltb (maxSimilarity vars emb) (Vectors.cosineSimilarity ve emb) = false.
Proof.
  unfold maxSimilarity. generalize neg_infinity as m.
  induction vars as [|v vars IH]; intros m Hin; simpl in *; [contradiction|].
  destruct Hin as [->|Hin].
  - apply max_step_fold_upper. unfold max_step.
    destruct (PrimFloat.ltb m _) eqn:Hlt; [apply ltb_irrefl|exact Hlt].
  - now apply IH.
Qed.

(** It is the similarity of one of the variations, or [-Infinity] when none
    compares above it. *)
Lemma maxSimilarity_attained vars emb :
  maxSimilarity vars emb = neg_infinity
  \/ exists ve, In ve vars /\ maxSimilarity vars emb = Vectors.cosineSimilarity ve emb.
Proof.
  unfold maxSimilarity.
  assert (H : forall m,
             fold_left (max_step emb) vars m = m
             \/ exists ve, In ve vars
                  /\ fold_left (max_step emb) vars m = Vectors.cosineSimilarity ve emb).
  { induction vars as [|v vars IH]; intros m; simpl; [now left|].
    destruct (IH (max_step emb m v)) as [Heq|(ve & Hin & Heq)].
    - rewrite Heq. unfold max_step.
      destruct (PrimFloat.ltb m _); [right; exists v; auto|now left].
    - right. exists ve. auto. }
  apply H.
Qed.

(** *** The flags in closed form *)

Lemma match_flags_closed q qTokens snippetLower titleLower :
  match_flags q qTokens snippetLower titleLower
  = {| hasExact := (3 <=? length q)%nat && includes snippetLower q;
       hasToken :=
         ((3 <=? length q)%nat && negb (includes snippetLower q)
          && existsb (fun tok => includes snippetLower tok) qTokens)
         || (negb (nonempty q && includes titleLower q)
             && existsb (fun tok => includes titleLower tok) qTokens) |}.
Proof.
  unfold match_flags.
  assert (Hq : nonempty q && (3 <=? length q)%nat = (3 <=? length q)%nat)
    by (now destruct q).
  assert (Hn : forall f, nonempty qTokens && existsb f qTokens = existsb f qTokens)
    by (intros f; now destruct qTokens).
  rewrite Hq, !Hn.
  destruct (3 <=? length q)%nat, (includes snippetLower q),
    (nonempty q && includes titleLower q),
    (existsb (fun tok => includes titleLower tok) qTokens); simpl;
    try reflexivity;
    destruct qTokens; simpl; try reflexivity;
    destruct (includes snippetLower _ || existsb _ _); reflexivity.
Qed.

(** What the code computes for one chunk, in closed form. *)
Definition scored_as (toLowerCase : jsstring -> jsstring) (exp : float -> float) (now : Z)
    (vars : list (Vectors.vec float)) (q : jsstring) (qTokens : list jsstring)
    (page_title : jsstring) (it : item) (ts : Z) (c : candidate) : Prop :=
  let snippetLower := toLowerCase (text it) in
  let titleLower := toLowerCase page_title in
  let exact := (3 <=? length q)%nat && includes snippetLower q in
  let titleExact := nonempty q && includes titleLower q in
  let token :=
    ((3 <=? length q)%nat && negb (includes snippetLower q)
     && existsb (fun tok => includes snippetLower tok) qTokens)
    || (negb titleExact && existsb (fun tok => includes titleLower tok) qTokens) in
  let age := Z.max 0 (now - ts) in
  c_score c = maxSimilarity vars (embedding it)
  /\ (forall ve, In ve vars ->
         PrimFloat.ltb (c_score c) (Vectors.cosineSimilarity ve (embedding it)) = false)
  /\ (c_score c = neg_infinity
       \/ exists ve, In ve vars /\ c_score c = Vectors.cosineSimilarity ve (embedding it))
  /\ c_containsExact c = exact
  /\ c_weightedScore c
      = ((((0.75 * c_score c
            + (if exact then 0.12 else 0))
           + (if titleExact then 0.03 else 0))
          + (if token then 0.05 else 0))
         + 0.05 * exp (- PrimFloat.of_uint63 (Uint63.of_Z age) / 2592000000))%float.

(** A chunk stage 2 scores: its page, the timestamp it is scored with and
    its index in the list of items it comes from. *)
Record chunk := Chunk {
  ch_page : doc;
  ch_timestamp : Z;
  ch_index : nat;
  ch_item : item
}.

(** The chunks of a list of items, from index [i] on. *)
Fixpoint chunks_from (page : doc) (ts : Z) (i : nat) (arr : list item) : list chunk :=
  match arr with
  | [] => []
  | it :: r => Chunk page ts i it :: chunks_from page ts (S i) r
  end.

(** The chunks of a page: the items of each of its versions with the
    timestamp of that version, or its top-level items with its own
    timestamp when it holds no version. *)
Definition page_chunks (page : doc) : list chunk :=
  match versions page with
  | Some (v :: vs) =>
      flat_map (fun v => chunks_from page (v_timestamp v) 0 (v_items v)) (v :: vs)
  | _ => chunks_from page (timestamp page) 0 (default [] (items page))
  end.

Definition stage2_chunks (pages : list doc) : list chunk := flat_map page_chunks pages.

(** The candidate of a chunk: what it carries of the chunk, and its
    scores. *)
Definition candidate_of (toLowerCase : jsstring -> jsstring) (exp : float -> float) (now : Z)
    (vars : list (Vectors.vec float)) (q : jsstring) (qTokens : list jsstring)
    (ch : chunk) (c : candidate) : Prop :=
  c_url c = url (ch_page ch)
  /\ c_title c = title (ch_page ch)
  /\ c_snippet c = displaySnippet (text (ch_item ch))
  /\ c_chunkIndex c = ch_index ch
  /\ c_timestamp c = ch_timestamp ch
  /\ c_recencyWeight c = Vectors.recencyWeight exp now (ch_timestamp ch)
  /\ scored_as toLowerCase exp now vars q qTokens (title (ch_page ch)) (ch_item ch)
       (ch_timestamp ch) c.

Lemma processItem_scored_as toLowerCase exp now vars q qTokens page_url page_title it ts i :
  scored_as toLowerCase exp now vars q qTokens page_title it ts
    (processItem toLowerCase exp now vars q qTokens page_url page_title it ts i).
Proof.
  unfold scored_as, processItem. cbn [c_score c_weightedScore c_containsExact].
  rewrite match_flags_closed.
  split; [reflexivity|]. split; [intros ve Hin; now apply maxSimilarity_upper|].
  split; [apply maxSimilarity_attained|]. split; reflexivity.
Qed.

Lemma score_items_candidate_of toLowerCase exp now vars q qTokens page ts arr : forall i,
  Forall2 (candidate_of toLowerCase exp now vars q qTokens)
    (chunks_from page ts i arr)
    (score_items toLowerCase exp now vars q qTokens page ts i arr).
Proof.
  induction arr as [|it arr IH]; intros i; cbn [chunks_from score_items]; constructor.
  - unfold candidate_of. cbn [ch_page ch_timestamp ch_index ch_item].
    repeat (split; [reflexivity|]). apply processItem_scored_as.
  - apply IH.
Qed.

Lemma flat_map_Forall2 {A B C : Type} (R : B -> C -> Prop) (f : A -> list B)
    (g : A -> list C) (l : list A) :
  (forall x, Forall2 R (f x) (g x)) -> Forall2 R (flat_map f l) (flat_map g l).
Proof.
  intros H. induction l as [|x l IH]; cbn [flat_map]; [constructor|].
  apply Forall2_app; [apply H|exact IH].
Qed.

(** C3, as the code has it. Stage 2 scores nothing without a query
    embedding. With one, it gives one candidate for each chunk of each page,
    in order; the candidate carries the URL and title of the page of its
    chunk, the snippet and index of the chunk and the timestamp the chunk is
    scored with (that of its version). Its [score] is the largest cosine
    similarity of the embedding of the chunk against the query variations,
    and its [weightedScore] is the sum, in this order, of [0.75 * score],
    [0.12] iff the query (lower-cased, trimmed, 3 characters or more) is a
    substring of the lower-cased chunk, [0.03] iff the non-empty query is a
    substring of the lower-cased title, [0.05] iff a query token of 3
    characters or more is a substring of the chunk while the whole query is
    not, or of the title while the whole query is not, and
    [0.05 * exp(-age / 30 days)], the age being that of the timestamp. *)
Theorem weightedScore_components
    (toLowerCase : jsstring -> jsstring) (exp : float -> float) (now : Z)
    (pages : list doc) (vars : list (Vectors.vec float)) (originalQuery : jsstring) :
  let q := query_of toLowerCase originalQuery in
  scoreChunksInPages toLowerCase exp now pages [] originalQuery = []
  /\ (vars <> [] ->
      Forall2 (candidate_of toLowerCase exp now vars q (tokens_of q))
        (stage2_chunks pages)
        (scoreChunksInPages toLowerCase exp now pages vars originalQuery)).
Proof.
  intros q. split; [reflexivity|]. intros Hvars.
  unfold scoreChunksInPages, stage2_chunks.
  destruct vars as [|v0 vars]; [now destruct Hvars|]. clear Hvars.
  fold q. generalize (v0 :: vars) as vs. intros vs.
  apply flat_map_Forall2. intros page. unfold page_chunks.
  destruct (versions page) as [[|v l]|]; try apply score_items_candidate_of.
  apply flat_map_Forall2. intros v'. apply score_items_candidate_of.
Qed.

(** C3, as stated, fails: with the query "rust raft", the chunk
    "rust raft diagram" and the title "notes", the token "rust" is a literal
    substring of the chunk, yet the token component is 0, because the whole
    query matched the chunk; the weighted score is [0.75 + 0.12 + 0.05], not
    [0.75 + 0.12 + 0.05 + 0.05]. (The chunk is as old as the query, so [exp]
    is only applied to [-0].) *)
Lemma tokenComponent_suppressed_by_exact_match :
  let q := query_of ascii_lower (js "rust raft") in
  let chunk := Item (js "rust raft diagram") (Some [1; 0]%float) in
  let c := processItem ascii_lower (fun _ => 1%float) 1000 [Some [1; 0]%float]
             q (tokens_of q) "https://example.org/raft" (js "notes") chunk 1000 0 in
  In (js "rust") (tokens_of q)
  /\ includes (ascii_lower (text chunk)) (js "rust") = true
  /\ tokenComponent (match_flags q (tokens_of q) (ascii_lower (text chunk)) (ascii_lower (js "notes")))
     = 0%float
  /\ c_weightedScore c = (0.75 * 1 + 0.12 + 0 + 0 + 0.05 * 1)%float
  /\ c_weightedScore c <> (0.75 * 1 + 0.12 + 0 + 0.05 + 0.05 * 1)%float.
Proof.
  cbv zeta. split; [vm_compute; auto|]. split; [vm_compute; reflexivity|].
  split; [vm_compute; reflexivity|]. split; [vm_compute; reflexivity|].
  vm_compute. intros H. discriminate H.
Qed.

Example scoreChunksInPages_example :
  map c_weightedScore
    (scoreChunksInPages ascii_lower (fun _ => 1%float) 1000
       [ {| canonicalUrl := Some "https://example.org/raft"%string;
            url := "https://example.org/raft"; title := js "Raft notes";
            timestamp := 1000; latestVersionIndex := Some 0;
            versions := Some [Version 1000 0 [Item (js "Rust Raft diagram") (Some [1; 0]%float);
                                               Item (js "about rust only") (Some [0; 1]%float)]
                                None ""%string];
            items := None; centroid := None; summary := ""%string |} ]
       [Some [1; 0]%float] (js " Rust RAFT "))
  = [(0.75 * 1 + 0.12 + 0 + 0.05 + 0.05 * 1)%float; (0.75 * 0 + 0 + 0 + 0.05 + 0.05 * 1)%float].
Proof. vm_compute. reflexivity. Qed.

(** *** The snippet shown *)

Lemma strip_trailing_prefix s : exists k, s = strip_trailing s ++ k.
Proof.
  induction s as [|c r [k Hk]]; simpl; [now exists []|].
  destruct (strip_trailing r) as [|d r'] eqn:Hr.
  - destruct (is_trailing_punct c); [now exists (c :: r)|now exists r].
  - exists k. simpl in *. congruence.
Qed.

Lemma strip_trailing_length s : (length (strip_trailing s) <= length s)%nat.
Proof.
  destruct (strip_trailing_prefix s) as [k Hk].
  rewrite Hk at 2. rewrite length_app. lia.
Qed.

Lemma strip_trailing_stable s : strip_trailing (strip_trailing s) = strip_trailing s.
Proof.
  induction s as [|c r IH]; simpl; [reflexivity|].
  destruct (strip_trailing r) as [|d r'] eqn:Hr.
  - destruct (is_trailing_punct c) eqn:Hc; simpl; [reflexivity|]. now rewrite Hc.
  - simpl in *. rewrite IH. reflexivity.
Qed.

(** X6. The snippet of a chunk is its trimmed text when that has at most
    200 code units. A longer text is cut: the snippet is then a beginning
    of the trimmed text, of at most 200 code units and with no white space
    or punctuation left at its end, followed by an ellipsis; so a snippet
    never has more than 201 code units. *)
Theorem displaySnippet_bounded (rawSnippet : jsstring) :
  (length (displaySnippet rawSnippet) <= 201)%nat
  /\ ((length (Text.trim rawSnippet) <= 200)%nat ->
      displaySnippet rawSnippet = Text.trim rawSnippet)
  /\ ((200 < length (Text.trim rawSnippet))%nat ->
      exists body rest,
        displaySnippet rawSnippet = body ++ [8230%N]
        /\ Text.trim rawSnippet = body ++ rest
        /\ (length body <= 200)%nat
        /\ strip_trailing body = body).
Proof.
  unfold displaySnippet. cbv zeta.
  set (text := Text.trim rawSnippet).
  set (cut := take 200 text).
  set (end_ := if 150 <? lastIndexOf_space cut
               then take (Z.to_nat (lastIndexOf_space cut)) cut else cut).
  assert (Hcut : (length cut <= 200)%nat) by (unfold cut; rewrite length_take; lia).
  assert (Hend : exists k, text = end_ ++ k /\ (length end_ <= 200)%nat).
  { unfold end_. destruct (150 <? lastIndexOf_space cut).
    - exists (drop (Z.to_nat (lastIndexOf_space cut)) cut ++ drop 200 text). split.
      + rewrite app_assoc, take_drop. unfold cut. now rewrite take_drop.
      + rewrite length_take. lia.
    - exists (drop 200 text). split; [unfold cut; now rewrite take_drop|exact Hcut]. }
  destruct Hend as (k & Hk & Hlen).
  pose proof (strip_trailing_length end_) as Hstrip.
  destruct (Nat.leb_spec (length text) 200) as [Hshort|Hlong].
  - split; [lia|]. split; [reflexivity|]. intros Hgt. lia.
  - split; [rewrite length_app; simpl; lia|]. split; [intros Hle; lia|].
    intros _. destruct (strip_trailing_prefix end_) as [k' Hk'].
    exists (strip_trailing end_), (k' ++ k). split; [reflexivity|].
    split; [rewrite app_assoc, <- Hk'; exact Hk|].
    split; [lia|apply strip_trailing_stable].
Qed.

Lemma displaySnippet_length rawSnippet : (length (displaySnippet rawSnippet) <= 201)%nat.
Proof.
  unfold displaySnippet. cbv zeta.
  destruct (Nat.leb_spec (length (Text.trim rawSnippet)) 200) as [Hshort|Hlong]; [lia|].
  rewrite length_app. simpl.
  set (cut := take 200 (Text.trim rawSnippet)).
  assert (Hcut : (length cut <= 200)%nat) by (unfold cut; rewrite length_take; lia).
  destruct (150 <? lastIndexOf_space cut).
  - pose proof (strip_trailing_length (take (Z.to_nat (lastIndexOf_space cut)) cut)) as H.
    rewrite length_take in H. lia.
  - pose proof (strip_trailing_length cut). lia.
Qed.

(** *** The candidates of stage 2 *)

(** The chunks [scoreChunksInPages] goes through for a page: the items of
    every version it holds, or its top-level items when it has no
    version. *)
Definition scored_chunks (page : doc) : list item :=
  match versions page with
  | Some (v :: vs) => flat_map v_items (v :: vs)
  | _ => default [] (items page)
  end.

Section Candidates.

Variable toLowerCase : jsstring -> jsstring.
Variable exp : float -> float.
Variable now : Z.

Lemma score_items_chunks ves q qTokens page ts arr : forall i,
  map (fun c => (c_url c, c_title c, c_snippet c)) 
      (score_items toLowerCase exp now ves q qTokens page ts i arr)
  = map (fun it => (url page, title page, displaySnippet (text it))) arr.
Proof.
  induction arr as [|it r IH]; intros i; simpl; [reflexivity|]. now rewrite IH.
Qed.

(** X7. Stage 2 scores nothing without a query embedding. With one, it
    gives exactly one candidate for each chunk of each page it is handed,
    in order, the chunks of every stored version included and not of the
    latest only; a candidate carries the URL and title of its page and the
    display snippet of its chunk. *)
Theorem scoreChunksInPages_candidates (pages : list doc) (ve : Vectors.vec float)
    (ves : list (Vectors.vec float)) (originalQuery : jsstring) :
  scoreChunksInPages toLowerCase exp now pages [] originalQuery = []
  /\ map (fun c => (c_url c, c_title c, c_snippet c))
       (scoreChunksInPages toLowerCase exp now pages (ve :: ves) originalQuery)
     = flat_map (fun page =>
                   map (fun it => (url page, title page, displaySnippet (text it)))
                       (scored_chunks page)) pages.
Proof.
  split; [reflexivity|].
  unfold scoreChunksInPages. cbv zeta.
  generalize (tokens_of (query_of toLowerCase originalQuery)) as qTokens.
  generalize (query_of toLowerCase originalQuery) as q. intros q qTokens.
  induction pages as [|page pages IH]; [reflexivity|].
  change (page :: pages) with ([page] ++ pages).
  rewrite !flat_map_app, map_app, IH. f_equal.
  change (flat_map ?f [page]) with (f page ++ []). rewrite !app_nil_r.
  unfold scored_chunks.
  destruct (versions page) as [[|v vs]|]; try apply score_items_chunks.
  generalize (v :: vs) as all. intros all.
  induction all as [|v' all IHv]; [reflexivity|].
  change (v' :: all) with ([v'] ++ all).
  rewrite !flat_map_app, !map_app, IHv. f_equal.
  change (flat_map ?f [v']) with (f v' ++ []). rewrite !app_nil_r.
  apply score_items_chunks.
Qed.

End Candidates.

End Scoring.

(** ** background.js: the capture queue *)

(** A capture message [{ url, title, timestamp, chunks, text }]. A missing
    [url] is the empty string (both are falsy); [chunks] is [None] when it is
    not an Array. *)
Record message := Message {
  m_url : string;
  m_title : jsstring;
  m_timestamp : Z;
  m_chunks : option (list jsstring);
  m_text : jsstring;
}.

Module Queue.

(** [{ url, message, delayMs }] *)
Record entry := Entry {
  e_url : string;
  e_message : message;
  e_delayMs : Z;
}.

(** The module-level variables of the queue, and [WORKER]: the entry the
    suspended iteration of [runProcessQueue] destructured and is sleeping on
    or processing. *)
Record state := State {
  PROCESS_QUEUE : list entry;
  PROCESSING : bool;
  ENQUEUED_URLS : gset string;
  CURRENT_URL : option string;
  WORKER : option entry;
}.

Definition initial : state :=
  {| PROCESS_QUEUE := []; PROCESSING := false; ENQUEUED_URLS := ∅;
     CURRENT_URL := None; WORKER := None |}.

Definition urls (q : list entry) : list string := map e_url q.

Definition entries_for (u : string) (q : list entry) : list entry :=
  List.filter (fun it => String.eqb (e_url it) u) q.

(** The [for] loop of [enqueueProcess]: the first entry with this URL gets
    the new payload and the larger delay; [None] when the loop falls
    through. *)
Fixpoint update_queued (u : string) (m : message) (delayMs : Z) (q : list entry)
    : option (list entry) :=
  match q with
  | [] => None
  | it :: r =>
      if String.eqb (e_url it) u
      then Some ({| e_url := e_url it; e_message := m;
                    e_delayMs := Z.max (e_delayMs it) delayMs |} :: r)
      else option_map (cons it) (update_queued u m delayMs r)
  end.

(** The head of the [while] loop of [runProcessQueue], up to its first
    [await]: shift the next entry and make it current, or leave the loop. *)
Definition take_next (s : state) : state :=
  match PROCESS_QUEUE s with
  | [] =>
      {| PROCESS_QUEUE := []; PROCESSING := false; ENQUEUED_URLS := ENQUEUED_URLS s;
         CURRENT_URL := CURRENT_URL s; WORKER := None |}
  | it :: r =>
      {| PROCESS_QUEUE := r; PROCESSING := true;
         ENQUEUED_URLS := ENQUEUED_URLS s ∖ {[ e_url it ]};
         CURRENT_URL := Some (e_url it); WORKER := Some it |}
  end.

(** [runProcessQueue()], up to its first [await]. *)
Definition runProcessQueue (s : state) : state :=
  if PROCESSING s then s
  else take_next {| PROCESS_QUEUE := PROCESS_QUEUE s; PROCESSING := true;
                    ENQUEUED_URLS := ENQUEUED_URLS s; CURRENT_URL := CURRENT_URL s;
                    WORKER := WORKER s |}.

(** [enqueueProcess(message, delayMs)]. *)
Definition enqueueProcess (m : message) (delayMs : Z) (s : state) : state :=
  let u := m_url m in
  if String.eqb u "" then s
  else
    match update_queued u m delayMs (PROCESS_QUEUE s) with
    | Some q' =>
        {| PROCESS_QUEUE := q'; PROCESSING := PROCESSING s;
           ENQUEUED_URLS := ENQUEUED_URLS s; CURRENT_URL := CURRENT_URL s;
           WORKER := WORKER s |}
    | None =>
        if bool_decide (CURRENT_URL s = Some u) then s
        else
          runProcessQueue
            {| PROCESS_QUEUE := PROCESS_QUEUE s ++ [Entry u m delayMs];
               PROCESSING := PROCESSING s;
               ENQUEUED_URLS := ENQUEUED_URLS s ∪ {[ u ]};
               CURRENT_URL := CURRENT_URL s; WORKER := WORKER s |}
    end.

(** The worker resumes when [processAndStore] has settled: the [finally]
    clears [CURRENT_URL] and the loop goes round. *)
Definition worker_resume (s : state) : state :=
  take_next {| PROCESS_QUEUE := PROCESS_QUEUE s; PROCESSING := PROCESSING s;
               ENQUEUED_URLS := ENQUEUED_URLS s; CURRENT_URL := None;
               WORKER := None |}.

(** The events of the service worker that touch the queue. *)
Inductive step : state -> state -> Prop :=
| step_enqueue m delayMs s : step s (enqueueProcess m delayMs s)
| step_resume s : PROCESSING s = true -> step s (worker_resume s).

Inductive reachable : state -> Prop :=
| reachable_initial : reachable initial
| reachable_step s s' : reachable s -> step s s' -> reachable s'.

(** Steps during which the processing of [u] does not start and no call
    enqueues [u]. *)
Inductive quiet (u : string) : state -> state -> Prop :=
| quiet_refl s : quiet u s s
| quiet_enqueue m delayMs s s' :
    quiet u s s' -> m_url m <> u -> quiet u s (enqueueProcess m delayMs s')
| quiet_resume s s' :
    quiet u s s' -> PROCESSING s' = true -> CURRENT_URL (worker_resume s') <> Some u ->
    quiet u s (worker_resume s').

(** The invariant of the queue. *)
Record invariant (s : state) : Prop := {
  inv_nodup : NoDup (urls (PROCESS_QUEUE s));
  inv_current : forall u, CURRENT_URL s = Some u -> u ∉ urls (PROCESS_QUEUE s);
  inv_idle : PROCESSING s = false -> PROCESS_QUEUE s = [] /\ CURRENT_URL s = None;
  inv_busy : PROCESSING s = true -> CURRENT_URL s <> None;
  inv_worker : CURRENT_URL s = option_map e_url (WORKER s);
}.

Lemma update_queued_none u m d q :
  update_queued u m d q = None <-> u ∉ urls q.
Proof.
  induction q as [|it r IH]; simpl.
  - split; [intros _; apply not_elem_of_nil|reflexivity].
  - rewrite not_elem_of_cons.
    destruct (String.eqb_spec (e_url it) u) as [Heq|Hne].
    + split; [discriminate|]. intros [H _]. now destruct H.
    + destruct (update_queued u m d r); simpl.
      * split; [discriminate|]. intros [_ H]. now apply IH in H.
      * split; [|reflexivity]. intros _. split; [congruence|now apply IH].
Qed.

Lemma update_queued_urls u m d q q' :
  update_queued u m d q = Some q' -> urls q' = urls q.
Proof.
  revert q'; induction q as [|it r IH]; intros q'; simpl; [discriminate|].
  destruct (String.eqb (e_url it) u).
  - intros [= <-]. reflexivity.
  - destruct (update_queued u m d r) as [r'|]; simpl; [|discriminate].
    intros [= <-]. simpl. f_equal. now apply IH.
Qed.

Lemma entries_for_absent u q : u ∉ urls q -> entries_for u q = [].
Proof.
  induction q as [|it r IH]; simpl; [reflexivity|]. rewrite not_elem_of_cons. intros [Hne H].
  rewrite (proj2 (String.eqb_neq _ _) (not_eq_sym Hne)). now apply IH.
Qed.

Lemma entries_for_app u q r : entries_for u (q ++ r) = entries_for u q ++ entries_for u r.
Proof. apply List.filter_app. Qed.

(** The entry found keeps its place and gets the new payload and the larger
    of the two delays; the entries of other URLs are untouched. *)
Lemma update_queued_entry u m d q q' :
  NoDup (urls q) -> update_queued u m d q = Some q' ->
  exists m0 d0, entries_for u q = [Entry u m0 d0]
                /\ entries_for u q' = [Entry u m (Z.max d0 d)]
                /\ forall v, v <> u -> entries_for v q' = entries_for v q.
Proof.
  revert q'; induction q as [|it r IH]; intros q' Hnd; simpl; [discriminate|].
  apply NoDup_cons in Hnd as [Hnotin Hnd'].
  destruct (String.eqb_spec (e_url it) u) as [Heq|Hne].
  - intros [= <-]. exists (e_message it), (e_delayMs it). simpl.
    rewrite (proj2 (String.eqb_eq _ _) Heq).
    subst u. rewrite (entries_for_absent _ r Hnotin).
    destruct it; simpl. repeat split; try reflexivity.
    intros v Hv. now rewrite (proj2 (String.eqb_neq _ _) (not_eq_sym Hv)).
  - destruct (update_queued u m d r) as [r'|] eqn:Hr; simpl; [|discriminate].
    intros [= <-]. destruct (IH r' Hnd' eq_refl) as (m0 & d0 & H0 & H1 & H2).
    exists m0, d0. simpl. rewrite (proj2 (String.eqb_neq _ _) Hne).
    repeat split; try assumption.
    intros v Hv. destruct (String.eqb (e_url it) v); [f_equal|]; now apply H2.
Qed.

Lemma take_next_invariant s :
  NoDup (urls (PROCESS_QUEUE s)) -> CURRENT_URL s = None -> invariant (take_next s).
Proof.
  intros Hnd Hcur. unfold take_next.
  destruct (PROCESS_QUEUE s) as [|it r] eqn:Hq.
  - constructor; simpl;
      [ apply NoDup_nil_2 | intros u _; apply not_elem_of_nil | auto
      | discriminate | exact Hcur ].
  - apply NoDup_cons in Hnd as [Hit Hr].
    constructor; simpl;
      [ exact Hr | intros u [= <-]; exact Hit | discriminate
      | discriminate | reflexivity ].
Qed.

Lemma enqueueProcess_invariant m d s : invariant s -> invariant (enqueueProcess m d s).
Proof.
  intros Hinv. unfold enqueueProcess.
  destruct (String.eqb (m_url m) ""); [exact Hinv|].
  destruct (update_queued (m_url m) m d (PROCESS_QUEUE s)) as [q'|] eqn:Hupd.
  - pose proof (update_queued_urls _ _ _ _ _ Hupd) as Hurls.
    destruct Hinv as [Hnd Hcur Hidle Hbusy Hw]. constructor; simpl; rewrite ?Hurls; auto.
    intros Hp. destruct (Hidle Hp) as [Hq _]. rewrite Hq in Hupd. discriminate.
  - apply update_queued_none in Hupd.
    case_bool_decide as Hc; [exact Hinv|].
    destruct Hinv as [Hnd Hcur Hidle Hbusy Hw].
    assert (Hnd' : NoDup (urls (PROCESS_QUEUE s ++ [Entry (m_url m) m d]))).
    { unfold urls. rewrite map_app. apply NoDup_app. repeat split; auto.
      - intros x Hx Hx'. apply list_elem_of_singleton in Hx'. simpl in Hx'. now subst x.
      - apply NoDup_singleton. }
    unfold runProcessQueue. simpl.
    destruct (PROCESSING s) eqn:Hp.
    + constructor; simpl; auto; try congruence.
      intros u Hu. unfold urls. rewrite map_app, elem_of_app. simpl.
      intros [Hin|Hin]; [now apply (Hcur u Hu)|].
      apply list_elem_of_singleton in Hin. congruence.
    + destruct (Hidle eq_refl) as [Hq Hnone]. apply take_next_invariant; simpl; auto.
Qed.

Lemma worker_resume_invariant s : invariant s -> invariant (worker_resume s).
Proof.
  intros Hinv. apply take_next_invariant; simpl; [apply Hinv|reflexivity].
Qed.

Lemma initial_invariant : invariant initial.
Proof. constructor; simpl; auto; try congruence. constructor. Qed.

Lemma reachable_invariant s : reachable s -> invariant s.
Proof.
  induction 1 as [|s s' _ IH Hstep]; [apply initial_invariant|].
  destruct Hstep; [now apply enqueueProcess_invariant|now apply worker_resume_invariant].
Qed.

Lemma entries_for_present u q it : entries_for u q = [it] -> u ∈ urls q.
Proof.
  induction q as [|x r IH]; simpl; [discriminate|].
  destruct (String.eqb_spec (e_url x) u) as [Heq|Hne]; intros H.
  - subst u. apply list_elem_of_here.
  - apply list_elem_of_further. now apply IH.
Qed.

(** A call for a URL that is queued replaces the payload and keeps the
    larger delay. *)
Lemma enqueueProcess_queued m d s m0 d0 :
  invariant s -> m_url m <> ""%string ->
  entries_for (m_url m) (PROCESS_QUEUE s) = [Entry (m_url m) m0 d0] ->
  entries_for (m_url m) (PROCESS_QUEUE (enqueueProcess m d s))
  = [Entry (m_url m) m (Z.max d0 d)].
Proof.
  intros Hinv Hu Hent. unfold enqueueProcess.
  rewrite (proj2 (String.eqb_neq _ _) Hu).
  destruct (update_queued (m_url m) m d (PROCESS_QUEUE s)) as [q'|] eqn:Hupd.
  - destruct (update_queued_entry _ _ _ _ _ (inv_nodup _ Hinv) Hupd) as (m0' & d0' & H0 & H1 & _).
    simpl. rewrite Hent in H0. injection H0 as -> ->. exact H1.
  - apply update_queued_none in Hupd. apply entries_for_present in Hent. contradiction.
Qed.

(** A call for a URL that is neither queued nor current appends an entry
    when the worker is busy. *)
Lemma enqueueProcess_fresh m d s :
  invariant s -> m_url m <> ""%string ->
  m_url m ∉ urls (PROCESS_QUEUE s) ->
  CURRENT_URL (enqueueProcess m d s) <> Some (m_url m) ->
  entries_for (m_url m) (PROCESS_QUEUE (enqueueProcess m d s)) = [Entry (m_url m) m d].
Proof.
  intros Hinv Hu Hfresh. unfold enqueueProcess.
  rewrite (proj2 (String.eqb_neq _ _) Hu).
  rewrite (proj2 (update_queued_none _ m d _) Hfresh).
  case_bool_decide as Hc; [congruence|].
  unfold runProcessQueue. simpl. destruct (PROCESSING s) eqn:Hp; simpl.
  - intros _. rewrite entries_for_app, (entries_for_absent _ _ Hfresh). simpl.
    now rewrite String.eqb_refl.
  - destruct (inv_idle _ Hinv Hp) as [-> _]. simpl. congruence.
Qed.

(** Calls for other URLs and worker rounds that start another URL leave the
    entry of [u] as it is. *)
Lemma quiet_preserves u s s' it :
  quiet u s s' ->
  invariant s -> entries_for u (PROCESS_QUEUE s) = [it] ->
  invariant s' /\ entries_for u (PROCESS_QUEUE s') = [it].
Proof.
  induction 1 as [s|m d s s' _ IH Hne|s s' _ IH Hp Hcur]; intros Hinv Hent; [auto| |].
  - destruct (IH Hinv Hent) as [Hinv' Hent']. split; [now apply enqueueProcess_invariant|].
    unfold enqueueProcess. destruct (String.eqb (m_url m) ""); [exact Hent'|].
    destruct (update_queued (m_url m) m d (PROCESS_QUEUE s')) as [q'|] eqn:Hupd.
    + destruct (update_queued_entry _ _ _ _ _ (inv_nodup _ Hinv') Hupd) as (_ & _ & _ & _ & Hoth).
      simpl. rewrite Hoth by congruence. exact Hent'.
    + case_bool_decide; [exact Hent'|]. unfold runProcessQueue. simpl.
      destruct (PROCESSING s') eqn:Hp; simpl.
      * rewrite entries_for_app, Hent'. simpl.
        now rewrite (proj2 (String.eqb_neq _ _) Hne).
      * destruct (inv_idle _ Hinv' Hp) as [Hq _]. rewrite Hq in Hent'. discriminate.
  - destruct (IH Hinv Hent) as [Hinv' Hent']. split; [now apply worker_resume_invariant|].
    revert Hcur. unfold worker_resume, take_next. simpl.
    destruct (PROCESS_QUEUE s') as [|x r]; [discriminate|]. simpl. intros Hcur.
    simpl in Hent'. destruct (String.eqb_spec (e_url x) u); [congruence|exact Hent'].
Qed.

(** The first [await] of the iteration that has taken an entry off the
    queue: [sleep(delayMs)] when the delay is positive, and otherwise
    [processAndStore(message)], which starts at once. *)
Inductive awaited :=
| Sleep (delayMs : Z)
| ProcessAndStore (m : message).

Definition first_await (it : entry) : awaited :=
  if 0 <? e_delayMs it then Sleep (e_delayMs it) else ProcessAndStore (e_message it).

(** A call while the worker is busy with another URL leaves [CURRENT_URL]
    alone. *)
Lemma enqueueProcess_busy_current m d s :
  PROCESSING s = true -> CURRENT_URL (enqueueProcess m d s) = CURRENT_URL s.
Proof.
  intros Hp. unfold enqueueProcess. destruct (String.eqb (m_url m) ""); [reflexivity|].
  destruct (update_queued (m_url m) m d (PROCESS_QUEUE s)); [reflexivity|].
  case_bool_decide; [reflexivity|]. unfold runProcessQueue. cbn. now rewrite Hp.
Qed.

(** A call on an idle worker: the entry is taken off the queue at once and
    its URL made current. *)
Lemma enqueueProcess_idle m d s :
  invariant s -> PROCESSING s = false -> m_url m <> ""%string ->
  PROCESS_QUEUE (enqueueProcess m d s) = []
  /\ PROCESSING (enqueueProcess m d s) = true
  /\ CURRENT_URL (enqueueProcess m d s) = Some (m_url m)
  /\ WORKER (enqueueProcess m d s) = Some (Entry (m_url m) m d).
Proof.
  intros Hinv Hp Hu. destruct (inv_idle _ Hinv Hp) as [Hq Hcur].
  unfold enqueueProcess. rewrite (proj2 (String.eqb_neq _ _) Hu), Hq, Hcur. cbn.
  unfold runProcessQueue. cbn. rewrite Hp. cbn. auto.
Qed.

(** A call for the current URL changes nothing. *)
Lemma enqueueProcess_current m d s :
  invariant s -> CURRENT_URL s = Some (m_url m) -> enqueueProcess m d s = s.
Proof.
  intros Hinv Hcur. unfold enqueueProcess.
  destruct (String.eqb (m_url m) ""); [reflexivity|].
  rewrite (proj2 (update_queued_none _ m d _) (inv_current _ Hinv _ Hcur)).
  now rewrite bool_decide_eq_true_2.
Qed.

(** C4, as the code has it. Two [enqueueProcess] calls for the same URL,
    the first made while the worker is busy with another URL and the second
    while the entry of the first is still queued, leave exactly one queue
    entry for the URL, with the payload of the second call and the larger of
    the two delays; a call for a URL that is already queued replaces the
    payload and keeps the larger of the old and the new delay; no reachable
    queue has two entries for one URL; and a call for the URL the worker has
    taken off the queue, whether the worker is waiting out the delay of the
    entry or processing it, changes nothing. On an idle worker the first
    call has its entry taken at once: the queue stays empty, the worker
    holds the first payload and its delay, and the second call changes
    nothing. *)
Theorem enqueueProcess_dedup :
  (forall s m1 d1 m2 d2 s',
      reachable s -> m_url m1 <> ""%string -> m_url m2 = m_url m1 ->
      m_url m1 ∉ urls (PROCESS_QUEUE s) ->
      PROCESSING s = true -> CURRENT_URL s <> Some (m_url m1) ->
      quiet (m_url m1) (enqueueProcess m1 d1 s) s' ->
      entries_for (m_url m1) (PROCESS_QUEUE (enqueueProcess m2 d2 s'))
      = [Entry (m_url m1) m2 (Z.max d1 d2)])
  /\ (forall s m d m0 d0,
         reachable s -> m_url m <> ""%string ->
         entries_for (m_url m) (PROCESS_QUEUE s) = [Entry (m_url m) m0 d0] ->
         entries_for (m_url m) (PROCESS_QUEUE (enqueueProcess m d s))
         = [Entry (m_url m) m (Z.max d0 d)])
  /\ (forall s, reachable s -> NoDup (urls (PROCESS_QUEUE s)))
  /\ (forall s m d,
         reachable s -> CURRENT_URL s = Some (m_url m) -> enqueueProcess m d s = s)
  /\ (forall s m1 d1 m2 d2,
         reachable s -> PROCESSING s = false ->
         m_url m1 <> ""%string -> m_url m2 = m_url m1 ->
         PROCESS_QUEUE (enqueueProcess m1 d1 s) = []
         /\ CURRENT_URL (enqueueProcess m1 d1 s) = Some (m_url m1)
         /\ WORKER (enqueueProcess m1 d1 s) = Some (Entry (m_url m1) m1 d1)
         /\ enqueueProcess m2 d2 (enqueueProcess m1 d1 s) = enqueueProcess m1 d1 s).
Proof.
  split; [|split; [|split; [|split]]].
  - intros s m1 d1 m2 d2 s' Hreach Hu Hsame Hfresh Hbusy Hcur Hquiet.
    apply reachable_invariant in Hreach.
    assert (Hcur' : CURRENT_URL (enqueueProcess m1 d1 s) <> Some (m_url m1))
      by now rewrite enqueueProcess_busy_current.
    pose proof (enqueueProcess_fresh m1 d1 s Hreach Hu Hfresh Hcur') as Hent.
    destruct (quiet_preserves _ _ _ _ Hquiet (enqueueProcess_invariant _ _ _ Hreach) Hent)
      as [Hinv' Hent'].
    rewrite <- Hsame in *. now apply enqueueProcess_queued with (m0 := m1).
  - intros s m d m0 d0 Hreach. apply enqueueProcess_queued. now apply reachable_invariant.
  - intros s Hreach. apply reachable_invariant in Hreach. apply Hreach.
  - intros s m d Hreach Hcur. apply enqueueProcess_current; [|exact Hcur].
    now apply reachable_invariant.
  - intros s m1 d1 m2 d2 Hreach Hidle Hu Hsame. apply reachable_invariant in Hreach.
    destruct (enqueueProcess_idle m1 d1 s Hreach Hidle Hu) as (Hq & _ & Hcur & Hw).
    split; [exact Hq|]. split; [exact Hcur|]. split; [exact Hw|].
    apply enqueueProcess_current; [now apply enqueueProcess_invariant|].
    now rewrite Hsame.
Qed.

(** A worker busy with page "a"; page "b" is captured twice meanwhile. *)
Definition capture (u : string) (body : string) : message :=
  {| m_url := u; m_title := js "t"; m_timestamp := 0; m_chunks := None; m_text := js body |}.

Definition busy_with_a : state := enqueueProcess (capture "a" "first") 0 initial.

Lemma enqueueProcess_dedup_witness :
  entries_for "b"
    (PROCESS_QUEUE (enqueueProcess (capture "b" "new") 3
                      (enqueueProcess (capture "b" "old") 5 busy_with_a)))
  = [Entry "b" (capture "b" "new") 5].
Proof.
  refine (proj1 enqueueProcess_dedup busy_with_a (capture "b" "old") 5 (capture "b" "new") 3
            _ _ _ _ _ _ _ _).
  - apply (reachable_step initial); [apply reachable_initial|apply step_enqueue].
  - discriminate.
  - reflexivity.
  - vm_compute. apply not_elem_of_nil.
  - reflexivity.
  - vm_compute. discriminate.
  - apply quiet_refl.
Defined.

(** C4, as stated, fails on an idle queue when the first call carries a
    delay. The first call starts the worker, which shifts the entry, makes
    the URL current and sleeps the 5 ms: [processAndStore] has not been
    called. The second call, for the same URL, finds no queued entry and is
    dropped by the test on [CURRENT_URL]: the queue holds no entry for the
    URL, not one, and the worker keeps the first payload. *)
Lemma enqueueProcess_idle_drops_second :
  option_map first_await (WORKER (enqueueProcess (capture "b" "old") 5 initial))
  = Some (Sleep 5)
  /\ entries_for "b"
       (PROCESS_QUEUE (enqueueProcess (capture "b" "new") 3
                         (enqueueProcess (capture "b" "old") 5 initial))) = []
  /\ entries_for "b"
       (PROCESS_QUEUE (enqueueProcess (capture "b" "new") 3
                         (enqueueProcess (capture "b" "old") 5 initial)))
     <> [Entry "b" (capture "b" "new") 5]
  /\ WORKER (enqueueProcess (capture "b" "new") 3
               (enqueueProcess (capture "b" "old") 5 initial))
     = Some (Entry "b" (capture "b" "old") 5).
Proof.
  split; [vm_compute; reflexivity|]. split; [vm_compute; reflexivity|].
  split; [vm_compute; discriminate|]. vm_compute. reflexivity.
Qed.

(** *** Order of the queue *)

(** [ENQUEUED_URLS] holds the URLs of the queue. *)
Definition mirrors (s : state) : Prop :=
  ENQUEUED_URLS s = list_to_set (urls (PROCESS_QUEUE s)).

Lemma take_next_mirrors s :
  NoDup (urls (PROCESS_QUEUE s)) -> mirrors s -> mirrors (take_next s).
Proof.
  unfold mirrors, take_next. destruct (PROCESS_QUEUE s) as [|it r]; simpl; [auto|].
  intros Hnd Hm. apply NoDup_cons in Hnd as [Hfresh _]. rewrite Hm.
  apply set_eq. intros x. rewrite elem_of_difference, elem_of_union, elem_of_singleton,
    !elem_of_list_to_set.
  split; [intros [[->|Hx] Hne]; [congruence|exact Hx]|].
  intros Hx. split; [now right|]. intros ->. contradiction.
Qed.

Lemma enqueueProcess_mirrors m d s :
  invariant s -> mirrors s -> mirrors (enqueueProcess m d s).
Proof.
  intros Hinv Hm. unfold enqueueProcess.
  destruct (String.eqb (m_url m) ""); [exact Hm|].
  destruct (update_queued (m_url m) m d (PROCESS_QUEUE s)) as [q'|] eqn:Hupd.
  - unfold mirrors. simpl. rewrite (update_queued_urls _ _ _ _ _ Hupd). exact Hm.
  - case_bool_decide; [exact Hm|]. unfold runProcessQueue. simpl.
    destruct (PROCESSING s) eqn:Hp.
    + unfold mirrors in *. simpl. unfold urls. rewrite map_app, list_to_set_app_L. simpl.
      fold (urls (PROCESS_QUEUE s)). rewrite Hm. now rewrite (right_id_L ∅ (∪)).
    + destruct (inv_idle _ Hinv Hp) as [Hq _].
      apply take_next_mirrors; simpl; rewrite Hq; simpl.
      * apply NoDup_singleton.
      * unfold mirrors in *. simpl. rewrite Hm, Hq. simpl.
        apply (comm_L (∪)).
Qed.

Lemma reachable_mirrors s : reachable s -> mirrors s.
Proof.
  induction 1 as [|s s' Hreach IH Hstep]; [reflexivity|].
  pose proof (reachable_invariant _ Hreach) as Hinv.
  destruct Hstep as [m d s|s Hp].
  - now apply enqueueProcess_mirrors.
  - unfold worker_resume. apply take_next_mirrors; [apply Hinv|exact IH].
Qed.

(** X8. The queue is first-in first-out and served by one worker. In every
    reachable state [ENQUEUED_URLS] is the set of the queued URLs, and the
    worker is idle only when the queue is empty. While the worker is busy a
    call of [enqueueProcess] leaves the order of the queue alone: a new URL
    goes to the end, and a URL that is empty, already queued or being
    processed adds nothing. A call on an idle worker starts the page at
    once, and a worker that resumes takes the head of the queue. *)
Theorem queue_first_in_first_out :
  (forall s, reachable s ->
     ENQUEUED_URLS s = list_to_set (urls (PROCESS_QUEUE s))
     /\ (PROCESSING s = false -> PROCESS_QUEUE s = [] /\ CURRENT_URL s = None))
  /\ (forall s m d, PROCESSING s = true ->
        urls (PROCESS_QUEUE (enqueueProcess m d s))
        = if bool_decide (m_url m = ""%string \/ m_url m ∈ urls (PROCESS_QUEUE s)
                          \/ CURRENT_URL s = Some (m_url m))
          then urls (PROCESS_QUEUE s)
          else urls (PROCESS_QUEUE s) ++ [m_url m])
  /\ (forall s m d, reachable s -> PROCESSING s = false -> m_url m <> ""%string ->
        enqueueProcess m d s
        = {| PROCESS_QUEUE := []; PROCESSING := true; ENQUEUED_URLS := ENQUEUED_URLS s;
             CURRENT_URL := Some (m_url m); WORKER := Some (Entry (m_url m) m d) |})
  /\ (forall s it r, PROCESS_QUEUE s = it :: r ->
        PROCESS_QUEUE (worker_resume s) = r
        /\ CURRENT_URL (worker_resume s) = Some (e_url it)
        /\ WORKER (worker_resume s) = Some it).
Proof.
  split; [|split; [|split]].
  - intros s Hreach. split; [now apply reachable_mirrors|].
    apply reachable_invariant in Hreach. apply Hreach.
  - intros s m d Hp. unfold enqueueProcess.
    destruct (String.eqb_spec (m_url m) "") as [Hempty|Hne].
    { rewrite bool_decide_eq_true_2 by auto. reflexivity. }
    destruct (update_queued (m_url m) m d (PROCESS_QUEUE s)) as [q'|] eqn:Hupd.
    + simpl. rewrite (update_queued_urls _ _ _ _ _ Hupd).
      rewrite bool_decide_eq_true_2; [reflexivity|].
      right. left. destruct (decide (m_url m ∈ urls (PROCESS_QUEUE s))) as [Hin|Hout]; [exact Hin|].
      apply update_queued_none with (m := m) (d := d) in Hout. congruence.
    + apply update_queued_none in Hupd. case_bool_decide as Hcur.
      * rewrite bool_decide_eq_true_2 by auto. reflexivity.
      * rewrite bool_decide_eq_false_2 by tauto.
        unfold runProcessQueue. simpl. rewrite Hp. simpl.
        unfold urls. now rewrite map_app.
  - intros s m d Hreach Hp Hne.
    pose proof (reachable_mirrors _ Hreach) as Hm.
    apply reachable_invariant in Hreach. destruct (inv_idle _ Hreach Hp) as [Hq Hcur].
    unfold mirrors in Hm. rewrite Hq in Hm. simpl in Hm.
    unfold enqueueProcess. rewrite (proj2 (String.eqb_neq _ _) Hne), Hq. simpl.
    rewrite Hcur, bool_decide_eq_false_2 by discriminate.
    unfold runProcessQueue. simpl. rewrite Hp. unfold take_next. simpl.
    f_equal. rewrite Hm, (left_id_L ∅ (∪)).
    apply set_eq. intros x. rewrite elem_of_difference, elem_of_empty. tauto.
  - intros s it r Hq. unfold worker_resume, take_next. simpl. rewrite Hq. auto.
Qed.

End Queue.

(** ** background.js: storage, embedding helpers, version merging, capture *)

Module Background.

(** The status of a processing entry. *)
Inductive status := processing | retrying | error.

(** [{ url, title, timestamp, status, attempts }] in [processingPages]. *)
Record processing_entry := ProcessingEntry {
  p_url : string;
  p_title : jsstring;
  p_timestamp : Z;
  p_status : status;
  p_attempts : nat;
}.

(** The persisted [embeddingMeta]: [{ model, dim }]. *)
Record embedding_meta := EmbeddingMeta {
  meta_model : option string;
  meta_dim : Z;
}.

(** What [getSettings] and [getModelSettings] return, as far as the code
    below reads it. *)
Record settings := Settings {
  versioningMaxVersions : Z;
  versioningSimilarityThreshold : float;
  embedModel : option string;
}.

(** A row of the persisted log written at level [error]. *)
Record log_row := LogRow {
  l_message : string;
  l_url : option string;
}.

(** A retry armed with [setTimeout]. *)
Record timer := Timer {
  t_delay : Z;
  t_message : message;
}.

(** The calls that leave the service worker. *)
Inductive event :=
| HttpEmbedBatch (texts : list jsstring)
| HttpEmbed (t : jsstring)
| SummaryRequest (t : jsstring)
| DbAdd (rec : doc)
| DbPut (key : nat) (d : doc)
| PageCaptured (u : string).

(** Everything the capture pipeline reads and writes: the [pages] object
    store (in key order), [chrome.storage.local], the armed timers, and the
    calls made so far. *)
Record world := World {
  store : list doc;
  config : settings;
  embeddingMeta : option embedding_meta;
  processingPages : list processing_entry;
  pendingCaptures : gmap string message;
  errorLog : list log_row;
  timers : list timer;
  trace : list event;
}.

Definition set_store (st : list doc) (w : world) : world :=
  World st (config w) (embeddingMeta w) (processingPages w) (pendingCaptures w)
        (errorLog w) (timers w) (trace w).
Definition set_embeddingMeta (em : option embedding_meta) (w : world) : world :=
  World (store w) (config w) em (processingPages w) (pendingCaptures w)
        (errorLog w) (timers w) (trace w).
Definition setProcessingPages (l : list processing_entry) (w : world) : world :=
  World (store w) (config w) (embeddingMeta w) l (pendingCaptures w)
        (errorLog w) (timers w) (trace w).
Definition setPendingCaptures (pc : gmap string message) (w : world) : world :=
  World (store w) (config w) (embeddingMeta w) (processingPages w) pc
        (errorLog w) (timers w) (trace w).
Definition log_error (msg : string) (u : option string) (w : world) : world :=
  World (store w) (config w) (embeddingMeta w) (processingPages w) (pendingCaptures w)
        (errorLog w ++ [LogRow msg u]) (timers w) (trace w).
Definition setTimeout (m : message) (delay : Z) (w : world) : world :=
  World (store w) (config w) (embeddingMeta w) (processingPages w) (pendingCaptures w)
        (errorLog w) (timers w ++ [Timer delay m]) (trace w).
Definition emit (e : event) (w : world) : world :=
  World (store w) (config w) (embeddingMeta w) (processingPages w) (pendingCaptures w)
        (errorLog w) (timers w) (trace w ++ [e]).

(** *** Processing entries and pending payloads *)

Definition entry_for (u : string) (l : list processing_entry) : option processing_entry :=
  List.find (fun p => String.eqb (p_url p) u) l.

(** [addProcessingPage(meta)] *)
Definition addProcessingPage (meta : processing_entry) (w : world) : world :=
  let list := processingPages w in
  let list := match entry_for (p_url meta) list with
              | Some _ => list
              | None => meta :: list
              end in
  setProcessingPages (take 100 list) w.

(** [removeProcessingPage(url)] *)
Definition removeProcessingPage (u : string) (w : world) : world :=
  setProcessingPages
    (List.filter (fun p => negb (String.eqb (p_url p) u)) (processingPages w)) w.

(** [updateProcessingPage(url, fields)], for [fields] that give a status
    and perhaps a number of attempts. *)
Definition updateProcessingPage (u : string) (st : status) (attempts : option nat)
    (w : world) : world :=
  setProcessingPages
    (map (fun p =>
            if String.eqb (p_url p) u
            then {| p_url := p_url p; p_title := p_title p; p_timestamp := p_timestamp p;
                    p_status := st; p_attempts := default (p_attempts p) attempts |}
            else p)
         (processingPages w)) w.

(** [removePendingCapture(url)] and [getPendingCapture(url)] *)
Definition removePendingCapture (u : string) (w : world) : world :=
  match pendingCaptures w !! u with
  | Some _ => setPendingCaptures (delete u (pendingCaptures w)) w
  | None => w
  end.

Definition getPendingCapture (u : string) (w : world) : option message :=
  pendingCaptures w !! u.

(** [savePendingCapture(url, payload)] *)
Definition savePendingCapture (u : string) (payload : message) (w : world) : world :=
  setPendingCaptures (<[u := payload]> (pendingCaptures w)) w.

(** *** Embedding metadata *)

(** [ensureEmbeddingMeta(model, dim)]: written once. *)
Definition ensureEmbeddingMeta (model : option string) (dim : Z) (w : world) : world :=
  if dim <=? 0 then w
  else match embeddingMeta w with
       | Some _ => w
       | None => set_embeddingMeta (Some (EmbeddingMeta model dim)) w
       end.

(** [Array.isArray(vec) ? vec.length : 0] *)
Definition array_length (v : Vectors.vec float) : Z :=
  match v with Some l => Z.of_nat (length l) | None => 0 end.

(** The outcome of [POST /api/embed] for one text: an embedding, a response
    without one, or a request that throws. *)
Inductive embed_reply :=
| Embedded (vec : Vectors.vec float)
| NoEmbedding
| FetchFailed.

Section Environment.

(** [canonicalizeUrl] (it parses with the platform's [URL]). *)
Variable canonicalizeUrl : string -> string.
(** The provider's answer to [POST /api/embed] with an array of texts
    ([data.embeddings] of a response that is [ok]) and with one text (the
    first element of [data.embeddings], when there is one); [None] when the
    request fails. *)
Variable http_embed_batch : list jsstring -> option (list (Vectors.vec float)).
Variable http_embed : jsstring -> embed_reply.
(** What [computeSummary] returns: the model's summary, or the empty string
    when there is no text, no summary model or the call fails. *)
Variable computeSummary : jsstring -> string.
(** Whether the transaction that writes this record completes. *)
Variable db_write_ok : doc -> bool.
(** [Date.now()] *)
Variable now : Z.

(** [embedModel || 'embeddinggemma'] *)
Definition model_in_use (w : world) : option string :=
  Some (default "embeddinggemma"%string (embedModel (config w))).

(** [computeEmbedding(text)]: the embedding, or [None] when it throws. *)
Definition computeEmbedding (t : jsstring) (w : world) : option (Vectors.vec float) * world :=
  let w := emit (HttpEmbed t) w in
  match http_embed t with
  | Embedded vec => (Some vec, ensureEmbeddingMeta (model_in_use w) (array_length vec) w)
  | NoEmbedding => (None, w)
  | FetchFailed => (None, log_error "computeEmbedding failed" None w)
  end.

(** The fallback loop of [computeEmbeddingsBatch]: one call per text, the
    texts that fail are left out. *)
Fixpoint embed_each (texts : list jsstring) (w : world) : list (Vectors.vec float) * world :=
  match texts with
  | [] => ([], w)
  | t :: r =>
      match computeEmbedding t w with
      | (Some emb, w) => let '(out, w) := embed_each r w in (emb :: out, w)
      | (None, w) =>
          embed_each r (log_error "computeEmbeddingsBatch item failed" None w)
      end
  end.

(** [computeEmbeddingsBatch(texts)]. It catches every error itself. *)
Definition computeEmbeddingsBatch (texts : list jsstring) (w : world)
    : list (Vectors.vec float) * world :=
  match texts with
  | [] => ([], w)
  | _ =>
      let w := emit (HttpEmbedBatch texts) w in
      match http_embed_batch texts with
      | Some embeddings =>
          if (length embeddings =? length texts)%nat then
            let dim := match embeddings with e :: _ => array_length e | [] => 0 end in
            (embeddings, ensureEmbeddingMeta (model_in_use w) dim w)
          else embed_each texts w
      | None => embed_each texts w
      end
  end.

(** *** Documents *)

(** [items.map(i => i.text || '').join(' ')] *)
Fixpoint join_texts (l : list item) : jsstring :=
  match l with
  | [] => []
  | [it] => text it
  | it :: r => text it ++ 32%N :: join_texts r
  end.

Definition centroid_of (l : list item) : Vectors.vec float :=
  Vectors.computeCentroid (map embedding l).

(** [x || y] on centroids: an Array, even an empty one, is truthy. *)
Definition or_else (x y : Vectors.vec float) : Vectors.vec float :=
  match x with Some _ => x | None => y end.

(** The record a document written before versioning is turned into: its
    top-level content becomes its only version. [ts] is the timestamp of the
    version being merged. *)
Definition with_versions (d : doc) (ts : Z) : doc :=
  match versions d, latestVersionIndex d with
  | Some _, Some _ => d
  | _, _ =>
      let prevItems := default [] (items d) in
      {| canonicalUrl := canonicalUrl d; url := url d; title := title d;
         timestamp := timestamp d;
         latestVersionIndex := Some 0;
         versions := Some [ {| v_timestamp := if timestamp d =? 0 then ts else timestamp d;
                               v_hash := Text.stringHash (join_texts prevItems);
                               v_items := prevItems;
                               v_centroid := or_else (centroid d) (centroid_of prevItems);
                               v_summary := summary d |} ];
         items := items d; centroid := centroid d; summary := summary d |}
  end.

(** [Math.max(1, maxVersions || 3)] *)
Definition max_kept (maxVersions : Z) : nat :=
  Z.to_nat (Z.max 1 (if maxVersions =? 0 then 3 else maxVersions)).

(** [versions.push(v)], then the eviction from the front; the result is the
    list and the new [latestVersionIndex]. *)
Definition push_version (vs : list version) (v : version) (maxVersions : Z)
    : list version * Z :=
  let vs := vs ++ [v] in
  let latest := Z.of_nat (length vs) - 1 in
  let maxN := max_kept maxVersions in
  if (maxN <? length vs)%nat then
    let dropped := (length vs - maxN)%nat in
    let vs := drop dropped vs in
    (vs, Z.of_nat (length vs) - 1)
  else (vs, latest).

(** [getByCanonicalUrl(canUrl)]: by the index on [canonicalUrl], else by a
    scan that canonicalises the stored URLs. The key is the record's
    position in the store. *)
Fixpoint find_doc (p : doc -> bool) (st : list doc) (key : nat) : option (nat * doc) :=
  match st with
  | [] => None
  | d :: r => if p d then Some (key, d) else find_doc p r (S key)
  end.

Definition getByCanonicalUrl (canUrl : string) (w : world) : option (nat * doc) :=
  match find_doc (fun d => bool_decide (canonicalUrl d = Some canUrl)) (store w) 0 with
  | Some r => Some r
  | None => find_doc (fun d => String.eqb (canonicalizeUrl (url d)) canUrl) (store w) 0
  end.

(** A write to the store either completes or rejects. *)
Definition db_add (rec : doc) (w : world) : world + world :=
  let w := emit (DbAdd rec) w in
  if db_write_ok rec then inl (set_store (store w ++ [rec]) w) else inr w.

Definition db_put (key : nat) (d : doc) (w : world) : world + world :=
  let w := emit (DbPut key d) w in
  if db_write_ok d then inl (set_store (<[key := d]> (store w)) w) else inr w.

(** [upsertVersion(canUrl, url, title, version, maxVersions,
    similarityThreshold)]: [inl] the world after the write, [inr] the world
    in which it threw. *)
Definition upsertVersion (canUrl u : string) (ttl : jsstring) (v : version)
    (maxVersions : Z) (similarityThreshold : float) (w : world) : world + world :=
  match getByCanonicalUrl canUrl w with
  | None =>
      db_add {| canonicalUrl := Some canUrl; url := u; title := ttl;
                timestamp := v_timestamp v; latestVersionIndex := Some 0;
                versions := Some [v]; items := Some (v_items v);
                centroid := v_centroid v; summary := v_summary v |} w
  | Some (key, d) =>
      let d := with_versions d (v_timestamp v) in
      let vs := default [] (versions d) in
      let i := default 0 (latestVersionIndex d) in
      let latest := js_index vs i in
      let '(vs, i) :=
        match latest with
        | Some l =>
            if v_hash l =? v_hash v then
              (* No content change; bump timestamp *)
              (<[Z.to_nat i := {| v_timestamp := Z.max (v_timestamp l) (v_timestamp v);
                                  v_hash := v_hash l; v_items := v_items l;
                                  v_centroid := v_centroid l; v_summary := v_summary l |}]> vs, i)
            else
              let latestCentroid := or_else (v_centroid l) (centroid_of (v_items l)) in
              let similar :=
                match latestCentroid, v_centroid v with
                | Some _, Some _ =>
                    PrimFloat.leb similarityThreshold
                      (Vectors.cosineSimilarity (v_centroid v) latestCentroid)
                | _, _ => false
                end in
              if similar then (<[Z.to_nat i := v]> vs, i)
              else push_version vs v maxVersions
        | None => push_version vs v maxVersions
        end in
      (* Sync top-level fields *)
      match js_index vs i with
      | None => inr w
      | Some cur =>
          db_put key
            {| canonicalUrl := Some canUrl; url := u; title := ttl;
               timestamp := v_timestamp cur; latestVersionIndex := Some i;
               versions := Some vs; items := Some (v_items cur);
               centroid := v_centroid cur; summary := v_summary cur |} w
      end
  end.

(** The chunks [processAndStore] embeds. *)
Definition chunks_of (m : message) (normalizedText : jsstring) : list jsstring :=
  match m_chunks m with
  | Some (c :: cs) => List.filter (fun c => nonempty (Text.trim c)) (c :: cs)
  | _ => if nonempty normalizedText then [normalizedText] else []
  end.

(** [for (i ...) if (embeddings[i]) items.push({ text: chunksArr[i],
    embedding: embeddings[i] })] *)
Fixpoint pair_items (chunksArr : list jsstring) (embeddings : list (Vectors.vec float))
    : list item :=
  match chunksArr, embeddings with
  | c :: cs, e :: es =>
      match e with
      | Some _ => Item c e :: pair_items cs es
      | None => pair_items cs es
      end
  | _, _ => []
  end.

(** [doc.versions[doc.latestVersionIndex] || doc.versions[doc.versions.length - 1]],
    with the index it stands at. *)
Definition latest_or_last (vs : list version) (i : Z) : option (nat * version) :=
  match js_index vs i with
  | Some v => Some (Z.to_nat i, v)
  | None => match last vs with
            | Some v => Some (length vs - 1, v)%nat
            | None => None
            end
  end.

(** What follows a completed write in [processAndStore]. *)
Definition capture_done (u : string) (w : world) : world :=
  emit (PageCaptured u) (removeProcessingPage u (removePendingCapture u w)).

(** The stored document and its latest version when that version has the
    hash of the captured text: the document is versioned, and
    [latest && latest.hash === contentHash]. *)
Definition unchanged_latest (found : option (nat * doc)) (contentHash : Z)
    : option (nat * doc * list version * nat * version) :=
  match found with
  | Some (key, d) =>
      match versions d, latestVersionIndex d with
      | Some vs, Some i =>
          match latest_or_last vs i with
          | Some (j, latest) =>
              if v_hash latest =? contentHash then Some (key, d, vs, j, latest) else None
          | None => None
          end
      | _, _ => None
      end
  | None => None
  end.

(** The record the fast path writes: the timestamps and the metadata of the
    capture, everything else as stored. *)
Definition bumped (m : message) (d : doc) (vs : list version) (j : nat) (latest : version)
    : doc :=
  let latest := {| v_timestamp := m_timestamp m; v_hash := v_hash latest;
                   v_items := v_items latest; v_centroid := v_centroid latest;
                   v_summary := v_summary latest |} in
  {| canonicalUrl := canonicalUrl d; url := m_url m;
     title := if nonempty (m_title m) then m_title m else title d;
     timestamp := m_timestamp m;
     latestVersionIndex := latestVersionIndex d;
     versions := Some (<[j := latest]> vs);
     items := items d; centroid := centroid d; summary := summary d |}.

(** The version built from the capture. *)
Definition new_version (m : message) (items_ : list item) : version :=
  {| v_timestamp := m_timestamp m;
     v_hash := Text.stringHash (Text.normalizeText (m_text m));
     v_items := items_; v_centroid := centroid_of items_;
     v_summary := if nonempty (m_text m) then computeSummary (m_text m) else ""%string |}.

(** The [try] block of [processAndStore], after [addProcessingPage]:
    [inl] when it completes, [inr] the world in which it threw. *)
Definition processAndStore_try (m : message) (w : world) : world + world :=
  let normalizedText := Text.normalizeText (m_text m) in
  let chunksArr := chunks_of m normalizedText in
  let contentHash := Text.stringHash normalizedText in
  let canUrl := canonicalizeUrl (m_url m) in
  let found := getByCanonicalUrl canUrl w in
  match unchanged_latest found contentHash with
  | Some (key, d, vs, j, latest) =>
      (* exact same content as the latest version: bump timestamps and metadata *)
      match db_put key (bumped m d vs j latest) w with
      | inl w => inl (capture_done (m_url m) w)
      | inr w => inr w
      end
  | None =>
      let '(embeddings, w) := computeEmbeddingsBatch chunksArr w in
      let items_ := pair_items chunksArr embeddings in
      let w := if nonempty (m_text m) then emit (SummaryRequest (m_text m)) w else w in
      let newVersion := new_version m items_ in
      match found with
      | None =>
          match db_add {| canonicalUrl := Some canUrl; url := m_url m; title := m_title m;
                          timestamp := m_timestamp m; latestVersionIndex := Some 0;
                          versions := Some [newVersion]; items := Some items_;
                          centroid := v_centroid newVersion;
                          summary := v_summary newVersion |} w with
          | inl w => inl (capture_done (m_url m) w)
          | inr w => inr w
          end
      | Some (key, d) =>
          let d := with_versions d (m_timestamp m) in
          let vs := default [] (versions d) in
          let i := default 0 (latestVersionIndex d) in
          match js_index vs i with
          | None => inr w  (* [latest.centroid] on [undefined] *)
          | Some latest =>
              let latestCentroid :=
                default [] (or_else (v_centroid latest) (centroid_of (v_items latest))) in
              let newCentroid := default [] (v_centroid newVersion) in
              let similar :=
                nonempty latestCentroid && nonempty newCentroid
                && PrimFloat.leb (versioningSimilarityThreshold (config w))
                     (Vectors.cosineSimilarity (Some newCentroid) (Some latestCentroid)) in
              let '(vs, i) :=
                if similar then (<[Z.to_nat i := newVersion]> vs, i)
                else push_version vs newVersion (versioningMaxVersions (config w)) in
              match db_put key
                      {| canonicalUrl := Some canUrl; url := m_url m; title := m_title m;
                         timestamp := m_timestamp m; latestVersionIndex := Some i;
                         versions := Some vs; items := Some (v_items newVersion);
                         centroid := v_centroid newVersion;
                         summary := v_summary newVersion |} w with
              | inl w => inl (capture_done (m_url m) w)
              | inr w => inr w
              end
          end
      end
  end.

(** The [catch] block of [processAndStore]. *)
Definition processAndStore_catch (m : message) (w : world) : world :=
  let u := m_url m in
  let w := log_error "processAndStore failed" (Some u) w in
  let attempts :=
    S (match entry_for u (processingPages w) with
       | Some entry => p_attempts entry
       | None => O
       end) in
  let w := updateProcessingPage u error (Some attempts) w in
  if (attempts <=? 3)%nat then
    let backoff := 1000 * 2 ^ (Z.of_nat attempts - 1) in
    setTimeout m backoff w
  else
    let w := log_error "giving up after retries" (Some u) w in
    removePendingCapture u (removeProcessingPage u w).

(** How a call of [processAndStore] ends: it returns, or it throws before
    its [try] block (a message without a URL). *)
Inductive outcome :=
| Returned (w : world)
| Threw (w : world).

(** [processAndStore(message)] *)
Definition processAndStore (m : message) (w : world) : outcome :=
  if String.eqb (m_url m) "" then Threw w
  else
    let w := addProcessingPage
               {| p_url := m_url m; p_title := m_title m; p_timestamp := m_timestamp m;
                  p_status := processing; p_attempts := 0 |} w in
    match processAndStore_try m w with
    | inl w => Returned w
    | inr w => Returned (processAndStore_catch m w)
    end.


(** The [RETRY_PROCESSING] handler: the manual retry of the side panel. *)
Definition retryProcessing (u : string) (w : world) (q : Queue.state)
    : (unit + string) * world * Queue.state :=
  match getPendingCapture u w with
  | None =>
      (inr "No pending payload for this URL. Try opening the page and using Capture Now."%string,
       w, q)
  | Some payload =>
      (inl tt,
       updateProcessingPage u retrying (Some O) (removeProcessingPage u w),
       Queue.enqueueProcess payload 0 q)
  end.

(** *** What the embedding helpers leave alone *)

(** The records handed to the store so far. *)
Definition written (t : list event) : list doc :=
  omap (fun e => match e with
                 | DbAdd rec => Some rec
                 | DbPut _ d => Some d
                 | _ => None
                 end) t.

(** The embedding calls made so far. *)
Definition embedding_calls (t : list event) : list event :=
  List.filter (fun e => match e with
                        | HttpEmbedBatch _ | HttpEmbed _ => true
                        | _ => false
                        end) t.

(** Two worlds that differ at most in the embedding metadata, the error log
    and the embedding and summary calls recorded. *)
Definition same_data (w w' : world) : Prop :=
  store w' = store w /\ config w' = config w
  /\ processingPages w' = processingPages w /\ pendingCaptures w' = pendingCaptures w
  /\ timers w' = timers w /\ written (trace w') = written (trace w).

Lemma same_data_refl w : same_data w w.
Proof. repeat split. Qed.

Lemma same_data_trans w1 w2 w3 : same_data w1 w2 -> same_data w2 w3 -> same_data w1 w3.
Proof.
  intros (?&?&?&?&?&?) (?&?&?&?&?&?). repeat split; congruence.
Qed.

Lemma written_app t e : written (t ++ [e]) = written t ++ written [e].
Proof. unfold written. apply omap_app. Qed.

Lemma ensureEmbeddingMeta_same model dim w : same_data w (ensureEmbeddingMeta model dim w).
Proof.
  unfold ensureEmbeddingMeta. destruct (dim <=? 0); [apply same_data_refl|].
  destruct (embeddingMeta w); repeat split.
Qed.

Lemma log_error_same msg u w : same_data w (log_error msg u w).
Proof. repeat split. Qed.

Lemma computeEmbedding_same t w : same_data w (snd (computeEmbedding t w)).
Proof.
  unfold computeEmbedding.
  assert (He : same_data w (emit (HttpEmbed t) w)).
  { repeat split. simpl. rewrite written_app. simpl. apply app_nil_r. }
  destruct (http_embed t); simpl.
  - eapply same_data_trans; [exact He|apply ensureEmbeddingMeta_same].
  - exact He.
  - eapply same_data_trans; [exact He|apply log_error_same].
Qed.

Lemma embed_each_same texts w : same_data w (snd (embed_each texts w)).
Proof.
  revert w; induction texts as [|t r IH]; intros w; simpl; [apply same_data_refl|].
  pose proof (computeEmbedding_same t w) as Hc.
  destruct (computeEmbedding t w) as [[emb|] w1]; simpl in Hc.
  - specialize (IH w1). destruct (embed_each r w1) as [out w2]. simpl in *.
    eapply same_data_trans; eauto.
  - eapply same_data_trans; [exact Hc|].
    eapply same_data_trans; [apply log_error_same|apply IH].
Qed.

Lemma computeEmbeddingsBatch_same texts w :
  same_data w (snd (computeEmbeddingsBatch texts w)).
Proof.
  unfold computeEmbeddingsBatch. destruct texts as [|t r]; [apply same_data_refl|].
  generalize (t :: r) as texts. intros texts.
  assert (He : same_data w (emit (HttpEmbedBatch texts) w)).
  { repeat split. simpl. rewrite written_app. simpl. apply app_nil_r. }
  destruct (http_embed_batch texts) as [embs|].
  - destruct (length embs =? length texts)%nat.
    + eapply same_data_trans; [exact He|apply ensureEmbeddingMeta_same].
    + eapply same_data_trans; [exact He|apply embed_each_same].
  - eapply same_data_trans; [exact He|apply embed_each_same].
Qed.

(** *** The invariant of a versioned document *)

(** A document with at most [maxN] versions, whose [latestVersionIndex]
    points into them, and whose top-level [items], [centroid] and [summary]
    are those of the version it points at. *)
Definition doc_ok (maxN : nat) (d : doc) : Prop :=
  exists vs i cur,
    versions d = Some vs /\ latestVersionIndex d = Some i
    /\ 0 <= i < Z.of_nat (length vs) /\ (length vs <= maxN)%nat
    /\ js_index vs i = Some cur
    /\ items d = Some (v_items cur) /\ centroid d = v_centroid cur
    /\ summary d = v_summary cur.



Lemma js_index_Some {A} (l : list A) i x :
  js_index l i = Some x -> 0 <= i < Z.of_nat (length l) /\ l !! Z.to_nat i = Some x.
Proof.
  unfold js_index. destruct (Z.ltb_spec i 0) as [Hneg|Hpos]; [discriminate|]. intros Hl.
  split; [|exact Hl]. apply lookup_lt_Some in Hl. lia.
Qed.







Lemma getByCanonicalUrl_same canUrl w w' :
  store w' = store w -> getByCanonicalUrl canUrl w' = getByCanonicalUrl canUrl w.
Proof. intros H. unfold getByCanonicalUrl. now rewrite H. Qed.




















(** *** What a merge writes, whatever the store holds *)




Lemma doc_ok_mono n n' d : (n <= n')%nat -> doc_ok n d -> doc_ok n' d.
Proof.
  intros Hn (vs & i & cur & Hv & Hi & Hrange & Hlen & Hrest).
  exists vs, i, cur. repeat split; try tauto; lia.
Qed.











Lemma latest_or_last_lookup vs i j latest :
  latest_or_last vs i = Some (j, latest) -> vs !! j = Some latest.
Proof.
  unfold latest_or_last. destruct (js_index vs i) as [v|] eqn:Hi.
  - intros [= <- <-]. now apply js_index_Some in Hi.
  - destruct (last vs) as [v|] eqn:Hlast; [|discriminate]. intros [= <- <-].
    rewrite last_lookup in Hlast. now rewrite Nat.sub_1_r.
Qed.

(** C2. When the stored document is versioned and its latest version has
    the hash of the captured text, [processAndStore] writes the document
    back with the capture's timestamp on the document and on that version
    (and the capture's URL and title), and does nothing else to it: the
    version list keeps its length and its other entries,
    [latestVersionIndex] and the top-level [items], [centroid] and
    [summary] are untouched, and no embedding or summary call is made (the
    only events are the write and the [PAGE_CAPTURED] broadcast). *)
Theorem unchanged_content_only_bumps_timestamp m w key d vs i j latest :
  m_url m <> ""%string ->
  getByCanonicalUrl (canonicalizeUrl (m_url m)) w = Some (key, d) ->
  versions d = Some vs -> latestVersionIndex d = Some i ->
  latest_or_last vs i = Some (j, latest) ->
  v_hash latest = Text.contentHash (m_text m) ->
  db_write_ok (bumped m d vs j latest) = true ->
  exists w' vs',
    processAndStore m w = Returned w'
    /\ store w' = <[key := bumped m d vs j latest]> (store w)
    /\ trace w' = trace w ++ [DbPut key (bumped m d vs j latest); PageCaptured (m_url m)]
    /\ embeddingMeta w' = embeddingMeta w
    /\ timestamp (bumped m d vs j latest) = m_timestamp m
    /\ versions (bumped m d vs j latest) = Some vs'
    /\ length vs' = length vs
    /\ vs' !! j = Some {| v_timestamp := m_timestamp m; v_hash := v_hash latest;
                           v_items := v_items latest; v_centroid := v_centroid latest;
                           v_summary := v_summary latest |}
    /\ (forall k, k <> j -> vs' !! k = vs !! k)
    /\ latestVersionIndex (bumped m d vs j latest) = latestVersionIndex d
    /\ items (bumped m d vs j latest) = items d
    /\ centroid (bumped m d vs j latest) = centroid d
    /\ summary (bumped m d vs j latest) = summary d.
Proof.
  intros Hu Hfound Hv Hi Hl Hh Hdb.
  pose proof (latest_or_last_lookup _ _ _ _ Hl) as Hj.
  unfold processAndStore. rewrite (proj2 (String.eqb_neq _ _) Hu).
  set (w0 := addProcessingPage _ w).
  assert (Hfound0 : getByCanonicalUrl (canonicalizeUrl (m_url m)) w0 = Some (key, d)).
  { rewrite <- Hfound. now apply getByCanonicalUrl_same. }
  unfold processAndStore_try. rewrite Hfound0.
  unfold unchanged_latest. rewrite Hv, Hi, Hl.
  unfold Text.contentHash in Hh. rewrite (proj2 (Z.eqb_eq _ _) Hh).
  unfold db_put. rewrite Hdb.
  eexists _, (<[j := _]> vs). split; [reflexivity|].
  unfold capture_done, removePendingCapture, removeProcessingPage.
  split; [|split; [|split]].
  - destruct (pendingCaptures _ !! _); reflexivity.
  - destruct (pendingCaptures _ !! _); simpl; now rewrite <- app_assoc.
  - destruct (pendingCaptures _ !! _); reflexivity.
  - cbn [bumped timestamp versions latestVersionIndex items centroid summary].
    rewrite length_insert. repeat split; try reflexivity; try assumption.
    + apply list_lookup_insert_eq. eapply lookup_lt_Some, Hj.
    + intros k Hk. now apply list_lookup_insert_ne.
Qed.

(** *** Failure of a capture *)



Lemma entry_for_update u st a l p :
  entry_for u l = Some p ->
  entry_for u (map (fun q =>
                      if String.eqb (p_url q) u
                      then {| p_url := p_url q; p_title := p_title q;
                              p_timestamp := p_timestamp q; p_status := st;
                              p_attempts := default (p_attempts q) a |}
                      else q) l)
  = Some {| p_url := p_url p; p_title := p_title p; p_timestamp := p_timestamp p;
            p_status := st; p_attempts := default (p_attempts p) a |}.
Proof.
  unfold entry_for. induction l as [|q l IH]; simpl; [discriminate|].
  destruct (String.eqb (p_url q) u) eqn:Hq; simpl; rewrite Hq.
  - now intros [= ->].
  - exact IH.
Qed.

Lemma entry_for_remove u l :
  entry_for u (List.filter (fun p => negb (String.eqb (p_url p) u)) l) = None.
Proof.
  unfold entry_for. induction l as [|q l IH]; simpl; [reflexivity|].
  destruct (String.eqb (p_url q) u) eqn:Hq; simpl; [exact IH|]. now rewrite Hq.
Qed.


End Environment.

(** *** A small run *)

(** A provider that embeds a text by the parity of its first character, a
    store whose writes complete ([db_up]) or reject ([db_down]), and no
    summary model. *)
Definition toy_embedding (t : jsstring) : Vectors.vec float :=
  Some (match t with
        | c :: _ => if N.even c then [1; 0]%float else [0; 1]%float
        | [] => [0; 0]%float
        end).

Definition toy_batch (texts : list jsstring) : option (list (Vectors.vec float)) :=
  Some (map toy_embedding texts).

Definition toy_single (t : jsstring) : embed_reply := Embedded (toy_embedding t).

Definition no_summary (_ : jsstring) : string := ""%string.

Definition db_up (_ : doc) : bool := true.
Definition db_down (_ : doc) : bool := false.

Definition empty_world : world :=
  {| store := []; config := Settings 3 0.98%float None; embeddingMeta := None;
     processingPages := []; pendingCaptures := ∅; errorLog := []; timers := [];
     trace := [] |}.

Definition page (body : string) (ts : Z) : message :=
  {| m_url := "https://example.org/a"; m_title := js "A page"; m_timestamp := ts;
     m_chunks := None; m_text := js body |}.

Definition world_of (o : outcome) : world :=
  match o with Returned w => w | Threw w => w end.

Definition capture_with (db : doc -> bool) (m : message) (w : world) : world :=
  world_of (processAndStore (fun u => u) toy_batch toy_single no_summary db m w).

(** The page is captured once. *)
Definition visited_once : world := capture_with db_up (page "hello world" 1) empty_world.

Definition stored_page : doc :=
  default (Doc None "" [] 0 None None None None "") (store visited_once !! 0%nat).

Definition stored_version : version :=
  default (Version 0 0 [] None "") (default [] (versions stored_page) !! 0%nat).

(** Seen again with the same words and other white space, the page keeps
    its single version and takes the new timestamp; no embedding is
    requested. *)
Lemma unchanged_content_witness :
  exists w' vs',
    processAndStore (fun u => u) toy_batch toy_single no_summary db_up
      (page "  hello   world " 2) visited_once = Returned w'
    /\ trace w'
       = trace visited_once
         ++ [DbPut 0 (bumped (page "  hello   world " 2) stored_page [stored_version] 0
                        stored_version);
             PageCaptured "https://example.org/a"]
    /\ versions (bumped (page "  hello   world " 2) stored_page [stored_version] 0
                   stored_version) = Some vs'
    /\ length vs' = length [stored_version]
    /\ timestamp (bumped (page "  hello   world " 2) stored_page [stored_version] 0
                    stored_version) = 2.
Proof.
  destruct (unchanged_content_only_bumps_timestamp (fun u => u) toy_batch toy_single
              no_summary db_up (page "  hello   world " 2) visited_once
              0%nat stored_page [stored_version] 0 0%nat stored_version)
    as (w' & vs' & Hret & _ & Htrace & _ & Hts & Hvs & Hlen & _).
  - discriminate.
  - vm_compute. reflexivity.
  - vm_compute. reflexivity.
  - vm_compute. reflexivity.
  - vm_compute. reflexivity.
  - vm_compute. reflexivity.
  - reflexivity.
  - exists w', vs'. repeat split; assumption.
Defined.




(** Four captures whose contents differ pairwise leave the three newest
    versions, the index on the last. *)
Example eviction_example :
  let w := capture_with db_up (page "fourth" 4)
             (capture_with db_up (page "eleven" 3)
                (capture_with db_up (page "delta" 2)
                   (capture_with db_up (page "echo" 1) empty_world))) in
  map (fun d => (latestVersionIndex d, option_map (map v_timestamp) (versions d),
                 option_map (map text) (items d)))
      (store w)
  = [(Some 2, Some [2; 3; 4], Some [js "fourth"])].
Proof. vm_compute. reflexivity. Qed.

(** A capture while the store rejects writes. *)
Definition failed_once : world := capture_with db_down (page "hello world" 1) empty_world.


(** The message was saved as pending, and the store stays down through the
    first attempt and three retries: the timers armed were of 1000, 2000 and
    4000 ms; then the entry and the pending payload are gone, and a manual
    retry finds nothing to send. *)
Example exhaustion_example :
  let m := page "hello world" 1 in
  let w0 := savePendingCapture (m_url m) m empty_world in
  let w4 := capture_with db_down m (capture_with db_down m
               (capture_with db_down m (capture_with db_down m w0))) in
  map t_delay (timers w4) = [1000; 2000; 4000]
  /\ processingPages w4 = []
  /\ pendingCaptures w4 !! m_url m = None
  /\ In (LogRow "giving up after retries" (Some (m_url m))) (errorLog w4)
  /\ fst (fst (retryProcessing (m_url m) w4 Queue.initial))
     = inr "No pending payload for this URL. Try opening the page and using Capture Now."%string.
Proof. vm_compute. repeat split; auto 10. Qed.

(** *** The processing list *)

(** A processing list as the helpers keep it: one entry per URL at most,
    and no more than 100 entries. *)
Definition tidy (l : list processing_entry) : Prop :=
  NoDup (map p_url l) /\ (length l <= 100)%nat.

Lemma entry_for_None u l : entry_for u l = None <-> u ∉ map p_url l.
Proof.
  unfold entry_for. induction l as [|q l IH]; simpl.
  - split; [intros _; apply not_elem_of_nil|reflexivity].
  - rewrite not_elem_of_cons. destruct (String.eqb_spec (p_url q) u) as [Heq|Hne].
    + split; [discriminate|]. intros [H _]. congruence.
    + rewrite IH. split; [intros H; split; [congruence|exact H]|intros [_ H]; exact H].
Qed.

Lemma entry_for_Some u l p : entry_for u l = Some p -> p_url p = u /\ p ∈ l.
Proof.
  unfold entry_for. induction l as [|q l IH]; simpl; [discriminate|].
  destruct (String.eqb_spec (p_url q) u) as [Heq|Hne].
  - intros [= <-]. split; [exact Heq|apply list_elem_of_here].
  - intros H. destruct (IH H) as [Hu Hin]. split; [exact Hu|now apply list_elem_of_further].
Qed.

Lemma NoDup_urls_take n l : NoDup (map p_url l) -> NoDup (map p_url (take n l)).
Proof.
  revert n. induction l as [|q l IH]; intros [|n]; simpl; auto using NoDup_nil_2.
  intros Hnd. apply NoDup_cons in Hnd as [Hq Hl]. apply NoDup_cons. split; [|auto].
  intros Hin. apply Hq. apply list_elem_of_fmap in Hin as (p & Hp & Hin).
  apply list_elem_of_fmap. exists p. split; [exact Hp|].
  eapply subseteq_take, Hin.
Qed.

Lemma NoDup_urls_filter f l : NoDup (map p_url l) -> NoDup (map p_url (List.filter f l)).
Proof.
  induction l as [|q l IH]; simpl; [auto|]. intros Hnd.
  apply NoDup_cons in Hnd as [Hq Hl]. destruct (f q); [|auto].
  simpl. apply NoDup_cons. split; [|auto].
  intros Hin. apply Hq. apply list_elem_of_fmap in Hin as (p & Hp & Hin).
  apply list_elem_of_fmap. exists p. split; [exact Hp|].
  apply list_elem_of_In in Hin. apply List.filter_In in Hin as [Hin _].
  now apply list_elem_of_In.
Qed.

Lemma filter_length_le {A : Type} (f : A -> bool) (l : list A) :
  (length (List.filter f l) <= length l)%nat.
Proof. induction l as [|a l IH]; simpl; [lia|]. destruct (f a); simpl; lia. Qed.

Lemma entry_for_filter_other u u' l :
  u' <> u ->
  entry_for u' (List.filter (fun p => negb (String.eqb (p_url p) u)) l) = entry_for u' l.
Proof.
  intros Hne. unfold entry_for. induction l as [|q l IH]; simpl; [reflexivity|].
  destruct (String.eqb_spec (p_url q) u) as [Hq|Hq]; simpl.
  - rewrite IH. destruct (String.eqb_spec (p_url q) u'); [congruence|reflexivity].
  - now rewrite IH.
Qed.

Lemma entry_for_update_other u u' st a l :
  u' <> u ->
  entry_for u' (map (fun q =>
                       if String.eqb (p_url q) u
                       then {| p_url := p_url q; p_title := p_title q;
                               p_timestamp := p_timestamp q; p_status := st;
                               p_attempts := default (p_attempts q) a |}
                       else q) l)
  = entry_for u' l.
Proof.
  intros Hne. unfold entry_for. induction l as [|q l IH]; simpl; [reflexivity|].
  destruct (String.eqb_spec (p_url q) u) as [Hq|Hq]; simpl.
  - rewrite IH. destruct (String.eqb_spec (p_url q) u'); [congruence|reflexivity].
  - now rewrite IH.
Qed.

(** X9. The processing list stays tidy: whatever is added, removed or
    updated, it keeps one entry per URL at most and never grows beyond 100
    entries. Adding a page whose URL is listed leaves the list as it is;
    adding another puts it first, before the entries there were (of which
    the first 99 stay); removing a URL leaves exactly the entries of the
    other URLs, in order, so the URL is no longer listed; an update changes
    the status (and the attempts, when given) of the entry of its URL and
    nothing else, and never adds an entry. *)
Theorem processingPages_stay_tidy (meta : processing_entry) (u : string) (st : status)
    (attempts : option nat) (w : world) :
  tidy (processingPages w) ->
  tidy (processingPages (addProcessingPage meta w))
  /\ tidy (processingPages (removeProcessingPage u w))
  /\ tidy (processingPages (updateProcessingPage u st attempts w))
  /\ (forall listed, entry_for (p_url meta) (processingPages w) = Some listed ->
        processingPages (addProcessingPage meta w) = processingPages w)
  /\ (entry_for (p_url meta) (processingPages w) = None ->
        processingPages (addProcessingPage meta w) = meta :: take 99 (processingPages w))
  /\ processingPages (removeProcessingPage u w)
     = List.filter (fun p => negb (String.eqb (p_url p) u)) (processingPages w)
  /\ entry_for u (processingPages (removeProcessingPage u w)) = None
  /\ (forall u', u' <> u ->
        entry_for u' (processingPages (removeProcessingPage u w))
        = entry_for u' (processingPages w))
  /\ map p_url (processingPages (updateProcessingPage u st attempts w))
     = map p_url (processingPages w)
  /\ (forall p, entry_for u (processingPages w) = Some p ->
        entry_for u (processingPages (updateProcessingPage u st attempts w))
        = Some {| p_url := p_url p; p_title := p_title p; p_timestamp := p_timestamp p;
                  p_status := st; p_attempts := default (p_attempts p) attempts |})
  /\ (forall u', u' <> u ->
        entry_for u' (processingPages (updateProcessingPage u st attempts w))
        = entry_for u' (processingPages w)).
Proof.
  intros [Hnd Hlen].
  assert (Hupd : map p_url (processingPages (updateProcessingPage u st attempts w))
                 = map p_url (processingPages w)).
  { unfold updateProcessingPage. simpl. rewrite map_map. apply map_ext.
    intros q. now destruct (String.eqb (p_url q) u). }
  split; [|split; [|split; [|split; [|split; [|split; [|split; [|split; [|split; [|split]]]]]]]]].
  - unfold addProcessingPage, tidy. simpl.
    destruct (entry_for (p_url meta) (processingPages w)) eqn:Hfind.
    + split; [now apply NoDup_urls_take|rewrite length_take; lia].
    + split; [|rewrite length_take; lia]. apply NoDup_urls_take. simpl.
      apply NoDup_cons. split; [now apply entry_for_None|exact Hnd].
  - unfold removeProcessingPage, tidy. simpl. split; [now apply NoDup_urls_filter|].
    pose proof (filter_length_le (fun p => negb (String.eqb (p_url p) u)) (processingPages w)).
    lia.
  - unfold tidy. rewrite Hupd. split; [exact Hnd|].
    unfold updateProcessingPage. simpl. rewrite length_map. exact Hlen.
  - intros listed Hfind. unfold addProcessingPage. simpl. rewrite Hfind.
    apply take_ge. lia.
  - intros Hfind. unfold addProcessingPage. simpl. rewrite Hfind. reflexivity.
  - reflexivity.
  - apply entry_for_remove.
  - intros u' Hne. unfold removeProcessingPage. simpl.
    now apply entry_for_filter_other.
  - exact Hupd.
  - intros p Hp. unfold updateProcessingPage. simpl. now apply entry_for_update.
  - intros u' Hne. unfold updateProcessingPage. simpl. now apply entry_for_update_other.
Qed.

(** Two pages are listed, "a" in error after one attempt and "b" being
    processed; "c" is added, "a" is removed or updated. *)
Definition two_listed : world :=
  setProcessingPages
    [ProcessingEntry "https://example.org/a" (js "A page") 1 error 1;
     ProcessingEntry "https://example.org/b" (js "B page") 2 processing 0]
    empty_world.

Lemma processingPages_tidy_witness :
  tidy (processingPages two_listed)
  /\ tidy (processingPages
             (addProcessingPage
                (ProcessingEntry "https://example.org/c" (js "C page") 3 processing 0)
                two_listed))
  /\ tidy (processingPages (removeProcessingPage "https://example.org/a" two_listed))
  /\ tidy (processingPages
             (updateProcessingPage "https://example.org/a" retrying None two_listed)).
Proof.
  assert (Htidy : tidy (processingPages two_listed)).
  { split; [|simpl; lia]. simpl.
    apply NoDup_cons. split; [|apply NoDup_singleton].
    intros H. apply list_elem_of_singleton in H. discriminate H. }
  split; [exact Htidy|].
  pose proof (processingPages_stay_tidy
                (ProcessingEntry "https://example.org/c" (js "C page") 3 processing 0)
                "https://example.org/a" retrying None two_listed Htidy)
    as (H1 & H2 & H3 & _).
  split; [exact H1|]. split; [exact H2 | exact H3].
Defined.

(** On that list: the new page comes first, and the removal and the update
    touch the entry of "a" only. *)
Example processingPages_example :
  map p_url (processingPages
               (addProcessingPage
                  (ProcessingEntry "https://example.org/c" (js "C page") 3 processing 0)
                  two_listed))
  = ["https://example.org/c"; "https://example.org/a"; "https://example.org/b"]%string
  /\ map p_url (processingPages (removeProcessingPage "https://example.org/a" two_listed))
     = ["https://example.org/b"%string]
  /\ map p_status (processingPages
                     (updateProcessingPage "https://example.org/a" retrying None two_listed))
     = [retrying; processing].
Proof. vm_compute. auto. Qed.

(** *** Accepting, retrying and cancelling a capture *)






(** *** What a batch of embeddings costs and returns *)

Section Embeddings.

Variable http_embed_batch : list jsstring -> option (list (Vectors.vec float)).
Variable http_embed : jsstring -> embed_reply.

(** The embedding the single-text call gives for a text, when it gives
    one. *)
Definition single_embedding (t : jsstring) : option (Vectors.vec float) :=
  match http_embed t with
  | Embedded vec => Some vec
  | _ => None
  end.

Lemma embedding_calls_app t1 t2 :
  embedding_calls (t1 ++ t2) = embedding_calls t1 ++ embedding_calls t2.
Proof. apply List.filter_app. Qed.

Lemma ensureEmbeddingMeta_trace model dim w : trace (ensureEmbeddingMeta model dim w) = trace w.
Proof.
  unfold ensureEmbeddingMeta. destruct (dim <=? 0); [reflexivity|].
  now destruct (embeddingMeta w).
Qed.

Lemma embed_each_spec texts : forall w,
  fst (embed_each http_embed texts w) = omap single_embedding texts
  /\ embedding_calls (trace (snd (embed_each http_embed texts w)))
     = embedding_calls (trace w) ++ map HttpEmbed texts.
Proof.
  induction texts as [|t r IH]; intros w; simpl.
  - split; [reflexivity|now rewrite app_nil_r].
  - unfold computeEmbedding, single_embedding.
    destruct (http_embed t) as [vec| |]; simpl.
    + destruct (IH (ensureEmbeddingMeta (model_in_use (emit (HttpEmbed t) w))
                      (array_length vec) (emit (HttpEmbed t) w))) as [Hf Hc].
      destruct (embed_each http_embed r _) as [out w']. simpl in *.
      split; [now rewrite Hf|].
      rewrite Hc, ensureEmbeddingMeta_trace. simpl.
      rewrite embedding_calls_app. simpl. now rewrite <- app_assoc.
    + destruct (IH (log_error "computeEmbeddingsBatch item failed" None
                      (emit (HttpEmbed t) w))) as [Hf Hc].
      split; [exact Hf|]. rewrite Hc. simpl.
      rewrite embedding_calls_app. simpl. now rewrite <- app_assoc.
    + destruct (IH (log_error "computeEmbeddingsBatch item failed" None
                      (log_error "computeEmbedding failed" None (emit (HttpEmbed t) w))))
        as [Hf Hc].
      split; [exact Hf|]. rewrite Hc. simpl.
      rewrite embedding_calls_app. simpl. now rewrite <- app_assoc.
Qed.

Lemma omap_length_le {A B : Type} (f : A -> option B) (l : list A) :
  (length (omap f l) <= length l)%nat.
Proof.
  induction l as [|a l IH]; [simpl; lia|].
  change (omap f (a :: l)) with (match f a with Some b => b :: omap f l | None => omap f l end).
  destruct (f a); simpl length; lia.
Qed.

(** X11. [computeEmbeddingsBatch] asks nothing for no text. Otherwise it
    sends one batch request; when the reply has one embedding per text it
    is returned as it is. When it has not, or the request fails, every text
    is sent on its own, in order, and the result holds the embeddings of
    the texts that could be embedded and nothing for the others, so it may
    be shorter than the texts. Either way there is at most one embedding
    per text, and nothing but the embedding metadata, the error log and the
    trace changes. *)
Theorem computeEmbeddingsBatch_result (texts : list jsstring) (w : world) :
  let r := computeEmbeddingsBatch http_embed_batch http_embed texts w in
  let singles := omap single_embedding texts in
  fst r = match texts, http_embed_batch texts with
          | [], _ => []
          | _, Some embeddings =>
              if (length embeddings =? length texts)%nat then embeddings else singles
          | _, None => singles
          end
  /\ embedding_calls (trace (snd r))
     = embedding_calls (trace w)
       ++ match texts, http_embed_batch texts with
          | [], _ => []
          | _, Some embeddings =>
              HttpEmbedBatch texts
              :: (if (length embeddings =? length texts)%nat then [] else map HttpEmbed texts)
          | _, None => HttpEmbedBatch texts :: map HttpEmbed texts
          end
  /\ (length (fst r) <= length texts)%nat
  /\ same_data w (snd r).
Proof.
  cbv zeta.
  split; [|split; [|split]]; [| | |apply computeEmbeddingsBatch_same].
  - unfold computeEmbeddingsBatch. destruct texts as [|t r]; [reflexivity|].
    destruct (http_embed_batch (t :: r)) as [embeddings|].
    + destruct (length embeddings =? length (t :: r))%nat; [reflexivity|].
      apply embed_each_spec.
    + apply embed_each_spec.
  - unfold computeEmbeddingsBatch. destruct texts as [|t r]; [now rewrite app_nil_r|].
    assert (Hemit : embedding_calls (trace (emit (HttpEmbedBatch (t :: r)) w))
                    = embedding_calls (trace w) ++ [HttpEmbedBatch (t :: r)]).
    { simpl. now rewrite embedding_calls_app. }
    destruct (http_embed_batch (t :: r)) as [embeddings|].
    + destruct (length embeddings =? length (t :: r))%nat.
      * simpl snd. rewrite ensureEmbeddingMeta_trace. exact Hemit.
      * rewrite (proj2 (embed_each_spec (t :: r) _)), Hemit. now rewrite <- app_assoc.
    + rewrite (proj2 (embed_each_spec (t :: r) _)), Hemit. now rewrite <- app_assoc.
  - unfold computeEmbeddingsBatch. destruct texts as [|t r]; [simpl; lia|].
    pose proof (omap_length_le single_embedding (t :: r)) as Hle.
    destruct (http_embed_batch (t :: r)) as [embeddings|].
    + destruct (Nat.eqb_spec (length embeddings) (length (t :: r))) as [Heq|Hne].
      * simpl fst. lia.
      * rewrite (proj1 (embed_each_spec (t :: r) _)). exact Hle.
    + rewrite (proj1 (embed_each_spec (t :: r) _)). exact Hle.
Qed.

End Embeddings.

End Background.

(** ** background.js and manager.js: import *)

Module Importer.

(** [{ model, dim }] as an export file carries it; [model] is [None] when it
    is missing or falsy, [dim] is [None] when it is not a finite number. *)
Record file_meta := FileMeta {
  fm_model : option string;
  fm_dim : option Z;
}.

(** A version of an imported page, its items already mapped to
    [{ text, embedding }]; [timestamp] and [hash] are [None] when they are
    not numbers. *)
Record src_version := SrcVersion {
  sv_timestamp : option Z;
  sv_hash : option Z;
  sv_items : list item;
  sv_centroid : Vectors.vec float;
  sv_summary : string;
}.

(** An imported page, after the tolerant field mapping: [sp_versions] is
    [src.versions] (or [history], [snapshots]) when that is a non-empty
    Array and [[]] otherwise; [sp_items] is [src.items] (or [chunks],
    [passages]). *)
Record src_page := SrcPage {
  sp_url : string;
  sp_title : jsstring;
  sp_canonicalUrl : option string;
  sp_versions : list src_version;
  sp_items : list item;
  sp_timestamp : option Z;
  sp_summary : string;
}.

(** The [IMPORT_PAGES] message. *)
Record import_request := ImportRequest {
  ir_schemaVersion : Z;
  ir_embeddingMeta : option file_meta;
  ir_pages : list src_page;
}.



(** The counters of the import loop, with the world. *)
Record progress := Progress {
  pr_world : Background.world;
  done : nat;
  skippedIncompatible : nat;
}.

(** An item whose embedding [ensureVersionData] asks the provider for:
    missing, not an Array, or empty. *)
Definition needs_embedding (it : item) : bool :=
  match embedding it with
  | Some (_ :: _) => false
  | _ => true
  end.

(** [items[needIdx[j]].embedding = embs[j]] for the [j] with a truthy
    [embs[j]]. *)
Fixpoint fill_embeddings (l : list item) (embs : list (Vectors.vec float)) : list item :=
  match l with
  | [] => []
  | it :: r =>
      if needs_embedding it then
        match embs with
        | Some e :: es => Item (text it) (Some e) :: fill_embeddings r es
        | None :: es => it :: fill_embeddings r es
        | [] => it :: fill_embeddings r []
        end
      else it :: fill_embeddings r embs
  end.

(** The key of [versions.sort((a, b) => (a.timestamp || 0) - (b.timestamp || 0))]
    and the sort itself, which is stable. *)
Definition sort_key (v : src_version) : Z := default 0 (sv_timestamp v).

Fixpoint insert_by_timestamp (v : src_version) (l : list src_version) : list src_version :=
  match l with
  | [] => [v]
  | x :: r => if sort_key v <=? sort_key x then v :: l else x :: insert_by_timestamp v r
  end.

Definition sort_by_timestamp (l : list src_version) : list src_version :=
  fold_right insert_by_timestamp [] l.

(** An item the compatibility filter keeps: its embedding is not an Array,
    or has the current dimension. *)
Definition compatible (currentDim : Z) (it : item) : bool :=
  match embedding it with
  | Some e => Z.of_nat (length e) =? currentDim
  | None => true
  end.

(** [ready.items.find(it => Array.isArray(it.embedding) && it.embedding.length > 0)] *)
Definition first_embedded (l : list item) : option item :=
  List.find (fun it => negb (needs_embedding it)) l.

Section Environment.

Variable canonicalizeUrl : string -> string.
Variable http_embed_batch : list jsstring -> option (list (Vectors.vec float)).
Variable http_embed : jsstring -> Background.embed_reply.
Variable computeSummary : jsstring -> string.
Variable db_write_ok : doc -> bool.
Variable now : Z.

(** [ensureVersionData(v, { fillSummary: true })] *)
Definition ensureVersionData (v : src_version) (w : Background.world)
    : version * Background.world :=
  let ts := default now (sv_timestamp v) in
  let need := map text (List.filter needs_embedding (sv_items v)) in
  let '(embs, w) := Background.computeEmbeddingsBatch http_embed_batch http_embed need w in
  let items_ := fill_embeddings (sv_items v) embs in
  let centroid_ := Background.or_else (sv_centroid v) (Background.centroid_of items_) in
  let hash := default (Text.stringHash (Background.join_texts items_)) (sv_hash v) in
  let combined := Text.trim (Background.join_texts items_) in
  let ask := String.eqb (sv_summary v) "" && nonempty combined in
  let sum := if ask then computeSummary combined else ""%string in
  let w := if ask then Background.emit (Background.SummaryRequest combined) w else w in
  ({| v_timestamp := ts; v_hash := hash; v_items := items_; v_centroid := centroid_;
      v_summary := if String.eqb sum "" then sv_summary v else sum |}, w).

(** The versions imported for a page, in the order they are merged. *)
Definition versions_of (src : src_page) : list src_version :=
  sort_by_timestamp
    match sp_versions src with
    | _ :: _ => sp_versions src
    | [] => [ {| sv_timestamp := Some (default now (sp_timestamp src)); sv_hash := None;
                 sv_items := sp_items src; sv_centroid := None;
                 sv_summary := sp_summary src |} ]
    end.

(** [curMeta2?.dim || null] *)
Definition current_dim (w : Background.world) : option Z :=
  match Background.embeddingMeta w with
  | Some meta => if Background.meta_dim meta =? 0 then None else Some (Background.meta_dim meta)
  | None => None
  end.

(** The body of the inner loop for one version: [inl] when the loop goes
    on, [inr] when [upsertVersion] threw. *)
Definition import_version (incomingModel : option string) (currentDim : option Z)
    (maxVersions : Z) (threshold : float) (can u : string) (ttl : jsstring)
    (v : src_version) (st : progress) : progress + progress :=
  let '(ready, w) := ensureVersionData v (pr_world st) in
  let merge ready w :=
    match Background.upsertVersion canonicalizeUrl db_write_ok can u ttl ready
            maxVersions threshold w with
    | inl w => inl (Progress w (S (done st)) (skippedIncompatible st))
    | inr w => inr (Progress w (done st) (skippedIncompatible st))
    end in
  match currentDim with
  | Some dim =>
      if 0 <? dim then
        (* filter out items with mismatched dims *)
        let filtered := List.filter (compatible dim) (v_items ready) in
        if negb (nonempty filtered) && nonempty (v_items ready) then
          (* skip this version entirely *)
          inl (Progress w (done st) (S (skippedIncompatible st)))
        else
          merge {| v_timestamp := v_timestamp ready; v_hash := v_hash ready;
                   v_items := filtered; v_centroid := Background.centroid_of filtered;
                   v_summary := v_summary ready |} w
      else merge ready w
  | None =>
      (* No stored meta yet: infer from first embedding and persist once *)
      let w :=
        match first_embedded (v_items ready) with
        | Some first =>
            let model := match incomingModel with
                         | Some model => Some model
                         | None => Background.embedModel (Background.config w)
                         end in
            Background.ensureEmbeddingMeta model
              (Background.array_length (embedding first)) w
        | None => w
        end in
      merge ready w
  end.

(** The inner loop; a throw ends the page. *)
Fixpoint import_versions (incomingModel : option string) (currentDim : option Z)
    (maxVersions : Z) (threshold : float) (can u : string) (ttl : jsstring)
    (vs : list src_version) (st : progress) : progress :=
  match vs with
  | [] => st
  | v :: r =>
      match import_version incomingModel currentDim maxVersions threshold can u ttl v st with
      | inl st => import_versions incomingModel currentDim maxVersions threshold can u ttl r st
      | inr st => st
      end
  end.

Definition import_page (incomingModel : option string) (currentDim : option Z)
    (maxVersions : Z) (threshold : float) (src : src_page) (st : progress) : progress :=
  let u := sp_url src in
  let ttl := if nonempty (sp_title src) then sp_title src else js u in
  let can := canonicalizeUrl (default u (sp_canonicalUrl src)) in
  import_versions incomingModel currentDim maxVersions threshold can u ttl
    (versions_of src) st.

(** The [IMPORT_PAGES] handler: the world afterwards and the
    [skippedIncompatible] of the response. *)
Definition importPages (req : import_request) (w : Background.world) : progress :=
  let incomingMeta := ir_embeddingMeta req in
  (* Persist embedding meta once if provided and not already set *)
  let w :=
    match Background.embeddingMeta w, incomingMeta with
    | None, Some (FileMeta model (Some dim)) =>
        if 0 <? dim then Background.ensureEmbeddingMeta model dim w else w
    | _, _ => w
    end in
  (* Read current embedding dimension for compatibility filtering *)
  let currentDim := current_dim w in
  let maxVersions := Background.versioningMaxVersions (Background.config w) in
  let threshold := Background.versioningSimilarityThreshold (Background.config w) in
  let incomingModel := match incomingMeta with
                       | Some meta => fm_model meta
                       | None => None
                       end in
  fold_left (fun st src => import_page incomingModel currentDim maxVersions threshold src st)
    (ir_pages req) (Progress w 0 0).

(** *** The persisted metadata is written once *)
















(** *** Versions the filter rejects *)














Lemma insert_by_timestamp_Forall (P : src_version -> Prop) v l :
  P v -> Forall P l -> Forall P (insert_by_timestamp v l).
Proof.
  intros Hv. induction 1 as [|x l Hx Hl IH]; simpl; [auto|].
  destruct (sort_key v <=? sort_key x); auto.
Qed.

Lemma sort_by_timestamp_Forall (P : src_version -> Prop) l :
  Forall P l -> Forall P (sort_by_timestamp l).
Proof.
  induction 1 as [|x l Hx _ IH]; simpl; [constructor|].
  now apply insert_by_timestamp_Forall.
Qed.

Lemma insert_by_timestamp_length v l :
  length (insert_by_timestamp v l) = S (length l).
Proof.
  induction l as [|x l IH]; simpl; [reflexivity|].
  destruct (sort_key v <=? sort_key x); simpl; congruence.
Qed.

Lemma sort_by_timestamp_length l : length (sort_by_timestamp l) = length l.
Proof.
  induction l as [|x l IH]; simpl; [reflexivity|].
  now rewrite insert_by_timestamp_length, IH.
Qed.



(** *** The dimension inferred from the first embedded item *)




(** *** Every version, whatever its items *)















(** *** The first metadata written *)





End Environment.

(** *** Imports into a small store *)

Definition vector (n : nat) : Vectors.vec float := Some (repeat 1%float n).

Definition exported (dim : nat) : src_page :=
  {| sp_url := "https://example.org/a"; sp_title := js "A page";
     sp_canonicalUrl := None;
     sp_versions := [ {| sv_timestamp := Some 7; sv_hash := Some 42;
                         sv_items := [Item (js "some text") (vector dim)];
                         sv_centroid := vector dim; sv_summary := "kept" |} ];
     sp_items := []; sp_timestamp := Some 7; sp_summary := "kept" |}.

Definition import_with (req : import_request) (w : Background.world) : progress :=
  importPages (fun u => u) Background.toy_batch Background.toy_single
    Background.no_summary Background.db_up 0 req w.

Definition with_dim (dim : Z) : Background.world :=
  Background.set_embeddingMeta (Some (Background.EmbeddingMeta None dim))
    Background.empty_world.

(** Items of dimension 768 into a store whose metadata says 384: the version
    is skipped and counted, and the store stays empty. *)
Example import_768_into_384 :
  let st := import_with (ImportRequest 1 None [exported 768]) (with_dim 384) in
  skippedIncompatible st = 1%nat /\ done st = 0%nat
  /\ Background.store (pr_world st) = [].
Proof. vm_compute. auto. Qed.

(** A bare array into a store without metadata: the dimension of the first
    embedded item is persisted, and the page is stored. *)
Example import_infers_dimension :
  let st := import_with (ImportRequest 0 None [exported 768]) Background.empty_world in
  option_map Background.meta_dim (Background.embeddingMeta (pr_world st)) = Some 768
  /\ skippedIncompatible st = 0%nat /\ done st = 1%nat
  /\ length (Background.store (pr_world st)) = 1%nat.
Proof. vm_compute. auto. Qed.

(** A page with a version of dimension 384 and a later one of dimension 768,
    into a store whose metadata says 384. When the writes complete the
    first version is merged and the second skipped and counted. When the
    write of the first version fails the loop leaves the page: the second
    version is not reached, and nothing is counted. *)
Definition two_dimensions : src_page :=
  {| sp_url := "https://example.org/a"; sp_title := js "A page";
     sp_canonicalUrl := None;
     sp_versions := [ {| sv_timestamp := Some 1; sv_hash := Some 41;
                         sv_items := [Item (js "old text") (vector 384)];
                         sv_centroid := vector 384; sv_summary := "kept" |};
                      {| sv_timestamp := Some 2; sv_hash := Some 42;
                         sv_items := [Item (js "new text") (vector 768)];
                         sv_centroid := vector 768; sv_summary := "kept" |} ];
     sp_items := []; sp_timestamp := Some 2; sp_summary := "kept" |}.

Example import_counts_versions_reached :
  (skippedIncompatible (import_with (ImportRequest 1 None [two_dimensions]) (with_dim 384)),
   done (import_with (ImportRequest 1 None [two_dimensions]) (with_dim 384)))
  = (1%nat, 1%nat)
  /\ (skippedIncompatible
        (importPages (fun u => u) Background.toy_batch Background.toy_single
           Background.no_summary Background.db_down 0
           (ImportRequest 1 None [two_dimensions]) (with_dim 384)),
      done
        (importPages (fun u => u) Background.toy_batch Background.toy_single
           Background.no_summary Background.db_down 0
           (ImportRequest 1 None [two_dimensions]) (with_dim 384)))
     = (0%nat, 0%nat).
Proof. vm_compute. auto. Qed.

(** A version whose first item carries an embedding of dimension 768 and
    whose second item carries none, into a store without metadata: the
    embedding asked of the provider has dimension 2, and that dimension is
    persisted when the version is prepared, before the loop looks for the
    first embedded item. *)
Example import_persists_provider_dimension :
  option_map Background.meta_dim
    (Background.embeddingMeta
       (pr_world
          (import_with
             (ImportRequest 0 None
                [ {| sp_url := "https://example.org/c"; sp_title := js "C page";
                     sp_canonicalUrl := None; sp_versions := [];
                     sp_items := [Item (js "with") (vector 768); Item (js "without") None];
                     sp_timestamp := Some 3; sp_summary := "kept" |} ])
             Background.empty_world)))
  = Some 2.
Proof. vm_compute. reflexivity. Qed.


(** Within one import into a store without metadata the dimension is read
    once, before the loop: a later page of another dimension is merged as
    well. *)
Example import_mixed_dimensions :
  let other := {| sp_url := "https://example.org/b"; sp_title := js "B page";
                  sp_canonicalUrl := None; sp_versions := [];
                  sp_items := [Item (js "other text") (vector 384)];
                  sp_timestamp := Some 9; sp_summary := ""%string |} in
  let st := import_with (ImportRequest 0 None [exported 768; other])
              Background.empty_world in
  option_map Background.meta_dim (Background.embeddingMeta (pr_world st)) = Some 768
  /\ skippedIncompatible st = 0%nat /\ done st = 2%nat.
Proof. vm_compute. auto. Qed.

End Importer.

(** ** background.js and logger.js: the persisted log and the retry helper *)

Module Retry.

(** [arr.slice(-n)]: the last [n] elements. *)
Definition last_n {A : Type} (n : nat) (l : list A) : list A := drop (length l - n) l.

(** [appendLog(level, message, meta)] of background.js, on the rows stored
    under the key [logs]: [logs.push(entry); logs.slice(-500)]. *)
Definition appendLog {A : Type} (entry : A) (logs : list A) : list A :=
  last_n 500 (logs ++ [entry]).

(** [appendLogRow(row)] of logger.js, on the rows stored under the same
    key: [arr.push(row); if (arr.length > MAX_LOGS) arr.splice(0, arr.length - MAX_LOGS)]. *)
Definition MAX_LOGS : nat := 2000.

Definition appendLogRow {A : Type} (row : A) (arr : list A) : list A :=
  let arr := arr ++ [row] in
  if (MAX_LOGS <? length arr)%nat then drop (length arr - MAX_LOGS) arr else arr.

Section WithRetry.

(** [fn]: how the call number [i] of the operation ends, [inl] when it
    throws. *)
Variables A E : Type.
Variable fn : nat -> E + A.

(** What a run of [withRetry] does besides calling [fn]: the rows it
    appends to the log ([{ attempt, error }]) and the delays it sleeps. *)
Record run := Run {
  calls : nat;
  logged : list (nat * E);
  sleeps : list Z
}.

(** The [for] loop from [i] on, [left] rounds before [i] passes
    [retries]. *)
Fixpoint retry_loop (retries delayMs : Z) (left i : nat) (lastErr : option E) (r : run)
    : (option E + A) * run :=
  match left with
  | O => (inl lastErr, r)
  | S left' =>
      match fn i with
      | inr a => (inr a, Run (S (calls r)) (logged r) (sleeps r))
      | inl err =>
          let sleeps' :=
            if Z.of_nat i <? retries then sleeps r ++ [delayMs * 2 ^ Z.of_nat i] else sleeps r in
          retry_loop retries delayMs left' (S i) (Some err)
            (Run (S (calls r)) (logged r ++ [(i, err)]) sleeps')
      end
  end.

(** [withRetry(fn, { retries, delayMs })]: the value returned or the error
    thrown ([None]: [undefined], when the loop never ran). *)
Definition withRetry (retries delayMs : Z) : (option E + A) * run :=
  retry_loop retries delayMs (Z.to_nat (retries + 1)) 0 None (Run 0 [] []).

(** The delays slept after the failures of the calls [i .. i + m - 1]. *)
Definition backoffs (delayMs : Z) (i m : nat) : list Z :=
  map (fun j => delayMs * 2 ^ Z.of_nat j) (seq i m).

Lemma backoffs_total delayMs m :
  fold_right Z.add 0 (backoffs delayMs 0 m) = delayMs * (2 ^ Z.of_nat m - 1).
Proof.
  unfold backoffs. induction m as [|m IH]; [simpl; lia|].
  rewrite seq_S, map_app, fold_right_app. simpl.
  assert (Hshift : forall l acc, fold_right Z.add acc l = fold_right Z.add 0 l + acc).
  { induction l as [|x l IHl]; intros acc; simpl; [lia|]. rewrite IHl. lia. }
  rewrite Hshift, IH.
  replace (Z.of_nat (S m)) with (Z.of_nat m + 1) by lia.
  rewrite Z.pow_add_r by lia. lia.
Qed.

(** A run of failures. *)
Lemma retry_loop_failures retries delayMs (err : nat -> E) m : forall left i lastErr r,
  (forall j, (i <= j < i + m)%nat -> fn j = inl (err j)) ->
  (Z.of_nat (i + m) <= retries) ->
  retry_loop retries delayMs (m + left) i lastErr r
  = retry_loop retries delayMs left (i + m)
      (match m with O => lastErr | S m' => Some (err (i + m')%nat) end)
      (Run (calls r + m) (logged r ++ map (fun j => (j, err j)) (seq i m))
           (sleeps r ++ backoffs delayMs i m)).
Proof.
  induction m as [|m IH]; intros left i lastErr r Hfail Hle.
  - simpl. rewrite Nat.add_0_r, !app_nil_r, Nat.add_0_r. now destruct r.
  - simpl. rewrite (Hfail i) by lia.
    rewrite (proj2 (Z.ltb_lt (Z.of_nat i) retries)) by lia.
    rewrite IH; [|intros j Hj; apply Hfail; lia|lia].
    cbn [calls logged sleeps].
    replace (S i + m)%nat with (i + S m)%nat by lia.
    replace (match m with O => Some (err i) | S m' => Some (err (S i + m')%nat) end)
      with (Some (err (i + m)%nat))
      by (destruct m; f_equal; f_equal; lia).
    f_equal. unfold backoffs. cbn [seq map]. rewrite <- !app_assoc. f_equal. lia.
Qed.

Lemma retry_loop_calls retries delayMs left : forall i lastErr r,
  (calls (snd (retry_loop retries delayMs left i lastErr r)) <= calls r + left)%nat.
Proof.
  induction left as [|left IH]; intros i lastErr r; simpl; [lia|].
  destruct (fn i) as [e|a]; simpl; [|lia].
  match goal with |- context [retry_loop _ _ left (S i) ?e ?r'] =>
    pose proof (IH (S i) e r') as H end.
  simpl in H. lia.
Qed.

(** X12. [withRetry] calls the operation [retries + 1] times at most. The
    first call that succeeds ends it: after [k] failures it has logged [k]
    rows and slept [delayMs * 2^j] after the failure number [j], and it
    returns the value. When every call fails it throws the last error,
    having slept after every failure but the last, [delayMs * (2^retries - 1)]
    in all. With a negative [retries] the operation is never called and
    [undefined] is thrown. *)
Theorem withRetry_attempts (retries delayMs : Z) (err : nat -> E) :
  (calls (snd (withRetry retries delayMs)) <= Z.to_nat (retries + 1))%nat
  /\ (forall k a,
        Z.of_nat k <= retries -> (forall j, (j < k)%nat -> fn j = inl (err j)) ->
        fn k = inr a ->
        withRetry retries delayMs
        = (inr a, Run (S k) (map (fun j => (j, err j)) (seq 0 k)) (backoffs delayMs 0 k)))
  /\ (forall n,
        retries = Z.of_nat n -> (forall j, (j <= n)%nat -> fn j = inl (err j)) ->
        withRetry retries delayMs
        = (inl (Some (err n)),
           Run (S n) (map (fun j => (j, err j)) (seq 0 (S n))) (backoffs delayMs 0 n))
        /\ fold_right Z.add 0 (backoffs delayMs 0 n) = delayMs * (2 ^ retries - 1))
  /\ (retries < 0 -> withRetry retries delayMs = (inl None, Run 0 [] [])).
Proof.
  split; [|split; [|split]].
  - unfold withRetry.
    pose proof (retry_loop_calls retries delayMs (Z.to_nat (retries + 1)) 0 None (Run 0 [] [])) as H.
    simpl in H. exact H.
  - intros k a Hk Hfail Hok. unfold withRetry.
    replace (Z.to_nat (retries + 1)) with (k + S (Z.to_nat (retries - Z.of_nat k)))%nat by lia.
    rewrite (retry_loop_failures retries delayMs err k); [|intros j Hj; apply Hfail; lia|lia].
    simpl. rewrite Hok. reflexivity.
  - intros n Hn Hfail. split; [|subst retries; apply backoffs_total].
    unfold withRetry.
    replace (Z.to_nat (retries + 1)) with (n + 1)%nat by lia.
    rewrite (retry_loop_failures retries delayMs err n); [|intros j Hj; apply Hfail; lia|lia].
    simpl. rewrite (Hfail n) by lia.
    rewrite (proj2 (Z.ltb_ge (Z.of_nat n) retries)) by lia.
    f_equal. f_equal.
    change ((0%nat, err 0%nat) :: map (fun j => (j, err j)) (seq 1 n))
      with (map (fun j => (j, err j)) (seq 0 (S n))).
    rewrite seq_S, map_app. reflexivity.
  - intros Hneg. unfold withRetry.
    replace (Z.to_nat (retries + 1)) with O by lia. reflexivity.
Qed.

End WithRetry.

Arguments Run {E} calls logged sleeps.
Arguments withRetry {A E} fn retries delayMs.

(** The defaults, [retries = 2] and [delayMs = 1000], on an operation that
    keeps failing: three calls, two sleeps of 1000 and 2000 ms. *)
Example withRetry_defaults :
  withRetry (fun i => inl i : nat + unit) 2 1000
  = (inl (Some 2%nat), Run 3 [(0, 0); (1, 1); (2, 2)]%nat [1000; 2000]).
Proof. reflexivity. Qed.

Lemma last_n_length {A : Type} (n : nat) (l : list A) :
  length (last_n n l) = Nat.min n (length l).
Proof. unfold last_n. rewrite length_drop. lia. Qed.

(** X13. The two writers of the persisted log cap it: [appendLog] keeps the
    last 500 rows and [appendLogRow] the last 2000, the row just appended
    being the last one and the rows kept being the most recent ones in
    their order. Both write the same key, so after one [appendLog] the log
    holds at most 500 rows however many [appendLogRow] had kept. *)
Theorem log_is_capped {A : Type} (row : A) (logs : list A) :
  length (appendLog row logs) = Nat.min 500 (length logs + 1)
  /\ length (appendLogRow row logs) = Nat.min 2000 (length logs + 1)
  /\ (exists old, logs ++ [row] = old ++ appendLog row logs)
  /\ (exists old, logs ++ [row] = old ++ appendLogRow row logs)
  /\ last (appendLog row logs) = Some row
  /\ last (appendLogRow row logs) = Some row
  /\ (length (appendLog row (appendLogRow row logs)) <= 500)%nat.
Proof.
  assert (Hlen : length (logs ++ [row]) = (length logs + 1)%nat)
    by (rewrite length_app; reflexivity).
  assert (Hdrop : forall n, (n < length (logs ++ [row]))%nat ->
                            last (drop n (logs ++ [row])) = Some row).
  { intros n Hn. rewrite last_lookup, length_drop, lookup_drop.
    replace (n + Nat.pred (length (logs ++ [row]) - n))%nat with (length logs) by lia.
    rewrite lookup_app_r by lia. now rewrite Nat.sub_diag. }
  unfold appendLog, appendLogRow, last_n, MAX_LOGS. cbv zeta.
  split; [rewrite length_drop; lia|]. split; [|split; [|split; [|split; [|split]]]].
  - destruct (Nat.ltb_spec 2000 (length (logs ++ [row]))); [rewrite length_drop|]; lia.
  - exists (take (length (logs ++ [row]) - 500) (logs ++ [row])). now rewrite take_drop.
  - destruct (Nat.ltb_spec 2000 (length (logs ++ [row]))).
    + exists (take (length (logs ++ [row]) - 2000) (logs ++ [row])). now rewrite take_drop.
    + now exists [].
  - apply Hdrop. lia.
  - destruct (Nat.ltb_spec 2000 (length (logs ++ [row]))); [apply Hdrop; lia|].
    rewrite last_snoc. reflexivity.
  - rewrite length_drop. lia.
Qed.

End Retry.

(** ** background.js: capture rules *)

Module CaptureRules.

(** [s.endsWith(suffix)] *)
Definition ends_with (s suffix : jsstring) : bool :=
  (length suffix <=? length s)%nat
  && bool_decide (drop (length s - length suffix) s = suffix).

Lemma ends_with_spec s suffix :
  ends_with s suffix = true <-> exists pre, s = pre ++ suffix.
Proof.
  unfold ends_with. rewrite andb_true_iff, Nat.leb_le, bool_decide_eq_true. split.
  - intros [Hlen Hdrop]. exists (take (length s - length suffix) s).
    rewrite <- Hdrop at 2. now rewrite take_drop.
  - intros [pre ->]. rewrite length_app. split; [lia|].
    replace (length pre + length suffix - length suffix)%nat with (length pre) by lia.
    now rewrite drop_app_length.
Qed.

Section Rules.

(** [String.prototype.toLowerCase] *)
Variable toLowerCase : jsstring -> jsstring.

(** [String(raw || '').trim().toLowerCase()] *)
Definition pattern_of (raw : jsstring) : jsstring := toLowerCase (Text.trim raw).

(** The loop of [matchesDomain] over the list, for the lower-cased host
    [h]. *)
Fixpoint matches_any (h : jsstring) (list : list jsstring) : bool :=
  match list with
  | [] => false
  | raw :: r =>
      let pat := pattern_of raw in
      if negb (nonempty pat) then matches_any h r
      else if Scoring.starts_with (js "*.") pat then
        let suffix := drop 1 pat in
        if ends_with h suffix then true else matches_any h r
      else if bool_decide (h = pat) || ends_with h (46%N :: pat) then true
      else matches_any h r
  end.

(** [matchesDomain(host, list)] *)
Definition matchesDomain (host : jsstring) (list : list jsstring) : bool :=
  if nonempty host then matches_any (toLowerCase host) list else false.

(** [shouldCapture(url)], for the [paused] setting, the stored rules and
    the host of the URL ([''] when the URL does not parse). *)
Definition shouldCapture (paused : bool) (whitelistDomains blacklistDomains : list jsstring)
    (host : jsstring) : bool :=
  if paused then false
  else if nonempty whitelistDomains then matchesDomain host whitelistDomains
  else if matchesDomain host blacklistDomains then false
  else true.

(** A host under a pattern: [*.d] stands for the hosts that end in [.d],
    a bare domain for itself and the hosts that end in a dot and it. *)
Definition under (h pat : jsstring) : Prop :=
  if Scoring.starts_with (js "*.") pat
  then exists sub, h = sub ++ drop 1 pat
  else h = pat \/ exists sub, h = sub ++ 46%N :: pat.

Lemma matches_any_spec h list :
  matches_any h list = true
  <-> exists raw, raw ∈ list /\ pattern_of raw <> [] /\ under h (pattern_of raw).
Proof.
  induction list as [|raw r IH]; cbn [matches_any]; cbv zeta.
  - split; [discriminate|]. intros (raw & Hin & _). now apply elem_of_nil in Hin.
  - assert (Hhere : (pattern_of raw <> [] /\ under h (pattern_of raw))
                    \/ matches_any h r = true
                    <-> exists raw', raw' ∈ raw :: r /\ pattern_of raw' <> []
                                     /\ under h (pattern_of raw')).
    { rewrite IH. split.
      - intros [[Hne Hu]|(raw' & Hin & Hne & Hu)].
        + exists raw. split; [apply list_elem_of_here|auto].
        + exists raw'. split; [now apply list_elem_of_further|auto].
      - intros (raw' & Hin & Hne & Hu). apply elem_of_cons in Hin as [->|Hin]; [auto|].
        right. exists raw'. auto. }
    rewrite <- Hhere. clear Hhere IH. unfold under.
    destruct (pattern_of raw) as [|a pat] eqn:Hpat.
    { simpl. split; [auto|]. intros [[Hne _]|H]; [congruence|exact H]. }
    cbn [nonempty negb].
    destruct (Scoring.starts_with (js "*.") (a :: pat)) eqn:Hw.
    + destruct (ends_with h (drop 1 (a :: pat))) eqn:He.
      * split; [|reflexivity]. intros _. left. split; [discriminate|].
        now apply ends_with_spec.
      * split; [auto|]. intros [[_ Hu]|H]; [|exact H].
        apply ends_with_spec in Hu. congruence.
    + destruct (bool_decide (h = a :: pat) || ends_with h (46%N :: a :: pat)) eqn:Hm.
      * split; [|reflexivity]. intros _. left. split; [discriminate|].
        apply orb_true_iff in Hm as [Hm|Hm].
        -- left. now apply bool_decide_eq_true in Hm.
        -- right. now apply ends_with_spec.
      * apply orb_false_iff in Hm as [Hm1 Hm2]. apply bool_decide_eq_false in Hm1.
        split; [auto|]. intros [[_ [Hu|Hu]]|H]; [contradiction| |exact H].
        apply ends_with_spec in Hu. congruence.
Qed.

(** X14. Capture rules. A host matches a list when it is not empty and lies
    under one of its patterns, trimmed and lower-cased, blank ones skipped:
    a bare domain stands for itself and for every host that ends in a dot
    followed by it; [*.d] stands for the hosts that end in [.d] only, so it
    does not match [d] itself. Nothing is captured while capturing is
    paused; a white list that is not empty decides alone, the black list
    being ignored; without a white list everything off the black list is
    captured, a URL whose host cannot be read included. *)
Theorem capture_rules :
  (forall host list,
      matchesDomain host list = true
      <-> host <> [] /\ exists raw, raw ∈ list /\ pattern_of raw <> []
                               /\ under (toLowerCase host) (pattern_of raw))
  /\ (forall d sub : jsstring,
        under (sub ++ 46%N :: d) (js "*." ++ d) /\ ~ under d (js "*." ++ d)
        /\ (Scoring.starts_with (js "*.") d = false ->
            under d d /\ under (sub ++ 46%N :: d) d))
  /\ (forall wl bl host, shouldCapture true wl bl host = false)
  /\ (forall w wl bl host,
        shouldCapture false (w :: wl) bl host = matchesDomain host (w :: wl))
  /\ (forall bl host,
        shouldCapture false [] bl host = negb (matchesDomain host bl))
  /\ (forall bl, shouldCapture false [] bl [] = true).
Proof.
  split; [|split; [|split; [|split; [|split]]]].
  - intros host list. unfold matchesDomain. destruct host as [|c host]; simpl.
    + split; [discriminate|]. intros [H _]. congruence.
    + rewrite matches_any_spec. split; [intros H; split; [discriminate|exact H]|].
      intros [_ H]. exact H.
  - intros d sub. unfold under.
    change (Scoring.starts_with (js "*.") (js "*." ++ d)) with true. cbv iota.
    change (drop 1 (js "*." ++ d)) with (46%N :: d).
    split; [now exists sub|]. split.
    + intros [sub' H]. apply (f_equal length) in H. rewrite length_app in H. simpl in H. lia.
    + intros ->. split; [now left|]. right. now exists sub.
  - reflexivity.
  - reflexivity.
  - intros bl host. unfold shouldCapture. simpl. now destruct (matchesDomain host bl).
  - reflexivity.
Qed.

End Rules.

End CaptureRules.

(** * Question answering: askQuestion (src/background.js) *)

Module Ask.

(** The [kind] label the code passes to [logFetch] with each chat request. *)
Inductive kind := chat_decompose | chat_ask_extract | chat_ask_extract_tools | chat_ask_compose.

Record tool_call := ToolCall {
  tc_name : jsstring;
  tc_arguments : jsstring
}.

Inductive role := system | user | assistant | tool.

Record chat_message := ChatMessage {
  msg_role : role;
  msg_content : jsstring;
  msg_tool_calls : list tool_call;
  msg_name : option jsstring
}.

(** A request to [/api/chat]: [tools] tells whether the tool schemas are
    attached. *)
Record request := Request {
  rq_kind : kind;
  rq_tools : bool;
  rq_messages : list chat_message
}.

(** [json.message]: its content ([''] when missing) and its [tool_calls]
    (empty when it is not an Array). *)
Record reply := Reply {
  r_content : jsstring;
  r_tool_calls : list tool_call
}.

(** What a request comes back with: [logFetch] rejects, the status is not
    ok, [resp.json()] rejects, or a body with or without a [message]. *)
Inductive response :=
| FetchThrew
| NotOk
| BadBody
| Body (message : option reply).

Record hit := Hit {
  h_url : jsstring;
  h_snippet : jsstring;
  h_title : jsstring;
  h_score : option float;
  h_weightedScore : option float;
  h_crossScore : option float
}.

Record source := Source {
  s_index : nat;
  s_title : jsstring;
  s_url : jsstring;
  s_domain : jsstring
}.

Record explanation := Explanation {
  x_index : nat;
  x_hit : hit
}.

(** askQuestion returns a bare string on one path and an object on the
    others. *)
Inductive answer :=
| Plain (text : jsstring)
| Structured (text : jsstring) (sources : list source) (explanations : list explanation).

(** The settings askQuestion reads, taken as one snapshot; [chatModel] is
    empty when none is set, [detailed] tells whether [answerMode] is
    ['detailed'], and the numbers are the integers the options page
    stores. *)
Record settings := Settings {
  chatModel : jsstring;
  detailed : bool;
  enableTools : bool;
  maxToolSteps : Z;
  askTopConcise : Z;
  askTopDetailed : Z
}.

(** What a run does that can be seen from outside, in order. *)
Inductive event :=
| Search (sub : jsstring)
| Chat (rq : request)
| Tool (tc : tool_call).

Definition of_kind (k : kind) (e : event) : bool :=
  match e with
  | Chat rq =>
      match rq_kind rq, k with
      | chat_decompose, chat_decompose
      | chat_ask_extract, chat_ask_extract
      | chat_ask_extract_tools, chat_ask_extract_tools
      | chat_ask_compose, chat_ask_compose => true
      | _, _ => false
      end
  | _ => false
  end.

(** The number of requests of a kind in a trace. *)
Definition requests (k : kind) (tr : list event) : nat :=
  length (filter (fun e => of_kind k e = true) tr).

(** ** Numbers that may be undefined *)

Definition truthy (x : option float) : bool :=
  match x with
  | Some f => negb (PrimFloat.eqb f 0%float) && PrimFloat.eqb f f
  | None => false
  end.

(** [a || b] *)
Definition js_or (a b : option float) : option float := if truthy a then a else b.

(** [a > b]: false as soon as one side is undefined. *)
Definition js_gt (a b : option float) : bool :=
  match a, b with
  | Some x, Some y => PrimFloat.ltb y x
  | _, _ => false
  end.

(** [a - b]: NaN as soon as one side is undefined. *)
Definition js_minus (a b : option float) : float :=
  match a, b with
  | Some x, Some y => PrimFloat.sub x y
  | _, _ => PrimFloat.nan
  end.

(** ** The de-duplication map

    A JS [Map] keeps its keys in insertion order; setting an existing key
    keeps its place. *)

Definition hit_map := list (jsstring * hit).

Definition key_of (h : hit) : jsstring := h_url h ++ js "::" ++ h_snippet h.

Fixpoint map_get (k : jsstring) (m : hit_map) : option hit :=
  match m with
  | [] => None
  | (k', h) :: r => if decide (k = k') then Some h else map_get k r
  end.

Fixpoint map_set (k : jsstring) (h : hit) (m : hit_map) : hit_map :=
  match m with
  | [] => [(k, h)]
  | (k', h') :: r => if decide (k = k') then (k, h) :: r else (k', h') :: map_set k h r
  end.

Definition map_values (m : hit_map) : list hit := map snd m.

(** [hit.crossScore || hit.weightedScore || hit.score] *)
Definition best_score (h : hit) : option float :=
  js_or (js_or (h_crossScore h) (h_weightedScore h)) (h_score h).

(** One hit into the map: a new key is added, a known key keeps the hit of
    the higher score. *)
Definition merge_hit (m : hit_map) (h : hit) : hit_map :=
  let key := key_of h in
  match map_get key m with
  | None => map_set key h m
  | Some existing =>
      if js_gt (best_score h) (best_score existing) then map_set key h m else m
  end.

(** ** Sorting

    [Array.prototype.sort] is stable; [sort_with] is the stable insertion
    sort for a comparator that returns a number, an element moving behind
    another only when the comparator is positive. The order is the
    engine's own when the comparator returns NaN. *)

Section Sorting.

Variable A : Type.
Variable compare : A -> A -> float.

Fixpoint insert_with (a : A) (l : list A) : list A :=
  match l with
  | [] => [a]
  | b :: r => if PrimFloat.ltb 0%float (compare a b) then b :: insert_with a r else a :: l
  end.

Definition sort_with (l : list A) : list A := fold_right insert_with [] l.

Lemma insert_with_length a l : length (insert_with a l) = S (length l).
Proof.
  induction l as [|b r IH]; simpl; [reflexivity|].
  destruct (PrimFloat.ltb 0%float (compare a b)); simpl; congruence.
Qed.

Lemma sort_with_length l : length (sort_with l) = length l.
Proof.
  induction l as [|a l IH]; simpl; [reflexivity|].
  now rewrite insert_with_length, IH.
Qed.

End Sorting.

Arguments insert_with {A} compare a l.
Arguments sort_with {A} compare l.

(** [a.crossScore !== undefined ? a.crossScore : (a.weightedScore || a.score)] *)
Definition sort_score (h : hit) : option float :=
  match h_crossScore h with
  | Some c => Some c
  | None => js_or (h_weightedScore h) (h_score h)
  end.

Definition by_score (a b : hit) : float := js_minus (sort_score b) (sort_score a).

Definition by_token_then_score (a b : bool * hit) : float :=
  if Bool.eqb (fst b) (fst a) then by_score (snd a) (snd b)
  else if fst b then 1%float else (-1)%float.

Definition stopwords : list jsstring :=
  map js ["what"; "did"; "how"; "the"; "a"; "an"; "in"; "on"; "to"; "is"; "are"; "was";
          "were"; "and"; "or"; "of"; "about"; "say"; "who"; "why"; "when"; "where"]%string.

(** ** Text helpers *)

Definition nl : jsstring := [10%N].

(** [s.split(sep)] for a one-character separator. [cur] is the piece being
    read, reversed. *)
Fixpoint split_on (sep : N) (cur : jsstring) (s : jsstring) : list jsstring :=
  match s with
  | [] => [rev cur]
  | c :: r => if (c =? sep)%N then rev cur :: split_on sep [] r else split_on sep (c :: cur) r
  end.

(** [l.join(sep)] *)
Fixpoint join (sep : jsstring) (l : list jsstring) : jsstring :=
  match l with
  | [] => []
  | [s] => s
  | s :: r => s ++ sep ++ join sep r
  end.

(** A number printed in decimal, as a template literal does. *)
Definition show_nat (n : nat) : jsstring := js (NilEmpty.string_of_uint (Nat.to_uint n)).

(** The elements of an array with their one-based positions. *)
Definition numbered {A : Type} (l : list A) : list (nat * A) :=
  combine (seq 1 (length l)) l.

(** [hit.title || hit.url] *)
Definition title_or_url (h : hit) : jsstring :=
  if nonempty (h_title h) then h_title h else h_url h.

(** ** The prompts *)

Definition offline_message : jsstring :=
  js "Models are offline or unreachable. Please start Ollama (or update the base URL in settings) and try again.".

Definition no_context : jsstring := js "No relevant context found.".

Definition decompose_system : jsstring :=
  js "You are an assistant that breaks complex questions into independent search queries for information retrieval. Return each sub" ++ [8209%N]
  ++ js "query on a separate line and do not include any numbering or explanation.".

Definition decompose_user (question : jsstring) : jsstring :=
  js "Break the following question into multiple search queries:" ++ nl ++ nl ++ question.

Definition extractSys : jsstring :=
  join nl (map js
    ["You extract grounded facts from provided context.";
     "Rules:";
     "- Use only information from context or allowed tools.";
     "- Output concise bullet points. End each bullet with a citation [n] referencing the numbered sources.";
     "- If coverage is weak, keep bullets minimal.";
     "- After bullets, add a line: Coverage: low|medium|high.";
     "- Do not include titles/URLs in the bullets; use [n] only."]%string).

Definition extractUser (question context : jsstring) : jsstring :=
  js "Question: " ++ question ++ nl ++ nl ++ js "Context:" ++ nl ++ context ++ nl ++ nl
  ++ js "Write bullet points with [n] citations, then a single line 'Coverage: <level>'.".

Definition follow_up : jsstring :=
  js "Update the bullet points based on the tool results. Keep the same format and citations.".

Definition composeSys (is_detailed : bool) : jsstring :=
  join nl
    [js "You compose an answer strictly from provided bullet points with citations.";
     js "Rules:";
     js "- Use only the provided bullets; do not invent new facts.";
     js "- Keep inline citations as [n] and ensure every claim has at least one citation.";
     js "- If bullets are insufficient, say so briefly and include Sources.";
     js "- Be " ++ (if is_detailed then js "detailed (6" ++ [8211%N] ++ js "10 sentences)"
                    else js "concise (2" ++ [8211%N] ++ js "4 sentences)") ++ js "."].

Definition composeUser (question extracted : jsstring) : jsstring :=
  js "Question: " ++ question ++ nl ++ nl ++ js "Bullets:" ++ nl ++ extracted ++ nl ++ nl
  ++ js "Write the final answer using [n] citations. Do not add new facts.".

(** ** The answer's pieces *)

Definition source_of (entry : nat * hit) (hostname : jsstring -> jsstring) : source :=
  let '(i, h) := entry in Source i (title_or_url h) (h_url h) (hostname (h_url h)).

Definition source_line (s : source) : jsstring :=
  js "[" ++ show_nat (s_index s) ++ js "] " ++ s_title s
  ++ (if nonempty (s_domain s) then js " (" ++ s_domain s ++ js ")" else [])
  ++ js " " ++ [8212%N] ++ js " " ++ s_url s.

Definition sourcesText (l : list source) : jsstring := join nl (map source_line l).

Definition explanations_of (topHits : list hit) : list explanation :=
  map (fun '(i, h) => Explanation i h) (numbered topHits).

(** [topHits.map((hit, i) => `- ${hit.snippet} [${i+1}]`).join('\n')] *)
Definition fallback_bullets (topHits : list hit) : jsstring :=
  join nl (map (fun '(i, h) => js "- " ++ h_snippet h ++ js " [" ++ show_nat i ++ js "]")
             (numbered topHits)).

(** ** The tool loop's state *)

Record loop_state := LoopState {
  json : option reply;
  messages : list chat_message;
  steps : Z;
  ran : list tool_call;
  trace : list event
}.

(** How one pass through the body of the [while] ends: at its end or with
    [continue], with [break], or with an exception, which the enclosing
    [try] swallows. *)
Inductive flow :=
| Continue (st : loop_state)
| Break (st : loop_state)
| Thrown (st : loop_state).

Definition calls_of (j : option reply) : list tool_call :=
  match j with
  | Some r => r_tool_calls r
  | None => []
  end.

Definition has_tool_calls (j : option reply) : bool := nonempty (calls_of j).

Definition assistant_message (j : option reply) : chat_message :=
  ChatMessage assistant (match j with Some r => r_content r | None => [] end) (calls_of j) None.

(** [String(json.message.content).trim()], or [''] *)
Definition content_of (j : option reply) : jsstring :=
  match j with
  | Some r => Text.trim (r_content r)
  | None => []
  end.

Section Environment.

(** What askQuestion reads from outside: the settings, the cached health
    check, the chat provider, retrieval (which may throw), the tool runtime
    (a call may throw; the runtime's own state is a function of the
    conversation so far), the context built from the store for the top
    hits, the URLs the runtime has recorded for the calls it ran, the
    stored title of a page, and three string functions the code takes from
    the platform. *)
Variable toLowerCase : jsstring -> jsstring.
Variable cfg : settings.
Variable checkModelsOnline : bool.
Variable chat : request -> response.
Variable searchMemory : jsstring -> option (list hit).
Variable runToolCall : list chat_message -> tool_call -> option jsstring.
Variable contextBlocks : list hit -> jsstring.
Variable usedUrlOrder : list tool_call -> list jsstring.
Variable pageTitle : jsstring -> option jsstring.
Variable hostname : jsstring -> jsstring.
Variable normalizeCitations : jsstring -> jsstring.
Variable hasSources : jsstring -> bool.

(** *** decomposeQuestion *)

Definition push_new (subs : list jsstring) (line : jsstring) : list jsstring :=
  if decide (line ∈ subs) then subs else subs ++ [line].

Definition decomposeQuestion (question : jsstring) : list jsstring * list event :=
  let subs := [question] in
  if nonempty (chatModel cfg) then
    let rq := Request chat_decompose false
                [ChatMessage system decompose_system [] None;
                 ChatMessage user (decompose_user question) [] None] in
    (match chat rq with
     | Body (Some r) =>
         let content := Text.trim (r_content r) in
         if nonempty content then
           fold_left push_new
             (filter (fun l => nonempty l = true) (map Text.trim (split_on 10 [] content))) subs
         else subs
     | _ => subs
     end, [Chat rq])
  else (subs, []).

(** *** Retrieval over the sub-queries *)

Definition retrieve_step (acc : hit_map * list event) (sub : jsstring) : hit_map * list event :=
  (match searchMemory sub with
   | Some hits => fold_left merge_hit hits (fst acc)
   | None => fst acc
   end, snd acc ++ [Search sub]).

Definition retrieve (subQueries : list jsstring) (tr : list event) : hit_map * list event :=
  fold_left retrieve_step subQueries ([], tr).

(** *** Ranking *)

Definition queryTokens (question : jsstring) : list jsstring :=
  filter (fun t => nonempty t = true /\ t ∉ stopwords)
    (Scoring.split_nonword (toLowerCase question)).

Definition containsToken (tokens : list jsstring) (sn : jsstring) : bool :=
  existsb (fun tok => Scoring.includes sn tok) tokens.

Definition rank (question : jsstring) (hitsArray : list hit) : list hit :=
  let sorted := sort_with by_score hitsArray in
  let tokens := queryTokens question in
  if nonempty tokens then
    map snd (sort_with by_token_then_score
               (map (fun h => (containsToken tokens (toLowerCase (h_snippet h)), h)) sorted))
  else sorted.

Definition top_count : Z :=
  if detailed cfg then Z.max 1 (askTopDetailed cfg) else Z.max 1 (askTopConcise cfg).

Definition topHits_of (question : jsstring) (hitsArray : list hit) : list hit :=
  take (Z.to_nat top_count) (rank question hitsArray).

(** *** The tool loop *)

(** [for (const tc of json.message.tool_calls)]: each call is run and its
    result appended as a tool message; a call that throws ends the loop. *)
Fixpoint run_tools (calls : list tool_call) (st : loop_state) : loop_state + loop_state :=
  match calls with
  | [] => inr st
  | tc :: rest =>
      let tr := trace st ++ [Tool tc] in
      match runToolCall (messages st) tc with
      | Some content =>
          run_tools rest
            (LoopState (json st)
               (messages st ++ [ChatMessage tool content [] (Some (tc_name tc))])
               (steps st) (ran st ++ [tc]) tr)
      | None => inl (LoopState (json st) (messages st) (steps st) (ran st) tr)
      end
  end.

(** One pass through the body of [while (steps < stepCap)]. *)
Definition round (st0 : loop_state) : flow :=
  let st1 := LoopState (json st0) (messages st0) (steps st0 + 1) (ran st0) (trace st0) in
  match run_tools (calls_of (json st1)) st1 with
  | inl st => Thrown st
  | inr st =>
      let msgs := messages st ++ [ChatMessage user follow_up [] None] in
      let rq := Request chat_ask_extract_tools false msgs in
      let tr := trace st ++ [Chat rq] in
      match chat rq with
      | FetchThrew | BadBody => Thrown (LoopState (json st) msgs (steps st) (ran st) tr)
      | NotOk => Break (LoopState (json st) msgs (steps st) (ran st) tr)
      | Body j2 =>
          if has_tool_calls j2
          then Continue (LoopState j2 (msgs ++ [assistant_message j2]) (steps st) (ran st) tr)
          else Break (LoopState j2 msgs (steps st) (ran st) tr)
      end
  end.

(** [Math.max(0, Math.min((maxToolSteps || 2), 2))] *)
Definition stepCap : Z :=
  Z.max 0 (Z.min (if maxToolSteps cfg =? 0 then 2 else maxToolSteps cfg) 2).

(** The [while] loop. It is not structurally recursive, so it runs on
    [fuel], one unit per pass, and answers [None] when the fuel is spent
    with the condition still true. The boolean tells that the loop was
    left by an exception. *)
Fixpoint tool_loop (fuel : nat) (st : loop_state) : option (loop_state * bool) :=
  if steps st <? stepCap then
    match fuel with
    | O => None
    | S fuel' =>
        match round st with
        | Continue st' => tool_loop fuel' st'
        | Break st' => Some (st', false)
        | Thrown st' => Some (st', true)
        end
    end
  else Some (st, false).

(** *** Pass 1: extract

    The first request carries the tool schemas when tools are enabled. The
    loop is entered when they are enabled and the reply asks for tools.
    The result is the trimmed content of the last reply kept in [json], the
    URLs the tools used (none when the loop was left by an exception), and
    the trace. *)
Definition extract (fuel : nat) (question : jsstring) (topHits : list hit) (tr0 : list event)
  : option (jsstring * list jsstring * list event) :=
  let msgs := [ChatMessage system extractSys [] None;
               ChatMessage user (extractUser question (contextBlocks topHits)) [] None] in
  let rq := Request chat_ask_extract (enableTools cfg) msgs in
  let tr := tr0 ++ [Chat rq] in
  match chat rq with
  | Body j =>
      if enableTools cfg && has_tool_calls j then
        match tool_loop fuel (LoopState j (msgs ++ [assistant_message j]) 0 [] tr) with
        | Some (st, threw) =>
            Some (content_of (json st), if threw then [] else usedUrlOrder (ran st), trace st)
        | None => None
        end
      else Some (content_of j, [], tr)
  | _ => Some ([], [], tr)
  end.

(** *** Pass 2: compose, and the object returned *)

Definition extra_source (acc : list source) (u : jsstring) : list source :=
  acc ++ [Source (S (length acc)) (default u (pageTitle u)) u (hostname u)].

Definition compose (question : jsstring) (topHits : list hit) (extracted0 : jsstring)
    (usedToolUrls : list jsstring) (tr0 : list event) : answer * list event :=
  let extracted1 := if nonempty extracted0 then normalizeCitations extracted0 else extracted0 in
  let extracted := if nonempty extracted1 then extracted1 else fallback_bullets topHits in
  let rq := Request chat_ask_compose false
              [ChatMessage system (composeSys (detailed cfg)) [] None;
               ChatMessage user (composeUser question extracted) [] None] in
  let finalContent :=
    match chat rq with
    | Body (Some r) => Text.trim (r_content r)
    | _ => []
    end in
  let content := normalizeCitations finalContent in
  let sourcesArr := map (fun e => source_of e hostname) (numbered topHits) in
  let extras := filter (fun u => nonempty u = true /\ u ∉ map s_url sourcesArr) usedToolUrls in
  let sources := fold_left extra_source extras sourcesArr in
  let explanations := explanations_of topHits in
  (if hasSources content then Structured content sources explanations
   else Structured (content ++ nl ++ nl ++ js "Sources:" ++ nl ++ sourcesText sources)
          sources explanations,
   tr0 ++ [Chat rq]).

(** *** Without a chat model: the top snippets *)

Definition fallback (topHits : list hit) : answer :=
  let bullets := map (fun '(i, h) => js "[" ++ show_nat i ++ js "] " ++ h_snippet h)
                   (numbered topHits) in
  let sourcesArr := map (fun e => source_of e hostname) (numbered topHits) in
  let bulletsText := join (nl ++ nl) bullets in
  Structured
    (if nonempty sourcesArr
     then bulletsText ++ nl ++ nl ++ js "Sources:" ++ nl ++ sourcesText sourcesArr
     else bulletsText)
    sourcesArr (explanations_of topHits).

(** *** askQuestion

    [None] only when the tool loop ran out of fuel. *)
Definition askQuestion (fuel : nat) (question : jsstring) : option (answer * list event) :=
  if negb checkModelsOnline then Some (Structured offline_message [] [], [])
  else
    let subs := decomposeQuestion question in
    let found := retrieve (fst subs) (snd subs) in
    let hitsArray := map_values (fst found) in
    if (length hitsArray =? 0)%nat then Some (Plain no_context, snd found)
    else
      let topHits := topHits_of question hitsArray in
      if nonempty (chatModel cfg) && nonempty topHits then
        match extract fuel question topHits (snd found) with
        | Some (extracted, usedToolUrls, tr) =>
            Some (compose question topHits extracted usedToolUrls tr)
        | None => None
        end
      else Some (fallback topHits, snd found).

(** *** Counting requests *)

Lemma requests_app k (a b : list event) :
  requests k (a ++ b) = (requests k a + requests k b)%nat.
Proof. unfold requests. now rewrite filter_app, length_app. Qed.

Lemma requests_tool k tc tr : requests k (tr ++ [Tool tc]) = requests k tr.
Proof.
  rewrite requests_app.
  replace (requests k [Tool tc]) with 0%nat by reflexivity. lia.
Qed.

Lemma requests_search k sub tr : requests k (tr ++ [Search sub]) = requests k tr.
Proof.
  rewrite requests_app.
  replace (requests k [Search sub]) with 0%nat by reflexivity. lia.
Qed.

Lemma requests_other k k' tools msgs tr :
  k <> k' -> requests k (tr ++ [Chat (Request k' tools msgs)]) = requests k tr.
Proof.
  intros Hk. rewrite requests_app.
  replace (requests k [Chat (Request k' tools msgs)]) with 0%nat; [lia|].
  destruct k, k'; try congruence; reflexivity.
Qed.

Lemma requests_same k tools msgs tr :
  requests k (tr ++ [Chat (Request k tools msgs)]) = S (requests k tr).
Proof.
  rewrite requests_app.
  replace (requests k [Chat (Request k tools msgs)]) with 1%nat; [lia|].
  destruct k; reflexivity.
Qed.

(** *** The loop body *)

Definition settled (r : loop_state + loop_state) : loop_state :=
  match r with
  | inl st => st
  | inr st => st
  end.

Definition after (f : flow) : loop_state :=
  match f with
  | Continue st => st
  | Break st => st
  | Thrown st => st
  end.

(** Running the tools sends no request and leaves the counter alone. *)
Lemma run_tools_keeps calls st :
  steps (settled (run_tools calls st)) = steps st
  /\ forall k, requests k (trace (settled (run_tools calls st))) = requests k (trace st).
Proof.
  revert st. induction calls as [|tc rest IH]; intros st; simpl; [auto|].
  destruct (runToolCall (messages st) tc) as [content|].
  - destruct (IH (LoopState (json st)
                    (messages st ++ [ChatMessage tool content [] (Some (tc_name tc))])
                    (steps st) (ran st ++ [tc]) (trace st ++ [Tool tc]))) as [Hs Hr].
    split; [exact Hs|]. intros k. rewrite Hr. simpl. apply requests_tool.
  - simpl. split; [reflexivity|]. intros k. apply requests_tool.
Qed.

(** A pass counts one step, sends at most one follow-up request and no
    request of another kind. *)
Lemma round_spec st :
  steps (after (round st)) = steps st + 1
  /\ (requests chat_ask_extract_tools (trace (after (round st)))
      <= S (requests chat_ask_extract_tools (trace st)))%nat
  /\ forall k, k <> chat_ask_extract_tools ->
       requests k (trace (after (round st))) = requests k (trace st).
Proof.
  unfold round.
  set (st1 := LoopState (json st) (messages st) (steps st + 1) (ran st) (trace st)).
  destruct (run_tools_keeps (calls_of (json st1)) st1) as [Hs Hr].
  destruct (run_tools (calls_of (json st1)) st1) as [st2|st2]; simpl in Hs, Hr.
  - simpl. split; [exact Hs|]. split; [rewrite Hr; simpl; lia|].
    intros k _. now rewrite Hr.
  - set (msgs := messages st2 ++ [ChatMessage user follow_up [] None]).
    assert (Hsame : requests chat_ask_extract_tools
                      (trace st2 ++ [Chat (Request chat_ask_extract_tools false msgs)])
                    = S (requests chat_ask_extract_tools (trace st))).
    { rewrite requests_same, Hr. reflexivity. }
    assert (Hother : forall k, k <> chat_ask_extract_tools ->
                       requests k (trace st2 ++ [Chat (Request chat_ask_extract_tools false msgs)])
                       = requests k (trace st)).
    { intros k Hk. rewrite requests_other by exact Hk. now rewrite Hr. }
    destruct (chat (Request chat_ask_extract_tools false msgs)) as [| | |j2];
      try (simpl; split; [exact Hs|]; split; [rewrite Hsame; lia|exact Hother]).
    destruct (has_tool_calls j2);
      simpl; (split; [exact Hs|]; split; [rewrite Hsame; lia|exact Hother]).
Qed.

Lemma stepCap_bounds : 0 <= stepCap <= 2.
Proof. unfold stepCap. lia. Qed.

(** The cap, case by case on the setting. *)
Lemma stepCap_cases :
  stepCap = if maxToolSteps cfg =? 0 then 2
            else if maxToolSteps cfg <? 0 then 0
            else Z.min (maxToolSteps cfg) 2.
Proof.
  unfold stepCap.
  destruct (Z.eqb_spec (maxToolSteps cfg) 0) as [E|N]; [reflexivity|].
  destruct (Z.ltb_spec (maxToolSteps cfg) 0); lia.
Qed.

(** With one unit of fuel for each step still allowed the loop ends; it
    never passes the cap, and sends one follow-up request per step at
    most. *)
Lemma tool_loop_ends fuel : forall st,
  (Z.to_nat (stepCap - steps st) <= fuel)%nat ->
  exists st' threw,
    tool_loop fuel st = Some (st', threw)
    /\ steps st <= steps st' <= Z.max (steps st) stepCap
    /\ (requests chat_ask_extract_tools (trace st')
        <= requests chat_ask_extract_tools (trace st) + Z.to_nat (steps st' - steps st))%nat
    /\ forall k, k <> chat_ask_extract_tools -> requests k (trace st') = requests k (trace st).
Proof.
  induction fuel as [|fuel IH]; intros st Hfuel.
  - exists st, false. simpl.
    destruct (Z.ltb_spec (steps st) stepCap) as [Hlt|Hge]; [lia|].
    repeat split; try lia. 
  - simpl. destruct (Z.ltb_spec (steps st) stepCap) as [Hlt|Hge].
    + destruct (round_spec st) as (Hs & Hr & Ho).
      destruct (round st) as [st1|st1|st1]; simpl in Hs, Hr, Ho.
      * destruct (IH st1) as (st' & threw & Hrun & Hsteps & Hreq & Hoth); [lia|].
        exists st', threw. split; [exact Hrun|]. split; [lia|]. split; [lia|].
        intros k Hk. rewrite Hoth by exact Hk. now apply Ho.
      * exists st1, false. split; [reflexivity|]. split; [lia|]. split; [lia|exact Ho].
      * exists st1, true. split; [reflexivity|]. split; [lia|]. split; [lia|exact Ho].
    + exists st, false. split; [reflexivity|]. repeat split; try lia.
Qed.

(** *** What decomposition and retrieval leave in the trace *)

(** The events of the stages before extraction: the decomposition request
    and the searches. *)
Definition before_extract (e : event) : Prop :=
  match e with
  | Search _ => True
  | Chat rq => rq_kind rq = chat_decompose
  | Tool _ => False
  end.

Lemma before_extract_requests k tr :
  k <> chat_decompose -> Forall before_extract tr -> requests k tr = 0%nat.
Proof.
  intros Hk. induction 1 as [|e tr He _ IH]; [reflexivity|].
  change (e :: tr) with ([e] ++ tr). rewrite requests_app, IH.
  destruct e as [sub|[k' tools msgs]|tc]; simpl in He.
  - reflexivity.
  - subst k'. destruct k; try congruence; reflexivity.
  - contradiction.
Qed.

Lemma decomposeQuestion_trace question :
  Forall before_extract (snd (decomposeQuestion question)).
Proof.
  unfold decomposeQuestion. destruct (nonempty (chatModel cfg)); simpl.
  - constructor; [reflexivity|constructor].
  - constructor.
Qed.

Lemma retrieve_trace subQueries : forall acc,
  Forall before_extract (snd acc) ->
  Forall before_extract (snd (fold_left retrieve_step subQueries acc)).
Proof.
  induction subQueries as [|sub rest IH]; intros acc Hacc; simpl; [exact Hacc|].
  apply IH. unfold retrieve_step. simpl.
  apply Forall_app. split; [exact Hacc|]. constructor; [exact I|constructor].
Qed.

(** *** When the map of hits stays empty *)

Lemma map_set_nonempty k h m : map_set k h m <> [].
Proof. destruct m as [|[k' h'] r]; simpl; [|destruct (decide (k = k'))]; discriminate. Qed.

Lemma merge_hit_nonempty m h : merge_hit m h <> [].
Proof.
  unfold merge_hit. destruct (map_get (key_of h) m) as [existing|] eqn:Hget.
  - destruct (js_gt (best_score h) (best_score existing)); [apply map_set_nonempty|].
    destruct m; [discriminate Hget|discriminate].
  - apply map_set_nonempty.
Qed.

Lemma merge_hits_empty hits : forall m,
  fold_left merge_hit hits m = [] <-> hits = [] /\ m = [].
Proof.
  induction hits as [|h rest IH]; intros m; simpl.
  - split; [auto|]. intros [_ Hm]. exact Hm.
  - rewrite IH. split.
    + intros [_ Hm]. now apply merge_hit_nonempty in Hm.
    + intros [Hnil _]. discriminate Hnil.
Qed.

(** A sub-query that contributes nothing: the search threw, or found no
    hit. *)
Definition no_hits (sub : jsstring) : Prop :=
  match searchMemory sub with
  | Some (_ :: _) => False
  | _ => True
  end.

Lemma retrieve_empty subQueries : forall acc,
  fst (fold_left retrieve_step subQueries acc) = []
  <-> fst acc = [] /\ Forall no_hits subQueries.
Proof.
  induction subQueries as [|sub rest IH]; intros acc; simpl.
  - split; [intros H; split; [exact H|constructor]|]. intros [H _]. exact H.
  - rewrite IH, Forall_cons. unfold retrieve_step, no_hits. simpl.
    destruct (searchMemory sub) as [[|h hits]|].
    + simpl. tauto.
    + rewrite merge_hits_empty. split.
      * intros [[Hnil _] _]. discriminate Hnil.
      * intros [_ [[] _]].
    + tauto.
Qed.

(** [hitsArray]: the de-duplicated hits of all sub-queries. *)
Definition hitsArray (question : jsstring) : list hit :=
  map_values (fst (retrieve (fst (decomposeQuestion question))
                     (snd (decomposeQuestion question)))).

Lemma retrieval_trace question :
  Forall before_extract
    (snd (retrieve (fst (decomposeQuestion question)) (snd (decomposeQuestion question)))).
Proof. unfold retrieve. apply retrieve_trace. simpl. apply decomposeQuestion_trace. Qed.

(** No hit is left after de-duplication exactly when no sub-query
    contributed one. *)
Lemma hitsArray_empty question :
  hitsArray question = [] <-> Forall no_hits (fst (decomposeQuestion question)).
Proof.
  unfold hitsArray, map_values, retrieve.
  pose proof (retrieve_empty (fst (decomposeQuestion question))
                ([], snd (decomposeQuestion question))) as Hiff.
  simpl in Hiff.
  destruct (fst (fold_left retrieve_step (fst (decomposeQuestion question))
                   ([], snd (decomposeQuestion question)))) as [|p m]; simpl.
  - split; [intros _; now apply Hiff|reflexivity].
  - split; [discriminate|]. intros Hall.
    assert (Hnil : p :: m = []) by (apply Hiff; auto). discriminate Hnil.
Qed.

(** *** The passes return *)

Lemma extract_returns extra question topHits tr0 :
  exists extracted used tr,
    extract (2 + extra)%nat question topHits tr0 = Some (extracted, used, tr)
    /\ (requests chat_ask_extract_tools tr <= requests chat_ask_extract_tools tr0 + 2)%nat
    /\ requests chat_ask_extract tr = S (requests chat_ask_extract tr0)
    /\ requests chat_ask_compose tr = requests chat_ask_compose tr0.
Proof.
  unfold extract.
  set (msgs := [ChatMessage system extractSys [] None;
                ChatMessage user (extractUser question (contextBlocks topHits)) [] None]).
  set (rq := Request chat_ask_extract (enableTools cfg) msgs).
  assert (Hplain : forall (e : jsstring) (u : list jsstring),
             exists extracted used tr,
               Some (e, u, tr0 ++ [Chat rq]) = Some (extracted, used, tr)
               /\ (requests chat_ask_extract_tools tr
                   <= requests chat_ask_extract_tools tr0 + 2)%nat
               /\ requests chat_ask_extract tr = S (requests chat_ask_extract tr0)
               /\ requests chat_ask_compose tr = requests chat_ask_compose tr0).
  { intros e u. exists e, u, (tr0 ++ [Chat rq]). split; [reflexivity|].
    unfold rq. rewrite requests_same, !requests_other by discriminate.
    split; [lia|]. split; reflexivity. }
  destruct (chat rq) as [| | |j]; try apply Hplain.
  destruct (enableTools cfg && has_tool_calls j); [|apply Hplain].
  set (st0 := LoopState j (msgs ++ [assistant_message j]) 0 [] (tr0 ++ [Chat rq])).
  pose proof stepCap_bounds as Hcap.
  destruct (tool_loop_ends (2 + extra) st0) as (st & threw & Hrun & Hsteps & Hreq & Hoth).
  { simpl. lia. }
  rewrite Hrun. simpl in Hsteps, Hreq, Hoth.
  exists (content_of (json st)), (if threw then [] else usedUrlOrder (ran st)), (trace st).
  split; [reflexivity|].
  rewrite (Hoth chat_ask_extract), (Hoth chat_ask_compose) by discriminate.
  unfold st0, rq in *. simpl in Hreq |- *.
  rewrite requests_same, requests_other by discriminate.
  rewrite requests_other in Hreq by discriminate.
  split; [lia|]. split; reflexivity.
Qed.

Lemma compose_trace question topHits extracted used tr0 :
  exists rq, rq_kind rq = chat_ask_compose
             /\ snd (compose question topHits extracted used tr0) = tr0 ++ [Chat rq].
Proof. unfold compose. simpl. eexists. split; [|reflexivity]. reflexivity. Qed.

(** With two units of fuel or more askQuestion returns, and its run holds
    two follow-up requests of the tool loop at most. *)
Lemma askQuestion_returns extra question :
  exists res tr,
    askQuestion (2 + extra)%nat question = Some (res, tr)
    /\ (requests chat_ask_extract_tools tr <= 2)%nat.
Proof.
  unfold askQuestion. destruct checkModelsOnline; simpl negb; cbv iota.
  - pose proof (retrieval_trace question) as Htr.
    apply (before_extract_requests chat_ask_extract_tools) in Htr; [|discriminate].
    set (found := retrieve (fst (decomposeQuestion question))
                    (snd (decomposeQuestion question))) in *.
    cbv zeta.
    destruct (length (map_values (fst found)) =? 0)%nat.
    + eexists _, _. split; [reflexivity|]. fold found. rewrite Htr. lia.
    + destruct (nonempty (chatModel cfg)
                && nonempty (topHits_of question (map_values (fst found)))).
      * destruct (extract_returns extra question
                    (topHits_of question (map_values (fst found))) (snd found))
          as (extracted & used & tr & Hrun & Hreq & _).
        rewrite Hrun.
        destruct (compose_trace question (topHits_of question (map_values (fst found)))
                    extracted used tr) as (rq & Hk & Hsnd).
        exists (fst (compose question (topHits_of question (map_values (fst found)))
                       extracted used tr)), (tr ++ [Chat rq]).
        split.
        -- rewrite <- Hsnd. now destruct (compose _ _ _ _ _).
        -- destruct rq as [k tools ms]. simpl in Hk. subst k.
           rewrite requests_other by discriminate. lia.
      * eexists _, _. split; [reflexivity|]. rewrite Htr. lia.
  - eexists _, _. split; [reflexivity|]. cbn. lia.
Qed.

(** C8, as the code has it. The number of passes through the tool loop is
    capped by [Math.max(0, Math.min((maxToolSteps || 2), 2))], which lies
    between 0 and 2: it is [min(maxToolSteps, 2)] for a positive setting, 0
    for a negative one, and 2 when the setting is 0. Whatever the provider
    and the tools answer, the loop, entered with its counter at 0, ends
    within two passes (each awaited call being taken to settle), and so
    does askQuestion, whose run holds at most two follow-up requests. *)
Theorem tool_loop_at_most_two_rounds :
  (0 <= stepCap <= 2
   /\ stepCap = (if maxToolSteps cfg =? 0 then 2
                 else if maxToolSteps cfg <? 0 then 0
                 else Z.min (maxToolSteps cfg) 2))
  /\ (forall extra j msgs called tr,
        exists st' threw,
          tool_loop (2 + extra) (LoopState j msgs 0 called tr) = Some (st', threw)
          /\ 0 <= steps st' <= stepCap
          /\ (requests chat_ask_extract_tools (trace st')
              <= requests chat_ask_extract_tools tr + Z.to_nat (steps st'))%nat)
  /\ (forall extra question,
        exists res tr,
          askQuestion (2 + extra) question = Some (res, tr)
          /\ (requests chat_ask_extract_tools tr <= 2)%nat).
Proof.
  pose proof stepCap_bounds as Hcap.
  split; [split; [exact Hcap|apply stepCap_cases]|]. split.
  - intros extra j msgs called tr.
    destruct (tool_loop_ends (2 + extra) (LoopState j msgs 0 called tr))
      as (st' & threw & Hrun & Hsteps & Hreq & _).
    { simpl. lia. }
    simpl in Hsteps, Hreq. exists st', threw.
    split; [exact Hrun|]. split; [lia|].
    now rewrite Z.sub_0_r in Hreq.
  - intros extra question. apply askQuestion_returns.
Qed.

(** C9. When the models are reachable and no hit is left after the
    sub-queries have been searched and their hits de-duplicated, askQuestion
    returns the bare string, and its run holds nothing but the
    decomposition request and the searches: no request of the extract pass,
    of its tool loop or of the compose pass, and no tool call. *)
Theorem no_hits_returns_no_context question fuel :
  checkModelsOnline = true ->
  hitsArray question = [] ->
  exists tr,
    askQuestion fuel question = Some (Plain (js "No relevant context found."), tr)
    /\ Forall before_extract tr
    /\ requests chat_ask_extract tr = 0%nat
    /\ requests chat_ask_extract_tools tr = 0%nat
    /\ requests chat_ask_compose tr = 0%nat.
Proof.
  intros Honline Hnone. unfold askQuestion. rewrite Honline. simpl negb. cbv iota zeta.
  unfold hitsArray in Hnone. rewrite Hnone. simpl.
  pose proof (retrieval_trace question) as Htr.
  eexists. split; [reflexivity|]. split; [exact Htr|].
  repeat split; apply before_extract_requests; try discriminate; exact Htr.
Qed.

End Environment.

(** *** Runs against small providers *)

Definition search_tool : tool_call := ToolCall (js "search_memory") (js "{}").

(** A provider that splits every question in two and then asks for a tool
    in every reply. *)
Definition insistent (rq : request) : response :=
  match rq_kind rq with
  | chat_decompose => Body (Some (Reply (js "first part" ++ nl ++ js "second part") []))
  | _ => Body (Some (Reply (js "- a fact [1]") [search_tool]))
  end.

Definition one_hit : hit :=
  Hit (js "https://example.org/a") (js "a page about tools") (js "A page")
    (Some 0.5%float) (Some 0.6%float) None.

Definition finds_one (sub : jsstring) : option (list hit) := Some [one_hit].

(** A retrieval that finds nothing for the question and its first part, and
    throws on the second. *)
Definition finds_nothing (sub : jsstring) : option (list hit) :=
  if decide (sub = js "second part") then None else Some [].

Definition settings_with (n : Z) : settings :=
  Settings (js "llama3") false true n 3 5.

Definition ask_with (cfg : settings) (chat : request -> response)
    (searchMemory : jsstring -> option (list hit)) (fuel : nat) (question : jsstring)
  : option (answer * list event) :=
  askQuestion Scoring.ascii_lower cfg true chat searchMemory
    (fun _ _ => Some (js "{}")) (fun _ => js "[1] Title: A page") (fun _ => [])
    (fun _ => None) (fun _ => js "example.org") (fun s => s) (fun _ => false)
    fuel question.

Definition rounds_with (cfg : settings) (fuel : nat) : option Z :=
  option_map (fun r => steps (fst r))
    (tool_loop cfg insistent (fun _ _ => Some (js "{}")) fuel
       (LoopState (Some (Reply [] [search_tool])) [] 0 [] [])).

Definition follow_ups (r : option (answer * list event)) : option nat :=
  option_map (fun r => requests chat_ask_extract_tools (snd r)) r.

(** Against the insistent provider the loop stops after two passes, however
    large the setting and the fuel. *)
Example insistent_provider_two_rounds :
  rounds_with (settings_with 10) 50 = Some 2
  /\ follow_ups (ask_with (settings_with 10) insistent finds_one 50 (js "what about tools"))
     = Some 2%nat.
Proof. vm_compute. auto. Qed.

Example one_step_allowed : rounds_with (settings_with 1) 50 = Some 1.
Proof. vm_compute. reflexivity. Qed.

Example negative_setting_no_round : rounds_with (settings_with (-3)) 50 = Some 0.
Proof. vm_compute. reflexivity. Qed.

(** The loop does need its two units of fuel. *)
Example one_unit_is_short : rounds_with (settings_with 2) 1 = None.
Proof. vm_compute. reflexivity. Qed.

(** C8, as stated, fails: with [maxToolSteps] set to 0, [min(maxToolSteps, 2)]
    is 0, yet the loop makes two passes and two follow-up requests are
    sent, since [maxToolSteps || 2] is 2. *)
Lemma zero_setting_runs_two_rounds :
  Z.min (maxToolSteps (settings_with 0)) 2 = 0
  /\ stepCap (settings_with 0) = 2
  /\ rounds_with (settings_with 0) 2 = Some 2
  /\ follow_ups (ask_with (settings_with 0) insistent finds_one 2 (js "what about tools"))
     = Some 2%nat.
Proof. vm_compute. auto. Qed.

Lemma no_hits_witness :
  exists tr,
    ask_with (settings_with 2) insistent finds_nothing 0 (js "what about tools")
    = Some (Plain (js "No relevant context found."), tr)
    /\ Forall before_extract tr
    /\ requests chat_ask_extract tr = 0%nat
    /\ requests chat_ask_extract_tools tr = 0%nat
    /\ requests chat_ask_compose tr = 0%nat.
Proof.
  apply (no_hits_returns_no_context Scoring.ascii_lower (settings_with 2) true insistent
           finds_nothing (fun _ _ => Some (js "{}")) (fun _ => js "[1] Title: A page")
           (fun _ => []) (fun _ => None) (fun _ => js "example.org") (fun s => s)
           (fun _ => false) (js "what about tools") 0).
  - reflexivity.
  - vm_compute. reflexivity.
Defined.

(** The three searches of that run, after the decomposition request. *)
Example no_hits_trace :
  option_map (fun r => map (fun e => match e with Search sub => Some sub | _ => None end)
                         (snd r))
    (ask_with (settings_with 2) insistent finds_nothing 0 (js "what about tools"))
  = Some [None; Some (js "what about tools"); Some (js "first part"); Some (js "second part")].
Proof. vm_compute. reflexivity. Qed.

(** With the models offline nothing is searched and the answer is the
    offline message. *)
Example offline_answer :
  askQuestion Scoring.ascii_lower (settings_with 2) false insistent finds_nothing
    (fun _ _ => Some (js "{}")) (fun _ => []) (fun _ => []) (fun _ => None) (fun _ => [])
    (fun s => s) (fun _ => false) 0 (js "what about tools")
  = Some (Structured offline_message [] [], []).
Proof. reflexivity. Qed.

(** *** The sub-queries *)

(** The content [decomposeQuestion] reads from a reply,
    [(json && json.message && json.message.content) ? ... .trim() : ''],
    empty also when the request threw or was not ok; and its lines, trimmed,
    without the empty ones. *)
Definition reply_content (rs : response) : jsstring :=
  match rs with
  | Body (Some r) => Text.trim (r_content r)
  | _ => []
  end.

Definition reply_lines (content : jsstring) : list jsstring :=
  List.filter nonempty (map Text.trim (split_on 10 [] content)).

(** The request [decomposeQuestion] sends. *)
Definition decompose_request (question : jsstring) : request :=
  Request chat_decompose false
    [ChatMessage system decompose_system [] None;
     ChatMessage user (decompose_user question) [] None].

Lemma reply_lines_filter (content : jsstring) :
  filter (fun l => nonempty l = true) (map Text.trim (split_on 10 [] content))
  = reply_lines content.
Proof.
  unfold reply_lines. induction (map Text.trim (split_on 10 [] content)) as [|l r IH];
    [reflexivity|].
  cbn [List.filter]. destruct (nonempty l) eqn:Hl.
  - rewrite filter_cons_True by exact Hl. f_equal. exact IH.
  - rewrite filter_cons_False by (rewrite Hl; discriminate). exact IH.
Qed.

Lemma reply_lines_empty : reply_lines [] = [].
Proof. reflexivity. Qed.

Lemma push_all_lines lines : forall subs,
  NoDup subs ->
  exists extra,
    fold_left push_new lines subs = subs ++ extra
    /\ NoDup (subs ++ extra)
    /\ extra `sublist_of` lines
    /\ forall l, l ∈ lines -> l ∈ subs ++ extra.
Proof.
  induction lines as [|line r IH]; intros subs Hnd; cbn [fold_left].
  - exists []. rewrite app_nil_r. split; [reflexivity|]. split; [exact Hnd|].
    split; [constructor|]. intros l Hl. apply elem_of_nil in Hl. contradiction.
  - unfold push_new at 2. destruct (decide (line ∈ subs)) as [Hin|Hout].
    + destruct (IH subs Hnd) as (extra & He & Hn & Hs & Hall).
      exists extra. split; [exact He|]. split; [exact Hn|].
      split; [apply sublist_cons, Hs|].
      intros l Hl. apply elem_of_cons in Hl as [->|Hl]; [|now apply Hall].
      apply elem_of_app. now left.
    + assert (Hnd1 : NoDup (subs ++ [line])).
      { apply NoDup_app. split; [exact Hnd|]. split; [|apply NoDup_singleton].
        intros x Hx Hx'. apply list_elem_of_singleton in Hx'. now subst. }
      destruct (IH _ Hnd1) as (extra & He & Hn & Hs & Hall).
      exists (line :: extra). rewrite He, <- !app_assoc. cbn [app].
      split; [reflexivity|]. split; [now rewrite <- app_assoc in Hn|].
      split; [apply sublist_skip, Hs|].
      intros l Hl. rewrite <- app_assoc in Hall. cbn [app] in Hall.
      apply elem_of_cons in Hl as [->|Hl]; [|now apply Hall].
      apply elem_of_app. right. apply list_elem_of_here.
Qed.

(** X16. [decomposeQuestion] without a chat model asks nothing and answers
    the question alone. With one it sends one request and answers the
    question followed by the lines of the reply's content, trimmed, without
    the empty ones and without any query it already holds, in the order of
    the reply: no query is there twice and every such line is there. When
    the request throws, is not ok, has no message or an empty or blank
    content, the question stands alone. *)
Theorem decomposeQuestion_subqueries (cfg : settings) (chat : request -> response)
    (question : jsstring) :
  (chatModel cfg = [] -> decomposeQuestion cfg chat question = ([question], []))
  /\ (chatModel cfg <> [] ->
      snd (decomposeQuestion cfg chat question) = [Chat (decompose_request question)]
      /\ (exists rest,
             fst (decomposeQuestion cfg chat question) = question :: rest
             /\ NoDup (question :: rest)
             /\ rest `sublist_of` reply_lines (reply_content (chat (decompose_request question)))
             /\ forall l,
                  l ∈ reply_lines (reply_content (chat (decompose_request question))) ->
                  l ∈ question :: rest)
      /\ ((forall r, chat (decompose_request question) <> Body (Some r)) ->
          fst (decomposeQuestion cfg chat question) = [question])
      /\ (forall r, chat (decompose_request question) = Body (Some r) ->
                    Text.trim (r_content r) = [] ->
                    fst (decomposeQuestion cfg chat question) = [question])).
Proof.
  unfold decomposeQuestion. fold (decompose_request question).
  destruct (chatModel cfg) as [|c model] eqn:Hmodel; cbn [nonempty].
  { split; [reflexivity|]. intros H. now destruct H. }
  split; [discriminate|]. intros _. cbn [fst snd]. split; [reflexivity|].
  assert (Hone : exists rest,
             [question] = question :: rest /\ NoDup (question :: rest)
             /\ rest `sublist_of` reply_lines []
             /\ forall l, l ∈ reply_lines [] -> l ∈ question :: rest).
  { exists []. split; [reflexivity|]. split; [apply NoDup_singleton|].
    rewrite reply_lines_empty. split; [constructor|].
    intros l Hl. apply elem_of_nil in Hl. contradiction. }
  destruct (chat (decompose_request question)) as [| | |[r|]] eqn:Hchat;
    cbn [reply_content];
    try (split; [exact Hone|]; split; [reflexivity|]; intros r0 Hr; discriminate Hr).
  cbv zeta. destruct (Text.trim (r_content r)) as [|c0 content] eqn:Hc; cbn [nonempty].
  - split; [exact Hone|]. split; reflexivity.
  - rewrite reply_lines_filter.
    destruct (push_all_lines (reply_lines (c0 :: content)) [question]
                (NoDup_singleton question)) as (extra & He & Hnd & Hsub & Hall).
    split; [|split].
    + exists extra. split; [exact He|]. split; [exact Hnd|]. split; [exact Hsub|exact Hall].
    + intros Hno. now destruct (Hno r).
    + intros r0 [= <-] Hblank. rewrite Hblank in Hc. discriminate Hc.
Qed.

(** *** The map of hits *)

(** A map as [askQuestion] fills it: no key twice, every hit under its own
    key. *)
Definition well_keyed (m : hit_map) : Prop :=
  NoDup (map fst m) /\ Forall (fun e => fst e = key_of (snd e)) m.

Lemma map_get_None k m : map_get k m = None <-> k ∉ map fst m.
Proof.
  induction m as [|[k' h] r IH]; simpl.
  - split; [intros _; apply not_elem_of_nil|reflexivity].
  - rewrite not_elem_of_cons. destruct (decide (k = k')) as [->|Hne].
    + split; [discriminate|]. intros [H _]. congruence.
    + rewrite IH. split; [intros H; split; [exact Hne|exact H]|intros [_ H]; exact H].
Qed.

Lemma map_set_keys k h m :
  map fst (map_set k h m) = if decide (k ∈ map fst m) then map fst m else map fst m ++ [k].
Proof.
  induction m as [|[k' h'] r IH]; simpl.
  - destruct (decide (k ∈ [])) as [Hin|_]; [now apply elem_of_nil in Hin|reflexivity].
  - destruct (decide (k = k')) as [->|Hne]; simpl.
    + rewrite decide_True by apply list_elem_of_here. reflexivity.
    + rewrite IH. destruct (decide (k ∈ map fst r)) as [Hin|Hout].
      * rewrite decide_True by now apply list_elem_of_further. reflexivity.
      * rewrite decide_False; [reflexivity|]. rewrite elem_of_cons. tauto.
Qed.

Lemma map_set_entries k h m e :
  e ∈ map_set k h m -> e = (k, h) \/ e ∈ m.
Proof.
  induction m as [|[k' h'] r IH]; simpl.
  - intros Hin. apply list_elem_of_singleton in Hin. auto.
  - destruct (decide (k = k')) as [->|Hne]; intros Hin;
      apply elem_of_cons in Hin as [->|Hin].
    + auto.
    + right. now apply list_elem_of_further.
    + right. apply list_elem_of_here.
    + destruct (IH Hin) as [->|Hin']; [auto|]. right. now apply list_elem_of_further.
Qed.

Lemma map_set_well_keyed h m : well_keyed m -> well_keyed (map_set (key_of h) h m).
Proof.
  intros [Hnd Hkeys]. split.
  - rewrite map_set_keys. destruct (decide (key_of h ∈ map fst m)) as [Hin|Hout]; [exact Hnd|].
    apply NoDup_app. split; [exact Hnd|]. split; [|apply NoDup_singleton].
    intros x Hx Hx'. apply list_elem_of_singleton in Hx'. now subst.
  - apply Forall_forall. intros e He. apply map_set_entries in He as [->|He]; [reflexivity|].
    revert e He. now apply Forall_forall.
Qed.

Lemma map_set_has_key k h m : k ∈ map fst (map_set k h m).
Proof.
  rewrite map_set_keys. destruct (decide (k ∈ map fst m)) as [Hin|_]; [exact Hin|].
  apply elem_of_app. right. apply list_elem_of_here.
Qed.

Lemma map_set_keeps_keys k h m x : x ∈ map fst m -> x ∈ map fst (map_set k h m).
Proof.
  intros Hx. rewrite map_set_keys. destruct (decide (k ∈ map fst m)); [exact Hx|].
  apply elem_of_app. now left.
Qed.

(** Merging a hit keeps the map well keyed, keeps every key, has the key of
    the hit, and adds no hit but this one. *)
Lemma merge_hit_spec m h :
  well_keyed m ->
  well_keyed (merge_hit m h)
  /\ key_of h ∈ map fst (merge_hit m h)
  /\ (forall x, x ∈ map fst m -> x ∈ map fst (merge_hit m h))
  /\ (forall e, e ∈ merge_hit m h -> snd e = h \/ e ∈ m).
Proof.
  intros Hwk. unfold merge_hit.
  assert (Hset : well_keyed (map_set (key_of h) h m)
                 /\ key_of h ∈ map fst (map_set (key_of h) h m)
                 /\ (forall x, x ∈ map fst m -> x ∈ map fst (map_set (key_of h) h m))
                 /\ (forall e, e ∈ map_set (key_of h) h m -> snd e = h \/ e ∈ m)).
  { split; [now apply map_set_well_keyed|]. split; [apply map_set_has_key|].
    split; [intros x; apply map_set_keeps_keys|].
    intros e He. apply map_set_entries in He as [->|He]; auto. }
  destruct (map_get (key_of h) m) as [existing|] eqn:Hget; [|exact Hset].
  destruct (js_gt (best_score h) (best_score existing)); [exact Hset|].
  split; [exact Hwk|]. split; [|auto].
  destruct (decide (key_of h ∈ map fst m)) as [Hin|Hout]; [exact Hin|].
  apply map_get_None in Hout. congruence.
Qed.

Lemma merge_hits_spec hits : forall m,
  well_keyed m ->
  well_keyed (fold_left merge_hit hits m)
  /\ (forall h, h ∈ hits -> key_of h ∈ map fst (fold_left merge_hit hits m))
  /\ (forall x, x ∈ map fst m -> x ∈ map fst (fold_left merge_hit hits m))
  /\ (forall e, e ∈ fold_left merge_hit hits m -> snd e ∈ hits \/ e ∈ m).
Proof.
  induction hits as [|h r IH]; intros m Hwk; simpl.
  - split; [exact Hwk|]. split; [intros h Hh; now apply elem_of_nil in Hh|]. auto.
  - destruct (merge_hit_spec m h Hwk) as (Hwk1 & Hkey1 & Hkeep1 & Hfrom1).
    destruct (IH _ Hwk1) as (Hwk2 & Hkey2 & Hkeep2 & Hfrom2).
    split; [exact Hwk2|]. split; [|split].
    + intros h' Hh'. apply elem_of_cons in Hh' as [->|Hh']; auto.
    + auto.
    + intros e He. apply Hfrom2 in He as [He|He].
      * left. now apply list_elem_of_further.
      * apply Hfrom1 in He as [<-|He]; [left; apply list_elem_of_here|now right].
Qed.

Section Retrieval.

Variable searchMemory : jsstring -> option (list hit).

(** A hit some sub-query of the list brought. *)
Definition found_by (subs : list jsstring) (h : hit) : Prop :=
  exists sub hits, sub ∈ subs /\ searchMemory sub = Some hits /\ h ∈ hits.

Lemma retrieve_steps_spec subs : forall acc,
  well_keyed (fst acc) ->
  let m := fst (fold_left (retrieve_step searchMemory) subs acc) in
  well_keyed m
  /\ (forall h, found_by subs h -> key_of h ∈ map fst m)
  /\ (forall x, x ∈ map fst (fst acc) -> x ∈ map fst m)
  /\ (forall e, e ∈ m -> found_by subs (snd e) \/ e ∈ fst acc).
Proof.
  induction subs as [|sub r IH]; intros acc Hwk; simpl.
  - split; [exact Hwk|]. split; [|auto].
    intros h (sub & hits & Hin & _). now apply elem_of_nil in Hin.
  - set (acc1 := retrieve_step searchMemory acc sub).
    assert (H1 : well_keyed (fst acc1)
                 /\ (forall hits h, searchMemory sub = Some hits -> h ∈ hits ->
                                    key_of h ∈ map fst (fst acc1))
                 /\ (forall x, x ∈ map fst (fst acc) -> x ∈ map fst (fst acc1))
                 /\ (forall e, e ∈ fst acc1 ->
                               (exists hits, searchMemory sub = Some hits /\ snd e ∈ hits)
                               \/ e ∈ fst acc)).
    { unfold acc1, retrieve_step. simpl. destruct (searchMemory sub) as [hits|].
      - destruct (merge_hits_spec hits (fst acc) Hwk) as (Hw & Hk & Hkeep & Hfrom).
        split; [exact Hw|]. split; [intros hits' h [= <-]; apply Hk|]. split; [exact Hkeep|].
        intros e He. apply Hfrom in He as [He|He]; [left; now exists hits|now right].
      - split; [exact Hwk|]. split; [discriminate|]. auto. }
    destruct H1 as (Hw1 & Hk1 & Hkeep1 & Hfrom1).
    destruct (IH acc1 Hw1) as (Hw2 & Hk2 & Hkeep2 & Hfrom2).
    split; [exact Hw2|]. split; [|split].
    + intros h (sub' & hits & Hin & Hs & Hh). apply elem_of_cons in Hin as [->|Hin].
      * apply Hkeep2. eapply Hk1; eauto.
      * apply Hk2. now exists sub', hits.
    + auto.
    + intros e He. apply Hfrom2 in He as [(sub' & hits & Hin & Hs & Hh)|He].
      * left. exists sub', hits. split; [now apply list_elem_of_further|auto].
      * apply Hfrom1 in He as [(hits & Hs & Hh)|He]; [|now right].
        left. exists sub, hits. split; [apply list_elem_of_here|auto].
Qed.

(** X17. The hits [askQuestion] goes on with are de-duplicated by URL and
    snippet: no two of them have the same key [url::snippet]; each was
    brought by the search of one of the sub-queries; and for every hit a
    search brought, a hit with its key is among them. A search that throws
    costs its own hits only. *)
Theorem hits_are_deduplicated (cfg : settings) (chat : request -> response)
    (question : jsstring) :
  let subs := fst (decomposeQuestion cfg chat question) in
  let hits := hitsArray cfg chat searchMemory question in
  NoDup (map key_of hits)
  /\ Forall (found_by subs) hits
  /\ (forall h, found_by subs h -> key_of h ∈ map key_of hits).
Proof.
  cbv zeta. unfold hitsArray, retrieve, map_values.
  destruct (retrieve_steps_spec (fst (decomposeQuestion cfg chat question))
              ([], snd (decomposeQuestion cfg chat question)))
    as ([Hnd Hkeys] & Hall & _ & Hfrom).
  { split; [apply NoDup_nil_2|constructor]. }
  set (m := fst (fold_left (retrieve_step searchMemory)
                   (fst (decomposeQuestion cfg chat question))
                   ([], snd (decomposeQuestion cfg chat question)))) in *.
  assert (Hmap : map key_of (map snd m) = map fst m).
  { rewrite map_map. apply Forall_fmap_ext_1.
    eapply Forall_impl; [exact Hkeys|]. intros e He. now rewrite He. }
  rewrite Hmap. split; [exact Hnd|]. split; [|exact Hall].
  apply Forall_forall. intros h Hh. apply list_elem_of_fmap in Hh as (e & -> & He).
  apply Hfrom in He as [He|He]; [exact He|]. now apply elem_of_nil in He.
Qed.

End Retrieval.

End Ask.

(** * Sorting facts *)

Module Order.

Section Sorted.

Variable A : Type.
Variable compare : A -> A -> float.

Lemma insert_with_Permutation a l : Ask.insert_with compare a l ≡ₚ a :: l.
Proof.
  induction l as [|b r IH]; simpl; [reflexivity|].
  destruct (PrimFloat.ltb 0%float (compare a b)); [|reflexivity].
  rewrite IH. apply Permutation_swap.
Qed.

(** Sorting neither loses nor adds an element. *)
Lemma sort_with_Permutation l : Ask.sort_with compare l ≡ₚ l.
Proof.
  induction l as [|a l IH]; simpl; [reflexivity|].
  rewrite insert_with_Permutation. now rewrite IH.
Qed.

End Sorted.

End Order.

(** * background.js: canonical URLs *)

Module Canonical.

(** A parsed URL, as far as [canonicalizeUrl] looks into it: everything
    before the query, the entries of [searchParams] in order, and the
    fragment. *)
Record url := Url {
  base : string;
  params : list (jsstring * jsstring);
  hash : jsstring
}.

Definition stripPrefixes : list jsstring :=
  map js ["utm_"; "vero_"; "ga_"; "mc_"; "sb_"]%string.

Definition stripNames : list jsstring :=
  map js ["gclid"; "fbclid"; "ref"; "ref_src"; "ref_url"; "_hsmi"; "_hsenc";
          "mkt_tok"; "spm"; "igshid"; "s"; "si"; "si_source"; "si_platform"]%string.

Section Canonicalize.

(** The platform: [new URL(url)] ([None] when it throws), [u.toString()],
    [toLowerCase] and [localeCompare]. *)
Variable parse : string -> option url.
Variable serialize : url -> string.
Variable toLowerCase : jsstring -> jsstring.
Variable localeCompare : jsstring -> jsstring -> float.

(** A parameter the loop drops. *)
Definition tracking (k : jsstring) : bool :=
  let lower := toLowerCase k in
  bool_decide (lower ∈ stripNames)
  || existsb (fun p => Scoring.starts_with p lower) stripPrefixes.

Definition kept (p : jsstring * jsstring) : bool := negb (tracking (fst p)).

(** [keep], sorted by key. *)
Definition canonical_params (ps : list (jsstring * jsstring)) : list (jsstring * jsstring) :=
  Ask.sort_with (fun a b => localeCompare (fst a) (fst b)) (List.filter kept ps).

(** [canonicalizeUrl(url)] *)
Definition canonicalizeUrl (u : string) : string :=
  match parse u with
  | Some parsed => serialize (Url (base parsed) (canonical_params (params parsed)) [])
  | None => u
  end.

(** X15. [canonicalizeUrl] returns a URL it cannot parse as it is. In a
    URL it can parse, it drops the fragment and the tracking parameters and
    nothing else: the parameters it keeps are the others, each as often as
    it occurred, reordered by key. So two URLs that differ in their
    fragments and tracking parameters only have the same canonical URL. *)
Theorem canonicalizeUrl_drops_tracking :
  (forall u, parse u = None -> canonicalizeUrl u = u)
  /\ (forall ps,
        Forall (fun p => tracking (fst p) = false) (canonical_params ps)
        /\ canonical_params ps ≡ₚ List.filter kept ps
        /\ (Forall (fun p => tracking (fst p) = true) ps -> canonical_params ps = []))
  /\ (forall u1 u2 p1 p2,
        parse u1 = Some p1 -> parse u2 = Some p2 -> base p1 = base p2 ->
        List.filter kept (params p1) = List.filter kept (params p2) ->
        canonicalizeUrl u1 = canonicalizeUrl u2).
Proof.
  split; [|split].
  - intros u Hu. unfold canonicalizeUrl. now rewrite Hu.
  - intros ps.
    assert (Hperm : canonical_params ps ≡ₚ List.filter kept ps)
      by apply Order.sort_with_Permutation.
    split; [|split; [exact Hperm|]].
    + rewrite Hperm. apply Forall_forall. intros p Hin.
      apply list_elem_of_In, List.filter_In in Hin as [_ Hk].
      unfold kept in Hk. now apply negb_true_iff in Hk.
    + intros Hall. apply Permutation_nil_r. rewrite Hperm. clear Hperm.
      induction Hall as [|p l Hp _ IH]; [reflexivity|].
      simpl. unfold kept at 1. rewrite Hp. exact IH.
  - intros u1 u2 p1 p2 H1 H2 Hbase Hkeep. unfold canonicalizeUrl, canonical_params.
    now rewrite H1, H2, Hbase, Hkeep.
Qed.

End Canonicalize.

(** [utm_source] and a fragment go, [b] and [a] are kept and sorted. *)
Example canonical_params_example :
  canonical_params Scoring.ascii_lower
    (fun a b => if bool_decide (a = b) then 0%float
                else if Scoring.starts_with (js "a") a then (-1)%float else 1%float)
    [(js "b", js "2"); (js "UTM_source", js "x"); (js "a", js "1"); (js "ref", js "y")]
  = [(js "a", js "1"); (js "b", js "2")].
Proof. reflexivity. Qed.

End Canonical.

(** * background.js: query variations and re-ranking *)

Module Search.

Section Variations.

(** The [queryRewrite] setting, the chat model, and the provider's answer
    to the rewrite request for a query and a number of variations. *)
Variable queryRewrite : bool.
Variable chatModel : jsstring.
Variable chat_rewrite : jsstring -> Z -> Ask.response.

(** The loop over the lines of the reply: a new line is pushed, and the
    loop is left once [n + 1] variations are there. *)
Fixpoint add_lines (n : Z) (lines variations : list jsstring) : list jsstring :=
  match lines with
  | [] => variations
  | line :: r =>
      if nonempty line && negb (bool_decide (line ∈ variations)) then
        let variations := variations ++ [line] in
        if n + 1 <=? Z.of_nat (length variations) then variations
        else add_lines n r variations
      else add_lines n r variations
  end.

(** [generateQueryVariations(query, n)] *)
Definition generateQueryVariations (query : jsstring) (n : Z) : list jsstring :=
  let variations := [query] in
  if negb queryRewrite then variations
  else if negb (nonempty chatModel) then variations
  else
    match chat_rewrite query n with
    | Ask.Body (Some r) =>
        let content := Text.trim (Ask.r_content r) in
        if nonempty content then
          add_lines n
            (filter (fun l => nonempty l = true)
               (map Text.trim (Ask.split_on 10 [] content))) variations
        else variations
    | _ => variations
    end.

Lemma add_lines_spec n lines : forall variations,
  NoDup variations ->
  exists extra,
    add_lines n lines variations = variations ++ extra
    /\ NoDup (variations ++ extra)
    /\ extra `sublist_of` lines
    /\ (extra = []
        \/ Z.of_nat (length variations + length extra)
           <= Z.max (n + 1) (Z.of_nat (length variations) + 1))
    /\ ((forall l, l ∈ lines -> l <> [] -> l ∈ variations ++ extra)
        \/ (extra <> [] /\ n + 1 <= Z.of_nat (length variations + length extra))).
Proof.
  induction lines as [|line r IH]; intros variations Hnd; cbn [add_lines].
  - exists []. rewrite app_nil_r. split; [reflexivity|]. split; [exact Hnd|].
    split; [constructor|]. split; [now left|]. left.
    intros l Hl. apply elem_of_nil in Hl. contradiction.
  - assert (Hskip : line = [] \/ line ∈ variations ->
             exists extra,
               add_lines n r variations = variations ++ extra
               /\ NoDup (variations ++ extra) /\ extra `sublist_of` line :: r
               /\ (extra = [] \/ Z.of_nat (length variations + length extra)
                                 <= Z.max (n + 1) (Z.of_nat (length variations) + 1))
               /\ ((forall l, l ∈ line :: r -> l <> [] -> l ∈ variations ++ extra)
                   \/ (extra <> [] /\ n + 1 <= Z.of_nat (length variations + length extra)))).
    { intros Hline. destruct (IH variations Hnd) as (extra & He & Hn & Hs & Hl & Hall).
      exists extra. split; [exact He|]. split; [exact Hn|].
      split; [apply sublist_cons, Hs|]. split; [exact Hl|].
      destruct Hall as [Hall|Hfull]; [left|right; exact Hfull].
      intros l Hin Hne. apply elem_of_cons in Hin as [->|Hin]; [|now apply Hall].
      destruct Hline as [->|Hline]; [now destruct Hne|].
      apply elem_of_app. now left. }
    destruct line as [|c line]; [apply Hskip; now left|]. cbn [nonempty andb].
    destruct (decide (c :: line ∈ variations)) as [Hin|Hout].
    { rewrite bool_decide_eq_true_2 by exact Hin. cbn [negb]. apply Hskip. now right. }
    rewrite bool_decide_eq_false_2 by exact Hout. cbn [negb]. cbv zeta. clear Hskip.
    assert (Hnd1 : NoDup (variations ++ [c :: line])).
    { apply NoDup_app. split; [exact Hnd|]. split; [|apply NoDup_singleton].
      intros x Hx Hx'. apply list_elem_of_singleton in Hx'. now subst. }
    destruct (_ <=? _) eqn:Hfull;
      [apply Z.leb_le in Hfull | apply Z.leb_gt in Hfull; rename Hfull into Hroom].
    + exists [c :: line]. split; [reflexivity|]. split; [exact Hnd1|].
      split; [apply sublist_skip, sublist_nil_l|].
      rewrite length_app in Hfull. cbn [length] in *.
      split; [right; lia|]. right. split; [discriminate|lia].
    + destruct (IH _ Hnd1) as (extra & He & Hn & Hs & Hl & Hall).
      exists ((c :: line) :: extra). rewrite <- app_assoc in He, Hn. split; [exact He|].
      split; [exact Hn|]. split; [apply sublist_skip, Hs|].
      rewrite length_app in Hroom, Hl, Hall. cbn [length] in *.
      split; [right; destruct Hl as [->|Hl]; cbn [length]; lia|].
      destruct Hall as [Hall|[Hne Hfull]].
      * left. intros l Hin Hnel. rewrite <- app_assoc in Hall. cbn [app] in Hall.
        apply elem_of_cons in Hin as [->|Hin]; [|now apply Hall].
        apply elem_of_app. right. apply list_elem_of_here.
      * right. split; [discriminate|lia].
Qed.

(** The content read from the reply to the rewrite request, and its lines. *)
Definition rewrite_lines (query : jsstring) (n : Z) : list jsstring :=
  Ask.reply_lines (Ask.reply_content (chat_rewrite query n)).

Lemma generateQueryVariations_lines (query : jsstring) (n : Z) :
  generateQueryVariations query n
  = if queryRewrite && nonempty chatModel
    then add_lines n (rewrite_lines query n) [query]
    else [query].
Proof.
  unfold generateQueryVariations, rewrite_lines. cbv zeta.
  destruct queryRewrite; cbn [negb andb]; [|reflexivity].
  destruct (nonempty chatModel); cbn [negb]; [|reflexivity].
  destruct (chat_rewrite query n) as [| | |[r|]]; cbn [Ask.reply_content]; try reflexivity.
  destruct (Text.trim (Ask.r_content r)) as [|c0 content]; cbn [nonempty]; [reflexivity|].
  now rewrite Ask.reply_lines_filter.
Qed.

Lemma reply_lines_nonempty (content l : jsstring) : l ∈ Ask.reply_lines content -> l <> [].
Proof.
  unfold Ask.reply_lines. intros Hin. apply list_elem_of_In, filter_In in Hin as [_ Hne].
  intros ->. discriminate Hne.
Qed.

(** X18. [generateQueryVariations] answers the query alone when query
    rewriting is switched off, without a chat model, and when the request
    throws, is not ok, has no message or an empty or blank content.
    Otherwise it answers the query followed by lines of the reply's
    content, trimmed and not empty, in the order of the reply and none
    twice: at most [n] of them, and one when [n] is below one, so that the
    list holds [max(n, 1) + 1] entries at most; and either every such line
    is there or that bound is reached. *)
Theorem generateQueryVariations_bounded (query : jsstring) (n : Z) :
  (exists rest,
      generateQueryVariations query n = query :: rest
      /\ NoDup (query :: rest)
      /\ rest `sublist_of` rewrite_lines query n
      /\ Z.of_nat (length rest) <= Z.max 1 n
      /\ Z.of_nat (length (generateQueryVariations query n)) <= Z.max 1 n + 1)
  /\ (queryRewrite = true -> chatModel <> [] ->
      (forall l, l ∈ rewrite_lines query n -> l ∈ generateQueryVariations query n)
      \/ Z.of_nat (length (generateQueryVariations query n)) = Z.max 1 n + 1)
  /\ (queryRewrite = false \/ chatModel = [] ->
      generateQueryVariations query n = [query])
  /\ ((forall r, chat_rewrite query n <> Ask.Body (Some r)) ->
      generateQueryVariations query n = [query])
  /\ (forall r, chat_rewrite query n = Ask.Body (Some r) ->
                Text.trim (Ask.r_content r) = [] ->
                generateQueryVariations query n = [query]).
Proof.
  rewrite generateQueryVariations_lines.
  destruct (add_lines_spec n (rewrite_lines query n) [query] (NoDup_singleton query))
    as (extra & He & Hnd & Hsub & Hlen & Hall).
  cbn [length] in Hlen, Hall.
  assert (Hnone : Ask.reply_content (chat_rewrite query n) = [] ->
                  (if queryRewrite && nonempty chatModel
                   then add_lines n (rewrite_lines query n) [query] else [query])
                  = [query]).
  { intros Hc. unfold rewrite_lines. rewrite Hc, Ask.reply_lines_empty.
    now destruct (queryRewrite && nonempty chatModel). }
  split; [|split; [|split; [|split]]].
  - destruct (queryRewrite && nonempty chatModel).
    + exists extra. rewrite He. split; [reflexivity|]. split; [exact Hnd|].
      split; [exact Hsub|]. rewrite length_app. cbn [length].
      destruct Hlen as [->|Hlen]; cbn [length]; lia.
    + exists []. split; [reflexivity|]. split; [apply NoDup_singleton|].
      split; [apply sublist_nil_l|]. cbn [length]. lia.
  - intros -> Hmodel. destruct chatModel as [|c model]; [now destruct Hmodel|].
    cbn [nonempty andb]. rewrite He.
    destruct Hall as [Hall|[Hne Hfull]].
    + left. intros l Hl. apply Hall; [exact Hl|].
      eapply reply_lines_nonempty. exact Hl.
    + right. rewrite length_app. cbn [length].
      destruct Hlen as [->|Hlen]; [now destruct Hne|].
      destruct extra as [|l extra]; [now destruct Hne|]. cbn [length] in *. lia.
  - intros [-> | ->]; [reflexivity|]. now rewrite andb_false_r.
  - intros Hno. apply Hnone. unfold Ask.reply_content.
    destruct (chat_rewrite query n) as [| | |[r|]]; try reflexivity. now destruct (Hno r).
  - intros r Hr Hblank. apply Hnone. unfold Ask.reply_content. rewrite Hr. exact Hblank.
Qed.

End Variations.

Section Rerank.

(** How the batched request ends: it throws, it is not ok, or its content
    is read as JSON; [scores] is [None] when that is not an Array, and the
    Array of the [parseFloat] of its elements otherwise (the empty Array
    when the content does not parse). *)
Inductive batch_reply :=
| BatchThrew
| BatchNotOk
| BatchScores (scores : option (list float)).

(** The [crossEncoder] setting, the chat model, the batched request and
    the request for one candidate: the number [parseFloat] reads from its
    reply, NaN when there is none. *)
Variable crossEncoder : bool.
Variable chatModel : jsstring.
Variable rerank_batch : jsstring -> list Ask.hit -> batch_reply.
Variable rerank_single : jsstring -> Ask.hit -> float.

(** [!isNaN(v) ? v : 0] into [crossScore]. *)
Definition with_cross (h : Ask.hit) (v : float) : Ask.hit :=
  Ask.Hit (Ask.h_url h) (Ask.h_snippet h) (Ask.h_title h) (Ask.h_score h)
    (Ask.h_weightedScore h) (Some (if PrimFloat.is_nan v then 0%float else v)).

(** [a !== b] on numbers that may be undefined. *)
Definition strict_neq (a b : option float) : bool :=
  match a, b with
  | None, None => false
  | Some x, Some y => negb (PrimFloat.eqb x y)
  | _, _ => true
  end.

(** The comparator of the final sort. *)
Definition by_cross (a b : Ask.hit) : float :=
  if strict_neq (Ask.h_crossScore b) (Ask.h_crossScore a)
  then Ask.js_minus (Ask.h_crossScore b) (Ask.h_crossScore a)
  else Ask.js_minus (Ask.js_or (Ask.h_weightedScore b) (Ask.h_score b))
                    (Ask.js_or (Ask.h_weightedScore a) (Ask.h_score a)).

(** The candidates with their scores, before the sort. *)
Definition scored (query : jsstring) (candidates : list Ask.hit) : list Ask.hit :=
  match rerank_batch query candidates with
  | BatchScores scores =>
      match scores with
      | Some l =>
          if (length l =? length candidates)%nat then zip_with with_cross candidates l
          else map (fun c => with_cross c (rerank_single query c)) candidates
      | None => map (fun c => with_cross c (rerank_single query c)) candidates
      end
  | _ => candidates
  end.

(** [reRankWithCrossEncoder(query, candidates)] *)
Definition reRankWithCrossEncoder (query : jsstring) (candidates : list Ask.hit)
    : list Ask.hit :=
  if negb crossEncoder then candidates
  else if negb (nonempty chatModel) then candidates
  else Ask.sort_with by_cross (scored query candidates).

(** A candidate without its cross score. *)
Definition base_of (h : Ask.hit)
    : jsstring * jsstring * jsstring * option float * option float :=
  (Ask.h_url h, Ask.h_snippet h, Ask.h_title h, Ask.h_score h, Ask.h_weightedScore h).

(** A cross score that is a number. *)
Definition rated (h : Ask.hit) : Prop :=
  exists x, Ask.h_crossScore h = Some x /\ PrimFloat.is_nan x = false.

Lemma with_cross_rated h v : rated (with_cross h v).
Proof.
  unfold rated, with_cross. simpl. destruct (PrimFloat.is_nan v) eqn:Hv.
  - exists 0%float. split; reflexivity.
  - exists v. split; [reflexivity|exact Hv].
Qed.

Lemma zip_with_cross_spec candidates : forall l,
  length l = length candidates ->
  map base_of (zip_with with_cross candidates l) = map base_of candidates
  /\ Forall rated (zip_with with_cross candidates l).
Proof.
  induction candidates as [|c r IH]; intros [|v l] Hlen; simpl in *; try discriminate.
  - split; [reflexivity|constructor].
  - destruct (IH l) as [Hb Hr]; [lia|]. split; [now rewrite Hb|].
    constructor; [apply with_cross_rated|exact Hr].
Qed.

Lemma map_with_cross_spec (f : Ask.hit -> float) candidates :
  map base_of (map (fun c => with_cross c (f c)) candidates) = map base_of candidates
  /\ Forall rated (map (fun c => with_cross c (f c)) candidates).
Proof.
  induction candidates as [|c r [Hb Hr]]; simpl; [split; [reflexivity|constructor]|].
  split; [now rewrite Hb|]. constructor; [apply with_cross_rated|exact Hr].
Qed.

(** X19. Re-ranking never loses, adds or alters a candidate: what it
    returns are the candidates, reordered, with nothing changed but the
    cross score. With re-ranking switched off or without a chat model they
    come back as they are, in their order. When the batched request throws
    or is not ok, no score is attached and no candidate is scored on its
    own: the candidates are sorted as they came. When the batched request
    is ok, every candidate gets a cross score that is a number: the scores
    of the batch when its content is an Array as long as the candidates,
    and otherwise the score of a request of its own for each; 0 stands for
    a score that cannot be read. *)
Theorem reRank_keeps_candidates (query : jsstring) (candidates : list Ask.hit) :
  map base_of (reRankWithCrossEncoder query candidates) ≡ₚ map base_of candidates
  /\ (crossEncoder = false \/ chatModel = [] ->
      reRankWithCrossEncoder query candidates = candidates)
  /\ (forall scores, crossEncoder = true -> chatModel <> [] ->
        rerank_batch query candidates = BatchScores scores ->
        Forall rated (reRankWithCrossEncoder query candidates))
  /\ (crossEncoder = true -> chatModel <> [] ->
      rerank_batch query candidates = BatchThrew
      \/ rerank_batch query candidates = BatchNotOk ->
      reRankWithCrossEncoder query candidates = Ask.sort_with by_cross candidates)
  /\ (forall l, crossEncoder = true -> chatModel <> [] ->
        rerank_batch query candidates = BatchScores (Some l) ->
        length l = length candidates ->
        reRankWithCrossEncoder query candidates
        = Ask.sort_with by_cross (zip_with with_cross candidates l))
  /\ (forall scores, crossEncoder = true -> chatModel <> [] ->
        rerank_batch query candidates = BatchScores scores ->
        (forall l, scores = Some l -> length l <> length candidates) ->
        reRankWithCrossEncoder query candidates
        = Ask.sort_with by_cross
            (map (fun c => with_cross c (rerank_single query c)) candidates)).
Proof.
  assert (Hscored : map base_of (scored query candidates) = map base_of candidates
                    /\ forall scores, rerank_batch query candidates = BatchScores scores ->
                                      Forall rated (scored query candidates)).
  { unfold scored. destruct (rerank_batch query candidates) as [| |[l|]].
    - split; [reflexivity|discriminate].
    - split; [reflexivity|discriminate].
    - destruct (Nat.eqb_spec (length l) (length candidates)) as [Hlen|_].
      + destruct (zip_with_cross_spec candidates l Hlen). auto.
      + destruct (map_with_cross_spec (rerank_single query) candidates). auto.
    - destruct (map_with_cross_spec (rerank_single query) candidates). auto. }
  destruct Hscored as [Hbase Hrated].
  unfold reRankWithCrossEncoder.
  destruct crossEncoder; cbn [negb].
  2:{ split; [reflexivity|]. split; [reflexivity|]. repeat split; discriminate. }
  destruct chatModel as [|c model]; cbn [nonempty negb].
  { split; [reflexivity|]. split; [reflexivity|].
    repeat split; intros; congruence. }
  split; [|split; [|split; [|split; [|split]]]].
  - rewrite <- Hbase. apply fmap_Permutation, Order.sort_with_Permutation.
  - intros [H|H]; discriminate H.
  - intros scores _ _ Hb.
    rewrite (Order.sort_with_Permutation _ by_cross (scored query candidates)).
    now apply (Hrated scores).
  - intros _ _ Hb. unfold scored. now destruct Hb as [-> | ->].
  - intros l _ _ Hb Hlen. unfold scored. rewrite Hb.
    apply Nat.eqb_eq in Hlen. now rewrite Hlen.
  - intros scores _ _ Hb Hbad. unfold scored. rewrite Hb.
    destruct scores as [l|]; [|reflexivity].
    destruct (Nat.eqb_spec (length l) (length candidates)) as [Hlen|_]; [|reflexivity].
    now destruct (Hbad l eq_refl).
Qed.

End Rerank.

End Search.

(** * background.js: the summary backfill queue *)

Module SummaryQueue.

(** [{ id, date, attempts }] *)
Record task := Task {
  t_id : Z;
  t_date : option string;
  t_attempts : nat
}.

(** The module-level variables, and the tasks whose turn of the loop has
    ended in its [catch], in the order of the turns. *)
Record state := State {
  SUMMARY_QUEUE : list task;
  SUMMARY_RUNNING : bool;
  thrown : list task
}.

Definition initial : state := State [] false [].

(** The [while] loop of [runSummaryQueue]. A turn shifts the task at the
    head of the queue and calls [getPageById(task.id)]. background.js
    neither declares nor imports that name, and none of db.js, text.js,
    logger.js and vectors.js, which it loads for what they register on the
    global scope, registers it: evaluating the call throws a ReferenceError
    before anything is awaited, the [catch] of the turn swallows it and the
    loop goes on. The statements after the call (the summary, the write of
    the record, the timer of the retry) are never reached, and the loop
    runs to its end without giving up control. *)
Fixpoint drain (queue thrown : list task) : list task :=
  match queue with
  | [] => thrown
  | task :: r => drain r (thrown ++ [task])
  end.

(** [runSummaryQueue()] *)
Definition runSummaryQueue (s : state) : state :=
  if SUMMARY_RUNNING s then s
  else State [] false (drain (SUMMARY_QUEUE s) (thrown s)).

(** [enqueueSummaryBackfill(task)]: [id] is [None] when [task.id] is not
    a number, [date] is [task.date || null]. *)
Definition enqueueSummaryBackfill (id : option Z) (date : option string) (s : state) : state :=
  match id with
  | None => s
  | Some id =>
      if existsb (fun t => t_id t =? id) (SUMMARY_QUEUE s) then s
      else runSummaryQueue
             (State (SUMMARY_QUEUE s ++ [Task id date 0]) (SUMMARY_RUNNING s) (thrown s))
  end.

(** The states the calls of [enqueueSummaryBackfill] lead to. *)
Inductive reachable : state -> Prop :=
| reachable_initial : reachable initial
| reachable_enqueue id date s : reachable s -> reachable (enqueueSummaryBackfill id date s).

(** A sequence of calls, each with its [id] and [date]. *)
Definition enqueue_all (calls : list (option Z * option string)) (s : state) : state :=
  fold_left (fun s c => enqueueSummaryBackfill (fst c) (snd c) s) calls s.

(** The task a call queues. *)
Definition task_of (c : option Z * option string) : option task :=
  match fst c with
  | Some id => Some (Task id (snd c) 0)
  | None => None
  end.

Lemma drain_app queue : forall thrown, drain queue thrown = thrown ++ queue.
Proof.
  induction queue as [|task r IH]; intros thrown; cbn [drain].
  - now rewrite app_nil_r.
  - now rewrite IH, <- app_assoc.
Qed.

Lemma summary_reachable_idle s :
  reachable s -> SUMMARY_QUEUE s = [] /\ SUMMARY_RUNNING s = false.
Proof.
  induction 1 as [|id date s _ [Hq Hr]]; [split; reflexivity|].
  unfold enqueueSummaryBackfill, runSummaryQueue. destruct id as [id|]; [|now split].
  rewrite Hq, Hr. cbn. now split.
Qed.

Lemma enqueue_idle id date s :
  SUMMARY_QUEUE s = [] -> SUMMARY_RUNNING s = false ->
  enqueueSummaryBackfill (Some id) date s = State [] false (thrown s ++ [Task id date 0]).
Proof.
  intros Hq Hr. unfold enqueueSummaryBackfill, runSummaryQueue. rewrite Hq, Hr. reflexivity.
Qed.

Lemma enqueue_all_thrown calls : forall s,
  SUMMARY_QUEUE s = [] -> SUMMARY_RUNNING s = false ->
  enqueue_all calls s = State [] false (thrown s ++ omap task_of calls).
Proof.
  induction calls as [|[id date] r IH]; intros s Hq Hr; cbn [enqueue_all fold_left omap].
  - rewrite app_nil_r. destruct s; cbn in *. now subst.
  - fold (enqueue_all r). unfold task_of. cbn [fst snd]. destruct id as [id|].
    + rewrite (enqueue_idle id date s Hq Hr), IH by reflexivity. cbn [thrown].
      now rewrite <- app_assoc.
    + cbn [enqueueSummaryBackfill]. now apply IH.
Qed.

(** X20. The summary backfill never produces a summary: the loop of
    [runSummaryQueue] calls [getPageById], which nothing declares, so every
    turn ends in its [catch]. A call of [enqueueSummaryBackfill] without a
    numeric id changes nothing; any other queues its task, which is taken
    and dropped before the call returns, whether or not its id was queued
    before. So after any calls the queue is empty, [SUMMARY_RUNNING] is
    false, and the tasks dropped are those of the calls with a numeric id,
    in the order of the calls and with no attempt recorded. A call of
    [runSummaryQueue] while [SUMMARY_RUNNING] is set returns at once;
    otherwise it drops the whole queue, from its head on. *)
Theorem backfill_drops_every_task :
  (forall s, reachable s -> SUMMARY_QUEUE s = [] /\ SUMMARY_RUNNING s = false)
  /\ (forall calls,
        reachable (enqueue_all calls initial)
        /\ thrown (enqueue_all calls initial) = omap task_of calls)
  /\ (forall s id date, reachable s ->
        enqueueSummaryBackfill (Some id) date s
        = State [] false (thrown s ++ [Task id date 0]))
  /\ (forall s date, enqueueSummaryBackfill None date s = s)
  /\ (forall s, SUMMARY_RUNNING s = true -> runSummaryQueue s = s)
  /\ (forall s, SUMMARY_RUNNING s = false ->
        runSummaryQueue s = State [] false (thrown s ++ SUMMARY_QUEUE s)).
Proof.
  split; [exact summary_reachable_idle|]. split; [|split; [|split; [|split]]].
  - intros calls. split.
    + unfold enqueue_all. generalize reachable_initial. generalize initial.
      induction calls as [|c r IH]; intros s Hs; cbn [fold_left]; [exact Hs|].
      apply IH. now constructor.
    + now rewrite enqueue_all_thrown.
  - intros s id date Hs. destruct (summary_reachable_idle s Hs) as [Hq Hr].
    now apply enqueue_idle.
  - reflexivity.
  - intros s Hr. unfold runSummaryQueue. now rewrite Hr.
  - intros s Hr. unfold runSummaryQueue. now rewrite Hr, drain_app.
Qed.

(** The same page asked for twice: both tasks are dropped. *)
Example backfill_example :
  enqueue_all [(Some 7, Some "2025-10-01"%string); (None, None); (Some 7, None)] initial
  = State [] false [Task 7 (Some "2025-10-01"%string) 0; Task 7 None 0].
Proof. reflexivity. Qed.

End SummaryQueue.

(** * The tool runtime (src/unnamed/part_005) *)

Module Tools.

(** A property of the parsed arguments that the code tests with [typeof]:
    missing, a number, or something else. Numbers are the integers; the code
    reads them through [| 0]. *)
Inductive field := Undefined | Num (z : Z) | Other.

(** The arguments of a tool call: their [JSON.stringify], which makes the
    signature of the call, [url] and [query] when they are strings, and the
    numeric properties. *)
Record raw_args := RawArgs {
  a_json : jsstring;
  a_url : option jsstring;
  a_query : option jsstring;
  a_chunkIndex : field;
  a_start : field;
  a_end : field;
  a_k : field
}.

(** [opts.maxSlice] is not given where the runtime is built: 1200. *)
Definition maxSlice : Z := 1200.

Definition is_number (f : field) : bool := match f with Num _ => true | _ => false end.
Definition is_defined (f : field) : bool := match f with Undefined => false | _ => true end.

(** A string property that is there and not empty. *)
Definition given (s : option jsstring) : bool :=
  match s with Some (_ :: _) => true | _ => false end.

(** [out] of [_validateFetchMore]. *)
Record fetch_value := FetchValue {
  fv_url : option jsstring;
  fv_chunkIndex : option Z;
  fv_start : Z;
  fv_end : Z
}.

(** [_validateFetchMore(args)]: the errors and the value. *)
Definition validateFetchMore (a : raw_args) : list string * fetch_value :=
  let url := if given (a_url a) then a_url a else None in
  let hasChunk := is_number (a_chunkIndex a) in
  let hasRange := is_defined (a_start a) || is_defined (a_end a) in
  let errors :=
    (if given (a_url a) then [] else ["url (string) is required"%string])
    ++ (if negb hasChunk && negb hasRange
        then ["provide chunkIndex or a small start/end range"%string] else []) in
  (errors,
   match a_chunkIndex a with
   | Num c => FetchValue url (Some (Z.max 0 (Text.to_int32 c))) 0 0
   | _ =>
       let start := match a_start a with Num s => Text.to_int32 s | _ => 0 end in
       let end_ := match a_end a with Num e => Text.to_int32 e | _ => start + maxSlice end in
       let start := if start <? 0 then 0 else start in
       let end_ := if end_ <? start then start + maxSlice else end_ in
       FetchValue url None start end_
   end).

(** [_validateGetPageSummary(args)] *)
Definition validateGetPageSummary (a : raw_args) : list string * option jsstring :=
  if given (a_url a) then ([], a_url a) else (["url (string) is required"%string], None).

(** [_validateSearchMemory(args)]: the errors, the query and [k]. *)
Definition validateSearchMemory (a : raw_args) : list string * option jsstring * Z :=
  let k := match a_k a with Num k => Text.to_int32 k | _ => 5 end in
  let k := if k <? 1 then 1 else k in
  let k := if 10 <? k then 10 else k in
  if given (a_query a) then ([], a_query a, k)
  else (["query (string) is required"%string], None, k).

(** The range [fetch_more] reads of a text of [len] code units, from the
    validated [start] and [end]. *)
Definition clamp_range (start end_ len : Z) : Z * Z :=
  let start := Text.to_int32 start in
  let end_ := Text.to_int32 end_ in
  let start := if start <? 0 then 0 else start in
  let end_ := if end_ <? start then start + maxSlice else end_ in
  let end_ := Z.min len end_ in
  let end_ := if maxSlice <? end_ - start then start + maxSlice else end_ in
  (start, end_).

(** [full.slice(s, e)] *)
Definition js_slice (full : jsstring) (s e : Z) : jsstring :=
  let len := Z.of_nat (length full) in
  let from := if s <? 0 then Z.max (len + s) 0 else Z.min s len in
  let to := if e <? 0 then Z.max (len + e) 0 else Z.min e len in
  take (Z.to_nat (to - from)) (drop (Z.to_nat from) full).

(** A range of a page kept in the cache, with its text. *)
Record segment := Segment {
  seg_s : Z;
  seg_e : Z;
  seg_text : jsstring
}.

(** The loop of [_mergeRange]: the first segment within 50 code units of
    the range is widened to hold it; [None] when there is none. *)
Fixpoint widen (ns ne : Z) (full : jsstring) (arr : list segment) : option (list segment) :=
  match arr with
  | [] => None
  | r :: rest =>
      if negb ((ne <? seg_s r - 50) || (seg_e r + 50 <? ns)) then
        let s := Z.min (seg_s r) ns in
        let e := Z.max (seg_e r) ne in
        Some (Segment s e (js_slice full s e) :: rest)
      else option_map (cons r) (widen ns ne full rest)
  end.

(** [_mergeRange(url, s, e, full)] on the segments cached for the URL: the
    text returned ([None] if [seg] were undefined) and the segments
    afterwards. *)
Definition mergeRange (s e : Z) (full : jsstring) (arr : list segment)
    : option jsstring * list segment :=
  let ns := Z.max 0 (Text.to_int32 s) in
  let ne := Z.max ns (Text.to_int32 e) in
  let arr := match widen ns ne full arr with
             | Some arr' => arr'
             | None => arr ++ [Segment ns ne (js_slice full ns ne)]
             end in
  let seg := match List.find (fun r => (seg_s r <=? ns) && (ne <=? seg_e r)) arr with
             | Some r => Some r
             | None => last arr
             end in
  (option_map seg_text seg, arr).

(** A hit as the searches hand it to the runtime. *)
Record tool_hit := ToolHit {
  th_title : jsstring;
  th_url : jsstring;
  th_snippet : jsstring;
  th_chunkIndex : Z
}.

Inductive error_code := invalid_args | disallowed | unknown_tool | tool_error.

(** What the [content] of a reply says, before [JSON.stringify]. *)
Inductive content :=
| Deduped
| PageText (text : jsstring) (chunkIndex : option Z) (range : option (Z * Z))
| PageSummary (summary : jsstring)
| Hits (data : list tool_hit) (partial : bool)
| SearchFailed
| Failed (code : error_code) (errors : list string).

(** A row of [metrics] (without the time taken). *)
Record metric := Metric {
  m_name : jsstring;
  m_ok : bool;
  m_deduped : bool;
  m_error : option error_code
}.

(** The mutable part of a [ToolsRuntime]. [usedUrls] holds the elements of
    [usedUrlOrder] and is read through it; a URL without cached segments has
    the empty array. *)
Record runtime := Runtime {
  calls : list jsstring;
  metrics : list metric;
  usedUrlOrder : list jsstring;
  fetchMore : jsstring -> list segment;
  summary : jsstring -> option jsstring;
  search : jsstring -> option content
}.

(** [new ToolsRuntime(opts)] *)
Definition fresh : runtime :=
  Runtime [] [] [] (fun _ => []) (fun _ => None) (fun _ => None).

(** [map.set(key, v)] *)
Definition map_set {V : Type} (m : jsstring -> V) (key : jsstring) (v : V) : jsstring -> V :=
  fun k => if bool_decide (k = key) then v else m k.

(** [if (!this.usedUrls.has(url)) { this.usedUrls.add(url); this.usedUrlOrder.push(url); }] *)
Definition use_url (url : jsstring) (rt : runtime) : runtime :=
  if bool_decide (url ∈ usedUrlOrder rt) then rt
  else Runtime (calls rt) (metrics rt) (usedUrlOrder rt ++ [url])
               (fetchMore rt) (summary rt) (search rt).

Definition set_fetchMore (url : jsstring) (arr : list segment) (rt : runtime) : runtime :=
  Runtime (calls rt) (metrics rt) (usedUrlOrder rt)
          (map_set (fetchMore rt) url arr) (summary rt) (search rt).

Definition set_summary (url : jsstring) (s : jsstring) (rt : runtime) : runtime :=
  Runtime (calls rt) (metrics rt) (usedUrlOrder rt)
          (fetchMore rt) (map_set (summary rt) url (Some s)) (search rt).

Definition set_search (key : jsstring) (c : content) (rt : runtime) : runtime :=
  Runtime (calls rt) (metrics rt) (usedUrlOrder rt)
          (fetchMore rt) (summary rt) (map_set (search rt) key (Some c)).

Definition add_call (sig : jsstring) (rt : runtime) : runtime :=
  Runtime (calls rt ++ [sig]) (metrics rt) (usedUrlOrder rt)
          (fetchMore rt) (summary rt) (search rt).

Definition add_metric (m : metric) (rt : runtime) : runtime :=
  Runtime (calls rt) (metrics rt ++ [m]) (usedUrlOrder rt)
          (fetchMore rt) (summary rt) (search rt).

Section Runtime.

(** [opts.allowedUrls]; [opts.pageText.get(url) || '']; the text of chunk
    [idx] of the page with the URL, [String(page?.items?.[idx]?.text || '')];
    its summary, [(page && page.summary) ? page.summary : '']. *)
Variable allowedUrls : list jsstring.
Variable pageText : jsstring -> jsstring.
Variable chunk_text : jsstring -> Z -> jsstring.
Variable page_summary : jsstring -> jsstring.

(** [opts.searchMemory] within the time limit and [opts.quickSearchMemory]:
    the hits, or [None] when the promise is rejected (or times out). *)
Variable searchMemory : jsstring -> Z -> option (list tool_hit).
Variable quickSearchMemory : jsstring -> Z -> option (list tool_hit).

(** The body of the [try] for [fetch_more]: what it throws or the content,
    and the runtime afterwards. [None] stands for [null] arguments, on which
    [typeof args.chunkIndex] throws a TypeError. *)
Definition run_fetch_more (rawArgs : option raw_args) (rt : runtime)
    : (error_code * list string + content) * runtime :=
  match rawArgs with
  | None => (inl (tool_error, []), rt)
  | Some a =>
      let '(errors, v) := validateFetchMore a in
      if nonempty errors then (inl (invalid_args, errors), rt)
      else
        let url := default [] (fv_url v) in
        if negb (bool_decide (url ∈ allowedUrls)) then (inl (disallowed, []), rt)
        else
          let full := pageText url in
          match fv_chunkIndex v with
          | Some idx =>
              (inr (PageText (chunk_text url idx) (Some idx) None), use_url url rt)
          | None =>
              let '(start, end_) :=
                clamp_range (fv_start v) (fv_end v) (Z.of_nat (length full)) in
              let '(txt, arr) := mergeRange start end_ full (fetchMore rt url) in
              let rt := set_fetchMore url arr rt in
              match txt with
              | Some txt => (inr (PageText txt None (Some (start, end_))), use_url url rt)
              | None => (inl (tool_error, []), rt)
              end
          end
  end.

(** The body of the [try] for [get_page_summary]. *)
Definition run_get_page_summary (rawArgs : option raw_args) (rt : runtime)
    : (error_code * list string + content) * runtime :=
  let '(errors, url) :=
    match rawArgs with
    | None => (["url (string) is required"%string], None)
    | Some a => validateGetPageSummary a
    end in
  if nonempty errors then (inl (invalid_args, errors), rt)
  else
    let url := default [] url in
    if negb (bool_decide (url ∈ allowedUrls)) then (inl (disallowed, []), rt)
    else
      match summary rt url with
      | Some s => (inr (PageSummary s), use_url url rt)
      | None =>
          let s := page_summary url in
          (inr (PageSummary s), use_url url (set_summary url s rt))
      end.

(** The two loops over the hits of a search. *)
Definition use_hits (hits : list tool_hit) (rt : runtime) : runtime :=
  fold_left (fun rt h => use_url (th_url h) rt) hits rt.

Definition use_quick_hits (hits : list tool_hit) (rt : runtime) : runtime :=
  fold_left (fun rt h => if nonempty (th_url h) then use_url (th_url h) rt else rt) hits rt.

(** [`${query}::${k}`] *)
Definition search_key (query : jsstring) (k : Z) : jsstring :=
  query ++ js "::" ++ Ask.show_nat (Z.to_nat k).

(** The body of the [try] for [search_memory]. *)
Definition run_search_memory (rawArgs : option raw_args) (rt : runtime)
    : (error_code * list string + content) * runtime :=
  let '(errors, query, k) :=
    match rawArgs with
    | None => (["query (string) is required"%string], None, 5)
    | Some a => validateSearchMemory a
    end in
  if nonempty errors then (inl (invalid_args, errors), rt)
  else
    let query := default [] query in
    let key := search_key query k in
    match search rt key with
    | Some c => (inr c, rt)
    | None =>
        let '(c, rt) :=
          match searchMemory query k with
          | Some hits => (Hits hits false, use_hits hits rt)
          | None =>
              match quickSearchMemory query k with
              | Some quick => (Hits quick true, use_quick_hits quick rt)
              | None => (SearchFailed, rt)
              end
          end in
        (inr c, set_search key c rt)
    end.

(** [_sig(name, args)] *)
Definition sig (name : jsstring) (rawArgs : option raw_args) : jsstring :=
  name ++ js ":" ++ match rawArgs with Some a => a_json a | None => js "null" end.

(** [runToolCall(name, rawArgs)]: the content of the reply and the runtime
    afterwards. *)
Definition runToolCall (name : jsstring) (rawArgs : option raw_args) (rt : runtime)
    : content * runtime :=
  let signature := sig name rawArgs in
  if bool_decide (signature ∈ calls rt) then
    (Deduped, add_metric (Metric name true true None) rt)
  else
    let rt := add_call signature rt in
    let '(res, rt) :=
      if bool_decide (name = js "fetch_more") then run_fetch_more rawArgs rt
      else if bool_decide (name = js "get_page_summary") then run_get_page_summary rawArgs rt
      else if bool_decide (name = js "search_memory") then run_search_memory rawArgs rt
      else (inl (unknown_tool, []), rt) in
    match res with
    | inr c => (c, add_metric (Metric name true false None) rt)
    | inl (code, errors) =>
        (Failed code errors, add_metric (Metric name false false (Some code)) rt)
    end.

End Runtime.

(** ** Properties of the tool runtime *)

(** X21. The arguments a tool works with are always in bounds, whatever the
    model sent. [search_memory] searches with [1 <= k <= 10], and with 5 when
    [k] is not a number; its only error is a missing or empty query.
    [fetch_more] is valid exactly with a non-empty URL and a chunk index or
    some range; a chunk index is never negative, a validated range has
    [0 <= start <= end], and the range that is read of a text lies within
    it from [start >= 0] and is never longer than [maxSlice]. *)
Theorem validated_arguments_bounds (a : raw_args) (start end_ : Z) (n : nat) :
  (let '(errors, _, k) := validateSearchMemory a in
   1 <= k <= 10
   /\ (is_number (a_k a) = false -> k = 5)
   /\ (errors = [] <-> given (a_query a) = true))
  /\ (let '(errors, v) := validateFetchMore a in
      (errors = [] <->
       given (a_url a) = true
       /\ is_number (a_chunkIndex a) || is_defined (a_start a) || is_defined (a_end a) = true)
      /\ match fv_chunkIndex v with
         | Some idx => 0 <= idx /\ is_number (a_chunkIndex a) = true
         | None => 0 <= fv_start v <= fv_end v /\ is_number (a_chunkIndex a) = false
         end)
  /\ (let '(s, e) := clamp_range start end_ (Z.of_nat n) in
      0 <= s /\ e <= Z.of_nat n /\ e - s <= maxSlice).
Proof.
  split; [|split].
  - unfold validateSearchMemory.
    assert (Hk : forall k0, let k := if k0 <? 1 then 1 else k0 in
                            1 <= (if 10 <? k then 10 else k) <= 10).
    { intros k0. cbv zeta. destruct (Z.ltb_spec k0 1).
      - reflexivity || (cbn; lia).
      - destruct (Z.ltb_spec 10 k0); lia. }
    destruct (given (a_query a)) eqn:Hq.
    + split; [apply Hk|]. split; [|tauto].
      destruct (a_k a); cbn; intros; try reflexivity; discriminate.
    + split; [apply Hk|]. split.
      * destruct (a_k a); cbn; intros; try reflexivity; discriminate.
      * split; discriminate.
  - unfold validateFetchMore. split.
    + destruct (given (a_url a)), (a_chunkIndex a), (a_start a), (a_end a); cbn;
        split; try discriminate; try tauto; try (intros [? ?]; discriminate);
        intros; split; reflexivity.
    + unfold maxSlice.
      destruct (a_chunkIndex a); cbn [fv_chunkIndex fv_start fv_end is_number].
      * split; [|reflexivity].
        generalize (match a_start a with Num s => Text.to_int32 s | _ => 0 end).
        intros s0.
        generalize (match a_end a with Num e => Text.to_int32 e | _ => s0 + 1200 end).
        intros e0.
        destruct (Z.ltb_spec s0 0); destruct (Z.ltb_spec e0 0);
          try destruct (Z.ltb_spec e0 s0); lia.
      * split; [lia | reflexivity].
      * split; [|reflexivity].
        generalize (match a_start a with Num s => Text.to_int32 s | _ => 0 end).
        intros s0.
        generalize (match a_end a with Num e => Text.to_int32 e | _ => s0 + 1200 end).
        intros e0.
        destruct (Z.ltb_spec s0 0); destruct (Z.ltb_spec e0 0);
          try destruct (Z.ltb_spec e0 s0); lia.
  - unfold clamp_range, maxSlice.
    generalize (Text.to_int32 start) (Text.to_int32 end_). intros s0 e0.
    destruct (Z.ltb_spec s0 0).
    + destruct (Z.ltb_spec e0 0).
      * destruct (Z.ltb_spec 1200 (Z.min (Z.of_nat n) (0 + 1200) - 0)); lia.
      * destruct (Z.ltb_spec 1200 (Z.min (Z.of_nat n) e0 - 0)); lia.
    + destruct (Z.ltb_spec e0 s0).
      * destruct (Z.ltb_spec 1200 (Z.min (Z.of_nat n) (s0 + 1200) - s0)); lia.
      * destruct (Z.ltb_spec 1200 (Z.min (Z.of_nat n) e0 - s0)); lia.
Qed.

(** The cached segments of a page agree with its text. *)
Definition consistent (full : jsstring) (arr : list segment) : Prop :=
  Forall (fun r => 0 <= seg_s r /\ seg_s r <= seg_e r
                   /\ seg_text r = js_slice full (seg_s r) (seg_e r)) arr.

(** [r'] holds at least the range of [r]. *)
Definition covers (r' r : segment) : Prop :=
  seg_s r' <= seg_s r /\ seg_e r <= seg_e r'.

Lemma widen_spec (ns ne : Z) (full : jsstring) (arr arr' : list segment) :
  widen ns ne full arr = Some arr' ->
  exists pre r post,
    arr = pre ++ r :: post
    /\ arr' = pre ++ Segment (Z.min (seg_s r) ns) (Z.max (seg_e r) ne)
                       (js_slice full (Z.min (seg_s r) ns) (Z.max (seg_e r) ne)) :: post.
Proof.
  revert arr'. induction arr as [|r rest IH]; intros arr' H; [discriminate|].
  cbn [widen] in H.
  destruct (negb ((ne <? seg_s r - 50) || (seg_e r + 50 <? ns))).
  - injection H as <-. exists [], r, rest. split; reflexivity.
  - destruct (widen ns ne full rest) as [rest'|]; [|discriminate].
    injection H as <-.
    destruct (IH rest' eq_refl) as (pre & r0 & post & -> & ->).
    exists (r :: pre), r0, post. split; reflexivity.
Qed.

(** The segments after [_mergeRange], and one of them that holds the range. *)
Lemma merged_segments (ns ne : Z) (full : jsstring) (arr : list segment) :
  0 <= ns <= ne -> consistent full arr ->
  let arr' := match widen ns ne full arr with
              | Some arr' => arr'
              | None => arr ++ [Segment ns ne (js_slice full ns ne)]
              end in
  consistent full arr'
  /\ (length arr' = length arr \/ length arr' = S (length arr))
  /\ (forall r, r ∈ arr -> exists r', r' ∈ arr' /\ covers r' r)
  /\ exists r', r' ∈ arr' /\ seg_s r' <= ns /\ ne <= seg_e r'.
Proof.
  intros Hn Hc. cbv zeta.
  destruct (widen ns ne full arr) as [arr'|] eqn:Hw.
  - destruct (widen_spec _ _ _ _ _ Hw) as (pre & r & post & -> & ->).
    unfold consistent in *.
    apply Forall_app in Hc as [Hpre Hc].
    apply Forall_cons in Hc as [(Hr1 & Hr2 & _) Hpost].
    set (w := Segment _ _ _).
    assert (Hw' : covers w r /\ seg_s w <= ns /\ ne <= seg_e w /\ 0 <= seg_s w <= seg_e w).
    { unfold covers, w. cbn [seg_s seg_e]. lia. }
    destruct Hw' as (Hcov & Hs & He & Hse).
    split; [|split; [|split]].
    + apply Forall_app. split; [exact Hpre|].
      apply Forall_cons. split; [|exact Hpost].
      split; [lia|]. split; [lia|]. reflexivity.
    + left. rewrite !length_app. reflexivity.
    + intros r0 Hin. apply elem_of_app in Hin as [Hin|Hin].
      * exists r0. split; [apply elem_of_app; left; exact Hin|].
        unfold covers; lia.
      * apply elem_of_cons in Hin as [->|Hin].
        -- exists w. split; [|exact Hcov].
           apply elem_of_app. right. apply list_elem_of_here.
        -- exists r0. split; [|unfold covers; lia].
           apply elem_of_app. right. apply list_elem_of_further. exact Hin.
    + exists w. split; [|split; assumption].
      apply elem_of_app. right. apply list_elem_of_here.
  - split; [|split; [|split]].
    + apply Forall_app. split; [exact Hc|].
      apply Forall_cons. split; [|apply Forall_nil_2].
      cbn [seg_s seg_e seg_text]. split; [lia|]. split; [lia|]. reflexivity.
    + right. rewrite length_app. cbn. lia.
    + intros r Hin. exists r. split; [apply elem_of_app; left; exact Hin|].
      unfold covers; lia.
    + exists (Segment ns ne (js_slice full ns ne)).
      split; [apply elem_of_app; right; apply list_elem_of_here|].
      cbn [seg_s seg_e]. lia.
Qed.

(** [arr.find] finds a segment when one satisfies the test. *)
Lemma find_covering (ns ne : Z) (arr : list segment) :
  (exists r, r ∈ arr /\ seg_s r <= ns /\ ne <= seg_e r) ->
  exists r, List.find (fun r => (seg_s r <=? ns) && (ne <=? seg_e r)) arr = Some r
            /\ r ∈ arr /\ seg_s r <= ns /\ ne <= seg_e r.
Proof.
  intros (r0 & Hin & Hs & He).
  destruct (List.find _ arr) as [r|] eqn:Hf.
  - apply find_some in Hf as [Hin' Hp].
    apply andb_true_iff in Hp as [Hp1 Hp2].
    exists r. split; [reflexivity|]. split; [apply list_elem_of_In; exact Hin'|]. lia.
  - apply list_elem_of_In in Hin.
    pose proof (find_none _ _ Hf r0 Hin) as Hp. cbv beta in Hp.
    apply andb_false_iff in Hp as [Hp|Hp]; lia.
Qed.

Lemma mergeRange_spec (s e : Z) (full : jsstring) (arr : list segment) :
  consistent full arr ->
  let ns := Z.max 0 (Text.to_int32 s) in
  let ne := Z.max ns (Text.to_int32 e) in
  let '(txt, arr') := mergeRange s e full arr in
  consistent full arr'
  /\ (length arr' = length arr \/ length arr' = S (length arr))
  /\ (forall r, r ∈ arr -> exists r', r' ∈ arr' /\ covers r' r)
  /\ exists r, r ∈ arr' /\ txt = Some (seg_text r)
               /\ seg_s r <= ns /\ ne <= seg_e r.
Proof.
  intros Hc. cbv zeta. unfold mergeRange. cbv zeta.
  set (ns := Z.max 0 (Text.to_int32 s)).
  set (ne := Z.max ns (Text.to_int32 e)).
  assert (Hn : 0 <= ns <= ne) by (unfold ne, ns; lia).
  destruct (merged_segments ns ne full arr Hn Hc) as (Hc' & Hlen & Hcov & Hex).
  cbv zeta in Hc', Hlen, Hcov, Hex.
  set (arr' := match widen ns ne full arr with
               | Some arr' => arr'
               | None => arr ++ [Segment ns ne (js_slice full ns ne)]
               end) in *.
  destruct (find_covering ns ne arr' Hex) as (r & Hf & Hin & Hs & He).
  rewrite Hf. cbn [option_map].
  split; [exact Hc'|]. split; [exact Hlen|]. split; [exact Hcov|].
  exists r. split; [exact Hin|]. split; [reflexivity|]. lia.
Qed.

(** X22. [_mergeRange] keeps the cache of a page right and growing. When the
    cached segments agree with the page text, they still do afterwards, at
    most one segment is added, every range cached before is still held by a
    segment, and the text returned is that of a cached segment holding all
    of the range asked for ([seg] is never undefined). *)
Theorem mergeRange_covers (s e : Z) (full : jsstring) (arr : list segment)
    (Hc : consistent full arr) :
  let ns := Z.max 0 (Text.to_int32 s) in
  let ne := Z.max ns (Text.to_int32 e) in
  let '(txt, arr') := mergeRange s e full arr in
  consistent full arr'
  /\ (length arr' = length arr \/ length arr' = S (length arr))
  /\ (forall r, r ∈ arr -> exists r', r' ∈ arr' /\ covers r' r)
  /\ exists r, r ∈ arr' /\ txt = Some (seg_text r)
               /\ seg_s r <= ns /\ ne <= seg_e r.
Proof. exact (mergeRange_spec s e full arr Hc). Qed.

Lemma mergeRange_covers_witness :
  consistent (js "abcdefghij") [Segment 0 4 (js "abcd")]
  /\ (let '(txt, arr') := mergeRange 6 8 (js "abcdefghij") [Segment 0 4 (js "abcd")] in
      consistent (js "abcdefghij") arr'
      /\ (length arr' = 1%nat \/ length arr' = 2%nat)
      /\ (forall r, r ∈ [Segment 0 4 (js "abcd")] -> exists r', r' ∈ arr' /\ covers r' r)
      /\ exists r, r ∈ arr' /\ txt = Some (seg_text r) /\ seg_s r <= 6 /\ 8 <= seg_e r).
Proof.
  assert (Hc : consistent (js "abcdefghij") [Segment 0 4 (js "abcd")]).
  { apply Forall_cons. split; [|apply Forall_nil_2].
    cbn [seg_s seg_e seg_text]. split; [lia|]. split; [lia|]. reflexivity. }
  split; [exact Hc|].
  exact (mergeRange_covers 6 8 (js "abcdefghij") _ Hc).
Defined.

(** A range next to a cached one widens it: the text returned is longer than
    the range asked for. *)
Example mergeRange_widens :
  mergeRange 6 8 (js "abcdefghij") [Segment 0 4 (js "abcd")]
  = (Some (js "abcdefgh"), [Segment 0 8 (js "abcdefgh")]).
Proof. vm_compute. reflexivity. Qed.

(** ** The runtime over a conversation *)

(** [push_url url used]: the order list after a URL has been used. *)
Definition push_url (url : jsstring) (used : list jsstring) : list jsstring :=
  if bool_decide (url ∈ used) then used else used ++ [url].

Lemma use_url_used (url : jsstring) (rt : runtime) :
  usedUrlOrder (use_url url rt) = push_url url (usedUrlOrder rt).
Proof. unfold use_url, push_url. case_bool_decide; reflexivity. Qed.

Lemma use_url_rest (url : jsstring) (rt : runtime) :
  calls (use_url url rt) = calls rt
  /\ metrics (use_url url rt) = metrics rt
  /\ fetchMore (use_url url rt) = fetchMore rt
  /\ summary (use_url url rt) = summary rt
  /\ search (use_url url rt) = search rt.
Proof. unfold use_url. case_bool_decide; repeat split; reflexivity. Qed.

Lemma push_url_elem (url x : jsstring) (used : list jsstring) :
  x ∈ push_url url used <-> x ∈ used \/ x = url.
Proof.
  unfold push_url. case_bool_decide as Hin.
  - split; [tauto|]. intros [H| ->]; assumption.
  - rewrite elem_of_app, list_elem_of_singleton. tauto.
Qed.

Lemma push_url_NoDup (url : jsstring) (used : list jsstring) :
  NoDup used -> NoDup (push_url url used).
Proof.
  intros Hnd. unfold push_url. case_bool_decide as Hin; [exact Hnd|].
  apply NoDup_app. split; [exact Hnd|]. split; [|apply NoDup_singleton].
  intros x Hx Hx'. apply list_elem_of_singleton in Hx'. subst x. contradiction.
Qed.

(** The fields a loop over hits leaves alone. *)
Lemma use_hits_rest (hits : list tool_hit) (rt : runtime) :
  calls (use_hits hits rt) = calls rt
  /\ metrics (use_hits hits rt) = metrics rt
  /\ fetchMore (use_hits hits rt) = fetchMore rt
  /\ summary (use_hits hits rt) = summary rt
  /\ search (use_hits hits rt) = search rt.
Proof.
  revert rt. induction hits as [|h hits IH]; intros rt; [repeat split|].
  change (use_hits (h :: hits) rt) with (use_hits hits (use_url (th_url h) rt)).
  destruct (IH (use_url (th_url h) rt)) as (-> & -> & -> & -> & ->).
  apply use_url_rest.
Qed.

Lemma use_quick_hits_rest (hits : list tool_hit) (rt : runtime) :
  calls (use_quick_hits hits rt) = calls rt
  /\ metrics (use_quick_hits hits rt) = metrics rt
  /\ fetchMore (use_quick_hits hits rt) = fetchMore rt
  /\ summary (use_quick_hits hits rt) = summary rt
  /\ search (use_quick_hits hits rt) = search rt.
Proof.
  revert rt. induction hits as [|h hits IH]; intros rt; [repeat split|].
  change (use_quick_hits (h :: hits) rt)
    with (use_quick_hits hits (if nonempty (th_url h) then use_url (th_url h) rt else rt)).
  destruct (IH (if nonempty (th_url h) then use_url (th_url h) rt else rt))
    as (-> & -> & -> & -> & ->).
  destruct (nonempty (th_url h)); [apply use_url_rest | repeat split].
Qed.

(** The order list after a loop over hits: duplicate-free, and it has lost
    nothing. *)
Lemma use_hits_used (hits : list tool_hit) (rt : runtime) :
  NoDup (usedUrlOrder rt) ->
  NoDup (usedUrlOrder (use_hits hits rt))
  /\ forall u, u ∈ usedUrlOrder rt -> u ∈ usedUrlOrder (use_hits hits rt).
Proof.
  revert rt. induction hits as [|h hits IH]; intros rt Hnd; [split; auto|].
  change (use_hits (h :: hits) rt) with (use_hits hits (use_url (th_url h) rt)).
  destruct (IH (use_url (th_url h) rt)) as [H1 H2].
  { rewrite use_url_used. apply push_url_NoDup, Hnd. }
  split; [exact H1|]. intros u Hu. apply H2.
  rewrite use_url_used. apply push_url_elem. left. exact Hu.
Qed.

Lemma use_quick_hits_used (hits : list tool_hit) (rt : runtime) :
  NoDup (usedUrlOrder rt) ->
  NoDup (usedUrlOrder (use_quick_hits hits rt))
  /\ forall u, u ∈ usedUrlOrder rt -> u ∈ usedUrlOrder (use_quick_hits hits rt).
Proof.
  revert rt. induction hits as [|h hits IH]; intros rt Hnd; [split; auto|].
  change (use_quick_hits (h :: hits) rt)
    with (use_quick_hits hits (if nonempty (th_url h) then use_url (th_url h) rt else rt)).
  destruct (nonempty (th_url h)).
  - destruct (IH (use_url (th_url h) rt)) as [H1 H2].
    { rewrite use_url_used. apply push_url_NoDup, Hnd. }
    split; [exact H1|]. intros u Hu. apply H2.
    rewrite use_url_used. apply push_url_elem. left. exact Hu.
  - apply IH, Hnd.
Qed.

(** The content a search leaves in its cache. *)
Definition is_search_reply (c : content) : bool :=
  match c with Hits _ _ | SearchFailed => true | _ => false end.

Section Calls.

Variable allowedUrls : list jsstring.
Variable pageText : jsstring -> jsstring.
Variable chunk_text : jsstring -> Z -> jsstring.
Variable page_summary : jsstring -> jsstring.
Variable searchMemory : jsstring -> Z -> option (list tool_hit).
Variable quickSearchMemory : jsstring -> Z -> option (list tool_hit).

Local Abbreviation run :=
  (runToolCall allowedUrls pageText chunk_text page_summary searchMemory quickSearchMemory).
Local Abbreviation fetch_more := (run_fetch_more allowedUrls pageText chunk_text).
Local Abbreviation get_page_summary := (run_get_page_summary allowedUrls page_summary).
Local Abbreviation search_memory := (run_search_memory searchMemory quickSearchMemory).

Ltac unchanged Hok :=
  cbn; split; [exact Hok|]; split; [reflexivity|]; split; [reflexivity|];
  intros; first [reflexivity | discriminate].

(** The body of a tool, by its name. *)
Definition body (name : jsstring) (rawArgs : option raw_args) (rt : runtime)
    : (error_code * list string + content) * runtime :=
  if bool_decide (name = js "fetch_more") then fetch_more rawArgs rt
  else if bool_decide (name = js "get_page_summary") then get_page_summary rawArgs rt
  else if bool_decide (name = js "search_memory") then search_memory rawArgs rt
  else (inl (unknown_tool, []), rt).

(** What the caches and the order list keep true. *)
Definition body_inv (used : list jsstring) (fm : jsstring -> list segment)
    (sm : jsstring -> option jsstring) (se : jsstring -> option content) : Prop :=
  NoDup used
  /\ (forall url, consistent (pageText url) (fm url))
  /\ (forall url, fm url <> [] -> url ∈ allowedUrls /\ url ∈ used)
  /\ (forall url s, sm url = Some s ->
        s = page_summary url /\ url ∈ allowedUrls /\ url ∈ used)
  /\ (forall key c, se key = Some c -> is_search_reply c = true).

Definition body_ok (rt : runtime) : Prop :=
  body_inv (usedUrlOrder rt) (fetchMore rt) (summary rt) (search rt).

Lemma body_inv_push (url : jsstring) used fm sm se :
  body_inv used fm sm se -> body_inv (push_url url used) fm sm se.
Proof.
  intros (H1 & H2 & H3 & H4 & H5).
  split; [apply push_url_NoDup, H1|]. split; [exact H2|].
  split; [|split; [|exact H5]].
  - intros u Hu. destruct (H3 u Hu) as [Ha Hb].
    split; [exact Ha|]. apply push_url_elem. left. exact Hb.
  - intros u s Hs. destruct (H4 u s Hs) as (Ha & Hb & Hc).
    split; [exact Ha|]. split; [exact Hb|]. apply push_url_elem. left. exact Hc.
Qed.

Lemma body_inv_fetchMore (url : jsstring) (arr : list segment) used fm sm se :
  body_inv used fm sm se ->
  url ∈ allowedUrls -> url ∈ used -> consistent (pageText url) arr ->
  body_inv used (map_set fm url arr) sm se.
Proof.
  intros (H1 & H2 & H3 & H4 & H5) Ha Hu Hc.
  split; [exact H1|]. split; [|split; [|split; [exact H4 | exact H5]]].
  - intros u. unfold map_set. case_bool_decide as He; [subst u; exact Hc | apply H2].
  - intros u. unfold map_set. case_bool_decide as He; [subst u; auto | apply H3].
Qed.

Lemma body_inv_summary (url : jsstring) used fm sm se :
  body_inv used fm sm se ->
  url ∈ allowedUrls -> url ∈ used ->
  body_inv used fm (map_set sm url (Some (page_summary url))) se.
Proof.
  intros (H1 & H2 & H3 & H4 & H5) Ha Hu.
  split; [exact H1|]. split; [exact H2|]. split; [exact H3|]. split; [|exact H5].
  intros u s. unfold map_set. case_bool_decide as He; [|apply H4].
  subst u. intros [= <-]. auto.
Qed.

Lemma body_inv_search (key : jsstring) (c : content) used fm sm se :
  body_inv used fm sm se -> is_search_reply c = true ->
  body_inv used fm sm (map_set se key (Some c)).
Proof.
  intros (H1 & H2 & H3 & H4 & H5) Hc.
  split; [exact H1|]. split; [exact H2|]. split; [exact H3|]. split; [exact H4|].
  intros k c'. unfold map_set. case_bool_decide as He; [|apply H5].
  intros [= <-]. exact Hc.
Qed.

Lemma body_inv_weaken used used' fm sm se :
  body_inv used fm sm se -> NoDup used' -> (forall u, u ∈ used -> u ∈ used') ->
  body_inv used' fm sm se.
Proof.
  intros (H1 & H2 & H3 & H4 & H5) Hnd Hsub.
  split; [exact Hnd|]. split; [exact H2|]. split; [|split; [|exact H5]].
  - intros u Hu. destruct (H3 u Hu). auto.
  - intros u s Hs. destruct (H4 u s Hs) as (? & ? & ?). auto.
Qed.

(** A valid [fetch_more] call, read off the validation. *)
Lemma fetch_more_unfold (a : raw_args) (rt : runtime) :
  fetch_more (Some a) rt
  = let v := snd (validateFetchMore a) in
    if nonempty (fst (validateFetchMore a))
    then (inl (invalid_args, fst (validateFetchMore a)), rt)
    else
      let url := default [] (fv_url v) in
      if negb (bool_decide (url ∈ allowedUrls)) then (inl (disallowed, []), rt)
      else
        match fv_chunkIndex v with
        | Some idx => (inr (PageText (chunk_text url idx) (Some idx) None), use_url url rt)
        | None =>
            let r := clamp_range (fv_start v) (fv_end v)
                       (Z.of_nat (length (pageText url))) in
            let m := mergeRange (fst r) (snd r) (pageText url) (fetchMore rt url) in
            match fst m with
            | Some txt => (inr (PageText txt None (Some (fst r, snd r))),
                           use_url url (set_fetchMore url (snd m) rt))
            | None => (inl (tool_error, []), set_fetchMore url (snd m) rt)
            end
        end.
Proof.
  unfold run_fetch_more.
  destruct (validateFetchMore a) as [errors v]. cbn [fst snd]. cbv zeta.
  destruct (nonempty errors); [reflexivity|].
  destruct (negb _); [reflexivity|].
  destruct (fv_chunkIndex v); [reflexivity|].
  destruct (clamp_range _ _ _) as [s e]. cbn [fst snd].
  destruct (mergeRange _ _ _ _) as [txt arr]. cbn [fst snd].
  destruct txt; reflexivity.
Qed.

(** Each body keeps the caches and the order list right, touches neither
    the set of calls nor the metrics, and does not answer [tool_error] to
    arguments that are not [null]. *)
Lemma fetch_more_body (args : option raw_args) (rt : runtime) :
  body_ok rt ->
  body_ok (snd (fetch_more args rt))
  /\ calls (snd (fetch_more args rt)) = calls rt
  /\ metrics (snd (fetch_more args rt)) = metrics rt
  /\ (forall errors, fst (fetch_more args rt) = inl (tool_error, errors) -> args = None).
Proof.
  intros Hok. destruct args as [a|]; [|unchanged Hok].
  rewrite fetch_more_unfold. cbv zeta.
  destruct (nonempty _); [unchanged Hok|].
  set (url := default [] _).
  destruct (bool_decide (url ∈ allowedUrls)) eqn:Hallow; cbn [negb];
    [|unchanged Hok].
  apply bool_decide_eq_true_1 in Hallow.
  destruct (fv_chunkIndex _).
  - cbn [fst snd]. destruct (use_url_rest url rt) as (Hc & Hm & Hf & Hs & Hse).
    split; [|split; [exact Hc|split; [exact Hm|discriminate]]].
    unfold body_ok. rewrite use_url_used, Hf, Hs, Hse. apply body_inv_push, Hok.
  - pose proof Hok as (_ & Hcons & _).
    pose proof (mergeRange_spec
                  (fst (clamp_range (fv_start (snd (validateFetchMore a)))
                          (fv_end (snd (validateFetchMore a)))
                          (Z.of_nat (length (pageText url)))))
                  (snd (clamp_range (fv_start (snd (validateFetchMore a)))
                          (fv_end (snd (validateFetchMore a)))
                          (Z.of_nat (length (pageText url)))))
                  (pageText url) (fetchMore rt url) (Hcons url)) as Hspec.
    cbv zeta in Hspec.
    destruct (mergeRange _ _ _ _) as [txt arr]. cbn [fst snd].
    destruct Hspec as (Harr & _ & _ & r & _ & -> & _).
    cbn [fst snd].
    destruct (use_url_rest url (set_fetchMore url arr rt)) as (Hc & Hm & Hf & Hs & Hse).
    split; [|split; [exact Hc|split; [exact Hm|discriminate]]].
    unfold body_ok. rewrite use_url_used, Hf, Hs, Hse.
    cbn [set_fetchMore usedUrlOrder fetchMore summary search].
    apply body_inv_fetchMore; [apply body_inv_push, Hok | exact Hallow | | exact Harr].
    apply push_url_elem. right. reflexivity.
Qed.

Lemma get_page_summary_body (args : option raw_args) (rt : runtime) :
  body_ok rt ->
  body_ok (snd (get_page_summary args rt))
  /\ calls (snd (get_page_summary args rt)) = calls rt
  /\ metrics (snd (get_page_summary args rt)) = metrics rt
  /\ (forall errors, fst (get_page_summary args rt) <> inl (tool_error, errors)).
Proof.
  intros Hok. unfold run_get_page_summary.
  destruct (match args with
            | Some a => validateGetPageSummary a
            | None => (["url (string) is required"%string], None)
            end) as [errors url0].
  destruct (nonempty errors); [unchanged Hok|].
  cbv zeta. set (url := default [] url0).
  destruct (bool_decide (url ∈ allowedUrls)) eqn:Hallow; cbn [negb];
    [|unchanged Hok].
  apply bool_decide_eq_true_1 in Hallow.
  destruct (summary rt url) as [s|] eqn:Hsum; cbn [fst snd].
  - destruct (use_url_rest url rt) as (Hc & Hm & Hf & Hs & Hse).
    split; [|split; [exact Hc|split; [exact Hm|discriminate]]].
    unfold body_ok. rewrite use_url_used, Hf, Hs, Hse. apply body_inv_push, Hok.
  - destruct (use_url_rest url (set_summary url (page_summary url) rt))
      as (Hc & Hm & Hf & Hs & Hse).
    split; [|split; [exact Hc|split; [exact Hm|discriminate]]].
    unfold body_ok. rewrite use_url_used, Hf, Hs, Hse.
    cbn [set_summary usedUrlOrder fetchMore summary search].
    apply body_inv_summary; [apply body_inv_push, Hok | exact Hallow |].
    apply push_url_elem. right. reflexivity.
Qed.

Lemma search_memory_body (args : option raw_args) (rt : runtime) :
  body_ok rt ->
  body_ok (snd (search_memory args rt))
  /\ calls (snd (search_memory args rt)) = calls rt
  /\ metrics (snd (search_memory args rt)) = metrics rt
  /\ (forall errors, fst (search_memory args rt) <> inl (tool_error, errors)).
Proof.
  intros Hok. unfold run_search_memory.
  destruct (match args with
            | Some a => validateSearchMemory a
            | None => (["query (string) is required"%string], None, 5)
            end) as [[errors query0] k].
  destruct (nonempty errors); [unchanged Hok|].
  cbv zeta. set (query := default [] query0).
  destruct (search rt (search_key query k)) as [c|] eqn:Hc;
    [unchanged Hok|].
  pose proof Hok as (Hnd & _).
  destruct (searchMemory query k) as [hits|].
  - cbn [fst snd set_search calls metrics].
    destruct (use_hits_rest hits rt) as (Hca & Hm & Hf & Hs & Hse).
    destruct (use_hits_used hits rt Hnd) as [Hnd' Hsub].
    split; [|split; [exact Hca|split; [exact Hm|discriminate]]].
    unfold body_ok. cbn [set_search usedUrlOrder fetchMore summary search].
    rewrite Hf, Hs, Hse. apply body_inv_search; [|reflexivity].
    apply (body_inv_weaken (usedUrlOrder rt)); assumption.
  - destruct (quickSearchMemory query k) as [quick|].
    + cbn [fst snd set_search calls metrics].
      destruct (use_quick_hits_rest quick rt) as (Hca & Hm & Hf & Hs & Hse).
      destruct (use_quick_hits_used quick rt Hnd) as [Hnd' Hsub].
      split; [|split; [exact Hca|split; [exact Hm|discriminate]]].
      unfold body_ok. cbn [set_search usedUrlOrder fetchMore summary search].
      rewrite Hf, Hs, Hse. apply body_inv_search; [|reflexivity].
      apply (body_inv_weaken (usedUrlOrder rt)); assumption.
    + cbn [fst snd set_search calls metrics].
      split; [|split; [reflexivity|split; [reflexivity|discriminate]]].
      unfold body_ok. cbn [set_search usedUrlOrder fetchMore summary search].
      apply body_inv_search; [exact Hok | reflexivity].
Qed.

Lemma body_keeps (name : jsstring) (args : option raw_args) (rt : runtime) :
  body_ok rt ->
  body_ok (snd (body name args rt))
  /\ calls (snd (body name args rt)) = calls rt
  /\ metrics (snd (body name args rt)) = metrics rt
  /\ (forall errors, fst (body name args rt) = inl (tool_error, errors) -> args = None).
Proof.
  intros Hok. unfold body.
  case_bool_decide; [apply fetch_more_body, Hok|].
  case_bool_decide.
  { destruct (get_page_summary_body args rt Hok) as (B1 & B2 & B3 & B4).
    split; [exact B1|]. split; [exact B2|]. split; [exact B3|].
    intros errors He. destruct (B4 errors He). }
  case_bool_decide.
  { destruct (search_memory_body args rt Hok) as (B1 & B2 & B3 & B4).
    split; [exact B1|]. split; [exact B2|]. split; [exact B3|].
    intros errors He. destruct (B4 errors He). }
  unchanged Hok.
Qed.

(** A call, read off the body of its tool. *)
Lemma run_unfold (name : jsstring) (args : option raw_args) (rt : runtime) :
  run name args rt
  = if bool_decide (sig name args ∈ calls rt) then
      (Deduped, add_metric (Metric name true true None) rt)
    else
      let r := body name args (add_call (sig name args) rt) in
      match fst r with
      | inr c => (c, add_metric (Metric name true false None) (snd r))
      | inl (code, errors) =>
          (Failed code errors, add_metric (Metric name false false (Some code)) (snd r))
      end.
Proof.
  unfold runToolCall, body. cbv zeta.
  destruct (bool_decide (sig name args ∈ calls rt)); [reflexivity|].
  destruct (if bool_decide (name = js "fetch_more") then _ else _) as [res rt'].
  reflexivity.
Qed.

(** No body touches the set of calls or the metrics. *)
Lemma fetch_more_frame (args : option raw_args) (rt : runtime) :
  calls (snd (fetch_more args rt)) = calls rt
  /\ metrics (snd (fetch_more args rt)) = metrics rt
  /\ forall u, u ∈ usedUrlOrder (snd (fetch_more args rt)) ->
               u ∈ usedUrlOrder rt \/ u ∈ allowedUrls.
Proof.
  destruct args as [a|]; [|cbn; auto].
  rewrite fetch_more_unfold. cbv zeta.
  destruct (nonempty _); [cbn; auto|].
  set (url := default [] _).
  destruct (bool_decide (url ∈ allowedUrls)) eqn:Hallow; cbn [negb]; [|cbn; auto].
  apply bool_decide_eq_true_1 in Hallow.
  assert (Hpush : forall u, u ∈ push_url url (usedUrlOrder rt) ->
                            u ∈ usedUrlOrder rt \/ u ∈ allowedUrls).
  { intros u Hu. apply push_url_elem in Hu as [Hu| ->]; auto. }
  destruct (fv_chunkIndex _).
  - cbn [fst snd]. destruct (use_url_rest url rt) as (Hc & Hm & _).
    rewrite use_url_used. auto.
  - destruct (fst (mergeRange _ _ _ _)); cbn [fst snd].
    + set (rt' := set_fetchMore url _ rt).
      destruct (use_url_rest url rt') as (Hc & Hm & _).
      rewrite use_url_used. auto.
    + cbn. auto.
Qed.

Lemma get_page_summary_frame (args : option raw_args) (rt : runtime) :
  calls (snd (get_page_summary args rt)) = calls rt
  /\ metrics (snd (get_page_summary args rt)) = metrics rt
  /\ forall u, u ∈ usedUrlOrder (snd (get_page_summary args rt)) ->
               u ∈ usedUrlOrder rt \/ u ∈ allowedUrls.
Proof.
  unfold run_get_page_summary.
  destruct (match args with
            | Some a => validateGetPageSummary a
            | None => (["url (string) is required"%string], None)
            end) as [errors url0].
  destruct (nonempty errors); [cbn; auto|].
  cbv zeta. set (url := default [] url0).
  destruct (bool_decide (url ∈ allowedUrls)) eqn:Hallow; cbn [negb]; [|cbn; auto].
  apply bool_decide_eq_true_1 in Hallow.
  assert (Hpush : forall u, u ∈ push_url url (usedUrlOrder rt) ->
                            u ∈ usedUrlOrder rt \/ u ∈ allowedUrls).
  { intros u Hu. apply push_url_elem in Hu as [Hu| ->]; auto. }
  destruct (summary rt url) as [s|]; cbn [fst snd].
  - destruct (use_url_rest url rt) as (Hc & Hm & _). rewrite use_url_used. auto.
  - set (rt' := set_summary url _ rt).
    destruct (use_url_rest url rt') as (Hc & Hm & _). rewrite use_url_used. auto.
Qed.

Lemma search_memory_frame (args : option raw_args) (rt : runtime) :
  calls (snd (search_memory args rt)) = calls rt
  /\ metrics (snd (search_memory args rt)) = metrics rt.
Proof.
  unfold run_search_memory.
  destruct (match args with
            | Some a => validateSearchMemory a
            | None => (["query (string) is required"%string], None, 5)
            end) as [[errors query0] k].
  destruct (nonempty errors); [cbn; auto|].
  cbv zeta. set (query := default [] query0).
  destruct (search rt (search_key query k)); [cbn; auto|].
  destruct (searchMemory query k) as [hits|].
  - cbn [fst snd set_search calls metrics].
    destruct (use_hits_rest hits rt) as (Hc & Hm & _). auto.
  - destruct (quickSearchMemory query k) as [quick|]; [|cbn; auto].
    cbn [fst snd set_search calls metrics].
    destruct (use_quick_hits_rest quick rt) as (Hc & Hm & _). auto.
Qed.

Lemma body_frame (name : jsstring) (args : option raw_args) (rt : runtime) :
  calls (snd (body name args rt)) = calls rt
  /\ metrics (snd (body name args rt)) = metrics rt.
Proof.
  unfold body.
  case_bool_decide; [destruct (fetch_more_frame args rt) as (? & ? & _); auto|].
  case_bool_decide; [destruct (get_page_summary_frame args rt) as (? & ? & _); auto|].
  case_bool_decide; [apply search_memory_frame|].
  cbn. auto.
Qed.

(** The set of calls and the metrics after a call. *)
Lemma run_calls_metrics (name : jsstring) (args : option raw_args) (rt : runtime) :
  (sig name args ∈ calls rt ->
   run name args rt = (Deduped, add_metric (Metric name true true None) rt))
  /\ (sig name args ∉ calls rt ->
      calls (snd (run name args rt)) = calls rt ++ [sig name args]
      /\ exists ok error,
          metrics (snd (run name args rt))
          = metrics rt ++ [Metric name ok false error]).
Proof.
  rewrite run_unfold. split; intros Hin.
  - rewrite bool_decide_eq_true_2 by exact Hin. reflexivity.
  - rewrite bool_decide_eq_false_2 by exact Hin. cbv zeta.
    destruct (body_frame name args (add_call (sig name args) rt)) as [Hc Hm].
    destruct (fst (body name args (add_call (sig name args) rt))) as [[code errors]|c];
      cbn [fst snd add_metric calls metrics]; rewrite Hc, Hm;
      (split; [reflexivity|]); eauto.
Qed.

(** X23. Every call leaves exactly one row in the metrics and its signature
    in the set of calls, which only grows. A call whose signature is already
    there is answered as a duplicate and changes nothing but the metrics; so
    after any call, the same tool called again with arguments of the same
    signature is not run again. *)
Theorem runToolCall_dedup (name : jsstring) (args args' : option raw_args) (rt : runtime) :
  let '(c, rt1) := run name args rt in
  length (metrics rt1) = S (length (metrics rt))
  /\ sig name args ∈ calls rt1
  /\ (forall s, s ∈ calls rt -> s ∈ calls rt1)
  /\ (sig name args ∈ calls rt ->
      c = Deduped /\ rt1 = add_metric (Metric name true true None) rt)
  /\ (sig name args' = sig name args ->
      run name args' rt1 = (Deduped, add_metric (Metric name true true None) rt1)).
Proof.
  destruct (run_calls_metrics name args rt) as [Hdup Hnew].
  assert (Hin1 : sig name args ∈ calls (snd (run name args rt))
                 /\ (forall s, s ∈ calls rt -> s ∈ calls (snd (run name args rt)))
                 /\ length (metrics (snd (run name args rt))) = S (length (metrics rt))).
  { destruct (decide (sig name args ∈ calls rt)) as [Hin|Hin].
    - rewrite (Hdup Hin). cbn [snd add_metric calls metrics].
      split; [exact Hin|]. split; [auto|]. rewrite length_app. cbn. lia.
    - destruct (Hnew Hin) as (Hc & ok & error & Hm). rewrite Hc, Hm.
      split; [apply elem_of_app; right; apply list_elem_of_here|].
      split; [intros s Hs; apply elem_of_app; left; exact Hs|].
      rewrite length_app. cbn. lia. }
  destruct Hin1 as (Hin1 & Hsub & Hlen).
  destruct (run name args rt) as [c rt1] eqn:Hrun. cbn [snd] in *.
  split; [exact Hlen|]. split; [exact Hin1|]. split; [exact Hsub|]. split.
  - intros Hin. specialize (Hdup Hin). injection Hdup as -> ->. auto.
  - intros Hsig.
    destruct (run_calls_metrics name args' rt1) as [Hdup' _].
    apply Hdup'. rewrite Hsig. exact Hin1.
Qed.

(** X24. [fetch_more] and [get_page_summary] keep to the allowed URLs:
    whatever the arguments, a URL they add to the used URLs is an allowed
    one. A first call naming a URL that is not allowed fails with
    [disallowed] (or [invalid_args]), and a call of an unknown tool with
    [unknown_tool]; both leave the caches and the used URLs as they were,
    recording only the call and its metric. *)
Theorem tools_keep_to_allowed_urls (args : option raw_args) (rt : runtime) :
  (forall u, u ∈ usedUrlOrder (snd (run (js "fetch_more") args rt)) ->
             u ∈ usedUrlOrder rt \/ u ∈ allowedUrls)
  /\ (forall u, u ∈ usedUrlOrder (snd (run (js "get_page_summary") args rt)) ->
                u ∈ usedUrlOrder rt \/ u ∈ allowedUrls)
  /\ (forall name a url,
        args = Some a -> a_url a = Some url -> url ∉ allowedUrls ->
        name = js "fetch_more" \/ name = js "get_page_summary" ->
        sig name args ∉ calls rt ->
        exists code errors,
          (code = disallowed \/ code = invalid_args)
          /\ run name args rt
             = (Failed code errors,
                add_metric (Metric name false false (Some code))
                  (add_call (sig name args) rt)))
  /\ (forall name,
        name <> js "fetch_more" -> name <> js "get_page_summary" ->
        name <> js "search_memory" ->
        sig name args ∉ calls rt ->
        run name args rt
        = (Failed unknown_tool [],
           add_metric (Metric name false false (Some unknown_tool))
             (add_call (sig name args) rt))).
Proof.
  assert (Hused : forall name,
            (forall rt0 u, u ∈ usedUrlOrder (snd (body name args rt0)) ->
                           u ∈ usedUrlOrder rt0 \/ u ∈ allowedUrls) ->
            forall u, u ∈ usedUrlOrder (snd (run name args rt)) ->
                      u ∈ usedUrlOrder rt \/ u ∈ allowedUrls).
  { intros name Hb u. rewrite run_unfold.
    destruct (bool_decide (sig name args ∈ calls rt)); [cbn; auto|].
    cbv zeta. intros Hu.
    apply (Hb (add_call (sig name args) rt) u).
    destruct (fst (body name args (add_call (sig name args) rt))) as [[code errors]|c];
      exact Hu. }
  split; [|split; [|split]].
  - apply Hused. intros rt0 u. unfold body.
    rewrite bool_decide_eq_true_2 by reflexivity.
    apply fetch_more_frame.
  - apply Hused. intros rt0 u. unfold body.
    rewrite bool_decide_eq_false_2 by discriminate.
    rewrite bool_decide_eq_true_2 by reflexivity.
    apply get_page_summary_frame.
  - intros name a url -> Hurl Hnot Hname Hsig.
    rewrite run_unfold, bool_decide_eq_false_2 by exact Hsig. cbv zeta.
    set (rt0 := add_call _ rt).
    assert (Hbody : exists code errors,
               (code = disallowed \/ code = invalid_args)
               /\ body name (Some a) rt0 = (inl (code, errors), rt0)).
    { unfold body. destruct Hname as [-> | ->].
      - rewrite bool_decide_eq_true_2 by reflexivity.
        rewrite fetch_more_unfold. cbv zeta.
        destruct (nonempty _) eqn:Herr; [eauto|].
        assert (Hv : fv_url (snd (validateFetchMore a)) = Some url).
        { unfold validateFetchMore in *. cbn [fst snd] in *. rewrite Hurl in *.
          destruct url as [|c url]; [discriminate Herr|].
          cbn [given]. destruct (a_chunkIndex a); reflexivity. }
        rewrite Hv. cbn [default].
        rewrite bool_decide_eq_false_2 by exact Hnot. cbn [negb]. eauto.
      - rewrite bool_decide_eq_false_2 by discriminate.
        rewrite bool_decide_eq_true_2 by reflexivity.
        unfold run_get_page_summary, validateGetPageSummary. rewrite Hurl.
        destruct url as [|c url]; cbn [given nonempty]; [eauto|].
        cbv zeta. cbn [default].
        rewrite bool_decide_eq_false_2 by exact Hnot. cbn [negb]. eauto. }
    destruct Hbody as (code & errors & Hcode & ->). cbn [fst snd]. eauto.
  - intros name H1 H2 H3 Hsig.
    rewrite run_unfold, bool_decide_eq_false_2 by exact Hsig. cbv zeta.
    unfold body. rewrite !bool_decide_eq_false_2 by assumption. reflexivity.
Qed.

(** The runtimes a conversation can reach. *)
Inductive reachable : runtime -> Prop :=
| reachable_fresh : reachable fresh
| reachable_call name args rt :
    reachable rt -> reachable (snd (run name args rt)).

Lemma reachable_body_ok (rt : runtime) :
  reachable rt ->
  body_ok rt
  /\ NoDup (calls rt)
  /\ length (filter (fun m => negb (m_deduped m)) (metrics rt)) = length (calls rt).
Proof.
  induction 1 as [|name args rt Hr (Hok & Hnd & Hlen)].
  - split; [|split; [apply NoDup_nil_2 | reflexivity]].
    unfold body_ok, fresh. cbn.
    split; [apply NoDup_nil_2|]. split; [intros; apply Forall_nil_2|].
    split; [intros url Hn; contradiction|]. split; intros; discriminate.
  - rewrite run_unfold.
    destruct (bool_decide (sig name args ∈ calls rt)) eqn:Hin.
    + cbn [snd add_metric calls metrics]. split; [exact Hok|]. split; [exact Hnd|].
      rewrite filter_app, length_app.
      rewrite (filter_cons_False _ _ []) by (cbn; tauto).
      rewrite filter_nil. cbn. lia.
    + apply bool_decide_eq_false_1 in Hin. cbv zeta.
      set (rt0 := add_call (sig name args) rt).
      destruct (body_keeps name args rt0 Hok) as (Hok' & Hc & Hm & _).
      assert (Hgoal : forall m, m_deduped m = false ->
                body_ok (add_metric m (snd (body name args rt0)))
                /\ NoDup (calls (add_metric m (snd (body name args rt0))))
                /\ length (filter (fun m => negb (m_deduped m))
                             (metrics (add_metric m (snd (body name args rt0)))))
                   = length (calls (add_metric m (snd (body name args rt0))))).
      { intros m Hd. split; [exact Hok'|].
        cbn [add_metric calls metrics]. rewrite Hc, Hm.
        cbn [rt0 add_call calls metrics]. split.
        - apply NoDup_app. split; [exact Hnd|]. split; [|apply NoDup_singleton].
          intros x Hx Hx'. apply list_elem_of_singleton in Hx'. subst x. contradiction.
        - rewrite filter_app, !length_app.
          rewrite (filter_cons_True _ m []) by (rewrite Hd; exact I).
          rewrite filter_nil. cbn. lia. }
      destruct (fst (body name args rt0)) as [[code errors]|c]; cbn [snd];
        apply Hgoal; reflexivity.
Qed.

(** X25. In every runtime a conversation can reach: no signature and no
    used URL is listed twice; the rows of the metrics that are not
    duplicates are as many as the signatures; every cached segment holds the
    text of its range of the page, and segments and summaries are cached
    only for allowed URLs that are listed as used, a summary being that of
    the page; the search cache holds only search replies; and no tool
    answers [tool_error] to arguments that are not [null]. *)
Theorem runtime_invariants (rt : runtime) (Hr : reachable rt) :
  NoDup (calls rt)
  /\ NoDup (usedUrlOrder rt)
  /\ length (filter (fun m => negb (m_deduped m)) (metrics rt)) = length (calls rt)
  /\ (forall url, consistent (pageText url) (fetchMore rt url))
  /\ (forall url, fetchMore rt url <> [] ->
                  url ∈ allowedUrls /\ url ∈ usedUrlOrder rt)
  /\ (forall url s, summary rt url = Some s ->
                    s = page_summary url /\ url ∈ allowedUrls /\ url ∈ usedUrlOrder rt)
  /\ (forall key c, search rt key = Some c -> is_search_reply c = true)
  /\ (forall name a errors,
        fst (run name (Some a) rt) <> Failed tool_error errors).
Proof.
  destruct (reachable_body_ok rt Hr) as (Hok & Hnd & Hlen).
  pose proof Hok as (H1 & H2 & H3 & H4 & H5).
  split; [exact Hnd|]. split; [exact H1|]. split; [exact Hlen|].
  split; [exact H2|]. split; [exact H3|]. split; [exact H4|]. split; [exact H5|].
  intros name a errors. rewrite run_unfold.
  destruct (bool_decide (sig name (Some a) ∈ calls rt)); [discriminate|].
  cbv zeta. set (rt0 := add_call _ rt).
  destruct (body_keeps name (Some a) rt0 Hok) as (_ & _ & _ & Hte).
  destruct (fst (body name (Some a) rt0)) as [[code errs]|c] eqn:Hb; cbn [fst].
  - intros [= -> ->]. discriminate (Hte errors eq_refl).
  - intros ->.
    (* a content handed back by a body is never a failure *)
    revert Hb. unfold body.
    case_bool_decide as N1.
    { rewrite fetch_more_unfold. cbv zeta.
      repeat match goal with
             | |- context [if ?b then _ else _] => destruct b
             | |- context [match ?x with Some _ => _ | None => _ end] => destruct x
             end; cbn [fst]; discriminate. }
    case_bool_decide as N2.
    { unfold run_get_page_summary.
      destruct (validateGetPageSummary a) as [errs url0].
      repeat match goal with
             | |- context [if ?b then _ else _] => destruct b
             | |- context [match ?x with Some _ => _ | None => _ end] => destruct x
             end; cbn [fst]; discriminate. }
    case_bool_decide as N3; [|cbn; discriminate].
    unfold run_search_memory.
    destruct (validateSearchMemory a) as [[errs query0] k].
    destruct (nonempty errs); [cbn; discriminate|]. cbv zeta.
    destruct (search rt0 _) as [c|] eqn:Hc.
    + cbn [fst]. intros [= ->]. discriminate (H5 _ _ Hc).
    + destruct (searchMemory _ k); [cbn; discriminate|].
      destruct (quickSearchMemory _ k); cbn; discriminate.
Qed.

End Calls.

(** One call of [fetch_more] on a page of ten code units. *)
Definition example_args : raw_args :=
  RawArgs (js "{}") (Some (js "u")) None Undefined (Num 2) (Num 6) Undefined.

Definition example_call : content * runtime :=
  runToolCall [js "u"] (fun _ => js "abcdefghij") (fun _ _ => [])
    (fun _ => []) (fun _ _ => None) (fun _ _ => None)
    (js "fetch_more") (Some example_args) fresh.

Lemma runtime_invariants_witness :
  reachable [js "u"] (fun _ => js "abcdefghij") (fun _ _ => [])
    (fun _ => []) (fun _ _ => None) (fun _ _ => None) (snd example_call)
  /\ NoDup (calls (snd example_call)) /\ NoDup (usedUrlOrder (snd example_call)).
Proof.
  assert (Hr : reachable [js "u"] (fun _ => js "abcdefghij") (fun _ _ => [])
                 (fun _ => []) (fun _ _ => None) (fun _ _ => None) (snd example_call))
    by (apply reachable_call, reachable_fresh).
  split; [exact Hr|].
  pose proof (runtime_invariants _ _ _ _ _ _ _ Hr) as (H1 & H2 & _).
  split; [exact H1 | exact H2].
Defined.

(** That call answers the text of the range and lists the URL as used. *)
Example fetch_more_example :
  fst example_call = PageText (js "cdef") None (Some (2, 6))
  /\ usedUrlOrder (snd example_call) = [js "u"].
Proof. vm_compute. split; reflexivity. Qed.

End Tools.

(** * The pages store: the centroid index of stage 1 and deletion
      (src/offscreen.js, src/background.js) *)

Module Pages.

(** A record of the [pages] store with its key, [id]. *)
Definition page := (Z * doc)%type.

(** An entry of the centroid index and a scored page. *)
Record entry := Entry {
  e_id : Z;
  e_centroid : list float;
  e_timestamp : Z
}.

Record scored := Scored {
  s_id : Z;
  s_score : float;
  s_weightedScore : float;
  s_timestamp : Z
}.

(** The body of the loop of [ensureCentroidIndex]: the entry of a page, if
    it has a centroid. *)
Definition entry_of (p : page) : option entry :=
  let '(id, d) := p in
  let '(c, ts) :=
    match versions d, latestVersionIndex d with
    | Some (v :: vs), Some i =>
        match Background.latest_or_last (v :: vs) i with
        | Some (_, latest) =>
            (Background.or_else (v_centroid latest) (Background.centroid_of (v_items latest)),
             if v_timestamp latest =? 0 then timestamp d else v_timestamp latest)
        | None => (None, timestamp d)
        end
    | _, _ =>
        (Background.or_else (centroid d)
           (match items d with
            | Some its => Background.centroid_of its
            | None => None
            end),
         timestamp d)
    end in
  match c with
  | Some c => Some (Entry id c ts)
  | None => None
  end.

(** [ensureCentroidIndex()] on the pages the store holds: the index and the
    variable [centroidIndex] afterwards. *)
Definition ensureCentroidIndex (pages : list page) (centroidIndex : option (list entry))
    : list entry * option (list entry) :=
  match centroidIndex with
  | Some idx => (idx, centroidIndex)
  | None => let idx := omap entry_of pages in (idx, Some idx)
  end.

(** [l.slice(0, k)] *)
Definition slice_to {A : Type} (l : list A) (k : Z) : list A :=
  if k <? 0 then take (Z.to_nat (Z.max (Z.of_nat (length l) + k) 0)) l
  else take (Z.to_nat k) l.

Section Stage1.

(** [Math.exp] and the clock reading [Date.now()]. *)
Variable exp : float -> float.
Variable now : Z.

Definition score_entry (variationEmbeddings : list (Vectors.vec float)) (e : entry) : scored :=
  let maxSim := Scoring.maxSimilarity variationEmbeddings (Some (e_centroid e)) in
  Scored (e_id e) maxSim
         (PrimFloat.mul maxSim (Vectors.recencyWeight exp now (e_timestamp e)))
         (e_timestamp e).

(** [(a, b) => b.weightedScore - a.weightedScore] *)
Definition by_weighted (a b : scored) : float :=
  PrimFloat.sub (s_weightedScore b) (s_weightedScore a).

(** [topPagesByCentroid(variationEmbeddings, topN)] *)
Definition topPagesByCentroid (variationEmbeddings : list (Vectors.vec float)) (topN : Z)
    (pages : list page) (centroidIndex : option (list entry))
    : list scored * option (list entry) :=
  if nonempty variationEmbeddings then
    let '(idx, centroidIndex) := ensureCentroidIndex pages centroidIndex in
    let scored := Ask.sort_with by_weighted (map (score_entry variationEmbeddings) idx) in
    (slice_to scored (Z.min topN (Z.of_nat (length scored))), centroidIndex)
  else ([], centroidIndex).

End Stage1.

(** ** Deleting pages (src/background.js) *)

(** The pages store, the centroid index of the offscreen document and the
    days that have a cached highlight. The transactions of the handlers
    below complete. *)
Record state := State {
  pages : list page;
  centroidIndex : option (list entry);
  highlights : list string
}.

(** [OFFSCREEN_INVALIDATE_INDEX], once it is delivered. *)
Definition invalidate (s : state) : state :=
  State (pages s) None (highlights s).

(** [removeHighlightCache(date)] *)
Definition removeHighlightCache (date : string) (s : state) : state :=
  State (pages s) (centroidIndex s) (List.filter (fun d => negb (String.eqb d date)) (highlights s)).

(** [new Set(l)], in the order of iteration. *)
Definition set_of (l : list string) : list string :=
  fold_left (fun acc d => if existsb (String.eqb d) acc then acc else acc ++ [d]) l [].

Section Deleting.

(** [formatLocalYMD] in the time zone of the browser. *)
Variable formatLocalYMD : Z -> string.

(** [deletePageById(id)] *)
Definition deletePageById (id : Z) (s : state) : state :=
  let page := List.find (fun p => fst p =? id) (pages s) in
  let s := State (List.filter (fun p => negb (fst p =? id)) (pages s))
                 (centroidIndex s) (highlights s) in
  match page with
  | Some (_, d) =>
      if timestamp d =? 0 then s else removeHighlightCache (formatLocalYMD (timestamp d)) s
  | None => s
  end.

(** The handler of [DELETE_PAGE]. *)
Definition deletePage (id : Z) (s : state) : state :=
  invalidate (deletePageById id s).

(** The handler of [DELETE_BY_URL]: the state afterwards and [count]. *)
Definition deleteByUrl (u : string) (s : state) : state * nat :=
  let toDeletePages := List.filter (fun p => String.eqb (url (snd p)) u) (pages s) in
  let toDelete := map fst toDeletePages in
  let s := fold_left (fun s id => deletePageById id s) toDelete s in
  let s := invalidate s in
  let dates := set_of (map (fun p => formatLocalYMD (timestamp (snd p))) toDeletePages) in
  let s := fold_left (fun s d => removeHighlightCache d s) dates s in
  (s, length toDelete).

End Deleting.

(** ** Properties of stage 1 and of deletion *)

Lemma slice_to_prefix {A : Type} (l : list A) (k : Z) :
  exists rest, slice_to l k ++ rest = l.
Proof.
  unfold slice_to. destruct (k <? 0); eexists; apply take_drop.
Qed.

Lemma slice_to_length {A : Type} (l : list A) (k : Z) :
  0 <= k -> length (slice_to l k) = Nat.min (Z.to_nat k) (length l).
Proof.
  intros Hk. unfold slice_to.
  destruct (Z.ltb_spec k 0); [lia|]. apply length_take.
Qed.

Lemma entry_of_id (p : page) (e : entry) : entry_of p = Some e -> e_id e = fst p.
Proof.
  destruct p as [id d]. unfold entry_of.
  destruct (match versions d with Some (v :: vs) => _ | _ => _ end) as [[c|] ts];
    [|discriminate].
  intros [= <-]. reflexivity.
Qed.

Section Stage1Facts.

Variable exp : float -> float.
Variable now : Z.

Lemma topPages_spec (ves : list (Vectors.vec float)) (topN : Z)
    (pages : list page) (ci : option (list entry)) :
  let '(res, ci') := topPagesByCentroid exp now ves topN pages ci in
  let idx := match ci with Some idx => idx | None => omap entry_of pages end in
  (ves <> [] ->
   ci' = Some idx
   /\ (0 <= topN -> length res = Nat.min (Z.to_nat topN) (length idx)))
  /\ (exists rest, res ++ rest ≡ₚ map (score_entry exp now ves) idx)
  /\ (forall r, r ∈ res -> exists e, e ∈ idx /\ s_id r = e_id e)
  /\ (ci = None ->
      forall r, r ∈ res ->
        exists p e, p ∈ pages /\ fst p = s_id r /\ entry_of p = Some e).
Proof.
  unfold topPagesByCentroid.
  destruct ves as [|ve ves]; cbn [nonempty].
  { cbv zeta. split; [congruence|]. split; [eexists; cbn [app]; reflexivity|].
    split; [intros r Hr|intros _ r Hr]; apply elem_of_nil in Hr; contradiction. }
  set (vs := ve :: ves).
  set (idx := match ci with Some idx => idx | None => omap entry_of pages end).
  assert (Hens : ensureCentroidIndex pages ci = (idx, Some idx))
    by (unfold ensureCentroidIndex, idx; destruct ci; reflexivity).
  rewrite Hens. cbv zeta.
  set (sorted := Ask.sort_with (by_weighted) (map (score_entry exp now vs) idx)).
  assert (Hperm : sorted ≡ₚ map (score_entry exp now vs) idx)
    by apply Order.sort_with_Permutation.
  assert (Hlen : length sorted = length idx)
    by (unfold sorted; rewrite Ask.sort_with_length, length_map; reflexivity).
  destruct (slice_to_prefix sorted (Z.min topN (Z.of_nat (length sorted)))) as [rest Hrest].
  assert (Hids : forall r, r ∈ slice_to sorted (Z.min topN (Z.of_nat (length sorted))) ->
                           exists e, e ∈ idx /\ s_id r = e_id e).
  { intros r Hr.
    assert (Hin : r ∈ sorted) by (rewrite <- Hrest; apply elem_of_app; left; exact Hr).
    rewrite Hperm in Hin. apply list_elem_of_fmap in Hin as (e & -> & He).
    exists e. split; [exact He | reflexivity]. }
  split; [|split; [exists rest; rewrite Hrest; exact Hperm|split; [exact Hids|]]].
  - intros _. split; [reflexivity|].
    intros Hn. rewrite slice_to_length by lia. rewrite Hlen. lia.
  - intros -> r Hr. destruct (Hids r Hr) as (e & He & Hid).
    unfold idx in He. apply list_elem_of_omap in He as (p & Hp & Hpe).
    exists p, e. split; [exact Hp|]. split; [|exact Hpe].
    rewrite Hid. symmetry. apply entry_of_id, Hpe.
Qed.


(** X26. Stage 1 works on a cached index. Without a query embedding
    [topPagesByCentroid] answers nothing and builds nothing. Otherwise the
    index is the cached one, or is built from the pages that have a centroid
    and then kept; the answer is a part of the scored index entries, each
    entry at most once, of [min(topN, entries)] pages for [topN >= 0]; and as
    long as the index is cached the answer does not depend on the pages the
    store holds. *)
Theorem topPagesByCentroid_index (ves : list (Vectors.vec float)) (topN : Z)
    (pages pages' : list page) (ci : option (list entry)) :
  topPagesByCentroid exp now [] topN pages ci = ([], ci)
  /\ (let '(res, ci') := topPagesByCentroid exp now ves topN pages ci in
      let idx := match ci with Some idx => idx | None => omap entry_of pages end in
      (ves <> [] ->
       ci' = Some idx
       /\ (0 <= topN -> length res = Nat.min (Z.to_nat topN) (length idx)))
      /\ (exists rest, res ++ rest ≡ₚ map (score_entry exp now ves) idx)
      /\ (forall r, r ∈ res -> exists e, e ∈ idx /\ s_id r = e_id e)
      /\ (ci = None ->
          forall r, r ∈ res ->
            exists p e, p ∈ pages /\ fst p = s_id r /\ entry_of p = Some e))
  /\ (forall idx,
        topPagesByCentroid exp now ves topN pages (Some idx)
        = topPagesByCentroid exp now ves topN pages' (Some idx)).
Proof.
  split; [reflexivity|]. split; [apply topPages_spec | reflexivity].
Qed.

End Stage1Facts.

Lemma set_of_In (l : list string) (d : string) : In d (set_of l) <-> In d l.
Proof.
  unfold set_of.
  assert (H : forall acc, In d (fold_left
                (fun acc d => if existsb (String.eqb d) acc then acc else acc ++ [d]) l acc)
              <-> In d acc \/ In d l).
  { induction l as [|x l IH]; intros acc; cbn [fold_left]; [cbn; tauto|].
    rewrite IH. destruct (existsb (String.eqb x) acc) eqn:Hx.
    - apply existsb_exists in Hx as (y & Hy & Heq). apply String.eqb_eq in Heq. subst y.
      cbn [In]. split; [tauto|]. intros [H|[<-|H]]; auto.
    - rewrite in_app_iff. cbn [In]. tauto. }
  rewrite H. cbn [In]. tauto.
Qed.

(** Two records of a store with unique keys that have the same key. *)
Lemma same_key (l : list page) (p q : page) :
  NoDup (map fst l) -> In p l -> In q l -> fst p = fst q -> p = q.
Proof.
  induction l as [|x l IH]; intros Hnd Hp Hq Hk; [destruct Hp|].
  cbn [map] in Hnd. apply NoDup_cons in Hnd as [Hx Hnd].
  destruct Hp as [->|Hp], Hq as [->|Hq].
  - reflexivity.
  - exfalso. apply Hx. rewrite Hk. apply list_elem_of_In, in_map, Hq.
  - exfalso. apply Hx. rewrite <- Hk. apply list_elem_of_In, in_map, Hp.
  - apply IH; assumption.
Qed.

Section DeletingFacts.

Variable formatLocalYMD : Z -> string.

Lemma deletePageById_spec (id : Z) (s : state) :
  pages (deletePageById formatLocalYMD id s)
  = List.filter (fun p => negb (fst p =? id)) (pages s)
  /\ centroidIndex (deletePageById formatLocalYMD id s) = centroidIndex s
  /\ forall d, In d (highlights (deletePageById formatLocalYMD id s)) -> In d (highlights s).
Proof.
  unfold deletePageById. cbv zeta.
  destruct (List.find (fun p => fst p =? id) (pages s)) as [[i d]|]; [|cbn; auto].
  destruct (timestamp d =? 0); [cbn; auto|].
  cbn [removeHighlightCache pages centroidIndex highlights].
  split; [reflexivity|]. split; [reflexivity|].
  intros x Hx. apply filter_In in Hx. tauto.
Qed.

Lemma delete_all_spec (ids : list Z) (s : state) :
  pages (fold_left (fun s id => deletePageById formatLocalYMD id s) ids s)
  = List.filter (fun p => negb (existsb (Z.eqb (fst p)) ids)) (pages s)
  /\ centroidIndex (fold_left (fun s id => deletePageById formatLocalYMD id s) ids s)
     = centroidIndex s
  /\ forall d, In d (highlights (fold_left (fun s id => deletePageById formatLocalYMD id s) ids s))
               -> In d (highlights s).
Proof.
  revert s. induction ids as [|id ids IH]; intros s; cbn [fold_left].
  - split; [|auto].
    assert (Hall : forall l : list page,
              List.filter (fun p => negb (existsb (Z.eqb (fst p)) [])) l = l).
    { induction l as [|p l IHl]; [reflexivity|]. cbn. f_equal. exact IHl. }
    symmetry. apply Hall.
  - destruct (IH (deletePageById formatLocalYMD id s)) as (Hp & Hc & Hh).
    destruct (deletePageById_spec id s) as (Hp1 & Hc1 & Hh1).
    rewrite Hp, Hc, Hp1, Hc1. split; [|split; [reflexivity|auto]].
    clear. induction (pages s) as [|p l IHl]; [reflexivity|].
    cbn [List.filter existsb].
    destruct (fst p =? id) eqn:He; cbn [negb orb].
    + exact IHl.
    + cbn [List.filter]. destruct (existsb (Z.eqb (fst p)) ids); cbn [negb];
        [exact IHl | f_equal; exact IHl].
Qed.

Lemma remove_dates_spec (dates : list string) (s : state) :
  pages (fold_left (fun s d => removeHighlightCache d s) dates s) = pages s
  /\ centroidIndex (fold_left (fun s d => removeHighlightCache d s) dates s) = centroidIndex s
  /\ forall d, In d (highlights (fold_left (fun s d => removeHighlightCache d s) dates s))
               <-> In d (highlights s) /\ ~ In d dates.
Proof.
  revert s. induction dates as [|x dates IH]; intros s; cbn [fold_left].
  - split; [reflexivity|]. split; [reflexivity|]. cbn [In]. tauto.
  - destruct (IH (removeHighlightCache x s)) as (Hp & Hc & Hh).
    rewrite Hp, Hc. split; [reflexivity|]. split; [reflexivity|].
    intros d. rewrite Hh. cbn [removeHighlightCache highlights In].
    rewrite filter_In, negb_true_iff, String.eqb_neq.
    split; [intros [[H1 H2] H3]|intros [H1 H2]]; repeat split; auto.
    intros [->|H]; auto.
Qed.

(** Deleting by a URL that no page has changes nothing. *)
Lemma deleteByUrl_nothing (u : string) (s : state) :
  centroidIndex s = None ->
  (forall p, In p (pages s) -> url (snd p) <> u) ->
  deleteByUrl formatLocalYMD u s = (s, 0%nat).
Proof.
  intros Hc Hp. unfold deleteByUrl.
  assert (Hf : List.filter (fun p => String.eqb (url (snd p)) u) (pages s) = []).
  { induction (pages s) as [|p l IH]; [reflexivity|].
    cbn [List.filter].
    rewrite (proj2 (String.eqb_neq _ _) (Hp p (or_introl eq_refl))).
    apply IH. intros q Hq. apply Hp. right. exact Hq. }
  rewrite Hf. cbn. unfold invalidate. destruct s as [ps ci hs]. cbn in Hc. subst ci.
  reflexivity.
Qed.

(** X27. [DELETE_BY_URL] on a store with unique keys deletes exactly the
    pages saved under that very URL: the others stay, in order, whatever
    their canonical URL; [count] is the number of pages deleted. The centroid
    index is invalidated, so the next stage 1 finds none of the deleted
    pages, and the cached highlight of each of their days is removed. A
    second request deletes nothing. *)
Theorem deleteByUrl_removes (u : string) (s : state)
    (Hkeys : NoDup (map fst (pages s))) :
  let '(s', count) := deleteByUrl formatLocalYMD u s in
  pages s' = List.filter (fun p => negb (String.eqb (url (snd p)) u)) (pages s)
  /\ count = length (List.filter (fun p => String.eqb (url (snd p)) u) (pages s))
  /\ (length (pages s') + count = length (pages s))%nat
  /\ centroidIndex s' = None
  /\ (forall p, In p (pages s) -> url (snd p) = u ->
                ~ In (formatLocalYMD (timestamp (snd p))) (highlights s'))
  /\ (forall d, In d (highlights s') -> In d (highlights s))
  /\ (forall exp now ves topN r,
        r ∈ fst (topPagesByCentroid exp now ves topN (pages s') (centroidIndex s')) ->
        exists p, In p (pages s) /\ fst p = s_id r /\ url (snd p) <> u)
  /\ deleteByUrl formatLocalYMD u s' = (s', 0%nat).
Proof.
  unfold deleteByUrl. cbv zeta.
  set (gone := List.filter (fun p => String.eqb (url (snd p)) u) (pages s)).
  set (s1 := fold_left (fun s id => deletePageById formatLocalYMD id s) (map fst gone) s).
  set (dates := set_of (map (fun p => formatLocalYMD (timestamp (snd p))) gone)).
  set (s' := fold_left (fun s d => removeHighlightCache d s) dates (invalidate s1)).
  destruct (delete_all_spec (map fst gone) s) as (Hp1 & Hc1 & Hh1). fold s1 in Hp1, Hc1, Hh1.
  destruct (remove_dates_spec dates (invalidate s1)) as (Hp2 & Hc2 & Hh2).
  fold s' in Hp2, Hc2, Hh2. cbn [invalidate pages centroidIndex highlights] in Hp2, Hc2, Hh2.
  assert (Hpages : pages s'
                   = List.filter (fun p => negb (String.eqb (url (snd p)) u)) (pages s)).
  { rewrite Hp2, Hp1. apply filter_ext_in. intros p Hp. f_equal.
    destruct (String.eqb (url (snd p)) u) eqn:Hu.
    - apply existsb_exists. exists (fst p). split; [|apply Z.eqb_refl].
      apply in_map. apply filter_In. split; assumption.
    - destruct (existsb _ _) eqn:Hex; [|reflexivity].
      apply existsb_exists in Hex as (i & Hi & Heq). apply Z.eqb_eq in Heq.
      apply in_map_iff in Hi as (q & <- & Hq). apply filter_In in Hq as [Hq Hqu].
      rewrite (same_key (pages s) p q Hkeys Hp Hq Heq) in Hu. congruence. }
  assert (Hlen : (length (pages s') + length gone = length (pages s))%nat).
  { rewrite Hpages. unfold gone. clear.
    induction (pages s) as [|p l IH]; [reflexivity|].
    cbn [List.filter]. destruct (String.eqb (url (snd p)) u); cbn [negb length]; lia. }
  assert (Hleft : forall p, In p (pages s') -> In p (pages s) /\ url (snd p) <> u).
  { intros p Hp. rewrite Hpages in Hp. apply filter_In in Hp as [Hp Hu].
    split; [exact Hp|]. apply negb_true_iff, String.eqb_neq in Hu. exact Hu. }
  split; [exact Hpages|]. split; [apply length_map|].
  split; [rewrite length_map; exact Hlen|]. split; [exact Hc2|].
  split; [|split; [|split]].
  - intros p Hp Hu Hin. apply Hh2 in Hin as [_ Hnot]. apply Hnot.
    unfold dates. apply set_of_In.
    apply (in_map (fun p => formatLocalYMD (timestamp (snd p)))).
    apply filter_In. split; [exact Hp|]. apply String.eqb_eq. exact Hu.
  - intros d Hd. apply Hh2 in Hd as [Hd _]. apply Hh1. exact Hd.
  - intros exp now ves topN r Hr. rewrite Hc2 in Hr.
    pose proof (topPages_spec exp now ves topN (pages s') None) as Htop.
    destruct (topPagesByCentroid exp now ves topN (pages s') None) as [res ci'].
    cbv zeta in Htop. destruct Htop as (_ & _ & _ & Hfresh).
    destruct (Hfresh eq_refl r Hr) as (p & e & Hp & Hid & _).
    apply list_elem_of_In in Hp. destruct (Hleft p Hp) as [Hp' Hu].
    exists p. auto.
  - apply deleteByUrl_nothing; [exact Hc2|]. intros p Hp. apply (Hleft p Hp).
Qed.

End DeletingFacts.

(** A store of two pages, one of them saved under the URL to delete. *)
Definition example_store : state :=
  State [(1, Doc None "https://a.example/" (js "A") 5 None None None None "a"%string);
         (2, Doc None "https://b.example/" (js "B") 6 None None None None "b"%string)]
        None ["day"%string].

Lemma deleteByUrl_removes_witness :
  NoDup (map fst (pages example_store))
  /\ (let '(s', count) := deleteByUrl (fun _ => "day"%string) "https://a.example/" example_store in
      pages s'
      = List.filter (fun p => negb (String.eqb (url (snd p)) "https://a.example/"))
          (pages example_store)).
Proof.
  assert (Hkeys : NoDup (map fst (pages example_store))).
  { cbn. apply NoDup_cons. split; [|apply NoDup_singleton].
    intros H. apply list_elem_of_singleton in H. discriminate H. }
  split; [exact Hkeys|].
  pose proof (deleteByUrl_removes (fun _ => "day"%string) "https://a.example/"
                example_store Hkeys) as H.
  destruct (deleteByUrl _ _ example_store) as [s' count].
  exact (proj1 H).
Defined.

(** The page saved under the other URL stays, and the cached day is dropped. *)
Example deleteByUrl_example :
  map fst (pages (fst (deleteByUrl (fun _ => "day"%string) "https://a.example/" example_store)))
  = [2]
  /\ highlights (fst (deleteByUrl (fun _ => "day"%string) "https://a.example/" example_store))
     = [].
Proof. vm_compute. split; reflexivity. Qed.

End Pages.

(** * The side panel: escaping and highlighting a snippet
      (src/unnamed/part_001) *)

Module Panel.

(** The replacement of one code unit by [escapeHtml]. *)
Definition escape_unit (c : N) : jsstring :=
  if (c =? 38)%N then js "&amp;"
  else if (c =? 60)%N then js "&lt;"
  else if (c =? 62)%N then js "&gt;"
  else [c].

(** [escapeHtml(s)]: [(s||'').replace(/[&<>]/g, ...)] *)
Definition escapeHtml (s : jsstring) : jsstring := flat_map escape_unit s.

Section Highlight.

(** The case folding of a regular expression with the flag [i] (and
    without [u]), which works code unit by code unit. *)
Variable canonicalize : N -> N.

(** The expression [new RegExp(escapeRegex(q), 'ig')] matches the code units
    of [q] literally, up to case: [matches_at q s] tells whether it matches
    at the start of [s]. *)
Fixpoint matches_at (q s : jsstring) : bool :=
  match q, s with
  | [], _ => true
  | c :: q', d :: s' => (canonicalize c =? canonicalize d)%N && matches_at q' s'
  | _ :: _, [] => false
  end.

(** [esc.replace(re, m => `<mark>${m}</mark>`)] for a non-empty [q]: the
    matches are taken from left to right, each search starting where the
    last match ended. [n] bounds the code units still to read. *)
Fixpoint mark_matches (q : jsstring) (n : nat) (s : jsstring) : jsstring :=
  match n with
  | O => s
  | S n' =>
      if matches_at q s then
        js "<mark>" ++ take (length q) s ++ js "</mark>"
        ++ mark_matches q n' (drop (length q) s)
      else
        match s with
        | [] => []
        | c :: s' => c :: mark_matches q n' s'
        end
  end.

(** [highlightPhrase(text, phrase)]. The expression is built of escaped
    code units only, so [new RegExp] does not throw. *)
Definition highlightPhrase (text phrase : jsstring) : jsstring :=
  let esc := escapeHtml text in
  let q := Text.trim phrase in
  if nonempty q then mark_matches q (length esc) esc else esc.

End Highlight.

(** ** Properties of escaping and highlighting *)

(** No [<] and no [>]. *)
Definition no_angle (s : jsstring) : Prop :=
  Forall (fun c => c <> 60%N /\ c <> 62%N) s.

(** A piece of a highlighted text: marked or plain. *)
Definition render (piece : bool * jsstring) : jsstring :=
  if fst piece then js "<mark>" ++ snd piece ++ js "</mark>" else snd piece.

Lemma escape_unit_no_angle (c : N) : no_angle (escape_unit c).
Proof.
  unfold escape_unit, no_angle.
  destruct (N.eqb_spec c 38); [repeat constructor; discriminate|].
  destruct (N.eqb_spec c 60); [repeat constructor; discriminate|].
  destruct (N.eqb_spec c 62); [repeat constructor; discriminate|].
  repeat constructor; assumption.
Qed.

Lemma escapeHtml_no_angle (s : jsstring) : no_angle (escapeHtml s).
Proof.
  induction s as [|c s IH]; [constructor|].
  change (escapeHtml (c :: s)) with (escape_unit c ++ escapeHtml s).
  apply Forall_app. split; [apply escape_unit_no_angle | exact IH].
Qed.

Lemma escape_unit_cases (c : N) :
  (c = 38%N /\ escape_unit c = [38; 97; 109; 112; 59]%N)
  \/ (c = 60%N /\ escape_unit c = [38; 108; 116; 59]%N)
  \/ (c = 62%N /\ escape_unit c = [38; 103; 116; 59]%N)
  \/ (c <> 38%N /\ c <> 60%N /\ c <> 62%N /\ escape_unit c = [c]).
Proof.
  unfold escape_unit.
  destruct (N.eqb_spec c 38); [left; split; [assumption | reflexivity]|].
  destruct (N.eqb_spec c 60); [right; left; split; [assumption | reflexivity]|].
  destruct (N.eqb_spec c 62); [right; right; left; split; [assumption | reflexivity]|].
  right. right. right. repeat split; assumption.
Qed.

Lemma escapeHtml_cons (c : N) (s : jsstring) :
  escapeHtml (c :: s) = escape_unit c ++ escapeHtml s.
Proof. reflexivity. Qed.

Lemma escapeHtml_injective (s t : jsstring) : escapeHtml s = escapeHtml t -> s = t.
Proof.
  revert t. induction s as [|c s IH]; intros [|d t] H.
  - reflexivity.
  - exfalso. rewrite escapeHtml_cons in H.
    destruct (escape_unit_cases d) as [[_ E]|[[_ E]|[[_ E]|(_ & _ & _ & E)]]];
      rewrite E in H; discriminate H.
  - exfalso. rewrite escapeHtml_cons in H.
    destruct (escape_unit_cases c) as [[_ E]|[[_ E]|[[_ E]|(_ & _ & _ & E)]]];
      rewrite E in H; discriminate H.
  - rewrite !escapeHtml_cons in H.
    destruct (escape_unit_cases c) as [[Hc E]|[[Hc E]|[[Hc E]|(Hc1 & Hc2 & Hc3 & E)]]];
      destruct (escape_unit_cases d) as [[Hd E']|[[Hd E']|[[Hd E']|(Hd1 & Hd2 & Hd3 & E')]]];
      rewrite E, E' in H; cbn [app] in H;
      first
        [ discriminate H
        | injection H as H; rewrite Hc, Hd; f_equal; apply IH; exact H
        | injection H as Hh H; congruence
        | injection H as Hh H; rewrite Hh; f_equal; apply IH; exact H ].
Qed.

Section HighlightFacts.

Variable canonicalize : N -> N.

Lemma matches_at_spec (q s : jsstring) :
  matches_at canonicalize q s = true ->
  map canonicalize (take (length q) s) = map canonicalize q
  /\ (length q <= length s)%nat.
Proof.
  revert s. induction q as [|c q IH]; intros s H; [split; [reflexivity|cbn; lia]|].
  destruct s as [|d s]; [discriminate|].
  cbn [matches_at] in H. apply andb_true_iff in H as [Hc H].
  apply N.eqb_eq in Hc. destruct (IH s H) as [Hm Hl].
  cbn [length take map]. rewrite Hm, Hc. split; [reflexivity | lia].
Qed.

(** The marked text is the text with some of its parts wrapped. *)
Lemma mark_matches_pieces (q : jsstring) (n : nat) (s : jsstring) :
  q <> [] -> (length s <= n)%nat -> no_angle s ->
  exists pieces,
    mark_matches canonicalize q n s = concat (map render pieces)
    /\ concat (map snd pieces) = s
    /\ Forall (fun p => no_angle (snd p)
                        /\ (fst p = true ->
                            map canonicalize (snd p) = map canonicalize q)) pieces.
Proof.
  intros Hq. revert s. induction n as [|n IH]; intros s Hlen Hs.
  - destruct s; [|cbn in Hlen; lia]. exists []. repeat split. constructor.
  - cbn [mark_matches]. destruct (matches_at canonicalize q s) eqn:Hm.
    + destruct (matches_at_spec q s Hm) as [Hcan Hle].
      assert (Hpos : (0 < length q)%nat) by (destruct q; [congruence | cbn; lia]).
      destruct (IH (drop (length q) s)) as (pieces & Hout & Hcat & Hall).
      { rewrite length_drop. lia. }
      { apply Forall_drop, Hs. }
      exists ((true, take (length q) s) :: pieces).
      split; [|split].
      * cbn [map concat render fst snd]. rewrite Hout, <- !app_assoc. reflexivity.
      * cbn [map concat snd]. rewrite Hcat. apply take_drop.
      * constructor; [|exact Hall]. cbn [fst snd].
        split; [apply Forall_take, Hs | intros _; exact Hcan].
    + destruct s as [|c s]; [exists []; repeat split; constructor|].
      apply Forall_cons in Hs as [Hc Hs].
      destruct (IH s) as (pieces & Hout & Hcat & Hall); [cbn in Hlen; lia | exact Hs |].
      exists ((false, [c]) :: pieces).
      split; [|split].
      * cbn [map concat render fst snd app]. rewrite Hout. reflexivity.
      * cbn [map concat snd app]. rewrite Hcat. reflexivity.
      * constructor; [|exact Hall]. cbn [fst snd].
        split; [repeat constructor; apply Hc | discriminate].
Qed.

(** X28. What the panel writes into a result is escaped: [escapeHtml]
    leaves no [<] and no [>] and loses nothing (different texts stay
    different), and [highlightPhrase] returns the escaped text with some of
    its parts wrapped in [<mark>] tags, each wrapped part reading as the
    trimmed phrase up to case and holding no [<] or [>]; a blank phrase
    wraps nothing. *)
Theorem highlightPhrase_only_marks (text phrase : jsstring) :
  no_angle (escapeHtml text)
  /\ (forall s t, escapeHtml s = escapeHtml t -> s = t)
  /\ (nonempty (Text.trim phrase) = false ->
      highlightPhrase canonicalize text phrase = escapeHtml text)
  /\ exists pieces,
       highlightPhrase canonicalize text phrase = concat (map render pieces)
       /\ concat (map snd pieces) = escapeHtml text
       /\ Forall (fun p => no_angle (snd p)
                           /\ (fst p = true ->
                               map canonicalize (snd p)
                               = map canonicalize (Text.trim phrase))) pieces.
Proof.
  split; [apply escapeHtml_no_angle|]. split; [apply escapeHtml_injective|].
  unfold highlightPhrase. cbv zeta.
  destruct (nonempty (Text.trim phrase)) eqn:Hq.
  - split; [discriminate|].
    apply mark_matches_pieces;
      [destruct (Text.trim phrase); [discriminate Hq | discriminate]
      | reflexivity | apply escapeHtml_no_angle].
  - split; [reflexivity|].
    exists [(false, escapeHtml text)]. cbn [map concat render fst snd].
    rewrite app_nil_r. split; [reflexivity|]. split; [reflexivity|].
    constructor; [|constructor]. cbn [fst snd].
    split; [apply escapeHtml_no_angle | discriminate].
Qed.

End HighlightFacts.

(** A phrase can match inside an entity of the escaped text, so that the
    mark splits it. *)
Example highlightPhrase_splits_entity :
  highlightPhrase (fun c => c) (js "a&b") (js "amp") = js "a&<mark>amp</mark>;b".
Proof. vm_compute. reflexivity. Qed.

End Panel.

(** * The days of the highlights dashboard: LIST_HIGHLIGHT_DATES
      (src/background.js) *)

Module Highlights.

(** [counts.set(d, (counts.get(d) || 0) + 1)] on a [Map], whose entries keep
    the order in which their keys were first set. *)
Fixpoint bump (d : jsstring) (counts : list (jsstring * nat)) : list (jsstring * nat) :=
  match counts with
  | [] => [(d, 1%nat)]
  | (k, n) :: r => if bool_decide (k = d) then (k, S n) :: r else (k, n) :: bump d r
  end.

(** [a < b] on strings: by code units. *)
Fixpoint js_lt (a b : jsstring) : bool :=
  match a, b with
  | _, [] => false
  | [], _ :: _ => true
  | x :: a', y :: b' => (x <? y)%N || ((x =? y)%N && js_lt a' b')
  end.

(** The request: [from] and [to] are [None] when they are missing or empty;
    [offset] and [limit] are read through [| 0] (0 when missing). *)
Record request := Request {
  r_from : option jsstring;
  r_to : option jsstring;
  r_offset : Z;
  r_limit : Z
}.

Section Dates.

(** [formatLocalYMD] in the time zone of the browser, and [localeCompare]. *)
Variable formatLocalYMD : Z -> jsstring.
Variable localeCompare : jsstring -> jsstring -> float.

(** The loop over the pages. *)
Definition day_counts (pages : list doc) : list (jsstring * nat) :=
  fold_left (fun counts p => bump (formatLocalYMD (timestamp p)) counts) pages [].

Definition used_offset (req : request) : Z :=
  Z.max 0 (Text.to_int32 (r_offset req)).

Definition used_limit (req : request) : Z :=
  let l := Text.to_int32 (r_limit req) in
  Z.max 1 (Z.min 1000 (if l =? 0 then 30 else l)).

(** The days in range, latest first. *)
Definition days_in_range (req : request) (pages : list doc) : list (jsstring * nat) :=
  let dates := Ask.sort_with (fun a b => localeCompare (fst b) (fst a)) (day_counts pages) in
  let dates := match r_from req with
               | Some from => List.filter (fun x => negb (js_lt (fst x) from)) dates
               | None => dates
               end in
  match r_to req with
  | Some to => List.filter (fun x => negb (js_lt to (fst x))) dates
  | None => dates
  end.

(** The handler of [LIST_HIGHLIGHT_DATES]: [dates] and [total]. *)
Definition listHighlightDates (req : request) (pages : list doc)
    : list (jsstring * nat) * nat :=
  let dates := days_in_range req pages in
  (take (Z.to_nat (used_limit req)) (drop (Z.to_nat (used_offset req)) dates),
   length dates).

End Dates.

(** ** Properties of the list of days *)

(** The sum of the counts. *)
Definition total_count (counts : list (jsstring * nat)) : nat :=
  fold_right (fun x acc => (snd x + acc)%nat) 0%nat counts.

Lemma bump_cons (d k : jsstring) (n : nat) (r : list (jsstring * nat)) :
  bump d ((k, n) :: r) = if bool_decide (k = d) then (k, S n) :: r else (k, n) :: bump d r.
Proof. reflexivity. Qed.

Lemma bump_keys (d : jsstring) (counts : list (jsstring * nat)) :
  map fst (bump d counts)
  = if bool_decide (d ∈ map fst counts) then map fst counts else map fst counts ++ [d].
Proof.
  induction counts as [|[k n] r IH]; [reflexivity|].
  rewrite bump_cons. cbn [map fst]. destruct (decide (k = d)) as [->|Hk].
  - rewrite (bool_decide_eq_true_2 (d = d)) by reflexivity.
    rewrite bool_decide_eq_true_2 by apply list_elem_of_here. reflexivity.
  - rewrite (bool_decide_eq_false_2 (k = d)) by exact Hk.
    cbn [map fst]. rewrite IH. destruct (decide (d ∈ map fst r)) as [Hd|Hd].
    + rewrite (bool_decide_eq_true_2 (d ∈ map fst r)) by exact Hd.
      rewrite bool_decide_eq_true_2 by (apply list_elem_of_further; exact Hd). reflexivity.
    + rewrite (bool_decide_eq_false_2 (d ∈ map fst r)) by exact Hd.
      rewrite bool_decide_eq_false_2; [reflexivity|].
      intros Hin. apply elem_of_cons in Hin as [->|Hin]; [apply Hk; reflexivity | auto].
Qed.

Lemma bump_total (d : jsstring) (counts : list (jsstring * nat)) :
  total_count (bump d counts) = S (total_count counts).
Proof.
  induction counts as [|[k n] r IH]; [reflexivity|].
  rewrite bump_cons. unfold total_count in *.
  destruct (bool_decide (k = d)); cbn [fold_right snd]; lia.
Qed.

Lemma bump_elem (d k : jsstring) (n : nat) (counts : list (jsstring * nat)) :
  NoDup (map fst counts) -> (k, n) ∈ bump d counts ->
  (k <> d /\ (k, n) ∈ counts)
  \/ (k = d /\ exists m, n = S m /\ ((d, m) ∈ counts \/ (m = 0%nat /\ d ∉ map fst counts))).
Proof.
  induction counts as [|[k0 n0] r IH]; intros Hnd Hin.
  - apply list_elem_of_singleton in Hin. injection Hin as -> ->.
    right. split; [reflexivity|]. exists 0%nat. split; [reflexivity|].
    right. split; [reflexivity | apply not_elem_of_nil].
  - cbn [map fst] in Hnd. apply NoDup_cons in Hnd as [Hk0 Hnd].
    rewrite bump_cons in Hin. destruct (decide (k0 = d)) as [->|Hk].
    + rewrite bool_decide_eq_true_2 in Hin by reflexivity.
      apply elem_of_cons in Hin as [Hin|Hin].
      * injection Hin as -> ->. right. split; [reflexivity|].
        exists n0. split; [reflexivity|]. left. apply list_elem_of_here.
      * left. split; [|apply list_elem_of_further; exact Hin].
        intros ->. apply Hk0. apply (list_elem_of_fmap_2 fst) in Hin. exact Hin.
    + rewrite bool_decide_eq_false_2 in Hin by exact Hk.
      apply elem_of_cons in Hin as [Hin|Hin].
      * injection Hin as -> ->. left. split; [exact Hk | apply list_elem_of_here].
      * destruct (IH Hnd Hin) as [[Hne Hr]|[-> (m & -> & Hm)]].
        -- left. split; [exact Hne | apply list_elem_of_further; exact Hr].
        -- right. split; [reflexivity|]. exists m. split; [reflexivity|].
           destruct Hm as [Hm|[-> Hm]].
           ++ left. apply list_elem_of_further. exact Hm.
           ++ right. split; [reflexivity|]. cbn [map fst].
              apply not_elem_of_cons. split; [congruence | exact Hm].
Qed.

Lemma filter_sublist {A : Type} (f : A -> bool) (l : list A) :
  List.filter f l `sublist_of` l.
Proof.
  induction l as [|x l IH]; [constructor|].
  cbn [List.filter]. destruct (f x); [apply sublist_skip | apply sublist_cons]; exact IH.
Qed.

Section DatesFacts.

Variable formatLocalYMD : Z -> jsstring.
Variable localeCompare : jsstring -> jsstring -> float.

(** The number of pages of a day. *)
Definition pages_of_day (d : jsstring) (pages : list doc) : nat :=
  length (List.filter (fun p => bool_decide (formatLocalYMD (timestamp p) = d)) pages).

Lemma pages_of_day_snoc (d : jsstring) (pages : list doc) (p : doc) :
  pages_of_day d (pages ++ [p])
  = (pages_of_day d pages
     + if bool_decide (formatLocalYMD (timestamp p) = d) then 1 else 0)%nat.
Proof.
  unfold pages_of_day. rewrite List.filter_app, length_app. cbn [List.filter].
  destruct (bool_decide _); reflexivity.
Qed.

Lemma day_counts_spec (pages : list doc) :
  NoDup (map fst (day_counts formatLocalYMD pages))
  /\ (forall d n, (d, n) ∈ day_counts formatLocalYMD pages ->
                  (1 <= n)%nat /\ n = pages_of_day d pages)
  /\ (forall d, d ∉ map fst (day_counts formatLocalYMD pages) -> pages_of_day d pages = 0%nat)
  /\ total_count (day_counts formatLocalYMD pages) = length pages.
Proof.
  induction pages as [|p pages IH] using rev_ind.
  - split; [apply NoDup_nil_2|]. split; [|split; [reflexivity | reflexivity]].
    intros d n Hin. apply elem_of_nil in Hin. contradiction.
  - destruct IH as (Hnd & Hent & Hmiss & Htot).
    unfold day_counts in *. rewrite fold_left_app. cbn [fold_left].
    set (counts := fold_left _ pages []) in *.
    set (day := formatLocalYMD (timestamp p)).
    split; [|split; [|split]].
    + rewrite bump_keys. destruct (bool_decide (day ∈ map fst counts)) eqn:Hd; [exact Hnd|].
      apply bool_decide_eq_false_1 in Hd.
      apply NoDup_app. split; [exact Hnd|]. split; [|apply NoDup_singleton].
      intros x Hx Hx'. apply list_elem_of_singleton in Hx'. subst x. contradiction.
    + intros d n Hin. rewrite pages_of_day_snoc. fold day.
      destruct (bump_elem day d n counts Hnd Hin) as [[Hne Hr]|[-> (m & -> & Hm)]].
      * destruct (Hent d n Hr) as [H1 H2].
        rewrite bool_decide_eq_false_2 by congruence. split; [exact H1 | lia].
      * rewrite bool_decide_eq_true_2 by reflexivity. split; [lia|].
        destruct Hm as [Hm|[-> Hm]].
        -- destruct (Hent day m Hm) as [_ H2]. lia.
        -- rewrite (Hmiss day Hm). reflexivity.
    + intros d Hd. rewrite pages_of_day_snoc. fold day.
      rewrite bump_keys in Hd.
      assert (Hd' : (d ∉ map fst counts) /\ d <> day).
      { destruct (bool_decide (day ∈ map fst counts)) eqn:Hin;
          [apply bool_decide_eq_true_1 in Hin | apply bool_decide_eq_false_1 in Hin].
        - split; [exact Hd|]. intros ->. contradiction.
        - split; [intros H; apply Hd, elem_of_app; left; exact H|].
          intros ->. apply Hd, elem_of_app. right. apply list_elem_of_here. }
      destruct Hd' as [Hd1 Hd2].
      rewrite (Hmiss d Hd1). rewrite bool_decide_eq_false_2 by congruence. reflexivity.
    + rewrite bump_total, Htot, length_app. cbn. lia.
Qed.

Lemma total_count_length (counts : list (jsstring * nat)) :
  Forall (fun x => (1 <= snd x)%nat) counts -> (length counts <= total_count counts)%nat.
Proof.
  induction 1 as [|x l Hx Hl IH]; [reflexivity|].
  unfold total_count in *. cbn [length fold_right]. lia.
Qed.

Lemma total_count_Permutation (l k : list (jsstring * nat)) :
  l ≡ₚ k -> total_count l = total_count k.
Proof.
  unfold total_count.
  induction 1 as [|x l k _ IH|x y l|l k m _ IH1 _ IH2]; cbn [fold_right]; lia.
Qed.

(** The days in range are days of the store, in range, each once. *)
Lemma days_in_range_spec (req : request) (pages : list doc) :
  exists sorted,
    sorted ≡ₚ day_counts formatLocalYMD pages
    /\ days_in_range formatLocalYMD localeCompare req pages `sublist_of` sorted
    /\ (r_from req = None -> r_to req = None ->
        days_in_range formatLocalYMD localeCompare req pages = sorted)
    /\ forall x, x ∈ days_in_range formatLocalYMD localeCompare req pages ->
         match r_from req with Some from => js_lt (fst x) from = false | None => True end
         /\ match r_to req with Some to => js_lt to (fst x) = false | None => True end.
Proof.
  unfold days_in_range. cbv zeta.
  set (sorted := Ask.sort_with _ (day_counts formatLocalYMD pages)).
  exists sorted. split; [apply Order.sort_with_Permutation|].
  destruct (r_from req) as [from|], (r_to req) as [to|].
  - split; [|split; [discriminate|]].
    + etransitivity; apply filter_sublist.
    + intros x Hx. apply list_elem_of_In, filter_In in Hx as [Hx Hto].
      apply filter_In in Hx as [_ Hfrom].
      apply negb_true_iff in Hto, Hfrom. auto.
  - split; [apply filter_sublist|]. split; [discriminate|].
    intros x Hx. apply list_elem_of_In, filter_In in Hx as [_ Hfrom].
    apply negb_true_iff in Hfrom. auto.
  - split; [apply filter_sublist|]. split; [discriminate|].
    intros x Hx. apply list_elem_of_In, filter_In in Hx as [_ Hto].
    apply negb_true_iff in Hto. auto.
  - split; [reflexivity|]. split; [reflexivity | auto].
Qed.

(** X29. The highlights dashboard lists each day once, with the number of
    pages saved on that day (at least one), and only days within [from] and
    [to]. A reply holds at most [limit] days, which is 30 when none is given
    and never above 1000, and at most [total], the number of days in range,
    which is at most the number of pages. The counts of all days add up to
    the number of pages. *)
Theorem highlight_dates_counts (req : request) (pages : list doc) :
  let '(dates, total) := listHighlightDates formatLocalYMD localeCompare req pages in
  1 <= used_limit req <= 1000
  /\ (Text.to_int32 (r_limit req) = 0 -> used_limit req = 30)
  /\ (length dates <= Z.to_nat (used_limit req))%nat
  /\ (length dates <= total)%nat
  /\ (total <= length pages)%nat
  /\ NoDup (map fst dates)
  /\ (forall d n, (d, n) ∈ dates ->
        (1 <= n)%nat
        /\ n = pages_of_day d pages
        /\ match r_from req with Some from => js_lt d from = false | None => True end
        /\ match r_to req with Some to => js_lt to d = false | None => True end)
  /\ (r_from req = None -> r_to req = None ->
      total_count (days_in_range formatLocalYMD localeCompare req pages) = length pages).
Proof.
  unfold listHighlightDates. cbv zeta.
  destruct (day_counts_spec pages) as (Hnd & Hent & _ & Htot).
  destruct (days_in_range_spec req pages) as (sorted & Hperm & Hsub & Hall & Hrange).
  set (days := days_in_range formatLocalYMD localeCompare req pages) in *.
  set (page := take _ (drop _ days)).
  assert (Hpage : page `sublist_of` days).
  { unfold page. etransitivity; [apply sublist_take | apply sublist_drop]. }
  assert (Hin : forall x, x ∈ page -> x ∈ days /\ x ∈ day_counts formatLocalYMD pages).
  { intros x Hx. assert (Hd : x ∈ days) by (eapply elem_of_sublist; eassumption).
    split; [exact Hd|]. rewrite <- Hperm. eapply elem_of_sublist; eassumption. }
  assert (Hlim : 1 <= used_limit req <= 1000).
  { unfold used_limit. cbv zeta. destruct (Text.to_int32 (r_limit req) =? 0); lia. }
  split; [exact Hlim|]. split.
  { intros H0. unfold used_limit. rewrite H0. reflexivity. }
  split; [unfold page; rewrite length_take; lia|].
  split; [apply sublist_length, Hpage|].
  split.
  { transitivity (length sorted); [apply sublist_length, Hsub|].
    rewrite Hperm, <- Htot. apply total_count_length.
    apply Forall_forall. intros [d n] Hx. apply (Hent d n Hx). }
  split.
  { apply (sublist_NoDup _ (map fst sorted)).
    - rewrite Hperm. exact Hnd.
    - apply fmap_sublist. etransitivity; eassumption. }
  split.
  { intros d n Hx. destruct (Hin _ Hx) as [Hd Hc].
    destruct (Hent d n Hc) as [H1 H2]. destruct (Hrange _ Hd) as [H3 H4].
    repeat split; assumption. }
  intros Hf Ht. rewrite (Hall Hf Ht), (total_count_Permutation _ _ Hperm). exact Htot.
Qed.

End DatesFacts.

End Highlights.
